(** * Fast reciprocal square root kernels of cc_executor/proof_of_concept

    A shallow embedding of the approximate 1/sqrt(x) kernels: IEEE-754
    single-precision values are [spec_float]s operated on with the
    standard library's reference operations at precision 24 and maximal
    exponent 128, and 32-bit integers are [Z] with the wrap-around
    written out. *)

From Stdlib Require Import ZArith List Bool Lia Reals Lra Psatz.
From Stdlib Require Import Floats.SpecFloat.
Import ListNotations.

Local Open Scope Z_scope.

(** ** IEEE-754 binary32 *)

Module Binary32.

Definition prec : Z := 24.
Definition emax : Z := 128.

Definition float := spec_float.

Definition fmul (a b : float) : float := SFmul prec emax a b.
Definition fadd (a b : float) : float := SFadd prec emax a b.
Definition fsub (a b : float) : float := SFsub prec emax a b.
Definition fdiv (a b : float) : float := SFdiv prec emax a b.
Definition fsqrt (a : float) : float := SFsqrt prec emax a.
Definition fopp (a : float) : float := SFopp a.

(** Fused multiply-add [a * b + c] with a single rounding
    ([std::fma], [_mm256_fmadd_ps]). *)
Definition ffma (a b c : float) : float :=
  match a, b, c with
  | S754_finite sa ma ea, S754_finite sb mb eb, S754_finite sc mc ec =>
      let ep := ea + eb in
      let ez := Z.min ep ec in
      binary_normalize prec emax
        (cond_Zopp (xorb sa sb) (Zpos (fst (shl_align (ma * mb) ep ez)))
         + cond_Zopp sc (Zpos (fst (shl_align mc ec ez))))
        ez false
  | S754_finite _ _ _, S754_finite _ _ _, S754_zero _ => SFmul prec emax a b
  | S754_finite _ _ _, S754_finite _ _ _, _ => c
  | _, _, _ => SFadd prec emax (SFmul prec emax a b) c
  end.

(** Fused negated multiply-add [-(a * b) + c] ([_mm256_fnmadd_ps]). *)
Definition ffnmadd (a b c : float) : float := ffma (fopp a) b c.

(** C comparison operators on floats: every comparison with a NaN is
    false, and the two zeros compare equal. *)
Definition feq (a b : float) : bool := SFeqb a b.
Definition flt (a b : float) : bool := SFltb a b.
Definition fle (a b : float) : bool := SFleb a b.
Definition fge (a b : float) : bool := SFleb b a.
Definition fgt (a b : float) : bool := SFltb b a.

Definition is_nan (a : float) : bool :=
  match a with S754_nan => true | _ => false end.

(** Reinterpretation of a 32-bit pattern as a float (the read of
    [conv.f] after a write of [conv.i]). *)
Definition of_bits (b : Z) : float :=
  let s := Z.testbit b 31 in
  let e := Z.land (Z.shiftr b 23) 0xFF in
  let m := Z.land b 0x7FFFFF in
  if e =? 0 then
    match m with
    | Zpos p => S754_finite s p (-149)
    | _ => S754_zero s
    end
  else if e =? 255 then
    (if m =? 0 then S754_infinity s else S754_nan)
  else
    match m + 0x800000 with
    | Zpos p => S754_finite s p (e - 150)
    | _ => S754_nan
    end.

Definition sign_bit (s : bool) : Z := if s then 0x80000000 else 0.

(** Reinterpretation of a float as its 32-bit pattern (the read of
    [conv.i] after a write of [conv.f]).  NaN payloads are not tracked:
    every NaN is the default quiet NaN. *)
Definition to_bits (f : float) : Z :=
  match f with
  | S754_zero s => sign_bit s
  | S754_infinity s => sign_bit s + 0x7F800000
  | S754_nan => 0x7FC00000
  | S754_finite s m e =>
      if Zpos m <? 0x800000
      then sign_bit s + Zpos m
      else sign_bit s + Z.shiftl (e + 150) 23 + (Zpos m - 0x800000)
  end.

(** Conversion of an [int] to [float] (round to nearest even). *)
Definition of_int (n : Z) : float := binary_normalize prec emax n 0 false.

(** Conversion of a finite [float] to [int], truncating toward zero. *)
Definition to_int (f : float) : Z :=
  match f with
  | S754_finite s m e =>
      let a := if 0 <=? e then Zpos m * 2 ^ e else Zpos m / 2 ^ (- e) in
      if s then - a else a
  | _ => 0
  end.

End Binary32.

Import Binary32.

(** ** Machine integers *)

(** 32-bit unsigned wrap-around ([uint32_t] arithmetic). *)
Definition wrap32 (z : Z) : Z := z mod 2 ^ 32.

(** A 32-bit pattern read as a signed [int]. *)
Definition signed32 (z : Z) : Z :=
  if wrap32 z <? 2 ^ 31 then wrap32 z else wrap32 z - 2 ^ 32.

(** ** Float literals of the sources, by bit pattern *)

Definition f0_0 : float := S754_zero false.
Definition f0_5 : float := of_bits 0x3F000000.
Definition f1_0 : float := of_bits 0x3F800000.
Definition f1_5 : float := of_bits 0x3FC00000.
Definition f0_0625 : float := of_bits 0x3D800000.
Definition f0_25 : float := of_bits 0x3E800000.
Definition f4_0 : float := of_bits 0x40800000.
Definition f100_0 : float := of_bits 0x42C80000.
Definition f255_0 : float := of_bits 0x437F0000.
Definition f256_0 : float := of_bits 0x43800000.
Definition f1023_0 : float := of_bits 0x447FC000.
Definition f3_5 : float := of_bits 0x40600000.
Definition f3_75 : float := of_bits 0x40700000.
Definition f0_01 : float := of_bits 0x3C23D70A.
Definition f1_5000036 : float := of_bits 0x3FC0001E.
Definition f1_5008908 : float := of_bits 0x3FC01D31.
Definition f1e_4 : float := of_bits 0x38D1B717.
Definition f1e4 : float := of_bits 0x461C4000.

(** ** Scalar kernels without a correction stage *)

(** [std_rsqrt]: [1.0f / sqrtf(x)]. *)
Definition std_rsqrt (x : float) : float := fdiv f1_0 (fsqrt x).

(** [Q_rsqrt] of fast_reciprocal_sqrt_final.cpp, rsqrt_comparison.cpp and
    fast_reciprocal_sqrt_hybrid.cpp (the [union] version). *)
Definition Q_rsqrt (number : float) : float :=
  let x2 := fmul number f0_5 in
  let conv_i := to_bits number in
  let conv_i := wrap32 (0x5f3759df - Z.shiftr conv_i 1) in
  let y := of_bits conv_i in
  let y := fmul y (fsub f1_5 (fmul (fmul x2 y) y)) in
  y.

(** [Q_rsqrt] of fast_inverse_sqrt_baseline.cpp and the SIMD drivers (the
    pointer-cast version on a signed [long]): the four bytes of [y] are
    read as a signed integer, the shift is arithmetic, and the low 32 bits
    of the difference are read back as a float. *)
Definition Q_rsqrt_long (number : float) : float :=
  let x2 := fmul number f0_5 in
  let y := number in
  let i := signed32 (to_bits y) in
  let i := 0x5f3759df - Z.shiftr i 1 in
  let y := of_bits (wrap32 i) in
  let y := fmul y (fsub f1_5 (fmul (fmul x2 y) y)) in
  y.

(** [fastInvSqrt] of accuracy_comparison.cpp. *)
Definition fastInvSqrt (number : float) : float :=
  let x2 := fmul number f0_5 in
  let conv_i := to_bits number in
  let conv_i := wrap32 (0x5f3759df - Z.shiftr conv_i 1) in
  let conv_f := of_bits conv_i in
  let conv_f := fmul conv_f (fsub f1_5 (fmul (fmul x2 conv_f) conv_f)) in
  conv_f.

(** [enhancedInvSqrt] of accuracy_comparison.cpp. *)
Definition enhancedInvSqrt (number : float) : float :=
  let x2 := fmul number f0_5 in
  let conv_i := to_bits number in
  let conv_i := wrap32 (0x5f375a86 - Z.shiftr conv_i 1) in
  let conv_f := of_bits conv_i in
  let conv_f := fmul conv_f (fsub f1_5 (fmul (fmul x2 conv_f) conv_f)) in
  let conv_f := fmul conv_f (fsub f1_5 (fmul (fmul x2 conv_f) conv_f)) in
  conv_f.

(** [optimized_rsqrt] of rsqrt_comparison.cpp. *)
Definition optimized_rsqrt (x : float) : float :=
  let conv_i := to_bits x in
  let conv_i := wrap32 (0x5f375a86 - Z.shiftr conv_i 1) in
  let y := of_bits conv_i in
  let x2 := fmul x f0_5 in
  let y := fmul y (fsub f1_5000036 (fmul (fmul x2 y) y)) in
  let y := fmul y (fsub f1_5 (fmul (fmul x2 y) y)) in
  y.

(** [fast_rsqrt_improved] of final_game_algorithm.cpp (signed [int]). *)
Definition fast_rsqrt_improved (number : float) : float :=
  let x2 := fmul number f0_5 in
  let y := number in
  let i := signed32 (to_bits y) in
  let i := 0x5f375a86 - Z.shiftr i 1 in
  let y := of_bits (wrap32 i) in
  let y := fmul y (fsub f1_5 (fmul (fmul x2 y) y)) in
  let y := fmul y (fsub f1_5 (fmul (fmul x2 y) y)) in
  y.

(** ** The stages shared by the kernels *)

(** The bit-level initial guess, as every [union] kernel writes it:
    [conv.f = x; conv.i = magic - (conv.i >> 1); y = conv.f]. *)
Definition approximate (magic : Z) (x : float) : float :=
  let conv_i := to_bits x in
  let conv_i := wrap32 (magic - Z.shiftr conv_i 1) in
  of_bits conv_i.

(** The same stage as the pointer-cast kernels write it, on a signed
    integer. *)
Definition approximate_signed (magic : Z) (x : float) : float :=
  let i := signed32 (to_bits x) in
  let i := magic - Z.shiftr i 1 in
  of_bits (wrap32 i).

(** One Newton-Raphson update [y * (c - x2 * y * y)] with [x2 = x * 0.5f],
    in the evaluation order of the scalar kernels. *)
Definition newton_update (c x y : float) : float :=
  let x2 := fmul x f0_5 in
  fmul y (fsub c (fmul (fmul x2 y) y)).

(** The refinement stage as the specification words it: the updates with
    the constants [cs], one after the other, starting from [y0]. *)
Fixpoint refine_with (cs : list float) (x y0 : float) : float :=
  match cs with
  | [] => y0
  | c :: rest => refine_with rest x (newton_update c x y0)
  end.

Definition refine (c x y0 : float) (steps : nat) : float :=
  refine_with (repeat c steps) x y0.

(** ** Arrays *)

(** [a[i] = v] on an array held as a list; the sources only store inside
    the bounds. *)
Fixpoint store {A : Type} (a : list A) (i : nat) (v : A) : list A :=
  match a, i with
  | [], _ => []
  | _ :: t, O => v :: t
  | h :: t, S j => h :: store t j v
  end.

(** [for (i = start; i < bound; i += step) s = body i s], run with
    [fuel] iterations at most; [bound - start] is always enough for a
    positive step. *)
Fixpoint loop_lt {S : Type} (fuel : nat) (i bound step : nat)
    (body : nat -> S -> S) (s : S) : S :=
  match fuel with
  | O => s
  | Datatypes.S f =>
      if (i <? bound)%nat
      then loop_lt f (i + step)%nat bound step body (body i s)
      else s
  end.

Definition for_loop {S : Type} (start bound : nat) (body : nat -> S -> S)
    (s : S) : S :=
  loop_lt (bound - start) start bound 1 body s.

(** ** GameEngineFastRSqrt (fast_reciprocal_sqrt_final.cpp) *)

Module GameEngineFastRSqrt.

Definition MAGIC_CONSTANT : Z := 0x5f375a86.
Definition NR_CONSTANT_1 : float := f1_5000036.
Definition NR_CONSTANT_2 : float := f1_5.

Record t := { correction_lut : list float }.

(** Body of the constructor's loop. *)
Definition init_entry (i : nat) (lut : list float) : list float :=
  let x := fadd (fmul f0_0625 (of_int (Z.of_nat i))) f0_25 in
  let exact := fdiv f1_0 (fsqrt x) in
  let approx := Q_rsqrt x in
  store lut i (fdiv exact approx).

(** The constructor; [raw] is the indeterminate content of the 16-entry
    member array before the loop runs. *)
Definition new (raw : list float) : t :=
  {| correction_lut := for_loop 0 16 init_entry raw |}.

Definition compute (self : t) (x : float) : float :=
  let conv_i := to_bits x in
  let conv_i := wrap32 (MAGIC_CONSTANT - Z.shiftr conv_i 1) in
  let y := of_bits conv_i in
  let x2 := fmul x f0_5 in
  let y := fmul y (fsub NR_CONSTANT_1 (fmul (fmul x2 y) y)) in
  let y := fmul y (fsub NR_CONSTANT_2 (fmul (fmul x2 y) y)) in
  y.

Definition vec3 : Type := float * float * float.

Definition normalize_vec3 (self : t) (v : vec3) : vec3 :=
  let '(v0, v1, v2) := v in
  let norm_sq := fadd (fadd (fmul v0 v0) (fmul v1 v1)) (fmul v2 v2) in
  let inv_norm := compute self norm_sq in
  (fmul v0 inv_norm, fmul v1 inv_norm, fmul v2 inv_norm).

End GameEngineFastRSqrt.

(** ** FastRecipSqrt (fast_reciprocal_sqrt_hybrid.cpp) *)

Module FastRecipSqrt.

Definition LUT_SIZE : nat := 256.
Definition MAGIC_CONSTANT : Z := 0x5f375a86.
Definition ITERATION_CONSTANT : float := f1_5008908.

Record t := { lut : list float }.

Definition init_entry (i : nat) (lut : list float) : list float :=
  let mantissa :=
    fadd f1_0 (fdiv (of_int (Z.of_nat i)) (of_int (Z.of_nat LUT_SIZE))) in
  let exact := fdiv f1_0 (fsqrt mantissa) in
  let approx := fdiv f1_0 (fsqrt f1_5) in
  store lut i (fdiv exact approx).

Definition new (raw : list float) : t :=
  {| lut := for_loop 0 LUT_SIZE init_entry raw |}.

Definition compute (self : t) (x : float) : float :=
  let conv_i := to_bits x in
  let mantissa_bits := Z.shiftr (Z.land conv_i 0x007FFFFF) 15 in
  let lut_index := Z.shiftr mantissa_bits 3 in
  let conv_i := wrap32 (MAGIC_CONSTANT - Z.shiftr conv_i 1) in
  let conv_f := of_bits conv_i in
  let y :=
    fmul conv_f
      (nth (Z.to_nat (Z.land lut_index (Z.of_nat LUT_SIZE - 1)))
         (lut self) f0_0) in
  let x2 := fmul x f0_5 in
  let y := fmul y (fsub ITERATION_CONSTANT (fmul (fmul x2 y) y)) in
  y.

End FastRecipSqrt.

(** ** FastRsqrtCache (final_game_algorithm.cpp) *)

Module FastRsqrtCache.

Definition CACHE_SIZE : Z := 1024.
Definition CACHE_MASK : Z := CACHE_SIZE - 1.

Record CacheEntry := { input : float; output : float }.

Definition t : Type := list CacheEntry.

Definition hash (value : float) : Z :=
  let bits := to_bits value in
  Z.land (Z.shiftr bits 10) CACHE_MASK.

(** The constructor: [memset(cache, 0, sizeof(cache))]. *)
Definition new : t :=
  repeat {| input := of_bits 0; output := of_bits 0 |} (Z.to_nat CACHE_SIZE).

Definition empty_entry : CacheEntry :=
  {| input := of_bits 0; output := of_bits 0 |}.

(** [compute]: the returned value and the cache afterwards. *)
Definition compute (cache : t) (number : float) : float * t :=
  let idx := Z.to_nat (hash number) in
  if feq (input (nth idx cache empty_entry)) number then
    (output (nth idx cache empty_entry), cache)
  else
    let result := fast_rsqrt_improved number in
    (result, store cache idx {| input := number; output := result |}).

(** A sequence of calls on one cache, in order. *)
Fixpoint run (cache : t) (calls : list float) : t :=
  match calls with
  | [] => cache
  | x :: rest => run (snd (compute cache x)) rest
  end.

End FastRsqrtCache.

(** ** Vector lanes *)

(** [_mm256_loadu_ps(&a[i])] and its narrower and wider relatives: the
    [w] consecutive lanes starting at index [i]. *)
Definition load_lanes (a : list float) (i w : nat) : list float :=
  firstn w (skipn i a).

(** [_mm256_storeu_ps(&a[i], v)]: the lanes of [v] go to [a[i]],
    [a[i+1]], ... *)
Fixpoint store_lanes (a : list float) (i : nat) (v : list float) : list float :=
  match v with
  | [] => a
  | x :: rest => store_lanes (store a i x) (S i) rest
  end.

(** [count & ~(w - 1)] on a [size_t]. *)
Definition simd_count (count : nat) (w : Z) : nat :=
  Z.to_nat (Z.land (Z.of_nat count) (Z.lnot (w - 1) mod 2 ^ 64)).

(** ** hybrid_vector_rsqrt.cpp *)

Module Hybrid.

Definition MAGIC_SMALL : Z := 0x5f375a86.
Definition MAGIC_NORMAL : Z := 0x5f3759df.
Definition MAGIC_LARGE : Z := 0x5f37599e.

(** The file-scope variables [rsqrt_lut] and [lut_initialized]. *)
Record globals := { rsqrt_lut : list float; lut_initialized : bool }.

(** Static storage is zero-initialised. *)
Definition globals_at_start : globals :=
  {| rsqrt_lut := repeat (of_bits 0) 256; lut_initialized := false |}.

Definition init_entry (i : nat) (lut : list float) : list float :=
  let val := fadd f0_5 (fdiv (fmul (of_int (Z.of_nat i)) f3_5) f255_0) in
  store lut i (fdiv f1_0 (fsqrt val)).

Definition initialize_lut (g : globals) : globals :=
  if negb (lut_initialized g) then
    {| rsqrt_lut := for_loop 0 256 init_entry (rsqrt_lut g);
       lut_initialized := true |}
  else g.

(** One Newton-Raphson update of [hybrid_rsqrt]; [FMA] tells whether the
    build defines [__FMA__]. *)
Definition newton (FMA : bool) (x2 y : float) : float :=
  if FMA then fmul y (ffma (fmul (fopp x2) y) y f1_5)
  else fmul y (fsub f1_5 (fmul (fmul x2 y) y)).

Definition hybrid_rsqrt (FMA : bool) (g : globals) (number : float) : float :=
  let idx := to_int (fdiv (fmul (fsub number f0_5) f255_0) f3_5) in
  if fge number f0_5 && fle number f4_0 && (0 <=? idx) && (idx <? 256) then
    nth (Z.to_nat idx) (rsqrt_lut g) f0_0
  else
    let magic := MAGIC_NORMAL in
    let magic :=
      if flt number f1_0 then MAGIC_SMALL
      else if fgt number f100_0 then MAGIC_LARGE
      else magic in
    let conv_i := to_bits number in
    let conv_i := wrap32 (magic - Z.shiftr conv_i 1) in
    let y := of_bits conv_i in
    let x2 := fmul number f0_5 in
    let y := newton FMA x2 y in
    let y := newton FMA x2 y in
    y.

(** One lane of the loop body of [hybrid_rsqrt_simd]. *)
Definition simd_lane (FMA : bool) (x : float) : float :=
  let xi := to_bits x in
  let xi := Z.shiftr xi 1 in
  let xi := wrap32 (MAGIC_NORMAL - xi) in
  let y := of_bits xi in
  let x_half := fmul x f0_5 in
  if FMA then
    let tmp := ffnmadd (fmul x_half y) y f1_5 in
    let y := fmul y tmp in
    let tmp := ffnmadd (fmul x_half y) y f1_5 in
    let y := fmul y tmp in
    y
  else
    let y_squared := fmul y y in
    let tmp := fmul x_half y_squared in
    let tmp := fsub f1_5 tmp in
    let y := fmul y tmp in
    let y_squared := fmul y y in
    let tmp := fmul x_half y_squared in
    let tmp := fsub f1_5 tmp in
    let y := fmul y tmp in
    y.

Definition hybrid_rsqrt_simd (FMA : bool) (g : globals)
    (input output : list float) (count : nat) : list float * globals :=
  let g := initialize_lut g in
  let simd_count := simd_count count 8 in
  let output :=
    loop_lt simd_count 0 simd_count 8
      (fun i out => store_lanes out i (map (simd_lane FMA) (load_lanes input i 8)))
      output in
  let output :=
    for_loop simd_count count
      (fun i out => store out i (hybrid_rsqrt FMA g (nth i input f0_0)))
      output in
  (output, g).

End Hybrid.

(** ** neural_inspired_rsqrt.cpp *)

Module Neural.

Inductive PrecisionLevel := ULTRA_FAST | FAST | PRECISE | ULTRA_PRECISE.

(** The enumerators' values, for the comparison [precision > ULTRA_FAST]. *)
Definition level (p : PrecisionLevel) : Z :=
  match p with ULTRA_FAST => 0 | FAST => 1 | PRECISE => 2 | ULTRA_PRECISE => 3 end.

Module MagicConstants.
Definition denormal : Z := 0x5f3759df.
Definition tiny : Z := 0x5f375a86.
Definition small : Z := 0x5f375a00.
Definition medium : Z := 0x5f3759df.
Definition large : Z := 0x5f37599e.
Definition huge : Z := 0x5f375800.
Definition poly_a : float := of_bits 0x3FC01CCE.
Definition poly_b : float := of_bits 0xBF002939.
Definition poly_c : float := of_bits 0x3935ED8D.
End MagicConstants.

Record NeuralRsqrt := {
  input_history : list float;
  history_idx : nat;
  mean_input : float;
  variance : float;
  poly_lut : list float
}.

Definition init_entry (i : nat) (lut : list float) : list float :=
  let x := fadd f0_25 (fdiv (fmul (of_int (Z.of_nat i)) f3_75) f1023_0) in
  let rsqrt_approx := fdiv f1_0 (fsqrt x) in
  store lut i rsqrt_approx.

(** The constructor; [history] and [raw] are the contents of the two
    member arrays before it runs (all zero for the static instance). *)
Definition new (history raw : list float) : NeuralRsqrt :=
  {| input_history := history;
     history_idx := 0;
     mean_input := f1_0;
     variance := f1_0;
     poly_lut := for_loop 0 1024 init_entry raw |}.

Definition static_instance : NeuralRsqrt :=
  new (repeat (of_bits 0) 256) (repeat (of_bits 0) 1024).

Definition update_stats (self : NeuralRsqrt) (input : float) : NeuralRsqrt :=
  let history := store (input_history self) (history_idx self) input in
  let idx := Z.to_nat (Z.land (Z.of_nat (history_idx self) + 1) 255) in
  let '(sum, sum_sq) :=
    for_loop 0 256
      (fun i '(sum, sum_sq) =>
         (fadd sum (nth i history f0_0),
          fadd sum_sq (fmul (nth i history f0_0) (nth i history f0_0))))
      (f0_0, f0_0) in
  let mean := fdiv sum f256_0 in
  {| input_history := history;
     history_idx := idx;
     mean_input := mean;
     variance := fsub (fdiv sum_sq f256_0) (fmul mean mean);
     poly_lut := poly_lut self |}.

Definition select_magic (exp : Z) : Z :=
  if exp <? 64 then MagicConstants.tiny
  else if exp <? 102 then MagicConstants.small
  else if exp <? 134 then MagicConstants.medium
  else if exp <? 157 then MagicConstants.large
  else MagicConstants.huge.

(** The bit manipulation of [compute]: range-specific magic constant and
    initial approximation. *)
Definition initial_approximation (x : float) : float :=
  let conv_i := to_bits x in
  let exp := Z.land (Z.shiftr conv_i 23) 0xFF in
  let magic := select_magic exp in
  let conv_i := wrap32 (magic - Z.shiftr conv_i 1) in
  of_bits conv_i.

(** The [switch (precision)] of [compute], one definition per case
    label; a case falls through to the next one. *)
Definition case_ULTRA_FAST (x2 y : float) : float :=
  fmul y (fsub f1_5 (fmul (fmul x2 y) y)).
Definition case_FAST (x2 y : float) : float :=
  let y := fmul y (fsub f1_5 (fmul (fmul x2 y) y)) in
  case_ULTRA_FAST x2 y.
Definition case_PRECISE (x2 y : float) : float :=
  let y := fmul y (fsub f1_5 (fmul (fmul x2 y) y)) in
  case_FAST x2 y.

Definition newton_switch (precision : PrecisionLevel) (x x2 y : float) : float :=
  match precision with
  | ULTRA_PRECISE => fdiv f1_0 (fsqrt x)
  | PRECISE => case_PRECISE x2 y
  | FAST => case_FAST x2 y
  | ULTRA_FAST => case_ULTRA_FAST x2 y
  end.

(** [compute]; [global_precision] is the value loaded from the atomic
    of that name ([FAST] unless a caller stores another level). *)
Definition compute (global_precision : PrecisionLevel) (self : NeuralRsqrt)
    (x : float) : float * NeuralRsqrt :=
  let self := update_stats self x in
  let precision := global_precision in
  let precision :=
    if flt (variance self) f0_01 && (level ULTRA_FAST <? level precision)
    then ULTRA_FAST else precision in
  let idx := to_int (fdiv (fmul (fsub x f0_25) f1023_0) f3_75) in
  if fge x f0_25 && fle x f4_0 && (0 <=? idx) && (idx <? 1024) then
    let base := nth (Z.to_nat idx) (poly_lut self) f0_0 in
    match precision with
    | ULTRA_PRECISE => (base, self)
    | _ =>
        let x_half := fmul x f0_5 in
        (fmul base (fsub f1_5 (fmul (fmul x_half base) base)), self)
    end
  else
    let y := initial_approximation x in
    let x2 := fmul x f0_5 in
    let err := fsub f1_0 (fmul (fmul x y) y) in
    let y :=
      fmul y
        (fadd MagicConstants.poly_a
           (fmul err (fadd MagicConstants.poly_b
                        (fmul err MagicConstants.poly_c)))) in
    (newton_switch precision x x2 y, self).

(** One lane of the loop body of [compute_simd]. *)
Definition simd_lane (x : float) : float :=
  let xi := to_bits x in
  let magic := MagicConstants.medium in
  let xi := wrap32 (magic - Z.shiftr xi 1) in
  let y := of_bits xi in
  let x_half := fmul x f0_5 in
  let y_sq := fmul y y in
  let err := ffnmadd x y_sq f1_0 in
  let poly := ffma err MagicConstants.poly_c MagicConstants.poly_b in
  let poly := ffma err poly MagicConstants.poly_a in
  let y := fmul y poly in
  let tmp := ffnmadd (fmul x_half y) y f1_5 in
  let y := fmul y tmp in
  let tmp := ffnmadd (fmul x_half y) y f1_5 in
  let y := fmul y tmp in
  y.

Definition compute_simd (global_precision : PrecisionLevel)
    (self : NeuralRsqrt) (input output : list float) (count : nat)
    : list float * NeuralRsqrt :=
  let simd_count := simd_count count 8 in
  let output :=
    loop_lt simd_count 0 simd_count 8
      (fun i out => store_lanes out i (map simd_lane (load_lanes input i 8)))
      output in
  for_loop simd_count count
    (fun i '(out, self) =>
       let '(y, self) := compute global_precision self (nth i input f0_0) in
       (store out i y, self))
    (output, self).

End Neural.

(** ** ultra_optimized_rsqrt.cpp *)

Module Ultra.
Section Hardware.

(** The hardware reciprocal square root estimates [_mm_rsqrt_ss] and
  [_mm256_rsqrt_ps] (per lane); their results are specified by the
  processor only up to a relative error of 1.5 * 2^-12. *)
Variable rsqrt_ss : float -> float.
Variable rsqrt_ps : float -> float.

(** [ultra_rsqrt], the [__SSE__] branch. *)
Definition ultra_rsqrt (x : float) : float :=
let rsqrt := rsqrt_ss x in
let x_half := fmul x f0_5 in
let rsqrt_sq := fmul rsqrt rsqrt in
let tmp := fmul x_half rsqrt_sq in
let tmp := fsub f1_5 tmp in
let rsqrt := fmul rsqrt tmp in
rsqrt.

(** One lane of the loop body of [ultra_rsqrt_avx2]. *)
Definition avx2_lane (FMA : bool) (x : float) : float :=
let rsqrt := rsqrt_ps x in
if FMA then
  let x_half := fmul x f0_5 in
  let tmp := ffnmadd (fmul x_half rsqrt) rsqrt f1_5 in
  fmul rsqrt tmp
else
  let x_half := fmul x f0_5 in
  let rsqrt_sq := fmul rsqrt rsqrt in
  let tmp := fmul x_half rsqrt_sq in
  let tmp := fsub f1_5 tmp in
  fmul rsqrt tmp.

Definition ultra_rsqrt_avx2 (FMA : bool) (input output : list float)
  (count : nat) : list float :=
let simd_count := simd_count count 8 in
let output :=
  loop_lt simd_count 0 simd_count 8
    (fun i out => store_lanes out i (map (avx2_lane FMA) (load_lanes input i 8)))
    output in
for_loop simd_count count
  (fun i out => store out i (ultra_rsqrt (nth i input f0_0)))
  output.

End Hardware.
End Ultra.


(** * Properties *)

(** ** Bit patterns of finite positive floats *)

Definition finite_positive (x : float) : bool :=
  match x with
  | S754_finite false m e => bounded prec emax m e
  | _ => false
  end.

Lemma digits2_pos_bounds (m : positive) :
  2 ^ (Zpos (digits2_pos m) - 1) <= Zpos m < 2 ^ Zpos (digits2_pos m).
Proof.
  induction m as [m IH | m IH | ]; cbn [digits2_pos].
  - rewrite Pos2Z.inj_succ.
    replace (Z.succ (Zpos (digits2_pos m)) - 1) with (Z.succ (Zpos (digits2_pos m) - 1)) by lia.
    rewrite !Z.pow_succ_r by lia. lia.
  - rewrite Pos2Z.inj_succ.
    replace (Z.succ (Zpos (digits2_pos m)) - 1) with (Z.succ (Zpos (digits2_pos m) - 1)) by lia.
    rewrite !Z.pow_succ_r by lia. lia.
  - cbn. lia.
Qed.

Lemma bounded_range (m : positive) (e : Z) :
  bounded prec emax m e = true ->
  -149 <= e <= 104 /\ Zpos m < 2 ^ 24 /\ (2 ^ 23 <= Zpos m \/ e = -149).
Proof.
  unfold bounded, canonical_mantissa, fexp, SpecFloat.emin, prec, emax.
  intros H. apply andb_true_iff in H. destruct H as [H1 H2].
  apply Z.eqb_eq in H1. apply Z.leb_le in H2.
  pose proof (digits2_pos_bounds m) as [Hlo Hhi].
  set (d := Zpos (digits2_pos m)) in *.
  assert (Hd : 0 < d) by (unfold d; lia).
  assert (Hd24 : d <= 24) by lia.
  split; [lia|]. split.
  - eapply Z.lt_le_trans; [exact Hhi|]. apply Z.pow_le_mono_r; lia.
  - destruct (Z.eq_dec d 24) as [E|E].
    + left. rewrite E in Hlo. exact Hlo.
    + right. lia.
Qed.



Lemma signed32_small (i : Z) : 0 <= i < 2 ^ 31 -> signed32 i = i.
Proof.
  intros H. unfold signed32, wrap32.
  rewrite Z.mod_small by lia.
  destruct (Z.ltb_spec i (2 ^ 31)); lia.
Qed.

Lemma wrap32_small (z : Z) : 0 <= z < 2 ^ 32 -> wrap32 z = z.
Proof. intros H. unfold wrap32. apply Z.mod_small. exact H. Qed.


Lemma testbit_31_small (b : Z) : 0 <= b < 2 ^ 31 -> Z.testbit b 31 = false.
Proof.
  intros H. apply Z.testbit_false; [lia|].
  rewrite Z.div_small by lia. reflexivity.
Qed.

Lemma bits_fields (E M : Z) :
  0 <= E < 256 -> 0 <= M < 2 ^ 23 ->
  Z.land (Z.shiftr (E * 2 ^ 23 + M) 23) 0xFF = E /\
  Z.land (E * 2 ^ 23 + M) 0x7FFFFF = M.
Proof.
  intros HE HM.
  change 0xFF with (Z.ones 8). change 0x7FFFFF with (Z.ones 23).
  rewrite !Z.land_ones by lia. rewrite Z.shiftr_div_pow2 by lia.
  split.
  - rewrite Z.div_add_l by lia. rewrite (Z.div_small M) by lia.
    rewrite Z.add_0_r. apply Z.mod_small. change (2 ^ 8) with 256. lia.
  - rewrite Z.add_comm, Z.mod_add by lia. apply Z.mod_small. lia.
Qed.

Lemma of_bits_fields (E M : Z) :
  0 <= E < 255 -> 0 <= M < 2 ^ 23 ->
  of_bits (E * 2 ^ 23 + M) =
  if E =? 0 then
    match M with Zpos p => S754_finite false p (-149) | _ => S754_zero false end
  else
    match M + 0x800000 with
    | Zpos p => S754_finite false p (E - 150)
    | _ => S754_nan
    end.
Proof.
  intros HE HM. unfold of_bits.
  destruct (bits_fields E M) as [F1 F2]; [lia | lia |].
  rewrite F1, F2.
  rewrite testbit_31_small
    by (change (2 ^ 31) with (256 * 2 ^ 23); nia).
  destruct (Z.eqb_spec E 0); [reflexivity|].
  destruct (Z.eqb_spec E 255); [lia | reflexivity].
Qed.


(** The kernels start from the bit-level initial guess. *)
Lemma Q_rsqrt_stages (x : float) :
  Q_rsqrt x = newton_update f1_5 x (approximate 0x5f3759df x).
Proof. reflexivity. Qed.

Lemma Q_rsqrt_long_stages (x : float) :
  Q_rsqrt_long x = newton_update f1_5 x (approximate_signed 0x5f3759df x).
Proof. reflexivity. Qed.

Lemma optimized_rsqrt_stages (x : float) :
  optimized_rsqrt x =
  refine_with [f1_5000036; f1_5] x (approximate 0x5f375a86 x).
Proof. reflexivity. Qed.

Lemma GameEngine_compute_stages (self : GameEngineFastRSqrt.t) (x : float) :
  GameEngineFastRSqrt.compute self x =
  refine_with [f1_5000036; f1_5] x (approximate 0x5f375a86 x).
Proof. reflexivity. Qed.

Lemma enhancedInvSqrt_stages (x : float) :
  enhancedInvSqrt x = refine f1_5 x (approximate 0x5f375a86 x) 2.
Proof. reflexivity. Qed.

Lemma fast_rsqrt_improved_stages (x : float) :
  fast_rsqrt_improved x = refine f1_5 x (approximate_signed 0x5f375a86 x) 2.
Proof. reflexivity. Qed.



(** ** The refinement stage *)

Lemma refine_succ (c x y0 : float) (steps : nat) :
  refine c x y0 (S steps) = refine c x (newton_update c x y0) steps.
Proof. reflexivity. Qed.

Lemma refine_iter (c x : float) (steps : nat) :
  forall y0, refine c x y0 steps = Nat.iter steps (newton_update c x) y0.
Proof.
  induction steps as [| n IH]; intros y0; [reflexivity|].
  rewrite refine_succ, IH. symmetry. apply Nat.iter_succ_r.
Qed.


(** ** The memoization cache *)

Lemma store_length {A : Type} (a : list A) (i : nat) (v : A) :
  length (store a i v) = length a.
Proof.
  revert i; induction a as [| h t IH]; intros [| j]; cbn; auto.
Qed.

Lemma nth_store_same {A : Type} (a : list A) (i : nat) (v d : A) :
  (i < length a)%nat -> nth i (store a i v) d = v.
Proof.
  revert i; induction a as [| h t IH]; intros [| j] H; cbn in *;
    try lia; auto. apply IH. lia.
Qed.

Lemma nth_store_other {A : Type} (a : list A) (i j : nat) (v d : A) :
  i <> j -> nth j (store a i v) d = nth j a d.
Proof.
  revert i j; induction a as [| h t IH]; intros [| i] [| j] H; cbn;
    try congruence; auto.
Qed.

Lemma Forall_store {A : Type} (P : A -> Prop) (a : list A) (i : nat) (v : A) :
  Forall P a -> P v -> Forall P (store a i v).
Proof.
  intros Ha Hv. revert i.
  induction Ha as [| h t Hh Ht IH]; intros [| j]; cbn; auto.
Qed.

(** Float equality on a value other than zero is equality of the values. *)
Lemma feq_nonzero_eq (a b : float) :
  feq a b = true -> feq b f0_0 = false -> a = b.
Proof.
  unfold feq, SFeqb.
  destruct a as [sa | sa | | sa ma ea], b as [sb | sb | | sb mb eb];
    cbn; try discriminate;
    try (destruct sa, sb; cbn; congruence).
  intros H _.
  destruct sa, sb; try discriminate;
    destruct (Z.compare_spec ea eb); try discriminate; subst;
    change (PosDef.Pos.compare_cont Eq ma mb) with (Pos.compare ma mb) in H;
    destruct (Pos.compare_spec ma mb); try discriminate; subst; reflexivity.
Qed.

Module CacheFacts.
Import FastRsqrtCache.

(** Every entry is either as [memset] left it or holds a value of the
    uncached kernel. *)
Definition entry_ok (e : CacheEntry) : Prop :=
  e = empty_entry \/ output e = fast_rsqrt_improved (input e).

Definition cache_ok (c : t) : Prop := Forall entry_ok c.

Lemma new_ok : cache_ok new.
Proof.
  unfold cache_ok, new. apply Forall_forall. intros e He.
  apply repeat_spec in He. left. exact He.
Qed.

Lemma compute_ok (c : t) (x : float) :
  cache_ok c -> cache_ok (snd (compute c x)).
Proof.
  intros Hc. unfold compute.
  destruct (feq _ x); cbn [snd]; [exact Hc|].
  apply Forall_store; [exact Hc|]. right. reflexivity.
Qed.

Lemma run_ok (calls : list float) :
  forall c, cache_ok c -> cache_ok (run c calls).
Proof.
  induction calls as [| x rest IH]; intros c Hc; cbn [run]; auto.
  apply IH. apply compute_ok. exact Hc.
Qed.

Lemma nth_ok (c : t) (i : nat) : cache_ok c -> entry_ok (nth i c empty_entry).
Proof.
  intros Hc. destruct (Nat.lt_ge_cases i (length c)) as [H | H].
  - unfold cache_ok in Hc. rewrite Forall_forall in Hc. apply Hc. apply nth_In. exact H.
  - rewrite nth_overflow by exact H. left. reflexivity.
Qed.

Lemma compute_value (c : t) (x : float) :
  cache_ok c -> feq x f0_0 = false ->
  fst (compute c x) = fast_rsqrt_improved x.
Proof.
  intros Hc Hx. unfold compute.
  destruct (feq (input (nth _ c empty_entry)) x) eqn:Hit; cbn [fst]; [|reflexivity].
  pose proof (feq_nonzero_eq _ _ Hit Hx) as Hin.
  destruct (nth_ok c (Z.to_nat (hash x)) Hc) as [He | He].
  - rewrite He in Hin. cbn [input empty_entry] in Hin. subst x. discriminate.
  - rewrite He, Hin. reflexivity.
Qed.

End CacheFacts.

(** C10. After any sequence of earlier calls, [FastRsqrtCache::compute]
    returns for every [x] with [x != 0.0f] exactly the value of the
    uncached [fast_rsqrt_improved (x)]. *)
Theorem cache_transparent (calls : list float) (x : float) :
  feq x f0_0 = false ->
  fst (FastRsqrtCache.compute (FastRsqrtCache.run FastRsqrtCache.new calls) x)
  = fast_rsqrt_improved x.
Proof.
  intros Hx. apply CacheFacts.compute_value; [|exact Hx].
  apply CacheFacts.run_ok, CacheFacts.new_ok.
Qed.

Lemma cache_transparent_witness :
  feq f4_0 f0_0 = false /\
  fst (FastRsqrtCache.compute
         (FastRsqrtCache.run FastRsqrtCache.new [f4_0; f1_5; f4_0]) f4_0)
  = fast_rsqrt_improved f4_0.
Proof.
  split; [reflexivity|].
  apply (cache_transparent [f4_0; f1_5; f4_0] f4_0). reflexivity.
Defined.

(** ** Loops over arrays *)

Lemma loop_lt_groups {St : Type} (P : nat -> St -> Prop) (step : nat)
    (body : nat -> St -> St) (k : nat) :
  (0 < step)%nat ->
  forall (fuel i : nat) (s : St),
    (k <= fuel)%nat ->
    P i s ->
    (forall j t, (j < k)%nat -> P (i + j * step)%nat t ->
                 P (i + S j * step)%nat (body (i + j * step)%nat t)) ->
    P (i + k * step)%nat (loop_lt fuel i (i + k * step) step body s).
Proof.
  intros Hstep. induction k as [| k IH]; intros fuel i s Hfuel Hs Hbody.
  - replace (i + 0 * step)%nat with i by lia.
    destruct fuel; cbn [loop_lt]; [exact Hs|].
    rewrite Nat.ltb_irrefl. exact Hs.
  - destruct fuel as [| fuel]; [lia|]. cbn [loop_lt].
    destruct (Nat.ltb_spec i (i + S k * step)) as [_ | Hge]; [|nia].
    replace (i + S k * step)%nat with ((i + step) + k * step)%nat by lia.
    apply IH; [lia | |].
    + specialize (Hbody 0%nat s).
      replace (i + 0 * step)%nat with i in Hbody by lia.
      replace (i + 1 * step)%nat with (i + step)%nat in Hbody by lia.
      apply Hbody; [lia | exact Hs].
    + intros j t Hj Ht.
      replace (i + step + S j * step)%nat with (i + S (S j) * step)%nat by lia.
      replace (i + step + j * step)%nat with (i + S j * step)%nat in * by lia.
      apply Hbody; [lia | exact Ht].
Qed.

Lemma for_loop_invariant {St : Type} (P : nat -> St -> Prop)
    (body : nat -> St -> St) (start bound : nat) (s : St) :
  (start <= bound)%nat ->
  P start s ->
  (forall i t, (start <= i < bound)%nat -> P i t -> P (S i) (body i t)) ->
  P bound (for_loop start bound body s).
Proof.
  intros Hle Hs Hbody. unfold for_loop.
  replace bound with (start + (bound - start) * 1)%nat at 1 3 by lia.
  apply loop_lt_groups; [lia | lia | exact Hs |].
  intros j t Hj Ht.
  replace (start + S j * 1)%nat with (S (start + j * 1)) by lia.
  apply Hbody; [lia | exact Ht].
Qed.

Lemma store_app {A : Type} (l : list A) (h : A) (t : list A) (v : A) :
  store (l ++ h :: t) (length l) v = l ++ v :: t.
Proof. induction l as [| x l IH]; cbn; [reflexivity | f_equal; exact IH]. Qed.

Lemma skipn_cons_nth {A : Type} (a : list A) (i : nat) (d : A) :
  (i < length a)%nat -> skipn i a = nth i a d :: skipn (S i) a.
Proof.
  revert i; induction a as [| h t IH]; intros [| i] Hlt; cbn in *; try lia.
  - reflexivity.
  - apply IH. lia.
Qed.

(** An array filled entry by entry, as the constructors do. *)
Lemma for_loop_fill {A : Type} (f : nat -> A) (n : nat) (raw : list A) :
  (n <= length raw)%nat ->
  for_loop 0 n (fun i a => store a i (f i)) raw
  = map f (seq 0 n) ++ skipn n raw.
Proof.
  intros Hn.
  apply (for_loop_invariant
           (fun i a => a = map f (seq 0 i) ++ skipn i raw)); [lia | reflexivity |].
  intros i t Hi IH. rewrite IH.
  rewrite seq_S, map_app. cbn [map Nat.add].
  destruct raw as [| d raw']; [cbn in Hn; lia|].
  rewrite (skipn_cons_nth (d :: raw') i d) by lia.
  assert (E : forall (l : list A) h0 t0 v,
             length l = i -> store (l ++ h0 :: t0) i v = l ++ v :: t0)
    by (intros l h0 t0 v <-; apply store_app).
  rewrite E by (rewrite length_map, length_seq; reflexivity).
  rewrite <- app_assoc. reflexivity.
Qed.

Lemma nth_fill {A : Type} (f : nat -> A) (n i : nat) (rest : list A) (d : A) :
  (i < n)%nat -> nth i (map f (seq 0 n) ++ rest) d = f i.
Proof.
  intros Hi. rewrite app_nth1 by (rewrite length_map, length_seq; exact Hi).
  rewrite (nth_indep _ d (f 0%nat)) by (rewrite length_map, length_seq; exact Hi).
  rewrite map_nth. rewrite seq_nth by exact Hi. reflexivity.
Qed.

(** ** The correction tables *)

(** The value of the table's bucket [i] in [FastRecipSqrt], and in
    [GameEngineFastRSqrt]. *)
Definition FastRecipSqrt_representative (i : nat) : float :=
  fadd f1_0 (fdiv (of_int (Z.of_nat i)) (of_int 256)).

Definition GameEngine_representative (i : nat) : float :=
  fadd (fmul f0_0625 (of_int (Z.of_nat i))) f0_25.

(** The table entry as the specification words it: the exact reciprocal
    square root over the kernel's own uncorrected approximation. *)
Definition claimed_correction (magic : Z) (representative : float) : float :=
  fdiv (std_rsqrt representative) (approximate magic representative).

(** C9, as stated, fails: the first entry of either table is not the ratio
    to the kernel's own bit-level approximation. *)
Lemma correction_entry_not_kernel_ratio :
  nth 0 (FastRecipSqrt.lut (FastRecipSqrt.new (repeat f0_0 256))) f0_0
    <> claimed_correction FastRecipSqrt.MAGIC_CONSTANT (FastRecipSqrt_representative 0) /\
  nth 0 (GameEngineFastRSqrt.correction_lut (GameEngineFastRSqrt.new (repeat f0_0 16))) f0_0
    <> claimed_correction GameEngineFastRSqrt.MAGIC_CONSTANT (GameEngine_representative 0).
Proof. split; vm_compute; discriminate. Qed.

(** C9, amended.  Each table is written entry by entry by its
    constructor and by nothing else ([compute] only reads its argument):
    entry [i] of [FastRecipSqrt]'s table is the exact reciprocal square root
    of [1 + i/256] over the constant [1/sqrtf(1.5f)], and entry [i] of
    [GameEngineFastRSqrt]'s table is the exact reciprocal square root of
    [0.0625 i + 0.25] over [Q_rsqrt] of it, whatever the arrays held
    before. *)
Theorem correction_tables_built (i : nat) (raw256 raw16 : list float) (d : float) :
  length raw256 = 256%nat -> length raw16 = 16%nat ->
  ((i < 256)%nat ->
   nth i (FastRecipSqrt.lut (FastRecipSqrt.new raw256)) d
   = fdiv (std_rsqrt (FastRecipSqrt_representative i)) (std_rsqrt f1_5)) /\
  ((i < 16)%nat ->
   nth i (GameEngineFastRSqrt.correction_lut (GameEngineFastRSqrt.new raw16)) d
   = fdiv (std_rsqrt (GameEngine_representative i))
          (Q_rsqrt (GameEngine_representative i))) /\
  length (FastRecipSqrt.lut (FastRecipSqrt.new raw256)) = 256%nat /\
  length (GameEngineFastRSqrt.correction_lut (GameEngineFastRSqrt.new raw16)) = 16%nat.
Proof.
  intros H256 H16.
  unfold FastRecipSqrt.new, GameEngineFastRSqrt.new.
  cbn [FastRecipSqrt.lut GameEngineFastRSqrt.correction_lut].
  unfold FastRecipSqrt.init_entry, GameEngineFastRSqrt.init_entry.
  rewrite (for_loop_fill
             (fun i => fdiv (fdiv f1_0 (fsqrt (fadd f1_0 (fdiv (of_int (Z.of_nat i))
                                                          (of_int (Z.of_nat FastRecipSqrt.LUT_SIZE))))))
                            (fdiv f1_0 (fsqrt f1_5))))
    by (rewrite H256; unfold FastRecipSqrt.LUT_SIZE; lia).
  rewrite (for_loop_fill
             (fun i => fdiv (fdiv f1_0 (fsqrt (fadd (fmul f0_0625 (of_int (Z.of_nat i))) f0_25)))
                            (Q_rsqrt (fadd (fmul f0_0625 (of_int (Z.of_nat i))) f0_25))))
    by (rewrite H16; lia).
  repeat split.
  - intros Hi. rewrite nth_fill by exact Hi. reflexivity.
  - intros Hi. rewrite nth_fill by exact Hi. reflexivity.
  - rewrite length_app, length_map, length_seq, length_skipn, H256.
    unfold FastRecipSqrt.LUT_SIZE. lia.
  - rewrite length_app, length_map, length_seq, length_skipn, H16. lia.
Qed.

Lemma correction_tables_built_witness :
  nth 3 (FastRecipSqrt.lut (FastRecipSqrt.new (repeat f0_0 256))) f0_0
  = fdiv (std_rsqrt (FastRecipSqrt_representative 3)) (std_rsqrt f1_5).
Proof.
  apply (correction_tables_built 3 (repeat f0_0 256) (repeat f0_0 16) f0_0);
    [reflexivity | reflexivity | lia].
Defined.

(** ** Normalizing a vector whose squared length is zero *)






(** A product of two floats that are zero or finite is not a NaN. *)
Definition zero_or_finite (x : float) : bool :=
  match x with S754_zero _ | S754_finite _ _ _ => true | _ => false end.




Lemma fmul_self_class (a : float) :
  match fmul a a with
  | S754_zero _ | S754_finite _ _ _ => zero_or_finite a = true
  | S754_infinity s => s = false
  | S754_nan => True
  end.
Proof.
  destruct a as [sa | sa | | sa ma ea]; cbn; auto.
  - destruct sa; reflexivity.
  - unfold fmul, SFmul. rewrite xorb_nilpotent.
    unfold binary_round_aux.
    destruct (shr_fexp prec emax _ _ _) as [mrs' e'].
    destruct (shr_fexp prec emax _ _ _) as [mrs'' e''].
    destruct (shr_m mrs''); auto.
    destruct (e'' <=? emax - prec); auto.
Qed.





(** ** The batched transforms *)

Lemma simd_count_8 (count : nat) :
  Z.of_nat count < 2 ^ 64 -> simd_count count 8 = (8 * (count / 8))%nat.
Proof.
  intros H. unfold simd_count.
  change (Z.lnot (8 - 1) mod 2 ^ 64) with (Z.ldiff (Z.ones 64) (Z.ones 3)).
  assert (E : Z.land (Z.of_nat count) (Z.ldiff (Z.ones 64) (Z.ones 3))
              = Z.ldiff (Z.of_nat count) (Z.ones 3)).
  { rewrite !Z.ldiff_land, Z.land_assoc. f_equal.
    rewrite Z.land_ones by lia. apply Z.mod_small. lia. }
  rewrite E, Z.ldiff_ones_r by lia.
  rewrite Z.shiftr_div_pow2, Z.shiftl_mul_pow2 by lia.
  change (2 ^ 3) with 8.
  rewrite <- (Nat2Z.id (8 * (count / 8))). f_equal.
  rewrite Nat2Z.inj_mul, Nat2Z.inj_div. change (Z.of_nat 8) with 8. lia.
Qed.

Lemma store_lanes_app (vs : list float) :
  forall A B : list float,
    (length vs <= length B)%nat ->
    store_lanes (A ++ B) (length A) vs = A ++ vs ++ skipn (length vs) B.
Proof.
  induction vs as [| x r IH]; intros A B Hlen; cbn [store_lanes length skipn app].
  - reflexivity.
  - destruct B as [| b B']; [cbn in Hlen; lia|].
    rewrite store_app.
    replace (A ++ x :: B') with ((A ++ [x]) ++ B') by (rewrite <- app_assoc; reflexivity).
    replace (S (length A)) with (length (A ++ [x])) by (rewrite length_app; cbn; lia).
    rewrite IH by (cbn in Hlen; lia).
    rewrite <- app_assoc. reflexivity.
Qed.

Lemma firstn_plus {A : Type} (l : list A) (i w : nat) :
  firstn (i + w) l = firstn i l ++ firstn w (skipn i l).
Proof.
  revert l; induction i as [| i IH]; intros l; [reflexivity|].
  destruct l as [| h t]; cbn.
  - rewrite firstn_nil. reflexivity.
  - f_equal. apply IH.
Qed.

(** The vector loop: each full group of eight lanes is the lane kernel of
    the same eight inputs. *)
Lemma simd_loop_map (lane : float -> float) (input output : list float) (k : nat) :
  (8 * k <= length input)%nat -> (8 * k <= length output)%nat ->
  loop_lt (8 * k) 0 (8 * k) 8
    (fun i out => store_lanes out i (map lane (load_lanes input i 8))) output
  = map lane (firstn (8 * k) input) ++ skipn (8 * k) output.
Proof.
  intros Hin Hout.
  replace (8 * k)%nat with (0 + k * 8)%nat at 2 3 4 by lia.
  apply (loop_lt_groups
           (fun i out => (i <= 8 * k)%nat ->
                         out = map lane (firstn i input) ++ skipn i output));
    [lia | lia | reflexivity | | lia].
  intros j t Hj IH _. cbn [Nat.add] in *. rewrite IH by lia. clear IH.
  assert (Hl : length (map lane (firstn (j * 8) input)) = (j * 8)%nat)
    by (rewrite length_map, length_firstn; lia).
  assert (Hv : length (map lane (load_lanes input (j * 8) 8)) = 8%nat)
    by (unfold load_lanes; rewrite length_map, length_firstn, length_skipn; lia).
  assert (E : forall (vs A B : list float) (n : nat),
             length A = n -> (length vs <= length B)%nat ->
             store_lanes (A ++ B) n vs = A ++ vs ++ skipn (length vs) B)
    by (intros vs A B n <- Hle; apply store_lanes_app; exact Hle).
  rewrite E by (try rewrite Hv; try rewrite length_skipn; lia).
  rewrite Hv, skipn_skipn.
  replace (S j * 8)%nat with (j * 8 + 8)%nat by lia.
  rewrite firstn_plus, map_app, <- app_assoc.
  replace (8 + j * 8)%nat with (j * 8 + 8)%nat by lia.
  reflexivity.
Qed.

(** The scalar loop over the remaining elements. *)
Lemma tail_loop_map (f : float -> float) (input out : list float)
    (start count : nat) (d : float) :
  (start <= count)%nat -> (count <= length input)%nat -> (count <= length out)%nat ->
  for_loop start count (fun i o => store o i (f (nth i input d))) out
  = firstn start out ++ map f (firstn (count - start) (skipn start input))
    ++ skipn count out.
Proof.
  intros Hsc Hin Hout.
  apply (for_loop_invariant
           (fun i o => o = firstn start out
                           ++ map f (firstn (i - start) (skipn start input))
                           ++ skipn i out)).
  - exact Hsc.
  - rewrite Nat.sub_diag. cbn. symmetry. apply firstn_skipn.
  - intros i t Hi IH. rewrite IH. clear IH.
    rewrite (skipn_cons_nth out i d) by lia.
    rewrite app_assoc.
    assert (Hl : length (firstn start out
                         ++ map f (firstn (i - start) (skipn start input))) = i)
      by (rewrite length_app, length_map, !length_firstn, length_skipn; lia).
    assert (E : forall (l : list float) h0 t0 v n,
               length l = n -> store (l ++ h0 :: t0) n v = l ++ v :: t0)
      by (intros l h0 t0 v n <-; apply store_app).
    rewrite E by exact Hl.
    replace (S i - start)%nat with ((i - start) + 1)%nat by lia.
    rewrite firstn_plus, map_app, skipn_skipn.
    replace (i - start + start)%nat with i by lia.
    rewrite (skipn_cons_nth input i d) by lia. cbn [firstn map].
    rewrite <- !app_assoc. reflexivity.
Qed.

Lemma firstn_app_exact {A : Type} (l r : list A) (n : nat) :
  length l = n -> firstn n (l ++ r) = l.
Proof.
  intros <-. rewrite firstn_app, firstn_all, Nat.sub_diag. cbn. apply app_nil_r.
Qed.

Lemma skipn_app_exact {A : Type} (l r : list A) (n m : nat) :
  length l = n -> skipn (n + m) (l ++ r) = skipn m r.
Proof.
  intros <-. rewrite skipn_app, skipn_all2 by lia.
  cbn [app]. f_equal. lia.
Qed.

(** The two loops of a transform with a stateless scalar path. *)
Lemma batch_loops (lane scalar : float -> float) (input output : list float)
    (count : nat) (d : float) :
  (count <= length input)%nat -> (count <= length output)%nat ->
  let sc := (8 * (count / 8))%nat in
  for_loop sc count (fun i o => store o i (scalar (nth i input d)))
    (loop_lt sc 0 sc 8
       (fun i out => store_lanes out i (map lane (load_lanes input i 8))) output)
  = map lane (firstn sc input)
    ++ map scalar (firstn (count - sc) (skipn sc input))
    ++ skipn count output.
Proof.
  intros Hin Hout sc.
  assert (Hsc : (sc <= count)%nat)
    by (unfold sc; pose proof (Nat.div_mod_eq count 8); lia).
  unfold sc at 1 2 3. rewrite simd_loop_map by (fold sc; lia). fold sc.
  assert (Hl : length (map lane (firstn sc input)) = sc)
    by (rewrite length_map, length_firstn; lia).
  rewrite (tail_loop_map scalar input _ sc count d)
    by (try rewrite length_app, Hl, length_skipn; lia).
  rewrite firstn_app_exact by exact Hl.
  replace count with (sc + (count - sc))%nat at 2 by lia.
  rewrite skipn_app_exact by exact Hl.
  rewrite skipn_skipn.
  replace (count - sc + sc)%nat with count by lia.
  reflexivity.
Qed.

(** The scalar path of an instance with state, applied to a run of
    elements in order. *)
Fixpoint compute_each {St : Type} (f : St -> float -> float * St) (st : St)
    (xs : list float) : list float * St :=
  match xs with
  | [] => ([], st)
  | x :: rest =>
      let '(y, st) := f st x in
      let '(ys, st) := compute_each f st rest in
      (y :: ys, st)
  end.

Lemma compute_each_snoc {St : Type} (f : St -> float -> float * St)
    (xs : list float) (x : float) :
  forall st,
    compute_each f st (xs ++ [x])
    = (fst (compute_each f st xs) ++ [fst (f (snd (compute_each f st xs)) x)],
       snd (f (snd (compute_each f st xs)) x)).
Proof.
  induction xs as [| h t IH]; intros st; cbn [compute_each app fst snd].
  - destruct (f st x) as [y st']. reflexivity.
  - destruct (f st h) as [y st']. rewrite IH.
    destruct (compute_each f st' t) as [ys st'']. reflexivity.
Qed.

Lemma compute_each_length {St : Type} (f : St -> float -> float * St)
    (xs : list float) :
  forall st, length (fst (compute_each f st xs)) = length xs.
Proof.
  induction xs as [| h t IH]; intros st; cbn [compute_each]; [reflexivity|].
  destruct (f st h) as [y st']. specialize (IH st').
  destruct (compute_each f st' t) as [ys st'']. cbn in *. lia.
Qed.

(** The scalar loop of a transform whose scalar path has state. *)
Lemma tail_loop_state {St : Type} (f : St -> float -> float * St)
    (input out : list float) (st : St) (start count : nat) (d : float) :
  (start <= count)%nat -> (count <= length input)%nat -> (count <= length out)%nat ->
  for_loop start count
    (fun i '(o, st) => let '(y, st) := f st (nth i input d) in (store o i y, st))
    (out, st)
  = (firstn start out
       ++ fst (compute_each f st (firstn (count - start) (skipn start input)))
       ++ skipn count out,
     snd (compute_each f st (firstn (count - start) (skipn start input)))).
Proof.
  intros Hsc Hin Hout.
  apply (for_loop_invariant
           (fun i r =>
              r = (firstn start out
                     ++ fst (compute_each f st (firstn (i - start) (skipn start input)))
                     ++ skipn i out,
                   snd (compute_each f st (firstn (i - start) (skipn start input)))))).
  - exact Hsc.
  - rewrite Nat.sub_diag. cbn. rewrite firstn_skipn. reflexivity.
  - intros i t Hi IH. rewrite IH. clear IH.
    replace (S i - start)%nat with ((i - start) + 1)%nat by lia.
    rewrite firstn_plus, skipn_skipn.
    replace (i - start + start)%nat with i by lia.
    rewrite (skipn_cons_nth input i d) by lia. cbn [firstn].
    rewrite compute_each_snoc.
    set (prev := compute_each f st (firstn (i - start) (skipn start input))).
    assert (Hp : length (fst prev) = (i - start)%nat).
    { unfold prev. rewrite compute_each_length, length_firstn, length_skipn. lia. }
    destruct (f (snd prev) (nth i input d)) as [y st'] eqn:Ef. cbn [fst snd].
    f_equal.
    rewrite (skipn_cons_nth out i d) by lia.
    rewrite app_assoc.
    assert (E : forall (l : list float) h0 t0 v n,
               length l = n -> store (l ++ h0 :: t0) n v = l ++ v :: t0)
      by (intros l h0 t0 v n <-; apply store_app).
    rewrite E by (rewrite length_app, length_firstn, Hp; lia).
    rewrite <- !app_assoc. reflexivity.
Qed.

Definition f0_1 : float := of_bits 0x3DCCCCCD.
Definition f30_0 : float := of_bits 0x41F00000.

(** C6, as stated, fails for [NeuralRsqrt::compute_simd]: the scalar path
    of its last elements keeps statistics of the inputs seen so far, and
    the result for the input 0.1 at index 1 depends on the input at
    index 0. *)
Lemma neural_output_depends_on_neighbour :
  nth 1 [f30_0; f0_1] f0_0 = nth 1 [f0_1; f0_1] f0_0 /\
  nth 1 (fst (Neural.compute_simd Neural.FAST Neural.static_instance
                [f30_0; f0_1] [f0_0; f0_0] 2)) f0_0
  <> nth 1 (fst (Neural.compute_simd Neural.FAST Neural.static_instance
                   [f0_1; f0_1] [f0_0; f0_0] 2)) f0_0.
Proof. split; [reflexivity|]. vm_compute. discriminate. Qed.

(** C6, amended.  A transform writes exactly the first [count] elements of
    the output, in the order of the input: the elements of the full
    groups of eight are the lane kernel of the element at the same index,
    and the last [count mod 8] elements are computed by the scalar path in
    order.  For [ultra_rsqrt_avx2] the scalar path is a function of the
    element alone; for [NeuralRsqrt::compute_simd] it is [compute], run
    element after element on the state of the instance. *)
Theorem transform_in_order
    (rsqrt_ss rsqrt_ps : float -> float) (FMA : bool)
    (global_precision : Neural.PrecisionLevel) (self : Neural.NeuralRsqrt)
    (input output : list float) (count : nat) :
  (count <= length input)%nat -> (count <= length output)%nat ->
  Z.of_nat count < 2 ^ 64 ->
  let full := (8 * (count / 8))%nat in
  let rest := firstn (count - full) (skipn full input) in
  length rest = (count mod 8)%nat /\
  Ultra.ultra_rsqrt_avx2 rsqrt_ss rsqrt_ps FMA input output count
  = map (Ultra.avx2_lane rsqrt_ps FMA) (firstn full input)
    ++ map (Ultra.ultra_rsqrt rsqrt_ss) rest
    ++ skipn count output /\
  Neural.compute_simd global_precision self input output count
  = (map Neural.simd_lane (firstn full input)
     ++ fst (compute_each (Neural.compute global_precision) self rest)
     ++ skipn count output,
     snd (compute_each (Neural.compute global_precision) self rest)).
Proof.
  intros Hin Hout Hsize full rest.
  pose proof (Nat.div_mod_eq count 8) as Hdm.
  assert (Hfull : (full <= count)%nat) by (unfold full; lia).
  split; [|split].
  - unfold rest. rewrite length_firstn, length_skipn. unfold full. lia.
  - unfold Ultra.ultra_rsqrt_avx2. rewrite simd_count_8 by exact Hsize.
    apply batch_loops; assumption.
  - unfold Neural.compute_simd. rewrite simd_count_8 by exact Hsize. fold full.
    unfold full at 1 2. rewrite simd_loop_map by (fold full; lia). fold full.
    assert (Hl : length (map Neural.simd_lane (firstn full input)) = full)
      by (rewrite length_map, length_firstn; lia).
    rewrite (tail_loop_state (Neural.compute global_precision) input _ self full count f0_0)
      by (try rewrite length_app, Hl, length_skipn; lia).
    fold rest. f_equal.
    rewrite firstn_app_exact by exact Hl. f_equal. f_equal.
    replace count with (full + (count - full))%nat at 1 by lia.
    rewrite skipn_app_exact by exact Hl.
    rewrite skipn_skipn. f_equal. lia.
Qed.

Lemma transform_in_order_witness :
  Ultra.ultra_rsqrt_avx2 std_rsqrt std_rsqrt false
    (repeat f4_0 9) (repeat f0_0 10) 9
  = map (Ultra.avx2_lane std_rsqrt false) (firstn 8 (repeat f4_0 9))
    ++ map (Ultra.ultra_rsqrt std_rsqrt) (firstn 1 (skipn 8 (repeat f4_0 9)))
    ++ skipn 9 (repeat f0_0 10).
Proof.
  apply (transform_in_order std_rsqrt std_rsqrt false Neural.FAST
           Neural.static_instance (repeat f4_0 9) (repeat f0_0 10) 9);
    [cbn; lia | cbn; lia | reflexivity].
Defined.

(** ** Vector lanes against the scalar path *)



Lemma binary_round_aux_opp (s : bool) (m e : Z) (l : location) :
  binary_round_aux prec emax (negb s) m e l
  = fopp (binary_round_aux prec emax s m e l).
Proof.
  unfold binary_round_aux.
  destruct (shr_fexp prec emax m e l) as [mrs' e'].
  destruct (shr_fexp prec emax _ e' loc_Exact) as [mrs'' e''].
  destruct (shr_m mrs''); try reflexivity.
  destruct (e'' <=? emax - prec); reflexivity.
Qed.

Lemma fmul_opp_l (a b : float) : fmul (fopp a) b = fopp (fmul a b).
Proof.
  destruct a as [sa | sa | | sa ma ea], b as [sb | sb | | sb mb eb];
    cbn; try reflexivity; try (destruct sa, sb; reflexivity).
  rewrite <- binary_round_aux_opp. f_equal. destruct sa, sb; reflexivity.
Qed.





Local Open Scope Z_scope.

(** ** Rounding to nearest even, in integers *)

Lemma iter_pos_nat {A : Type} (f : A -> A) (p : positive) :
  forall x, iter_pos f p x = Nat.iter (Pos.to_nat p) f x.
Proof.
  induction p as [p IH | p IH |]; intros x; cbn [iter_pos].
  - rewrite !IH, Pos2Nat.inj_xI.
    replace (S (2 * Pos.to_nat p)) with (Pos.to_nat p + (Pos.to_nat p + 1))%nat by lia.
    rewrite !Nat.iter_add. reflexivity.
  - rewrite !IH, Pos2Nat.inj_xO.
    replace (2 * Pos.to_nat p)%nat with (Pos.to_nat p + Pos.to_nat p)%nat by lia.
    rewrite Nat.iter_add. reflexivity.
  - reflexivity.
Qed.

Definition b2z (b : bool) : Z := if b then 1 else 0.

(** A shift record that stands for [N / (2 * P)] with its round and
    sticky bits. *)
Definition shr_inv (N P : Z) (mrs : shr_record) : Prop :=
  0 <= shr_m mrs /\
  exists rho,
    N = P * (2 * shr_m mrs + b2z (shr_r mrs)) + rho /\
    0 <= rho < P /\
    (shr_s mrs = false <-> rho = 0).

Lemma shr_1_inv (N P : Z) (mrs : shr_record) :
  0 < P -> shr_inv N P mrs -> shr_inv N (2 * P) (shr_1 mrs).
Proof.
  intros HP (Hm & rho & HN & Hrho & Hs).
  destruct mrs as [m r s]. cbn [shr_m shr_r shr_s] in *.
  assert (Hstep : forall m' b : Z,
             0 <= m' -> m = 2 * m' + b -> (b = 0 \/ b = 1) ->
             shr_inv N (2 * P)
               {| shr_m := m'; shr_r := (b =? 1); shr_s := r || s |}).
  { intros m' b Hm' Hmb Hb. unfold shr_inv. cbn [shr_m shr_r shr_s].
    split; [exact Hm'|]. exists (P * b2z r + rho).
    assert (Hr : b2z r = 0 \/ b2z r = 1) by (destruct r; cbn; lia).
    assert (Hb1 : b2z (b =? 1) = b) by (destruct Hb; subst b; reflexivity).
    rewrite Hb1. subst m N. split; [ring|]. split; [nia|].
    destruct r, s; cbn [b2z orb] in *; split; intros H; try discriminate;
      try reflexivity; try nia;
      try (destruct Hs as [Hs _]; specialize (Hs eq_refl); nia);
      try (destruct Hs as [_ Hs]; apply Hs; nia). }
  destruct m as [| p | p]; [| | lia].
  - apply (Hstep 0 0); lia.
  - destruct p as [p | p |]; cbn [shr_1].
    + apply (Hstep (Zpos p) 1); lia.
    + apply (Hstep (Zpos p) 0); lia.
    + apply (Hstep 0 1); lia.
Qed.

Lemma shr_iter_inv (N : Z) (n : nat) (mrs : shr_record) (P : Z) :
  0 < P -> shr_inv N P mrs ->
  shr_inv N (2 ^ Z.of_nat n * P) (Nat.iter n shr_1 mrs).
Proof.
  intros HP H. induction n as [| n IH].
  - cbn [Nat.iter]. change (Z.of_nat 0) with 0.
    rewrite Z.pow_0_r, Z.mul_1_l. exact H.
  - cbn [Nat.iter]. rewrite Nat2Z.inj_succ, Z.pow_succ_r by lia.
    replace (2 * 2 ^ Z.of_nat n * P) with (2 * (2 ^ Z.of_nat n * P)) by ring.
    apply shr_1_inv; [|exact IH].
    apply Z.mul_pos_pos; [apply Z.pow_pos_nonneg; lia | exact HP].
Qed.

(** The shift of [binary_round_aux] by [n] places. *)
Lemma shr_exact_inv (M : positive) (e : Z) (n : positive) :
  exists mrs,
    shr (shr_record_of_loc (Zpos M) loc_Exact) e (Zpos n) = (mrs, e + Zpos n) /\
    shr_inv (2 * Zpos M) (2 ^ Zpos n) mrs.
Proof.
  unfold shr. eexists. split; [reflexivity|].
  rewrite iter_pos_nat.
  replace (2 ^ Zpos n) with (2 ^ Z.of_nat (Pos.to_nat n) * 1)
    by (rewrite positive_nat_Z; lia).
  apply shr_iter_inv; [lia|].
  unfold shr_inv. cbn [shr_record_of_loc shr_m shr_r shr_s b2z].
  split; [lia|]. exists 0. repeat split; lia.
Qed.

(** Rounding to nearest even moves the mantissa by half a unit at most. *)
Lemma round_nearest_even_inv (N P : Z) (mrs : shr_record) :
  0 < P -> shr_inv N P mrs ->
  let m' := round_nearest_even (shr_m mrs) (loc_of_shr_record mrs) in
  shr_m mrs <= m' <= shr_m mrs + 1 /\ - P <= 2 * P * m' - N <= P.
Proof.
  intros HP (Hm & rho & HN & Hrho & Hs) m'. subst m'.
  destruct mrs as [m r s]. cbn [shr_m shr_r shr_s] in *.
  destruct r, s; cbn [loc_of_shr_record round_nearest_even b2z] in *.
  - split; [lia|]. nia.
  - assert (rho = 0) by (apply Hs; reflexivity).
    destruct (Z.even m); split; try lia; nia.
  - split; [lia|]. nia.
  - assert (rho = 0) by (apply Hs; reflexivity). split; [lia|]. nia.
Qed.

Lemma digits2_pos_unique (m : positive) (d : Z) :
  2 ^ (d - 1) <= Zpos m < 2 ^ d -> Zpos (digits2_pos m) = d.
Proof.
  intros [Hlo Hhi].
  pose proof (digits2_pos_bounds m) as [Hlo' Hhi'].
  set (d' := Zpos (digits2_pos m)) in *.
  assert (Hd' : 0 < d') by (unfold d'; lia).
  assert (Hd : 0 < d).
  { destruct (Z.ltb_spec 0 d); [assumption|].
    assert (2 ^ d <= 2 ^ 0) by (apply Z.pow_le_mono_r; lia).
    change (2 ^ 0) with 1 in *. lia. }
  destruct (Z.lt_trichotomy d' d) as [H | [H | H]]; [| exact H |].
  - assert (2 ^ d' <= 2 ^ (d - 1)) by (apply Z.pow_le_mono_r; lia). lia.
  - assert (2 ^ d <= 2 ^ (d' - 1)) by (apply Z.pow_le_mono_r; lia). lia.
Qed.

Lemma fexp_normal (z : Z) : -125 <= z -> fexp prec emax z = z - 24.
Proof. unfold fexp, SpecFloat.emin, prec, emax. lia. Qed.

Lemma shr_fexp_carry (m2 : positive) (e : Z) :
  2 ^ 23 <= Zpos m2 <= 2 ^ 24 -> -149 <= e ->
  shr_fexp prec emax (Zpos m2) e loc_Exact
  = if Zpos m2 <? 2 ^ 24
    then ({| shr_m := Zpos m2; shr_r := false; shr_s := false |}, e)
    else ({| shr_m := 2 ^ 23; shr_r := false; shr_s := false |}, e + 1).
Proof.
  intros Hm He. unfold shr_fexp. cbn [Zdigits2 shr_record_of_loc].
  destruct (Z.ltb_spec (Zpos m2) (2 ^ 24)) as [Hlt | Hge].
  - rewrite (digits2_pos_unique m2 24) by (change (24 - 1) with 23; lia).
    rewrite fexp_normal by lia.
    replace (24 + e - 24 - e) with 0 by lia. reflexivity.
  - assert (Hm2 : m2 = 16777216%positive) by (change (2 ^ 24) with 16777216 in *; lia).
    subst m2. cbn [digits2_pos Pos.succ]. 
    rewrite fexp_normal by lia.
    replace (25 + e - 24 - e) with 1 by lia. reflexivity.
Qed.

(** [binary_round_aux] on an exact mantissa of [24 + n] digits, away from
    underflow and overflow. *)
Lemma round_aux_spec (s : bool) (M : positive) (E n : Z) :
  0 <= n -> Zpos (digits2_pos M) = 24 + n ->
  -149 <= E + n -> E + n + 1 <= 104 ->
  exists (m' : positive) (e' : Z),
    binary_round_aux prec emax s (Zpos M) E loc_Exact = S754_finite s m' e' /\
    2 ^ 23 <= Zpos m' < 2 ^ 24 /\
    E + n <= e' <= E + n + 1 /\
    - 2 ^ n <= 2 * (Zpos m' * 2 ^ (e' - E)) - 2 * Zpos M <= 2 ^ n.
Proof.
  intros Hn Hd He1 He2.
  pose proof (digits2_pos_bounds M) as HM. rewrite Hd in HM.
  replace (24 + n - 1) with (23 + n) in HM by lia.
  rewrite !Z.pow_add_r in HM by lia.
  assert (HP : 0 < 2 ^ n) by (apply Z.pow_pos_nonneg; lia).
  unfold binary_round_aux.
  assert (Hshift :
            exists mrs, shr_fexp prec emax (Zpos M) E loc_Exact = (mrs, E + n) /\
                        shr_inv (2 * Zpos M) (2 ^ n) mrs).
  { unfold shr_fexp. cbn [Zdigits2]. rewrite Hd, fexp_normal by lia.
    replace (24 + n + E - 24 - E) with n by lia.
    destruct n as [| p | p]; [| apply shr_exact_inv | lia].
    eexists. split; [unfold shr; rewrite Z.add_0_r; reflexivity|].
    unfold shr_inv. cbn [shr_record_of_loc shr_m shr_r shr_s b2z].
    split; [lia|]. exists 0. change (2 ^ 0) with 1. repeat split; lia. }
  destruct Hshift as (mrs & Hshr & Hinv). rewrite Hshr.
  pose proof (round_nearest_even_inv _ _ mrs HP Hinv) as [Hm2 Herr].
  set (m2 := round_nearest_even (shr_m mrs) (loc_of_shr_record mrs)) in *.
  assert (Hm1 : 2 ^ 23 <= shr_m mrs < 2 ^ 24).
  { destruct Hinv as (Hm & rho & HN & Hrho & _).
    assert (Hr : 0 <= b2z (shr_r mrs) <= 1) by (destruct (shr_r mrs); cbn; lia).
    change (2 ^ 23) with 8388608 in *. change (2 ^ 24) with 16777216 in *. nia. }
  assert (Hm2' : 2 ^ 23 <= m2 <= 2 ^ 24) by lia.
  clearbody m2.
  destruct m2 as [| q | q]; try (change (2 ^ 23) with 8388608 in *; lia).
  rewrite shr_fexp_carry by lia.
  destruct (Z.ltb_spec (Zpos q) (2 ^ 24)) as [Hlt | Hge]; cbn [shr_m].
  - destruct (Z.leb_spec (E + n) (emax - prec)) as [_ | Hov];
      [| unfold emax, prec in Hov; lia].
    exists q, (E + n). split; [reflexivity|]. split; [lia|]. split; [lia|].
    replace (E + n - E) with n by lia. nia.
  - change (2 ^ 23) with 8388608 at 1.
    destruct (Z.leb_spec (E + n + 1) (emax - prec)) as [_ | Hov];
      [| unfold emax, prec in Hov; lia].
    exists 8388608%positive, (E + n + 1). split; [reflexivity|].
    split; [change (2 ^ 23) with 8388608; change (2 ^ 24) with 16777216; lia|].
    split; [lia|].
    replace (E + n + 1 - E) with (n + 1) by lia.
    rewrite Z.pow_add_r by lia. change (2 ^ 1) with 2.
    assert (Zpos q = 16777216) by (change (2 ^ 24) with 16777216 in *; lia).
    nia.
Qed.

(** ** Real values of floats *)

Local Open Scope R_scope.

Definition bpow (e : Z) : R := powerRZ 2 e.

Definition F2R (f : float) : R :=
  match f with
  | S754_finite s m e => (if s then -1 else 1) * IZR (Zpos m) * bpow e
  | _ => 0
  end.

Lemma bpow_pos (e : Z) : 0 < bpow e.
Proof. apply powerRZ_lt. lra. Qed.

Lemma bpow_add (a b : Z) : bpow (a + b) = bpow a * bpow b.
Proof. apply powerRZ_add. lra. Qed.

Lemma bpow_IZR (k : Z) : (0 <= k)%Z -> bpow k = IZR (2 ^ k).
Proof.
  intros Hk. unfold bpow.
  rewrite <- (Z2Nat.id k) by exact Hk.
  rewrite <- pow_powerRZ, pow_IZR. reflexivity.
Qed.

Lemma bpow_ge_1 (k : Z) : (0 <= k)%Z -> 1 <= bpow k.
Proof.
  intros Hk. rewrite bpow_IZR by exact Hk.
  apply IZR_le. pose proof (Z.pow_pos_nonneg 2 k). lia.
Qed.

Lemma bpow_le (a b : Z) : (a <= b)%Z -> bpow a <= bpow b.
Proof.
  intros H.
  assert (E : bpow b = bpow a * bpow (b - a))
    by (rewrite <- bpow_add; f_equal; lia).
  pose proof (bpow_pos a). pose proof (bpow_ge_1 (b - a) ltac:(lia)). nra.
Qed.

Lemma bpow_lt (a b : Z) : (a < b)%Z -> bpow a < bpow b.
Proof.
  intros H.
  assert (E : bpow b = bpow a * bpow 1 * bpow (b - a - 1))
    by (rewrite <- !bpow_add; f_equal; lia).
  pose proof (bpow_pos a). pose proof (bpow_ge_1 (b - a - 1) ltac:(lia)).
  replace (bpow 1) with 2 in E by (rewrite bpow_IZR by lia; reflexivity). nra.
Qed.

Lemma bpow_lt_inv (a b : Z) : bpow a < bpow b -> (a < b)%Z.
Proof.
  intros H. destruct (Z.lt_ge_cases a b) as [Hlt | Hge]; [exact Hlt|].
  pose proof (bpow_le b a Hge). lra.
Qed.

Lemma bpow_opp (k : Z) : bpow (- k) = / bpow k.
Proof. apply powerRZ_neg'. Qed.

(** Positive normal floats. *)
Definition normal_pos (f : float) : Prop :=
  exists (m : positive) (e : Z),
    f = S754_finite false m e /\
    (2 ^ 23 <= Zpos m < 2 ^ 24)%Z /\ (-149 <= e <= 104)%Z.

Lemma mantissa_real (m : positive) :
  (2 ^ 23 <= Zpos m < 2 ^ 24)%Z -> bpow 23 <= IZR (Zpos m) < bpow 24.
Proof.
  intros [Hlo Hhi]. rewrite !bpow_IZR by lia.
  split; [apply IZR_le | apply IZR_lt]; assumption.
Qed.

Lemma normal_value (m : positive) (e : Z) :
  (2 ^ 23 <= Zpos m < 2 ^ 24)%Z ->
  bpow (e + 23) <= IZR (Zpos m) * bpow e < bpow (e + 24).
Proof.
  intros Hm. apply mantissa_real in Hm.
  rewrite !(Z.add_comm e), !bpow_add. pose proof (bpow_pos e). nra.
Qed.

(** The result of rounding an exact positive value away from underflow
    and overflow: a normal float within half a unit in the last place. *)
Lemma round_aux_real (M : positive) (E n : Z) :
  (0 <= n)%Z -> Zpos (digits2_pos M) = (24 + n)%Z ->
  (-149 <= E + n)%Z -> (E + n + 1 <= 104)%Z ->
  exists f,
    binary_round_aux prec emax false (Zpos M) E loc_Exact = f /\
    normal_pos f /\
    Rabs (F2R f - IZR (Zpos M) * bpow E) <= IZR (Zpos M) * bpow E * bpow (-24).
Proof.
  intros Hn Hd He1 He2.
  destruct (round_aux_spec false M E n Hn Hd He1 He2)
    as (m' & e' & Hr & Hm' & He' & Herr).
  exists (S754_finite false m' e'). split; [exact Hr|].
  split; [exists m', e'; repeat split; lia|].
  pose proof (digits2_pos_bounds M) as HM. rewrite Hd in HM.
  replace (24 + n - 1)%Z with (n + 23)%Z in HM by lia.
  rewrite Z.pow_add_r in HM by lia.
  cbn [F2R]. rewrite Rmult_1_l.
  replace e' with ((e' - E) + E)%Z at 1 by lia.
  rewrite bpow_add, (bpow_IZR (e' - E)) by lia.
  set (k := (e' - E)%Z) in *.
  replace (IZR (Zpos m') * (IZR (2 ^ k) * bpow E) - IZR (Zpos M) * bpow E)
    with (IZR (Zpos m' * 2 ^ k - Zpos M) * bpow E)
    by (rewrite minus_IZR, mult_IZR; ring).
  pose proof (bpow_pos E) as HE.
  rewrite Rabs_mult, (Rabs_pos_eq (bpow E)) by lra.
  rewrite (Rmult_comm _ (bpow E)), (Rmult_comm (IZR (Zpos M))), Rmult_assoc.
  apply Rmult_le_compat_l; [lra|].
  replace (bpow (-24)) with (/ IZR (2 ^ 24))
    by (rewrite <- bpow_IZR, <- bpow_opp by lia; reflexivity).
  apply Rabs_le.
  assert (H24 : 0 < IZR (2 ^ 24)) by (apply IZR_lt; reflexivity).
  assert (H1 : IZR (2 ^ n * 2 ^ 23) <= IZR (Zpos M)) by (apply IZR_le; lia).
  assert (H2 : IZR (- 2 ^ n) <= IZR (2 * (Zpos m' * 2 ^ k) - 2 * Zpos M))
    by (apply IZR_le; lia).
  assert (H3 : IZR (2 * (Zpos m' * 2 ^ k) - 2 * Zpos M) <= IZR (2 ^ n))
    by (apply IZR_le; lia).
  rewrite mult_IZR in H1. rewrite opp_IZR in H2.
  rewrite !minus_IZR, !mult_IZR in H2, H3. rewrite minus_IZR, mult_IZR.
  change (IZR (2 ^ 23)) with 8388608 in H1. change (IZR (2 ^ 24)) with 16777216 in *.
  set (a := IZR (Zpos m') * IZR (2 ^ k)) in *.
  set (b := IZR (Zpos M)) in *. set (c := IZR (2 ^ n)) in *.
  split.
  - apply Rmult_le_reg_r with 16777216; [lra|].
    replace (- (b * / 16777216) * 16777216) with (- b) by (field; lra). lra.
  - apply Rmult_le_reg_r with 16777216; [lra|].
    replace (b * / 16777216 * 16777216) with b by (field; lra). lra.
Qed.

Lemma F2R_normal (m : positive) (e : Z) :
  F2R (S754_finite false m e) = IZR (Zpos m) * bpow e.
Proof. cbn [F2R]. ring. Qed.

Lemma normal_pos_gt0 (f : float) : normal_pos f -> 0 < F2R f.
Proof.
  intros (m & e & -> & Hm & He). rewrite F2R_normal.
  apply Rmult_lt_0_compat; [apply IZR_lt; lia | apply bpow_pos].
Qed.

(** The product of two normal floats whose exact product is far from
    underflow and overflow. *)
Lemma fmul_spec (a b : float) :
  normal_pos a -> normal_pos b ->
  bpow (-100) <= F2R a * F2R b <= bpow 100 ->
  normal_pos (fmul a b) /\
  Rabs (F2R (fmul a b) - F2R a * F2R b) <= F2R a * F2R b * bpow (-24).
Proof.
  intros (ma & ea & -> & Hma & Hea) (mb & eb & -> & Hmb & Heb) [Hlo Hhi].
  rewrite !F2R_normal in *.
  pose proof (normal_value ma ea Hma) as [Va1 Va2].
  pose proof (normal_value mb eb Hmb) as [Vb1 Vb2].
  pose proof (bpow_pos (ea + 23)) as Pa. pose proof (bpow_pos (eb + 23)) as Pb.
  assert (HE1 : (-148 < ea + eb)%Z).
  { assert (bpow (-100) < bpow (ea + 24 + (eb + 24))) by (rewrite bpow_add; nra).
    apply bpow_lt_inv in H. lia. }
  assert (HE2 : (ea + eb < 55)%Z).
  { assert (bpow (ea + 23 + (eb + 23)) < bpow 101).
    { rewrite bpow_add. pose proof (bpow_lt 100 101 ltac:(lia)). nra. }
    apply bpow_lt_inv in H. lia. }
  assert (HM : (2 ^ 46 <= Zpos (ma * mb) < 2 ^ 48)%Z).
  { rewrite Pos2Z.inj_mul.
    change (2 ^ 46)%Z with (2 ^ 23 * 2 ^ 23)%Z.
    change (2 ^ 48)%Z with (2 ^ 24 * 2 ^ 24)%Z. nia. }
  set (n := if (Zpos (ma * mb) <? 2 ^ 47)%Z then 23%Z else 24%Z).
  assert (Hd : Zpos (digits2_pos (ma * mb)) = (24 + n)%Z).
  { unfold n. destruct (Z.ltb_spec (Zpos (ma * mb)) (2 ^ 47)).
    - apply digits2_pos_unique. change (24 + 23 - 1)%Z with 46%Z.
      change (24 + 23)%Z with 47%Z. lia.
    - apply digits2_pos_unique. change (24 + 24 - 1)%Z with 47%Z.
      change (24 + 24)%Z with 48%Z. lia. }
  assert (Hn : (23 <= n <= 24)%Z)
    by (unfold n; destruct (Zpos (ma * mb) <? 2 ^ 47)%Z; lia).
  destruct (round_aux_real (ma * mb) (ea + eb) n) as (f & Hf & Hnf & Herr);
    [lia | exact Hd | lia | lia |].
  unfold fmul, SFmul. cbn [xorb]. rewrite Hf.
  split; [exact Hnf|].
  replace (IZR (Zpos ma) * bpow ea * (IZR (Zpos mb) * bpow eb))
    with (IZR (Zpos (ma * mb)) * bpow (ea + eb))
    by (rewrite Pos2Z.inj_mul, mult_IZR, bpow_add; ring).
  exact Herr.
Qed.

(** ** Alignment and normalization *)

Lemma iter_xO (p : positive) (m : positive) :
  Zpos (Pos.iter xO m p) = (Zpos m * 2 ^ Zpos p)%Z.
Proof.
  change (Pos.iter xO m p) with (shift_pos p m).
  rewrite shift_pos_correct. rewrite Zpower_pos_nat, Zpower_nat_Z, positive_nat_Z.
  ring.
Qed.

Lemma shl_align_value (m : positive) (e ez : Z) :
  (ez <= e)%Z ->
  Zpos (fst (shl_align m e ez)) = (Zpos m * 2 ^ (e - ez))%Z.
Proof.
  intros H. unfold shl_align.
  destruct (ez - e)%Z as [| p | p] eqn:E; cbn [fst].
  - replace (e - ez)%Z with 0%Z by lia. change (2 ^ 0)%Z with 1%Z. lia.
  - lia.
  - rewrite iter_xO. f_equal. f_equal. lia.
Qed.

(** [binary_round] on an exact positive value away from underflow and
    overflow. *)
Lemma binary_round_real (M : positive) (E : Z) :
  (-125 <= Zpos (digits2_pos M) + E <= 127)%Z ->
  exists f,
    binary_round prec emax false M E = f /\
    normal_pos f /\
    Rabs (F2R f - IZR (Zpos M) * bpow E) <= IZR (Zpos M) * bpow E * bpow (-24).
Proof.
  intros Hr. unfold binary_round.
  set (d := Zpos (digits2_pos M)) in *.
  rewrite fexp_normal by lia.
  pose proof (digits2_pos_bounds M) as HM. fold d in HM.
  assert (Hd0 : (0 < d)%Z) by (unfold d; lia).
  unfold shl_align.
  destruct (d + E - 24 - E)%Z as [| p | p] eqn:Ed.
  - apply (round_aux_real M E 0); fold d; lia.
  - apply (round_aux_real M E (Zpos p)); fold d; lia.
  - assert (Hsh : Zpos (Pos.iter xO M p) = (Zpos M * 2 ^ Zpos p)%Z) by apply iter_xO.
    assert (Hp : (Zpos p = 24 - d)%Z) by lia.
    assert (Hd' : Zpos (digits2_pos (Pos.iter xO M p)) = (24 + 0)%Z).
    { apply digits2_pos_unique. rewrite Hsh, Hp.
      change (24 + 0 - 1)%Z with 23%Z. change (24 + 0)%Z with 24%Z.
      assert (E23 : (2 ^ 23 = 2 ^ (d - 1) * 2 ^ (24 - d))%Z)
        by (rewrite <- Z.pow_add_r by lia; f_equal; lia).
      assert (E24 : (2 ^ 24 = 2 ^ d * 2 ^ (24 - d))%Z)
        by (rewrite <- Z.pow_add_r by lia; f_equal; lia).
      rewrite E23, E24.
      assert (0 < 2 ^ (24 - d))%Z by (apply Z.pow_pos_nonneg; lia). nia. }
    destruct (round_aux_real (Pos.iter xO M p) (d + E - 24) 0)
      as (f & Hf & Hnf & Herr); [lia | exact Hd' | lia | lia |].
    exists f. split; [exact Hf|]. split; [exact Hnf|].
    assert (Hv : IZR (Zpos (Pos.iter xO M p)) * bpow (d + E - 24)
                 = IZR (Zpos M) * bpow E).
    { rewrite Hsh, mult_IZR, <- bpow_IZR by lia.
      rewrite Rmult_assoc, <- bpow_add. f_equal. f_equal. lia. }
    rewrite Hv in Herr. exact Herr.
Qed.

Lemma aligned_value (m : positive) (e ez : Z) :
  (ez <= e)%Z ->
  IZR (Zpos (fst (shl_align m e ez))) * bpow ez = IZR (Zpos m) * bpow e.
Proof.
  intros H. rewrite shl_align_value by exact H.
  rewrite mult_IZR, <- bpow_IZR by lia.
  rewrite Rmult_assoc, <- bpow_add. f_equal. f_equal. lia.
Qed.

Lemma digits_value (M : positive) (E : Z) :
  bpow (Zpos (digits2_pos M) - 1 + E) <= IZR (Zpos M) * bpow E
  < bpow (Zpos (digits2_pos M) + E).
Proof.
  pose proof (digits2_pos_bounds M) as [Hlo Hhi].
  rewrite !bpow_add. pose proof (bpow_pos E).
  rewrite (bpow_IZR (Zpos (digits2_pos M) - 1)) by lia.
  rewrite (bpow_IZR (Zpos (digits2_pos M))) by lia.
  apply IZR_le in Hlo. apply IZR_lt in Hhi. nra.
Qed.

(** [binary_normalize] on an integer whose value is positive and far from
    underflow and overflow. *)
Lemma binary_normalize_real (D E : Z) :
  bpow (-100) <= IZR D * bpow E <= bpow 100 ->
  normal_pos (binary_normalize prec emax D E false) /\
  Rabs (F2R (binary_normalize prec emax D E false) - IZR D * bpow E)
  <= IZR D * bpow E * bpow (-24).
Proof.
  intros [Hlo Hhi]. pose proof (bpow_pos E) as HE. pose proof (bpow_pos (-100)) as H100.
  destruct D as [| P | P].
  - rewrite Rmult_0_l in Hlo. lra.
  - cbn [binary_normalize].
    pose proof (digits_value P E) as [V1 V2].
    assert (H1 : (-100 < Zpos (digits2_pos P) + E)%Z)
      by (apply bpow_lt_inv; lra).
    assert (H2 : (Zpos (digits2_pos P) - 1 + E < 101)%Z).
    { apply bpow_lt_inv. pose proof (bpow_lt 100 101 ltac:(lia)). lra. }
    destruct (binary_round_real P E) as (f & Hf & Hnf & Herr); [lia|].
    rewrite Hf. split; assumption.
  - assert (IZR (Zneg P) < 0) by (apply IZR_lt; lia). nra.
Qed.

(** The difference of two normal floats, the larger first. *)
Lemma fsub_spec (a b : float) :
  normal_pos a -> normal_pos b ->
  bpow (-100) <= F2R a - F2R b <= bpow 100 ->
  normal_pos (fsub a b) /\
  Rabs (F2R (fsub a b) - (F2R a - F2R b)) <= (F2R a - F2R b) * bpow (-24).
Proof.
  intros (ma & ea & -> & Hma & Hea) (mb & eb & -> & Hmb & Heb) Hr.
  rewrite !F2R_normal in *.
  unfold fsub, SFsub. cbn [cond_Zopp].
  set (ez := Z.min ea eb).
  assert (Hv : IZR (Zpos (fst (shl_align ma ea ez)) - Zpos (fst (shl_align mb eb ez)))
               * bpow ez
               = IZR (Zpos ma) * bpow ea - IZR (Zpos mb) * bpow eb).
  { rewrite minus_IZR, Rmult_minus_distr_r.
    rewrite !aligned_value by (unfold ez; lia). reflexivity. }
  rewrite <- Hv in *. apply binary_normalize_real. exact Hr.
Qed.

(** The sum of two normal floats. *)
Lemma fadd_spec (a b : float) :
  normal_pos a -> normal_pos b ->
  bpow (-100) <= F2R a + F2R b <= bpow 100 ->
  normal_pos (fadd a b) /\
  Rabs (F2R (fadd a b) - (F2R a + F2R b)) <= (F2R a + F2R b) * bpow (-24).
Proof.
  intros (ma & ea & -> & Hma & Hea) (mb & eb & -> & Hmb & Heb) Hr.
  rewrite !F2R_normal in *.
  unfold fadd, SFadd. cbn [cond_Zopp].
  set (ez := Z.min ea eb).
  assert (Hv : IZR (Zpos (fst (shl_align ma ea ez)) + Zpos (fst (shl_align mb eb ez)))
               * bpow ez
               = IZR (Zpos ma) * bpow ea + IZR (Zpos mb) * bpow eb).
  { rewrite plus_IZR, Rmult_plus_distr_r.
    rewrite !aligned_value by (unfold ez; lia). reflexivity. }
  rewrite <- Hv in *. apply binary_normalize_real. exact Hr.
Qed.

Local Open Scope Z_scope.

(** ** The initial guess on a normal float *)

Lemma to_bits_normal (m : positive) (e : Z) :
  2 ^ 23 <= Zpos m < 2 ^ 24 ->
  to_bits (S754_finite false m e) = (e + 150) * 2 ^ 23 + (Zpos m - 2 ^ 23).
Proof.
  intros Hm. cbn [to_bits sign_bit].
  change 0x800000 with (2 ^ 23).
  destruct (Z.ltb_spec (Zpos m) (2 ^ 23)); [lia|].
  rewrite Z.shiftl_mul_pow2 by lia. lia.
Qed.

Lemma of_bits_normal (E M : Z) :
  0 < E < 255 -> 0 <= M < 2 ^ 23 ->
  of_bits (E * 2 ^ 23 + M) = S754_finite false (Z.to_pos (M + 2 ^ 23)) (E - 150).
Proof.
  intros HE HM. rewrite of_bits_fields by lia.
  destruct (Z.eqb_spec E 0); [lia|].
  change 0x800000 with (2 ^ 23).
  destruct (M + 2 ^ 23) as [| p | p] eqn:Ep; try lia. reflexivity.
Qed.

(** The magic constants of the sources are [190 * 2^23 + C] for a [C]
    below [2^22]; the guess has one of three shapes, by the parity of the
    exponent field of [x] and a borrow from its mantissa field. *)
Lemma approximate_normal (C : Z) (m : positive) (e : Z) :
  2 ^ 23 <= Zpos m < 2 ^ 24 -> -149 <= e <= 104 -> 0 <= C < 2 ^ 22 ->
  exists (k j h : Z) (my : positive) (ey : Z),
    approximate (190 * 2 ^ 23 + C) (S754_finite false m e)
    = S754_finite false my ey /\
    e + 150 = 2 * k + j /\ 0 <= k <= 127 /\
    2 * h <= Zpos m - 2 ^ 23 <= 2 * h + 1 /\
    ((j = 0 /\ h <= C /\ Zpos my = 2 ^ 23 + C - h /\ ey = 40 - k) \/
     (j = 0 /\ C < h /\ Zpos my = 2 ^ 24 + C - h /\ ey = 39 - k) \/
     (j = 1 /\ Zpos my = 2 ^ 23 + 2 ^ 22 + C - h /\ ey = 39 - k)).
Proof.
  intros Hm He HC.
  unfold approximate. rewrite to_bits_normal by exact Hm.
  set (f := Zpos m - 2 ^ 23).
  set (k := (e + 150) / 2). set (j := (e + 150) mod 2). set (h := f / 2).
  assert (Hkj : e + 150 = 2 * k + j) by (unfold k, j; apply Z.div_mod; lia).
  assert (Hj : j = 0 \/ j = 1) by (unfold j; pose proof (Z.mod_pos_bound (e + 150) 2); lia).
  assert (Hh : 2 * h <= f <= 2 * h + 1).
  { unfold h. pose proof (Z.div_mod f 2 ltac:(lia)).
    pose proof (Z.mod_pos_bound f 2 ltac:(lia)). lia. }
  assert (Hf : 0 <= f < 2 ^ 23) by (unfold f; change (2 ^ 24) with (2 * 2 ^ 23) in Hm; lia).
  rewrite Z.shiftr_div_pow2 by lia. change (2 ^ 1) with 2.
  assert (Hdiv : ((e + 150) * 2 ^ 23 + f) / 2 = k * 2 ^ 23 + j * 2 ^ 22 + h).
  { symmetry. apply (Z.div_unique_pos _ _ _ (f - 2 * h)); [lia|].
    rewrite Hkj. change (2 ^ 23) with (2 * 2 ^ 22). ring. }
  rewrite Hdiv.
  assert (Hk : 0 <= k <= 127) by lia.
  change (2 ^ 22) with 4194304 in *. change (2 ^ 23) with 8388608 in *.
  change (2 ^ 24) with 16777216 in *.
  exists k, j, h.
  destruct Hj as [Hj | Hj]; rewrite Hj in *.
  - destruct (Z_le_gt_dec h C) as [HhC | HhC].
    + exists (Z.to_pos (C - h + 8388608)), (190 - k - 150).
      split.
      * rewrite wrap32_small by (change (2 ^ 32) with 4294967296; lia).
        replace (190 * 8388608 + C - (k * 8388608 + 0 * 4194304 + h))
          with ((190 - k) * 2 ^ 23 + (C - h)) by (change (2 ^ 23) with 8388608; lia).
        apply of_bits_normal; change (2 ^ 23) with 8388608; lia.
      * repeat split; lia.
    + exists (Z.to_pos (8388608 + C - h + 8388608)), (189 - k - 150).
      split.
      * rewrite wrap32_small by (change (2 ^ 32) with 4294967296; lia).
        replace (190 * 8388608 + C - (k * 8388608 + 0 * 4194304 + h))
          with ((189 - k) * 2 ^ 23 + (8388608 + C - h)) by (change (2 ^ 23) with 8388608; lia).
        apply of_bits_normal; change (2 ^ 23) with 8388608; lia.
      * repeat split; lia.
  - exists (Z.to_pos (4194304 + C - h + 8388608)), (189 - k - 150).
    split.
    + rewrite wrap32_small by (change (2 ^ 32) with 4294967296; lia).
      replace (190 * 8388608 + C - (k * 8388608 + 1 * 4194304 + h))
        with ((189 - k) * 2 ^ 23 + (4194304 + C - h)) by (change (2 ^ 23) with 8388608; lia).
      apply of_bits_normal; change (2 ^ 23) with 8388608; lia.
    + repeat split; lia.
Qed.

Local Open Scope R_scope.

(** ** Two bounds on a cubic *)

Lemma cubic_upper (B F : R) :
  F <= (4 * B + 1) / 3 ->
  (1 + F) * (B - F) * (B - F) / 4 <= (B + 1) * (B + 1) * (B + 1) / 27.
Proof.
  intros H.
  assert (Hc : 0 <= (F - (B - 2) / 3) * (F - (B - 2) / 3) * ((4 * B + 1) / 3 - F)).
  { apply Rmult_le_pos; [|lra]. apply Rle_0_sqr. }
  nra.
Qed.

Lemma cubic_lower (B a b F L : R) :
  a < b -> a <= F <= b -> a + 2 * b + 1 <= 2 * B ->
  L <= (1 + a) * (B - a) * (B - a) ->
  L <= (1 + b) * (B - b) * (B - b) ->
  L <= (1 + F) * (B - F) * (B - F).
Proof.
  intros Hab [HaF HFb] Ht La Lb.
  assert (H1 : 0 <= (b - F) * ((1 + a) * (B - a) * (B - a) - L))
    by (apply Rmult_le_pos; lra).
  assert (H2 : 0 <= (F - a) * ((1 + b) * (B - b) * (B - b) - L))
    by (apply Rmult_le_pos; lra).
  assert (H3 : 0 <= (b - a) * ((F - a) * (b - F) * (2 * B - 1 - a - b - F))).
  { apply Rmult_le_pos; [lra|]. apply Rmult_le_pos; [|lra].
    apply Rmult_le_pos; lra. }
  assert (H4 : 0 <= (b - a) * ((1 + F) * (B - F) * (B - F) - L)) by nra.
  apply Rmult_le_reg_l with (b - a); [lra|]. nra.
Qed.

Lemma cube_le (x y : R) : 0 <= x <= y -> x * x * x <= y * y * y.
Proof.
  intros [H0 H1].
  assert (x * x <= y * y) by nra.
  assert (0 <= x * x) by nra. nra.
Qed.

(** The square of the guess's relative value [(1 + F) (B - T)^2 / K],
    where [F] is the fraction of [x], [T <= F] its truncated half twice,
    on a piece [a <= T <= b] of the fractions. *)
Lemma guess_piece (B F T a b K Bmax : R) :
  0 <= a -> a < b -> b <= 1 -> a <= T <= b ->
  T <= F <= T + / 8388608 ->
  2 <= B -> B + / 8388608 + 1 <= Bmax -> 0 < K ->
  a + 2 * b + 1 <= 2 * B ->
  93 / 100 * K <= (1 + a) * (B - a) * (B - a) ->
  93 / 100 * K <= (1 + b) * (B - b) * (B - b) ->
  4 * (Bmax * Bmax * Bmax) / 27 <= 107 / 100 * K ->
  93 / 100 * K <= (1 + F) * (B - T) * (B - T) <= 107 / 100 * K.
Proof.
  intros Ha Hab Hb HT HF HB HBmax HK Ht La Lb Ub.
  assert (Hd : 0 < / 8388608) by lra.
  split.
  - pose proof (cubic_lower B a b T (93 / 100 * K) Hab HT Ht La Lb) as Hl.
    assert (0 <= (B - T) * (B - T)) by nra.
    nra.
  - set (B' := B + / 8388608).
    assert (H1 : (1 + F) * (B - T) * (B - T) <= (1 + F) * (B' - F) * (B' - F)).
    { assert (0 <= B - T) by lra. assert (B - T <= B' - F) by (unfold B'; lra).
      assert ((B - T) * (B - T) <= (B' - F) * (B' - F)) by nra.
      assert (0 <= 1 + F) by lra. nra. }
    pose proof (cubic_upper B' F ltac:(unfold B'; lra)) as H2.
    pose proof (cube_le (B' + 1) Bmax ltac:(unfold B'; lra)) as H3.
    lra.
Qed.

(** The initial guess [y] of a normal [x] is a normal float with
    [0.93 <= x y^2 <= 1.07], for the magic constants [0x5f37599e] to
    [0x5f375a86]. *)
Lemma initial_guess_wide (C : Z) (m : positive) (e : Z) :
  (2 ^ 23 <= Zpos m < 2 ^ 24)%Z -> (-149 <= e <= 104)%Z ->
  (3627422 <= C <= 3627654)%Z ->
  let x := S754_finite false m e in
  let y := approximate (190 * 2 ^ 23 + C) x in
  normal_pos y /\ 93 / 100 <= F2R x * F2R y * F2R y <= 107 / 100.
Proof.
  intros Hm He HC x y.
  destruct (approximate_normal C m e Hm He) as (k & j & h & my & ey & Hy & Hkj & Hk & Hh & Hcase);
    [change (2 ^ 22)%Z with 4194304%Z; lia|].
  unfold y, x. rewrite Hy. clear Hy x y.
  change (2 ^ 23)%Z with 8388608%Z in *. change (2 ^ 24)%Z with 16777216%Z in *.
  change (2 ^ 22)%Z with 4194304%Z in *.
  assert (Hmy : (8388608 <= Zpos my < 16777216)%Z) by lia.
  assert (Hey : (-149 <= ey <= 104)%Z) by lia.
  split; [exists my, ey; repeat split;
          change (2 ^ 23)%Z with 8388608%Z; change (2 ^ 24)%Z with 16777216%Z; lia|].
  rewrite !F2R_normal.
  set (F := IZR (Zpos m - 8388608) / 8388608).
  set (T := 2 * IZR h / 8388608).
  set (c := IZR C / 8388608).
  assert (Hc : 3627422 / 8388608 <= c <= 3627654 / 8388608).
  { unfold c. destruct HC as [C1 C2]. apply IZR_le in C1, C2. split; lra. }
  assert (HTF : T <= F <= T + / 8388608).
  { unfold T, F. destruct Hh as [H1 H2]. apply IZR_le in H1, H2.
    rewrite mult_IZR in H1. rewrite plus_IZR, mult_IZR in H2. split; lra. }
  assert (HT0 : 0 <= T).
  { unfold T. assert (0 <= h)%Z by lia. apply IZR_le in H. lra. }
  assert (HF1 : F <= 1).
  { unfold F. assert (Zpos m - 8388608 <= 8388608)%Z by lia. apply IZR_le in H. lra. }
  assert (Hmr : IZR (Zpos m) = 8388608 * (1 + F)).
  { unfold F. rewrite minus_IZR. field. }
  assert (Hval : forall B K : R,
             IZR (Zpos my) = 4194304 * (B - T) ->
             bpow (e + ey + ey) = / (K * 8388608 * 4194304 * 4194304) ->
             0 < K ->
             93 / 100 * K <= (1 + F) * (B - T) * (B - T) <= 107 / 100 * K ->
             93 / 100 <= IZR (Zpos m) * bpow e * (IZR (Zpos my) * bpow ey)
                         * (IZR (Zpos my) * bpow ey) <= 107 / 100).
  { intros B K Hmyr Hbp HK Hb.
    replace (IZR (Zpos m) * bpow e * (IZR (Zpos my) * bpow ey) * (IZR (Zpos my) * bpow ey))
      with (IZR (Zpos m) * IZR (Zpos my) * IZR (Zpos my) * bpow (e + ey + ey))
      by (rewrite !bpow_add; ring).
    rewrite Hmr, Hmyr, Hbp.
    replace (8388608 * (1 + F) * (4194304 * (B - T)) * (4194304 * (B - T))
             * / (K * 8388608 * 4194304 * 4194304))
      with ((1 + F) * (B - T) * (B - T) / K) by (field; lra).
    destruct Hb as [Hb1 Hb2]. split.
    - apply Rmult_le_reg_r with K; [exact HK|].
      replace ((1 + F) * (B - T) * (B - T) / K * K)
        with ((1 + F) * (B - T) * (B - T)) by (field; lra). lra.
    - apply Rmult_le_reg_r with K; [exact HK|].
      replace ((1 + F) * (B - T) * (B - T) / K * K)
        with ((1 + F) * (B - T) * (B - T)) by (field; lra). lra. }
  assert (Hbp : forall p : positive, bpow (Zneg p) = / IZR (2 ^ Zpos p)).
  { intros p. change (Zneg p) with (Z.opp (Zpos p)).
    rewrite bpow_opp, bpow_IZR by lia. reflexivity. }
  destruct Hcase as [(Hj & HhC & Hmyv & Heyv) | [(Hj & HhC & Hmyv & Heyv) | (Hj & Hmyv & Heyv)]].
  - (* even exponent field, no borrow *)
    apply (Hval (2 + 2 * c) 8).
    + rewrite Hmyv. unfold T, c. rewrite minus_IZR, plus_IZR. field.
    + replace (e + ey + ey)%Z with (- 70)%Z by lia. rewrite Hbp.
      f_equal. change (2 ^ 70)%Z with 1180591620717411303424%Z. lra.
    + lra.
    + assert (HTc : T <= 2 * c).
      { unfold T, c. apply IZR_le in HhC. lra. }
      apply (guess_piece (2 + 2 * c) F T 0 (2 * c) 8 (32421133 / 8388608));
        try lra; try nra.
  - (* even exponent field, borrow *)
    apply (Hval (4 + 2 * c) 32).
    + rewrite Hmyv. unfold T, c. rewrite minus_IZR, plus_IZR. field.
    + replace (e + ey + ey)%Z with (- 72)%Z by lia. rewrite Hbp.
      f_equal. change (2 ^ 72)%Z with 4722366482869645213696%Z. lra.
    + lra.
    + assert (HTc : 2 * c <= T).
      { unfold T, c. assert (C <= h)%Z by lia. apply IZR_le in H. lra. }
      apply (guess_piece (4 + 2 * c) F T (2 * c) 1 32 (49198349 / 8388608));
        try lra; try nra.
  - (* odd exponent field *)
    apply (Hval (3 + 2 * c) 16).
    + rewrite Hmyv. unfold T, c. rewrite minus_IZR, !plus_IZR. field.
    + replace (e + ey + ey)%Z with (- 71)%Z by lia. rewrite Hbp.
      f_equal. change (2 ^ 71)%Z with 2361183241434822606848%Z. lra.
    + lra.
    + apply (guess_piece (3 + 2 * c) F T 0 1 16 (40809741 / 8388608));
        try lra; try nra.
Qed.

(** The same for the constants [0x5f3759df] to [0x5f375a86]. *)
Lemma initial_guess (C : Z) (m : positive) (e : Z) :
  (2 ^ 23 <= Zpos m < 2 ^ 24)%Z -> (-149 <= e <= 104)%Z ->
  (3627487 <= C <= 3627654)%Z ->
  let x := S754_finite false m e in
  let y := approximate (190 * 2 ^ 23 + C) x in
  normal_pos y /\ 93 / 100 <= F2R x * F2R y * F2R y <= 107 / 100.
Proof.
  intros Hm He HC. apply initial_guess_wide; [exact Hm | exact He | lia].
Qed.

Local Open Scope R_scope.

(** ** The rounding error model *)

(** Half a unit in the last place, relative: [2^-24]. *)
Definition u : R := / 16777216.

Lemma bpow_m24 : bpow (-24) = u.
Proof.
  change (-24)%Z with (Z.opp 24). rewrite bpow_opp, bpow_IZR by lia. reflexivity.
Qed.

Lemma bpow_m100 : bpow (-100) <= / 1073741824.
Proof.
  apply Rle_trans with (bpow (-30)); [apply bpow_le; lia|].
  change (-30)%Z with (Z.opp 30). rewrite bpow_opp, bpow_IZR by lia.
  apply Req_le. reflexivity.
Qed.

Lemma bpow_100 : 1073741824 <= bpow 100.
Proof.
  apply Rle_trans with (bpow 30); [|apply bpow_le; lia].
  rewrite bpow_IZR by lia. apply Req_le. reflexivity.
Qed.

Lemma Rabs_le_inv (a b : R) : Rabs a <= b -> - b <= a <= b.
Proof. unfold Rabs. destruct (Rcase_abs a); lra. Qed.

Lemma relative_error (v r : R) :
  0 < r -> Rabs (v - r) <= r * bpow (-24) ->
  exists d, - u <= d <= u /\ v = r * (1 + d).
Proof.
  intros Hr H. rewrite bpow_m24 in H.
  exists ((v - r) / r). split.
  - apply Rabs_le_inv in H. unfold u in *.
    assert (Hu : 0 < / 16777216) by lra.
    split.
    + apply Rmult_le_reg_r with r; [exact Hr|].
      replace ((v - r) / r * r) with (v - r) by (field; lra). lra.
    + apply Rmult_le_reg_r with r; [exact Hr|].
      replace ((v - r) / r * r) with (v - r) by (field; lra). lra.
  - field. lra.
Qed.

Lemma fmul_rel (a b : float) :
  normal_pos a -> normal_pos b ->
  / 1073741824 <= F2R a * F2R b <= 1073741824 ->
  normal_pos (fmul a b) /\
  exists d, - u <= d <= u /\ F2R (fmul a b) = F2R a * F2R b * (1 + d).
Proof.
  intros Ha Hb Hr.
  pose proof bpow_m100. pose proof bpow_100.
  destruct (fmul_spec a b Ha Hb ltac:(lra)) as [Hn He].
  split; [exact Hn|]. apply relative_error; [lra | exact He].
Qed.

Lemma fsub_rel (a b : float) :
  normal_pos a -> normal_pos b ->
  / 1073741824 <= F2R a - F2R b <= 1073741824 ->
  normal_pos (fsub a b) /\
  exists d, - u <= d <= u /\ F2R (fsub a b) = (F2R a - F2R b) * (1 + d).
Proof.
  intros Ha Hb Hr.
  pose proof bpow_m100. pose proof bpow_100.
  destruct (fsub_spec a b Ha Hb ltac:(lra)) as [Hn He].
  split; [exact Hn|]. apply relative_error; [lra | exact He].
Qed.

Lemma fadd_rel (a b : float) :
  normal_pos a -> normal_pos b ->
  / 1073741824 <= F2R a + F2R b <= 1073741824 ->
  normal_pos (fadd a b) /\
  exists d, - u <= d <= u /\ F2R (fadd a b) = (F2R a + F2R b) * (1 + d).
Proof.
  intros Ha Hb Hr.
  pose proof bpow_m100. pose proof bpow_100.
  destruct (fadd_spec a b Ha Hb ltac:(lra)) as [Hn He].
  split; [exact Hn|]. apply relative_error; [lra | exact He].
Qed.

Lemma normal_f0_5 : normal_pos f0_5 /\ F2R f0_5 = / 2.
Proof.
  split.
  - exists 8388608%positive, (-24)%Z. repeat split; cbv; congruence.
  - change f0_5 with (S754_finite false 8388608 (-24)). rewrite F2R_normal.
    rewrite bpow_m24. unfold u. lra.
Qed.

(** ** One Newton-Raphson update in floating point *)

Lemma mul_bounds (a b al ah bl bh : R) :
  0 <= al -> al <= a <= ah -> 0 <= bl -> bl <= b <= bh ->
  al * bl <= a * b <= ah * bh.
Proof. intros. nra. Qed.

Lemma one_plus_bounds (d : R) : - u <= d <= u -> 1 - u <= 1 + d <= 1 + u.
Proof. lra. Qed.

Lemma newton_update_spec (c x y : float) :
  normal_pos c -> normal_pos x -> normal_pos y ->
  3 / 2 <= F2R c <= 3 / 2 + / 100000 ->
  / 16384 <= F2R x <= 16384 ->
  9 / 10 <= F2R x * F2R y * F2R y <= 11 / 10 ->
  normal_pos (newton_update c x y) /\
  exists eta theta,
    - (2 / 10000000) <= eta <= 2 / 10000000 /\
    - (15 / 100000000) <= theta <= 15 / 100000000 /\
    F2R (newton_update c x y)
    = F2R y * (F2R c - F2R x * F2R y * F2R y / 2 * (1 + eta)) * (1 + theta).
Proof.
  intros Hc Hx Hy Hcr Hxr Hw.
  pose proof (normal_pos_gt0 y Hy) as Hy0.
  destruct normal_f0_5 as [Hh Hhv].
  set (X := F2R x) in *. set (Y := F2R y) in *. set (Cr := F2R c) in *.
  assert (HY : / 256 <= Y <= 256).
  { split.
    - destruct (Rle_lt_dec (/ 256) Y) as [H | H]; [exact H|].
      assert (Y * Y < / 256 * / 256) by nra. nra.
    - destruct (Rle_lt_dec Y 256) as [H | H]; [exact H|].
      assert (256 * 256 < Y * Y) by nra. nra. }
  unfold newton_update.
  (* x2 = x * 0.5f *)
  destruct (fmul_rel x f0_5 Hx Hh) as (N0 & d0 & Hd0 & E0);
    [rewrite Hhv; fold X; lra|].
  rewrite Hhv in E0. fold X in E0.
  set (x2 := fmul x f0_5) in *.
  apply one_plus_bounds in Hd0. unfold u in Hd0.
  assert (B0 : / 32768 * (1 - / 16777216) <= F2R x2 <= 8192 * (1 + / 16777216)).
  { rewrite E0. apply mul_bounds; lra. }
  (* x2 * y *)
  destruct (fmul_rel x2 y N0 Hy) as (N1 & d1 & Hd1 & E1).
  { fold Y.
    pose proof (mul_bounds (F2R x2) Y (/ 32768 * (1 - / 16777216)) (8192 * (1 + / 16777216))
                  (/ 256) 256 ltac:(lra) B0 ltac:(lra) HY).
    lra. }
  fold Y in E1. set (t := fmul x2 y) in *.
  apply one_plus_bounds in Hd1. unfold u in Hd1.
  set (W := X * Y * Y) in *.
  assert (Ht : F2R t * Y = W / 2 * ((1 + d0) * (1 + d1)))
    by (rewrite E1, E0; unfold W; field).
  pose proof (mul_bounds (1 + d0) (1 + d1) (1 - / 16777216) (1 + / 16777216) (1 - / 16777216) (1 + / 16777216)
                ltac:(lra) Hd0 ltac:(lra) Hd1) as P01.
  set (p01 := (1 + d0) * (1 + d1)) in *.
  (* (x2 * y) * y *)
  destruct (fmul_rel t y N1 Hy) as (N2 & d2 & Hd2 & E2).
  { fold Y. rewrite Ht.
    pose proof (mul_bounds (W / 2) p01 (9 / 20) (11 / 20)
                  ((1 - / 16777216) * (1 - / 16777216)) ((1 + / 16777216) * (1 + / 16777216))
                  ltac:(lra) ltac:(lra) ltac:(nra) P01).
    lra. }
  fold Y in E2. set (w := fmul t y) in *.
  apply one_plus_bounds in Hd2. unfold u in Hd2.
  pose proof (mul_bounds p01 (1 + d2) ((1 - / 16777216) * (1 - / 16777216)) ((1 + / 16777216) * (1 + / 16777216))
                (1 - / 16777216) (1 + / 16777216) ltac:(nra) P01 ltac:(lra) Hd2) as P012.
  set (eta := p01 * (1 + d2) - 1).
  assert (Heta : - (2 / 10000000) <= eta <= 2 / 10000000)
    by (unfold eta; lra).
  assert (Ew : F2R w = W / 2 * (1 + eta))
    by (rewrite E2, Ht; unfold eta; ring).
  pose proof (mul_bounds (W / 2) (1 + eta) (9 / 20) (11 / 20)
                (1 - 2 / 10000000) (1 + 2 / 10000000)
                ltac:(lra) ltac:(lra) ltac:(lra) ltac:(lra)) as BA.
  set (A := W / 2 * (1 + eta)) in *.
  (* c - ... *)
  destruct (fsub_rel c w Hc N2) as (N3 & d3 & Hd3 & E3);
    [fold Cr; rewrite Ew; lra|].
  fold Cr in E3. rewrite Ew in E3. set (v := fsub c w) in *.
  apply one_plus_bounds in Hd3. unfold u in Hd3.
  pose proof (mul_bounds (Cr - A) (1 + d3) (9 / 10) (11 / 10) (1 - / 16777216) (1 + / 16777216)
                ltac:(lra) ltac:(lra) ltac:(lra) Hd3) as BV.
  (* y * (...) *)
  destruct (fmul_rel y v Hy N3) as (N4 & d4 & Hd4 & E4).
  { fold Y. rewrite E3.
    pose proof (mul_bounds Y ((Cr - A) * (1 + d3)) (/ 256) 256
                  (9 / 10 * (1 - / 16777216)) (11 / 10 * (1 + / 16777216))
                  ltac:(lra) HY ltac:(lra) BV).
    lra. }
  fold Y in E4. apply one_plus_bounds in Hd4. unfold u in Hd4.
  pose proof (mul_bounds (1 + d3) (1 + d4) (1 - / 16777216) (1 + / 16777216) (1 - / 16777216) (1 + / 16777216)
                ltac:(lra) Hd3 ltac:(lra) Hd4) as P34.
  split; [exact N4|].
  exists eta, ((1 + d3) * (1 + d4) - 1).
  split; [exact Heta|]. split; [lra|].
  rewrite E4, E3. unfold A, W. ring.
Qed.

Local Open Scope R_scope.

(** ** Relative error against the exact reciprocal square root *)

(** [|y - 1/sqrt x| / (1/sqrt x)]. *)
Definition rel_error (y x : R) : R := Rabs (y - / sqrt x) / (/ sqrt x).

Lemma rel_error_alt (y x : R) :
  0 < x -> rel_error y x = Rabs (y * sqrt x - 1).
Proof.
  intros Hx. unfold rel_error.
  pose proof (sqrt_lt_R0 x Hx) as Hs.
  assert (Hi : 0 < / sqrt x) by (apply Rinv_0_lt_compat; exact Hs).
  replace (y * sqrt x - 1) with ((y - / sqrt x) * sqrt x) by (field; lra).
  rewrite Rabs_mult, (Rabs_pos_eq (sqrt x)) by lra.
  field. lra.
Qed.

(** One update on the scaled guess [s = y sqrt x]. *)
Lemma newton_real_step (s c eta theta kappa : R) :
  0 < s -> - (36 / 1000) <= s - 1 <= 36 / 1000 ->
  0 <= kappa <= 4 / 1000000 -> 3 / 2 <= c <= 3 / 2 + kappa ->
  - (2 / 10000000) <= eta <= 2 / 10000000 ->
  - (15 / 100000000) <= theta <= 15 / 100000000 ->
  let s' := s * (c - s * s / 2 * (1 + eta)) * (1 + theta) in
  let Q := 152 / 100 * ((s - 1) * (s - 1)) + 104 / 100 * kappa + 27 / 100000000 in
  - Q <= s' - 1 <= Q.
Proof.
  intros Hs He Hk Hc Heta Hth s' Q.
  set (e := s - 1) in *.
  assert (He2 : 0 <= e * e <= 1296 / 1000000) by nra.
  set (T1 := e * e * ((s + 2) / 2)).
  assert (HT1 : 0 <= T1 <= e * e * (1518 / 1000)).
  { unfold T1. pose proof (mul_bounds (e * e) ((s + 2) / 2) 0 (e * e) 0 (1518 / 1000)
                             ltac:(lra) ltac:(lra) ltac:(lra) ltac:(unfold e in *; lra)).
    lra. }
  set (T2 := (c - 3 / 2) * s).
  assert (HT2 : 0 <= T2 <= kappa * (1036 / 1000)).
  { unfold T2. pose proof (mul_bounds (c - 3 / 2) s 0 kappa 0 (1036 / 1000)
                             ltac:(lra) ltac:(lra) ltac:(lra) ltac:(unfold e in *; lra)).
    lra. }
  assert (Hs3 : 0 <= s * s * s <= 1112 / 1000).
  { pose proof (cube_le s (1036 / 1000) ltac:(unfold e in *; lra)).
    assert (0 <= s * s * s) by (apply Rmult_le_pos; [apply Rmult_le_pos|]; lra).
    lra. }
  set (T3 := s * s * s * (eta / 2)).
  assert (HT3 : - (1112 / 10000000000) <= T3 <= 1112 / 10000000000).
  { unfold T3. set (p := s * s * s) in *. nra. }
  set (beta := - T1 + T2 - T3).
  assert (Hb : s * (c - s * s / 2 * (1 + eta)) = 1 + beta)
    by (unfold beta, T1, T2, T3, e; field).
  assert (Hs' : s' - 1 = beta + theta + beta * theta)
    by (unfold s'; rewrite Hb; ring).
  assert (Hbeta : - (e * e * (1518 / 1000)) - 1112 / 10000000000 <= beta
                  <= kappa * (1036 / 1000) + 1112 / 10000000000)
    by (unfold beta; lra).
  assert (Hbt : - (1 / 1000000000) <= beta * theta <= 1 / 1000000000).
  { assert (- (2 / 1000) <= beta <= 2 / 1000) by lra.
    clear - H Hth. nra. }
  rewrite Hs'. unfold Q. fold e. lra.
Qed.

Lemma Rabs_bounds (a b : R) : - b <= a <= b <-> Rabs a <= b.
Proof. split; [apply Rabs_le | apply Rabs_le_inv]. Qed.

(** One update of a kernel, on the relative error. *)
Lemma step_rel_error (c x y : float) (kappa : R) :
  normal_pos c -> normal_pos x -> normal_pos y ->
  0 <= kappa <= 4 / 1000000 -> 3 / 2 <= F2R c <= 3 / 2 + kappa ->
  / 16384 <= F2R x <= 16384 ->
  rel_error (F2R y) (F2R x) <= 36 / 1000 ->
  normal_pos (newton_update c x y) /\
  rel_error (F2R (newton_update c x y)) (F2R x)
  <= 152 / 100 * (rel_error (F2R y) (F2R x) * rel_error (F2R y) (F2R x))
     + 104 / 100 * kappa + 27 / 100000000.
Proof.
  intros Hc Hx Hy Hk Hcr Hxr He.
  assert (HX : 0 < F2R x) by lra.
  rewrite !rel_error_alt in * by exact HX.
  pose proof (sqrt_lt_R0 _ HX) as Hr.
  pose proof (sqrt_sqrt (F2R x) ltac:(lra)) as Hrr.
  pose proof (normal_pos_gt0 y Hy) as HY.
  set (r := sqrt (F2R x)) in *. set (s := F2R y * r) in *.
  assert (Hs : 0 < s) by (unfold s; apply Rmult_lt_0_compat; assumption).
  apply Rabs_le_inv in He.
  assert (Hw : F2R x * F2R y * F2R y = s * s) by (unfold s; rewrite <- Hrr; ring).
  assert (Hss : 9 / 10 <= s * s <= 11 / 10) by nra.
  destruct (newton_update_spec c x y Hc Hx Hy) as (Hn & eta & theta & Heta & Hth & Ey);
    [lra | lra | rewrite Hw; exact Hss |].
  split; [exact Hn|].
  rewrite Ey, Hw.
  replace (F2R y * (F2R c - s * s / 2 * (1 + eta)) * (1 + theta) * r)
    with (s * (F2R c - s * s / 2 * (1 + eta)) * (1 + theta)) by (unfold s; ring).
  pose proof (newton_real_step s (F2R c) eta theta kappa Hs He Hk Hcr Heta Hth) as HQ.
  cbv zeta in HQ.
  apply Rabs_le.
  assert (Hsq : (s - 1) * (s - 1) = Rabs (s - 1) * Rabs (s - 1)).
  { unfold Rabs. destruct (Rcase_abs (s - 1)); ring. }
  rewrite <- Hsq. lra.
Qed.

(** The initial guess, on the relative error. *)
Lemma guess_rel_error_wide (C : Z) (x : float) :
  normal_pos x -> (3627422 <= C <= 3627654)%Z ->
  normal_pos (approximate (190 * 2 ^ 23 + C) x) /\
  rel_error (F2R (approximate (190 * 2 ^ 23 + C) x)) (F2R x) <= 36 / 1000.
Proof.
  intros Hx HC. pose proof (normal_pos_gt0 x Hx) as HX.
  destruct Hx as (m & e & -> & Hm & He).
  destruct (initial_guess_wide C m e Hm He HC) as [Hn Hb].
  split; [exact Hn|].
  rewrite rel_error_alt by exact HX.
  pose proof (sqrt_lt_R0 _ HX) as Hr.
  pose proof (sqrt_sqrt (F2R (S754_finite false m e)) ltac:(lra)) as Hrr.
  pose proof (normal_pos_gt0 _ Hn) as HY.
  set (y := F2R (approximate (190 * 2 ^ 23 + C) (S754_finite false m e))) in *.
  set (X := F2R (S754_finite false m e)) in *.
  set (r := sqrt X) in *. set (s := y * r).
  assert (Hs : 0 < s) by (unfold s; apply Rmult_lt_0_compat; assumption).
  assert (Hw : X * y * y = s * s) by (unfold s; rewrite <- Hrr; ring).
  rewrite Hw in Hb. apply Rabs_le. clearbody s. clear - Hs Hb. split; nra.
Qed.

Lemma guess_rel_error (C : Z) (x : float) :
  normal_pos x -> (3627487 <= C <= 3627654)%Z ->
  normal_pos (approximate (190 * 2 ^ 23 + C) x) /\
  rel_error (F2R (approximate (190 * 2 ^ 23 + C) x)) (F2R x) <= 36 / 1000.
Proof.
  intros Hx HC. apply guess_rel_error_wide; [exact Hx | lia].
Qed.

(** ** The supported domain *)

(** The floats from [1e-4f] to [1e4f]. *)
Definition in_domain (x : float) : bool :=
  finite_positive x && fle f1e_4 x && fle x f1e4.

Lemma in_domain_normal (x : float) :
  in_domain x = true -> normal_pos x /\ / 16384 <= F2R x <= 16384.
Proof.
  unfold in_domain. intros H.
  apply andb_true_iff in H. destruct H as [H Hhi].
  apply andb_true_iff in H. destruct H as [Hfin Hlo].
  destruct x as [s | s | | s m e]; try discriminate.
  destruct s; try discriminate. cbn [finite_positive] in Hfin.
  apply bounded_range in Hfin. destruct Hfin as (He & Hm & Hn).
  change f1e_4 with (S754_finite false 13743895 (-37)) in Hlo.
  change f1e4 with (S754_finite false 10240000 (-10)) in Hhi.
  unfold fle, SFleb in Hlo, Hhi. cbn [SFcompare] in Hlo, Hhi.
  assert (He1 : (-37 <= e)%Z)
    by (destruct (Z.compare_spec (-37) e); try lia; discriminate).
  assert (He2 : (e <= -10)%Z)
    by (destruct (Z.compare_spec e (-10)); try lia; discriminate).
  assert (Hm' : (2 ^ 23 <= Zpos m < 2 ^ 24)%Z) by lia.
  split; [exists m, e; repeat split; lia|].
  rewrite F2R_normal.
  pose proof (normal_value m e Hm') as [V1 V2].
  pose proof (bpow_le (-14) (e + 23) ltac:(lia)) as B1.
  pose proof (bpow_le (e + 24) 14 ltac:(lia)) as B2.
  assert (E1 : bpow (-14) = / 16384)
    by (change (-14)%Z with (Z.opp 14); rewrite bpow_opp, bpow_IZR by lia; reflexivity).
  assert (E2 : bpow 14 = 16384) by (rewrite bpow_IZR by lia; reflexivity).
  lra.
Qed.

Lemma normal_f1_5 : normal_pos f1_5 /\ F2R f1_5 = 3 / 2.
Proof.
  split.
  - exists 12582912%positive, (-23)%Z. repeat split; cbv; congruence.
  - change f1_5 with (S754_finite false 12582912 (-23)). rewrite F2R_normal.
    change (-23)%Z with (Z.opp 23). rewrite bpow_opp, bpow_IZR by lia.
    change (IZR (2 ^ 23)) with 8388608. lra.
Qed.

Lemma normal_f1_5000036 :
  normal_pos f1_5000036 /\ F2R f1_5000036 = 3 / 2 + 30 / 8388608.
Proof.
  split.
  - exists 12582942%positive, (-23)%Z. repeat split; cbv; congruence.
  - change f1_5000036 with (S754_finite false 12582942 (-23)). rewrite F2R_normal.
    change (-23)%Z with (Z.opp 23). rewrite bpow_opp, bpow_IZR by lia.
    change (IZR (2 ^ 23)) with 8388608. lra.
Qed.

(** An update does not leave the basin of the guess, and its error is
    the square of the error before, up to the rounding of the update. *)
Lemma step_plain (x y : float) :
  normal_pos x -> / 16384 <= F2R x <= 16384 -> normal_pos y ->
  rel_error (F2R y) (F2R x) <= 36 / 1000 ->
  normal_pos (newton_update f1_5 x y) /\
  rel_error (F2R (newton_update f1_5 x y)) (F2R x)
  <= 152 / 100 * (rel_error (F2R y) (F2R x) * rel_error (F2R y) (F2R x))
     + 27 / 100000000.
Proof.
  intros Hx Hxr Hy He. destruct normal_f1_5 as [Hc Hcv].
  destruct (step_rel_error f1_5 x y 0 Hc Hx Hy) as [Hn Hb]; try lra.
  split; [exact Hn | lra].
Qed.

Lemma step_tuned (x y : float) :
  normal_pos x -> / 16384 <= F2R x <= 16384 -> normal_pos y ->
  rel_error (F2R y) (F2R x) <= 36 / 1000 ->
  normal_pos (newton_update f1_5000036 x y) /\
  rel_error (F2R (newton_update f1_5000036 x y)) (F2R x)
  <= 152 / 100 * (rel_error (F2R y) (F2R x) * rel_error (F2R y) (F2R x))
     + 399 / 100000000.
Proof.
  intros Hx Hxr Hy He. destruct normal_f1_5000036 as [Hc Hcv].
  destruct (step_rel_error f1_5000036 x y (30 / 8388608) Hc Hx Hy) as [Hn Hb]; try lra.
  split; [exact Hn | lra].
Qed.

Lemma rel_error_nonneg (y x : R) : 0 < x -> 0 <= rel_error y x.
Proof. intros H. rewrite rel_error_alt by exact H. apply Rabs_pos. Qed.

(** An error that is squared and then perturbed does not grow, down to a
    floor set by the perturbation. *)
Lemma floor_bound (E E' p d : R) :
  0 <= E <= 36 / 1000 -> 0 <= p -> p <= d * (1 - 152 / 100 * d) ->
  0 <= d <= 36 / 1000 ->
  E' <= 152 / 100 * (E * E) + p ->
  E' <= Rmax E d.
Proof.
  intros HE Hp Hpd Hd H.
  destruct (Rle_lt_dec d E) as [Hc | Hc].
  - apply Rle_trans with E; [|apply Rmax_l].
    assert (0 <= (E - d) * (36 / 1000 - E)) by (apply Rmult_le_pos; lra).
    nra.
  - apply Rle_trans with d; [|apply Rmax_r].
    assert (E * E <= d * d) by nra. nra.
Qed.

(** ** Accuracy of the kernels without a correction stage *)

Lemma magic_5f3759df : 0x5f3759df%Z = (190 * 2 ^ 23 + 3627487)%Z.
Proof. reflexivity. Qed.

Lemma magic_5f375a86 : 0x5f375a86%Z = (190 * 2 ^ 23 + 3627654)%Z.
Proof. reflexivity. Qed.

(** The guess and the results of one and of two updates, with the
    tuned constant first or with 1.5 throughout. *)
Lemma kernel_chain (C : Z) (x : float) (c1 : float) (p : R) :
  in_domain x = true -> (3627487 <= C <= 3627654)%Z ->
  (forall y, normal_pos y -> rel_error (F2R y) (F2R x) <= 36 / 1000 ->
             normal_pos (newton_update c1 x y) /\
             rel_error (F2R (newton_update c1 x y)) (F2R x)
             <= 152 / 100 * (rel_error (F2R y) (F2R x) * rel_error (F2R y) (F2R x)) + p) ->
  0 <= p <= 4 / 1000000 ->
  let y0 := approximate (190 * 2 ^ 23 + C) x in
  let y1 := newton_update c1 x y0 in
  let y2 := newton_update f1_5 x y1 in
  rel_error (F2R y0) (F2R x) <= 36 / 1000 /\
  rel_error (F2R y1) (F2R x) <= 2 / 1000 /\
  normal_pos y2 /\
  rel_error (F2R y2) (F2R x) <= 62 / 10000000.
Proof.
  intros Hd HC Hstep Hp y0 y1 y2.
  destruct (in_domain_normal x Hd) as [Hx Hxr].
  assert (HX : 0 < F2R x) by lra.
  destruct (guess_rel_error C x Hx HC) as [N0 E0]. fold y0 in N0, E0.
  pose proof (rel_error_nonneg (F2R y0) (F2R x) HX) as P0.
  destruct (Hstep y0 N0 E0) as [N1 E1]. fold y1 in N1, E1.
  pose proof (rel_error_nonneg (F2R y1) (F2R x) HX) as P1.
  set (e0 := rel_error (F2R y0) (F2R x)) in *.
  set (e1 := rel_error (F2R y1) (F2R x)) in *.
  assert (H00 : e0 * e0 <= 1296 / 1000000) by nra.
  assert (H1 : e1 <= 1974 / 1000000) by lra.
  assert (H1' : rel_error (F2R y1) (F2R x) <= 36 / 1000) by (fold e1; lra).
  destruct (step_plain x y1 Hx Hxr N1 H1') as [N2 E2]. fold y2 in N2, E2.
  fold e1 in E2.
  assert (H11 : e1 * e1 <= 1974 / 1000000 * (1974 / 1000000)) by nra.
  split; [lra|]. split; [lra|]. split; [exact N2 | lra].
Qed.

Lemma refine_step (c x y0 : float) (k : nat) :
  refine c x y0 (S k) = newton_update c x (refine c x y0 k).
Proof. rewrite !refine_iter. reflexivity. Qed.

Lemma refine_basin (x : float) (k : nat) :
  in_domain x = true ->
  normal_pos (refine f1_5 x (approximate 0x5f375a86 x) k) /\
  rel_error (F2R (refine f1_5 x (approximate 0x5f375a86 x) k)) (F2R x) <= 36 / 1000.
Proof.
  intros Hd. destruct (in_domain_normal x Hd) as [Hx Hxr].
  assert (HX : 0 < F2R x) by lra.
  induction k as [| k [IHn IHe]].
  - rewrite magic_5f375a86. apply guess_rel_error; [exact Hx | lia].
  - rewrite refine_step.
    destruct (step_plain x _ Hx Hxr IHn IHe) as [N E].
    split; [exact N|].
    pose proof (rel_error_nonneg (F2R (refine f1_5 x (approximate 0x5f375a86 x) k))
                  (F2R x) HX) as P.
    set (e := rel_error _ _) in IHe, E, P. 
    assert (e * e <= 1296 / 1000000) by nra. lra.
Qed.

(** C1, amended.  For every float [x] from 1e-4 to 1e4 the kernels
    without a correction stage are within their figure of the exact
    reciprocal square root: 0.2 percent after the single update of
    [Q_rsqrt], and 0.001 percent after the two updates of
    [optimized_rsqrt], [GameEngineFastRSqrt::compute] and
    [enhancedInvSqrt], all three with the magic constant 0x5f375a86. *)
Theorem kernel_accuracy (self : GameEngineFastRSqrt.t) (x : float) :
  in_domain x = true ->
  rel_error (F2R (Q_rsqrt x)) (F2R x) <= 2 / 1000 /\
  rel_error (F2R (optimized_rsqrt x)) (F2R x) <= 1 / 100000 /\
  rel_error (F2R (GameEngineFastRSqrt.compute self x)) (F2R x) <= 1 / 100000 /\
  rel_error (F2R (enhancedInvSqrt x)) (F2R x) <= 1 / 100000.
Proof.
  intros Hd. destruct (in_domain_normal x Hd) as [Hx Hxr].
  assert (Hplain : forall y, normal_pos y -> rel_error (F2R y) (F2R x) <= 36 / 1000 ->
             normal_pos (newton_update f1_5 x y) /\
             rel_error (F2R (newton_update f1_5 x y)) (F2R x)
             <= 152 / 100 * (rel_error (F2R y) (F2R x) * rel_error (F2R y) (F2R x))
                + 27 / 100000000)
    by (intros y; apply step_plain; assumption).
  assert (Htuned : forall y, normal_pos y -> rel_error (F2R y) (F2R x) <= 36 / 1000 ->
             normal_pos (newton_update f1_5000036 x y) /\
             rel_error (F2R (newton_update f1_5000036 x y)) (F2R x)
             <= 152 / 100 * (rel_error (F2R y) (F2R x) * rel_error (F2R y) (F2R x))
                + 399 / 100000000)
    by (intros y; apply step_tuned; assumption).
  pose proof (kernel_chain 3627487 x f1_5 _ Hd ltac:(lia) Hplain ltac:(lra)) as (_ & HQ & _).
  pose proof (kernel_chain 3627654 x f1_5 _ Hd ltac:(lia) Hplain ltac:(lra)) as (_ & _ & _ & HE).
  pose proof (kernel_chain 3627654 x f1_5000036 _ Hd ltac:(lia) Htuned ltac:(lra)) as (_ & _ & _ & HO).
  rewrite <- magic_5f3759df in HQ. rewrite <- magic_5f375a86 in HE, HO.
  split; [exact HQ|]. split; [|split].
  - apply Rle_trans with (1 := HO). lra.
  - apply Rle_trans with (62 / 10000000); [exact HO | lra].
  - apply Rle_trans with (1 := HE). lra.
Qed.

Lemma kernel_accuracy_witness :
  rel_error (F2R (optimized_rsqrt f4_0)) (F2R f4_0) <= 1 / 100000.
Proof.
  apply (kernel_accuracy (GameEngineFastRSqrt.new (repeat f0_0 16)) f4_0).
  reflexivity.
Defined.

(** C4, amended.  For every float [x] from 1e-4 to 1e4 and every number
    of updates, one more update with the constant 1.5 leaves the relative
    error at most where it was, or below 3e-7 where rounding takes over;
    the update of [GameEngineFastRSqrt::compute] with the tuned constant
    1.5000036 does so down to 4e-6. *)
Theorem refinement_improves_to_floor (self : GameEngineFastRSqrt.t)
    (x : float) (k : nat) :
  in_domain x = true ->
  let y0 := approximate 0x5f375a86 x in
  let err (y : float) := rel_error (F2R y) (F2R x) in
  err (refine f1_5 x y0 (S k)) <= Rmax (err (refine f1_5 x y0 k)) (3 / 10000000) /\
  err (refine f1_5000036 x y0 1) <= Rmax (err y0) (4 / 1000000) /\
  err (GameEngineFastRSqrt.compute self x)
  <= Rmax (err (refine f1_5000036 x y0 1)) (3 / 10000000).
Proof.
  intros Hd y0 err. destruct (in_domain_normal x Hd) as [Hx Hxr].
  assert (HX : 0 < F2R x) by lra.
  split; [|split].
  - destruct (refine_basin x k Hd) as [N E]. fold y0 in N, E.
    rewrite refine_step.
    destruct (step_plain x _ Hx Hxr N E) as [_ E'].
    apply (floor_bound _ _ (27 / 100000000));
      [split; [apply rel_error_nonneg; exact HX | exact E]
      | lra | lra | lra | exact E'].
  - destruct (refine_basin x 0 Hd) as [N E]. fold y0 in N, E.
    change (refine f1_5 x y0 0) with y0 in N, E.
    change (refine f1_5000036 x y0 1) with (newton_update f1_5000036 x y0).
    destruct (step_tuned x _ Hx Hxr N E) as [_ E'].
    apply (floor_bound _ _ (399 / 100000000));
      [split; [apply rel_error_nonneg; exact HX | exact E]
      | lra | lra | lra | exact E'].
  - destruct (refine_basin x 0 Hd) as [N E]. fold y0 in N, E.
    change (refine f1_5 x y0 0) with y0 in N, E.
    change (GameEngineFastRSqrt.compute self x)
      with (newton_update f1_5 x (newton_update f1_5000036 x y0)).
    change (refine f1_5000036 x y0 1) with (newton_update f1_5000036 x y0).
    destruct (step_tuned x _ Hx Hxr N E) as [N1 E1].
    pose proof (rel_error_nonneg (F2R y0) (F2R x) HX) as P0.
    assert (E1' : rel_error (F2R (newton_update f1_5000036 x y0)) (F2R x) <= 36 / 1000).
    { set (e := rel_error (F2R y0) (F2R x)) in *.
      assert (e * e <= 1296 / 1000000) by nra. lra. }
    destruct (step_plain x _ Hx Hxr N1 E1') as [_ E2].
    apply (floor_bound _ _ (27 / 100000000));
      [split; [apply rel_error_nonneg; exact HX | exact E1']
      | lra | lra | lra | exact E2].
Qed.

Lemma refinement_improves_to_floor_witness :
  rel_error (F2R (refine f1_5 f4_0 (approximate 0x5f375a86 f4_0) 2)) (F2R f4_0)
  <= Rmax (rel_error (F2R (refine f1_5 f4_0 (approximate 0x5f375a86 f4_0) 1)) (F2R f4_0))
          (3 / 10000000).
Proof.
  apply (refinement_improves_to_floor (GameEngineFastRSqrt.new (repeat f0_0 16)) f4_0 1).
  reflexivity.
Defined.

(** ** Concrete errors *)

Lemma F2R_neg_exp (m p : positive) :
  F2R (S754_finite false m (Zneg p)) = IZR (Zpos m) / IZR (Z.pow_pos 2 p).
Proof.
  rewrite F2R_normal. change (Zneg p) with (Z.opp (Zpos p)).
  rewrite bpow_opp, bpow_IZR by lia. reflexivity.
Qed.

(** [ya] is above the exact value, [yb] below it and farther away. *)
Lemma rel_error_cross (ya yb X : R) :
  0 < X -> 0 < ya -> 0 < yb ->
  1 <= ya * ya * X -> yb * yb * X <= 1 -> (ya + yb) * (ya + yb) * X < 4 ->
  rel_error ya X < rel_error yb X.
Proof.
  intros HX Ha Hb H1 H2 H3. rewrite !rel_error_alt by exact HX.
  pose proof (sqrt_lt_R0 X HX) as Hr.
  pose proof (sqrt_sqrt X ltac:(lra)) as Hrr.
  set (r := sqrt X) in *. rewrite <- Hrr in H1, H2, H3.
  set (sa := ya * r). set (sb := yb * r).
  assert (0 < sa) by (apply Rmult_lt_0_compat; assumption).
  assert (0 < sb) by (apply Rmult_lt_0_compat; assumption).
  assert (Ha1 : 1 <= sa * sa) by (unfold sa; nra).
  assert (Hb1 : sb * sb <= 1) by (unfold sb; nra).
  assert (Hab : (sa + sb) * (sa + sb) < 4) by (unfold sa, sb; nra).
  assert (1 <= sa) by nra. assert (sb <= 1) by nra. assert (sa + sb < 2) by nra.
  rewrite (Rabs_pos_eq (sa - 1)) by lra.
  rewrite (Rabs_left1 (sb - 1)) by lra. lra.
Qed.

(** [ya] is above the exact value and [yb] above [ya]. *)
Lemma rel_error_above (ya yb X : R) :
  0 < X -> 0 < ya -> 1 <= ya * ya * X -> ya < yb ->
  rel_error ya X < rel_error yb X.
Proof.
  intros HX Ha H1 H2. rewrite !rel_error_alt by exact HX.
  pose proof (sqrt_lt_R0 X HX) as Hr.
  pose proof (sqrt_sqrt X ltac:(lra)) as Hrr.
  set (r := sqrt X) in *. rewrite <- Hrr in H1.
  set (sa := ya * r). set (sb := yb * r).
  assert (0 < sa) by (apply Rmult_lt_0_compat; assumption).
  assert (Ha1 : 1 <= sa * sa) by (unfold sa; nra).
  assert (1 <= sa) by nra. assert (sa < sb) by (unfold sa, sb; nra).
  rewrite !Rabs_pos_eq by lra. lra.
Qed.

Ltac float_values :=
  rewrite ?F2R_neg_exp;
  repeat match goal with
         | |- context [Z.pow_pos 2 ?p] =>
             let v := eval vm_compute in (Z.pow_pos 2 p) in
             change (Z.pow_pos 2 p) with v
         end.

(** C1, as stated, fails for a profile with a correction stage: the one
    update of [FastRecipSqrt::compute] leaves 1.0 more than 5 percent
    away from its reciprocal square root. *)
Lemma lookup_profile_misses_bound :
  in_domain f1_0 = true /\
  5 / 100 < rel_error
              (F2R (FastRecipSqrt.compute (FastRecipSqrt.new (repeat f0_0 256)) f1_0))
              (F2R f1_0).
Proof.
  split; [reflexivity|].
  assert (E : FastRecipSqrt.compute (FastRecipSqrt.new (repeat f0_0 256)) f1_0
              = S754_finite false 15896899 (-24)) by (vm_compute; reflexivity).
  rewrite E. change f1_0 with (S754_finite false 8388608 (-23)).
  float_values.
  replace (8388608 / 8388608) with 1 by lra.
  rewrite rel_error_alt, sqrt_1 by lra.
  rewrite Rabs_left1 by lra. lra.
Qed.

(** C4, as stated, fails: at [x = 0x3957f34f] the second update of
    [enhancedInvSqrt] moves the estimate from just above the exact value
    to farther below it, and at [x = 0x39580703] the first update of
    [GameEngineFastRSqrt::compute], with its tuned constant, moves the
    guess away from the exact value. *)
Lemma update_can_increase_error :
  let x := of_bits 0x3957f34f in
  let z := of_bits 0x39580703 in
  in_domain x = true /\ in_domain z = true /\
  rel_error (F2R (refine f1_5 x (approximate 0x5f375a86 x) 1)) (F2R x)
  < rel_error (F2R (refine f1_5 x (approximate 0x5f375a86 x) 2)) (F2R x) /\
  enhancedInvSqrt x = refine f1_5 x (approximate 0x5f375a86 x) 2 /\
  rel_error (F2R (refine f1_5000036 z (approximate 0x5f375a86 z) 0)) (F2R z)
  < rel_error (F2R (refine f1_5000036 z (approximate 0x5f375a86 z) 1)) (F2R z).
Proof.
  intros x z.
  split; [reflexivity|]. split; [reflexivity|].
  assert (Ex : x = S754_finite false 14152527 (-36)) by (vm_compute; reflexivity).
  assert (E1 : refine f1_5 x (approximate 0x5f375a86 x) 1
               = S754_finite false 9133408 (-17)) by (vm_compute; reflexivity).
  assert (E2 : refine f1_5 x (approximate 0x5f375a86 x) 2
               = S754_finite false 9133407 (-17)) by (vm_compute; reflexivity).
  assert (Ez : z = S754_finite false 14157571 (-36)) by (vm_compute; reflexivity).
  assert (Z0 : refine f1_5000036 z (approximate 0x5f375a86 z) 0
               = S754_finite false 9131781 (-17)) by (vm_compute; reflexivity).
  assert (Z1 : refine f1_5000036 z (approximate 0x5f375a86 z) 1
               = S754_finite false 9131814 (-17)) by (vm_compute; reflexivity).
  rewrite E1, E2, Z0, Z1, Ex, Ez.
  split; [|split; [reflexivity|]].
  - float_values. apply rel_error_cross; lra.
  - float_values. apply rel_error_above; lra.
Qed.

Local Open Scope Z_scope.

(** ** Rounding on the whole range *)

Lemma shr_fexp_none (m e : Z) :
  0 <= m < 2 ^ 24 -> -149 <= e ->
  shr_fexp prec emax m e loc_Exact
  = ({| shr_m := m; shr_r := false; shr_s := false |}, e).
Proof.
  intros Hm He. unfold shr_fexp. cbn [shr_record_of_loc].
  assert (Hn : fexp prec emax (Zdigits2 m + e) - e <= 0).
  { unfold fexp, SpecFloat.emin, prec, emax.
    destruct m as [| p | p]; cbn [Zdigits2]; [lia | | lia].
    pose proof (digits2_pos_bounds p) as [Hlo _].
    assert (Zpos (digits2_pos p) <= 24).
    { destruct (Z.le_gt_cases (Zpos (digits2_pos p)) 24) as [H | H]; [exact H|].
      assert (2 ^ 24 <= 2 ^ (Zpos (digits2_pos p) - 1))
        by (apply Z.pow_le_mono_r; lia). lia. }
    lia. }
  unfold shr. destruct (fexp prec emax (Zdigits2 m + e) - e); try reflexivity. lia.
Qed.

(** The first shift of [binary_round_aux]: the exponent it lands on, and
    a mantissa within half a unit of the exact one. *)
Lemma first_shift (M : positive) (E : Z) :
  let e1 := Z.max E (fexp prec emax (Zpos (digits2_pos M) + E)) in
  exists mrs,
    shr_fexp prec emax (Zpos M) E loc_Exact = (mrs, e1) /\
    shr_inv (2 * Zpos M) (2 ^ (e1 - E)) mrs.
Proof.
  intros e1. unfold shr_fexp. cbn [Zdigits2].
  set (n := fexp prec emax (Zpos (digits2_pos M) + E) - E).
  destruct n as [| p | p] eqn:En.
  - eexists. split; [unfold shr; f_equal; unfold e1; lia|].
    replace (e1 - E) with 0 by (unfold e1; lia).
    unfold shr_inv. cbn [shr_record_of_loc shr_m shr_r shr_s b2z].
    split; [lia|]. exists 0. change (2 ^ 0) with 1. repeat split; lia.
  - destruct (shr_exact_inv M E p) as (mrs & Hs & Hi).
    exists mrs. split; [rewrite Hs; f_equal; unfold e1; lia|].
    replace (e1 - E) with (Zpos p) by (unfold e1; lia). exact Hi.
  - eexists. split; [unfold shr; f_equal; unfold e1; lia|].
    replace (e1 - E) with 0 by (unfold e1; lia).
    unfold shr_inv. cbn [shr_record_of_loc shr_m shr_r shr_s b2z].
    split; [lia|]. exists 0. change (2 ^ 0) with 1. repeat split; lia.
Qed.

(** [binary_round_aux] on any exact positive value reached with a
    canonical exponent or a larger one: the result is an infinity, a zero
    or a finite float, and the finite ones are within half a unit in the
    last place of the value. *)
Lemma round_aux_shape (M : positive) (E : Z) :
  let e1 := Z.max E (fexp prec emax (Zpos (digits2_pos M) + E)) in
  exists (m2 : Z),
    0 <= m2 <= 2 ^ 24 /\
    - 2 ^ (e1 - E) <= 2 * (m2 * 2 ^ (e1 - E)) - 2 * Zpos M <= 2 ^ (e1 - E) /\
    binary_round_aux prec emax false (Zpos M) E loc_Exact
    = match m2 with
      | Z0 => S754_zero false
      | Zpos q =>
          if m2 <? 2 ^ 24
          then (if e1 <=? 104 then S754_finite false q e1 else S754_infinity false)
          else (if e1 + 1 <=? 104 then S754_finite false 8388608 (e1 + 1)
                else S754_infinity false)
      | Zneg _ => S754_nan
      end.
Proof.
  intros e1.
  destruct (first_shift M E) as (mrs & Hshr & Hinv). fold e1 in Hshr, Hinv.
  assert (He1 : -149 <= e1)
    by (unfold e1, fexp, SpecFloat.emin, prec, emax; lia).
  assert (Hk : 0 <= e1 - E) by (unfold e1; lia).
  assert (HP : 0 < 2 ^ (e1 - E)) by (apply Z.pow_pos_nonneg; lia).
  pose proof (round_nearest_even_inv _ _ mrs HP Hinv) as [Hm2 Herr].
  set (m2 := round_nearest_even (shr_m mrs) (loc_of_shr_record mrs)) in *.
  assert (Hm1 : 0 <= shr_m mrs < 2 ^ 24).
  { destruct Hinv as (Hm & rho & HN & Hrho & _). split; [exact Hm|].
    pose proof (digits2_pos_bounds M) as [_ HM].
    assert (Hd : Zpos (digits2_pos M) <= 24 + (e1 - E))
      by (unfold e1, fexp, SpecFloat.emin, prec, emax; lia).
    assert (HM' : Zpos M < 2 ^ 24 * 2 ^ (e1 - E)).
    { rewrite <- Z.pow_add_r by lia.
      eapply Z.lt_le_trans; [exact HM|]. apply Z.pow_le_mono_r; lia. }
    assert (Hr : 0 <= b2z (shr_r mrs) <= 1) by (destruct (shr_r mrs); cbn; lia).
    nia. }
  exists m2. split; [lia|]. split; [nia|].
  unfold binary_round_aux. rewrite Hshr. fold m2.
  destruct (Z.ltb_spec m2 (2 ^ 24)) as [Hlt | Hge].
  - rewrite shr_fexp_none by lia. cbn [shr_m].
    destruct m2 as [| q | q]; reflexivity.
  - assert (Em2 : m2 = 2 ^ 24) by lia. rewrite Em2.
    change (2 ^ 24) with (Zpos 16777216).
    rewrite shr_fexp_carry by (change (2 ^ 23) with 8388608; change (2 ^ 24) with 16777216; lia).
    change (Zpos 16777216 <? 2 ^ 24) with false. cbn [shr_m].
    change (2 ^ 23) with (Zpos 8388608).
    unfold emax, prec. change (128 - 24) with 104. reflexivity.
Qed.

Local Open Scope R_scope.

(** Non-negative floats with a value: [+0] and the positive finite ones. *)
Definition nonneg_finite (f : float) : Prop :=
  match f with
  | S754_zero false | S754_finite false _ _ => True
  | _ => False
  end.

Lemma nonneg_finite_value (f : float) : nonneg_finite f -> 0 <= F2R f.
Proof.
  destruct f as [[|] | | | [|] m e]; cbn [nonneg_finite]; try tauto; intros _.
  - cbn [F2R]. lra.
  - rewrite F2R_normal. apply Rmult_le_pos; [apply IZR_le; lia|].
    apply Rlt_le, bpow_pos.
Qed.

Lemma bpow_half (e : Z) : bpow (e - 1) = bpow e / 2.
Proof.
  assert (E : bpow e = bpow (e - 1) * bpow 1)
    by (rewrite <- bpow_add; f_equal; lia).
  rewrite E, (bpow_IZR 1) by lia. change (IZR (2 ^ 1)) with 2. field.
Qed.

(** The rounding of a positive exact value [M * 2^E]: either an overflow,
    and then the value is huge, or a non-negative float within a relative
    [u] and an absolute [2^-150] of it. *)
Lemma round_aux_total (M : positive) (E : Z) :
  let f := binary_round_aux prec emax false (Zpos M) E loc_Exact in
  let r := IZR (Zpos M) * bpow E in
  (f = S754_infinity false /\ bpow 105 <= r) \/
  (nonneg_finite f /\ Rabs (F2R f - r) <= r * u + bpow (-150)).
Proof.
  intros f r.
  destruct (round_aux_shape M E) as (m2 & Hm2 & Herr & Hf). fold f in Hf.
  set (e1 := Z.max E (fexp prec emax (Zpos (digits2_pos M) + E))) in *.
  set (k := (e1 - E)%Z) in *.
  assert (Hk : (0 <= k)%Z) by (unfold k, e1; lia).
  assert (HP : (0 < 2 ^ k)%Z) by (apply Z.pow_pos_nonneg; lia).
  pose proof (digits2_pos_bounds M) as [HMlo HMhi].
  pose proof (bpow_pos E) as HB.
  assert (Ee1 : bpow e1 = IZR (2 ^ k) * bpow E).
  { rewrite <- bpow_IZR by exact Hk. rewrite <- bpow_add. f_equal. unfold k. lia. }
  assert (HK1 : 1 <= IZR (2 ^ k)) by (apply IZR_le; lia).
  (* the half unit is below the claimed bound *)
  assert (Hhalf : bpow e1 / 2 <= r * u + bpow (-150) \/ k = 0%Z).
  { destruct (Z.eq_dec k 0) as [Hk0 | Hk0]; [right; exact Hk0 | left].
    assert (Hcase : e1 = (-149)%Z \/ e1 = (Zpos (digits2_pos M) + E - 24)%Z)
      by (unfold k, e1, fexp, SpecFloat.emin, prec, emax in *; lia).
    assert (Hr : 0 < r)
      by (apply Rmult_lt_0_compat; [apply IZR_lt; lia | exact HB]).
    destruct Hcase as [H149 | Hn].
    - rewrite H149. change (-150)%Z with (-149 - 1)%Z. rewrite bpow_half.
      unfold u. nra.
    - pose proof (bpow_pos (-150)) as Ha.
      assert (HZ : (2 ^ k * 2 ^ 24 <= 2 * Zpos M)%Z).
      { rewrite <- Z.pow_add_r by lia.
        replace (k + 24)%Z with (Z.succ (Zpos (digits2_pos M) - 1)) by (unfold k; lia).
        rewrite Z.pow_succ_r by lia. lia. }
      apply IZR_le in HZ. rewrite !mult_IZR in HZ.
      change (IZR (2 ^ 24)) with 16777216 in HZ. change (IZR 2) with 2 in HZ.
      rewrite Ee1. unfold r, u.
      assert (IZR (2 ^ k) * bpow E / 2 <= IZR (Zpos M) * bpow E * / 16777216); [|lra].
      apply Rmult_le_reg_r with 33554432; [lra|].
      replace (IZR (2 ^ k) * bpow E / 2 * 33554432)
        with (IZR (2 ^ k) * 16777216 * bpow E) by field.
      replace (IZR (Zpos M) * bpow E * / 16777216 * 33554432)
        with (2 * IZR (Zpos M) * bpow E) by field.
      apply Rmult_le_compat_r; lra. }
  (* the integer error bound, read in the reals *)
  assert (HerrR : Rabs (IZR m2 * bpow e1 - r) <= bpow e1 / 2).
  { destruct Herr as [H1 H2]. apply IZR_le in H1, H2.
    rewrite minus_IZR, !mult_IZR in H1, H2. rewrite opp_IZR in H1.
    change (IZR 2) with 2 in *.
    rewrite Ee1. unfold r. apply Rabs_le. split; nra. }
  assert (HerrE : k = 0%Z -> IZR m2 * bpow e1 = r).
  { intros Hk0. rewrite Hk0 in Herr. change (2 ^ 0)%Z with 1%Z in Herr.
    assert (m2 = Zpos M) by lia. subst m2.
    unfold r. f_equal. f_equal. unfold k in Hk0. lia. }
  assert (Hbound : Rabs (IZR m2 * bpow e1 - r) <= r * u + bpow (-150)).
  { destruct Hhalf as [Hh | Hk0]; [lra|].
    rewrite (HerrE Hk0). replace (r - r) with 0 by ring. rewrite Rabs_R0.
    pose proof (bpow_pos (-150)).
    assert (0 < r) by (apply Rmult_lt_0_compat; [apply IZR_lt; lia | exact HB]).
    unfold u. nra. }
  (* the value is huge when the exponent is *)
  assert (Hhuge : (104 <= e1)%Z -> (105 <= e1)%Z \/ m2 = (2 ^ 24)%Z -> bpow 105 <= r).
  { intros H104 Hor.
    assert (Hd : (Zpos (digits2_pos M) + E - 24 <= e1)%Z)
      by (unfold e1, fexp, SpecFloat.emin, prec, emax; lia).
    destruct (Z.eq_dec k 0) as [Hk0 | Hk0].
    - rewrite <- (HerrE Hk0).
      destruct Hor as [H105 | Hm].
      + apply Rle_trans with (1 * bpow e1).
        * rewrite Rmult_1_l. apply bpow_le. lia.
        * apply Rmult_le_compat_r; [apply Rlt_le, bpow_pos|].
          rewrite Hk0 in Herr. change (2 ^ 0)%Z with 1%Z in Herr.
          apply IZR_le. lia.
      + rewrite Hm. change (IZR (2 ^ 24)) with 16777216.
        pose proof (bpow_le 104 e1 H104).
        assert (E105 : bpow 105 = 2 * bpow 104).
        { replace 104%Z with (105 - 1)%Z by lia. rewrite bpow_half.
          replace (105 - 1 + 1)%Z with 105%Z by lia. field. }
        pose proof (bpow_pos 104). lra.
    - assert (He1 : e1 = (Zpos (digits2_pos M) + E - 24)%Z)
        by (unfold k, e1, fexp, SpecFloat.emin, prec, emax in *; lia).
      apply Rle_trans with (bpow (Zpos (digits2_pos M) - 1 + E)).
      + apply bpow_le. lia.
      + rewrite bpow_add. unfold r.
        apply Rmult_le_compat_r; [lra|].
        rewrite bpow_IZR by lia. apply IZR_le. exact HMlo. }
  destruct m2 as [| q | q]; [| | lia].
  - right. rewrite Hf. split; [exact I|].
    cbn [F2R]. rewrite Rmult_0_l in Hbound. exact Hbound.
  - destruct (Z.ltb_spec (Zpos q) (2 ^ 24)) as [Hlt | Hge].
    + destruct (Z.leb_spec e1 104) as [Hle | Hgt].
      * right. rewrite Hf. split; [exact I|]. rewrite F2R_normal. exact Hbound.
      * left. split; [exact Hf|]. apply Hhuge; [lia | left; lia].
    + assert (Eq : Zpos q = (2 ^ 24)%Z) by lia.
      destruct (Z.leb_spec (e1 + 1) 104) as [Hle | Hgt].
      * right. rewrite Hf. split; [exact I|]. rewrite F2R_normal.
        rewrite Eq in Hbound.
        replace (IZR (Zpos 8388608) * bpow (e1 + 1)) with (IZR (2 ^ 24) * bpow e1);
          [exact Hbound|].
        rewrite bpow_add, (bpow_IZR 1) by lia.
        change (IZR (2 ^ 24)) with 16777216. change (IZR (2 ^ 1)) with 2.
        change (IZR (Zpos 8388608)) with 8388608. ring.
      * left. split; [exact Hf|]. apply Hhuge; [lia | right; exact Eq].
Qed.

Lemma aligned_pair_value (m : positive) (e ez : Z) :
  (ez <= e)%Z ->
  IZR (Zpos (fst (shl_align m e ez))) * bpow (snd (shl_align m e ez))
  = IZR (Zpos m) * bpow e.
Proof.
  intros H. rewrite <- (aligned_value m e ez H). f_equal. f_equal.
  unfold shl_align. destruct (ez - e)%Z eqn:Ed; cbn [snd]; lia.
Qed.

Lemma binary_round_total (M : positive) (E : Z) :
  let f := binary_round prec emax false M E in
  let r := IZR (Zpos M) * bpow E in
  (f = S754_infinity false /\ bpow 105 <= r) \/
  (nonneg_finite f /\ Rabs (F2R f - r) <= r * u + bpow (-150)).
Proof.
  intros f r. unfold f, binary_round.
  set (ez := fexp prec emax (Zpos (digits2_pos M) + E)).
  assert (Hv : IZR (Zpos (fst (shl_align M E ez))) * bpow (snd (shl_align M E ez)) = r).
  { destruct (Z.le_gt_cases ez E) as [Hle | Hgt].
    - apply aligned_pair_value. exact Hle.
    - unfold shl_align. destruct (ez - E)%Z eqn:Ed; try lia; reflexivity. }
  destruct (shl_align M E ez) as [mz ez']. cbn [fst snd] in Hv.
  rewrite <- Hv. apply round_aux_total.
Qed.

Lemma F2R_fopp (f : float) : F2R (fopp f) = - F2R f.
Proof.
  destruct f as [s | s | | s m e]; cbn [fopp SFopp F2R]; try lra.
  destruct s; cbn [negb]; ring.
Qed.

(** The square of a float that is a zero or finite. *)
Lemma fmul_self_total (a : float) :
  zero_or_finite a = true ->
  fmul a a = S754_infinity false \/
  (nonneg_finite (fmul a a) /\
   Rabs (F2R (fmul a a) - F2R a * F2R a) <= F2R a * F2R a * u + bpow (-150)).
Proof.
  destruct a as [s | s | | s m e]; try discriminate; intros _.
  - right. unfold fmul, SFmul. rewrite xorb_nilpotent. split; [exact I|].
    cbn [F2R]. rewrite Rmult_0_l, Rminus_0_r, Rabs_R0, Rmult_0_l, Rplus_0_l.
    apply Rlt_le, bpow_pos.
  - unfold fmul, SFmul. rewrite xorb_nilpotent.
    assert (Hv : F2R (S754_finite s m e) * F2R (S754_finite s m e)
                 = IZR (Zpos (m * m)) * bpow (e + e)).
    { cbn [F2R]. rewrite Pos2Z.inj_mul, mult_IZR, bpow_add. destruct s; ring. }
    rewrite Hv.
    destruct (round_aux_total (m * m) (e + e)) as [[Hi _] | Hf];
      [left; exact Hi | right; exact Hf].
Qed.

(** A zero or finite float times a positive normal one. *)
Lemma fmul_pos_total (a y : float) :
  zero_or_finite a = true -> normal_pos y ->
  bpow 105 <= Rabs (F2R a) * F2R y \/
  Rabs (F2R (fmul a y) - F2R a * F2R y) <= Rabs (F2R a) * F2R y * u + bpow (-150).
Proof.
  intros Ha (my & ey & -> & _ & _).
  destruct a as [s | s | | s m e]; try discriminate.
  - right. unfold fmul, SFmul. cbn [F2R].
    rewrite Rmult_0_l, Rminus_0_r, Rabs_R0, Rmult_0_l, Rmult_0_l, Rplus_0_l.
    apply Rlt_le, bpow_pos.
  - set (r := IZR (Zpos (m * my)) * bpow (e + ey)).
    assert (Hp : 0 < IZR (Zpos m) * bpow e)
      by (apply Rmult_lt_0_compat; [apply IZR_lt; lia | apply bpow_pos]).
    assert (Hr : r = IZR (Zpos m) * bpow e * (IZR (Zpos my) * bpow ey))
      by (unfold r; rewrite Pos2Z.inj_mul, mult_IZR, bpow_add; ring).
    assert (Habs : Rabs (F2R (S754_finite s m e)) = IZR (Zpos m) * bpow e).
    { cbn [F2R]. destruct s.
      - replace (-1 * IZR (Zpos m) * bpow e) with (- (IZR (Zpos m) * bpow e)) by ring.
        rewrite Rabs_Ropp. apply Rabs_pos_eq. lra.
      - rewrite Rmult_1_l. apply Rabs_pos_eq. lra. }
    assert (HL : F2R (S754_finite s m e) * F2R (S754_finite false my ey)
                 = (if s then -1 else 1) * r).
    { rewrite Hr. cbn [F2R]. destruct s; ring. }
    rewrite Habs, HL, F2R_normal, <- Hr.
    unfold fmul, SFmul. rewrite xorb_false_r.
    destruct (round_aux_total (m * my) (e + ey)) as [[_ Hi] | [_ Hf]];
      [left; exact Hi | right]. fold r in Hf.
    destruct s.
    + change true with (negb false). rewrite binary_round_aux_opp, F2R_fopp.
      set (F := F2R (binary_round_aux prec emax false (Zpos (m * my)) (e + ey) loc_Exact)) in *.
      replace (- F - -1 * r) with (- (F - r)) by ring.
      rewrite Rabs_Ropp. exact Hf.
    + rewrite Rmult_1_l. exact Hf.
Qed.

(** The sum of two non-negative floats. *)
Lemma fadd_total (a b : float) :
  nonneg_finite a -> nonneg_finite b ->
  fadd a b = S754_infinity false \/
  (nonneg_finite (fadd a b) /\
   Rabs (F2R (fadd a b) - (F2R a + F2R b)) <= (F2R a + F2R b) * u + bpow (-150)).
Proof.
  intros Ha Hb. pose proof (bpow_pos (-150)) as Hal.
  assert (Hexact : forall f, nonneg_finite f ->
            Rabs (F2R f - F2R f) <= F2R f * u + bpow (-150)).
  { intros f Hf. apply nonneg_finite_value in Hf.
    replace (F2R f - F2R f) with 0 by ring. rewrite Rabs_R0. unfold u. nra. }
  destruct a as [[|] | | | [|] ma ea]; cbn [nonneg_finite] in Ha; try tauto;
    destruct b as [[|] | | | [|] mb eb]; cbn [nonneg_finite] in Hb; try tauto.
  - right. split; [exact I|]. cbn [fadd SFadd F2R].
    rewrite Rplus_0_l, Rminus_0_r, Rabs_R0, Rmult_0_l. lra.
  - right. split; [exact I|]. cbn [fadd SFadd].
    replace (F2R (S754_zero false) + F2R (S754_finite false mb eb))
      with (F2R (S754_finite false mb eb)) by (cbn [F2R]; ring).
    apply Hexact. exact I.
  - right. split; [exact I|]. cbn [fadd SFadd].
    replace (F2R (S754_finite false ma ea) + F2R (S754_zero false))
      with (F2R (S754_finite false ma ea)) by (cbn [F2R]; ring).
    apply Hexact. exact I.
  - rewrite !F2R_normal. unfold fadd, SFadd. cbn [cond_Zopp].
    set (ez := Z.min ea eb).
    assert (Hv : IZR (Zpos (fst (shl_align ma ea ez)) + Zpos (fst (shl_align mb eb ez)))
                 * bpow ez
                 = IZR (Zpos ma) * bpow ea + IZR (Zpos mb) * bpow eb).
    { rewrite plus_IZR, Rmult_plus_distr_r.
      rewrite !aligned_value by (unfold ez; lia). reflexivity. }
    rewrite <- Hv.
    change (Zpos (fst (shl_align ma ea ez)) + Zpos (fst (shl_align mb eb ez)))%Z
      with (Zpos (fst (shl_align ma ea ez) + fst (shl_align mb eb ez))).
    cbn [binary_normalize].
    destruct (binary_round_total (fst (shl_align ma ea ez) + fst (shl_align mb eb ez)) ez)
      as [[Hi _] | Hf]; [left; exact Hi | right; exact Hf].
Qed.

(** ** The length of a normalized vector *)

Definition euclidean_length (v : GameEngineFastRSqrt.vec3) : R :=
  let '(v0, v1, v2) := v in
  sqrt (F2R v0 * F2R v0 + F2R v1 * F2R v1 + F2R v2 * F2R v2).

Lemma fadd_finite_inv (a b : float) :
  zero_or_finite (fadd a b) = true ->
  zero_or_finite a = true /\ zero_or_finite b = true.
Proof.
  destruct a as [[|] | [|] | | sa ma ea], b as [[|] | [|] | | sb mb eb];
    cbn [fadd SFadd zero_or_finite]; intros H; auto; discriminate.
Qed.

Lemma fmul_self_finite_inv (a : float) :
  zero_or_finite (fmul a a) = true -> zero_or_finite a = true.
Proof.
  intros H. pose proof (fmul_self_class a) as Hc.
  destruct (fmul a a); try discriminate; exact Hc.
Qed.

Lemma normal_pos_finite (f : float) : normal_pos f -> zero_or_finite f = true.
Proof. intros (m & e & -> & _). reflexivity. Qed.

Lemma tiny_bound : bpow (-150) <= / 1000000000000000000000000000000.
Proof.
  change (-150)%Z with (Z.opp 150). rewrite bpow_opp, bpow_IZR by lia.
  apply Rinv_le_contravar; [lra|].
  apply IZR_le. apply Z.leb_le. vm_compute. reflexivity.
Qed.

Lemma huge_bound : 1073741824 <= bpow 105.
Proof.
  apply Rle_trans with (bpow 30); [|apply bpow_le; lia].
  rewrite bpow_IZR by lia. apply Req_le. reflexivity.
Qed.

(** The computed squared length against the exact one. *)
Lemma squared_length_value (A0 A1 A2 q0 q1 q2 t S al : R) :
  0 <= al <= / 1000000000000000000000000000000 ->
  0 <= A0 -> 0 <= A1 -> 0 <= A2 ->
  Rabs (q0 - A0) <= A0 * u + al ->
  Rabs (q1 - A1) <= A1 * u + al ->
  Rabs (q2 - A2) <= A2 * u + al ->
  Rabs (t - (q0 + q1)) <= (q0 + q1) * u + al ->
  Rabs (S - (t + q2)) <= (t + q2) * u + al ->
  / 16384 <= S ->
  S * (1 - 4 * u) <= A0 + A1 + A2 <= S * (1 + 4 * u).
Proof.
  intros Hal P0 P1 P2 H0 H1 H2 Ht HS HSlo.
  apply Rabs_le_inv in H0, H1, H2, Ht, HS.
  unfold u in *. split; lra.
Qed.

(** The square of the kernel's result times its argument. *)
Lemma inverse_value (S y : R) :
  / 16384 <= S <= 16384 -> 0 < y ->
  Rabs (y * sqrt S - 1) <= 62 / 10000000 ->
  y <= 130 /\
  (1 - 62 / 10000000) * (1 - 62 / 10000000) <= y * y * S
  <= (1 + 62 / 10000000) * (1 + 62 / 10000000).
Proof.
  intros HS Hy Hw. apply Rabs_le_inv in Hw.
  assert (HS0 : 0 < S) by lra.
  pose proof (sqrt_lt_R0 S HS0) as Hs.
  pose proof (sqrt_sqrt S (Rlt_le _ _ HS0)) as Hss.
  set (s := sqrt S) in *.
  assert (Hs1 : / 128 <= s).
  { destruct (Rle_lt_dec (/ 128) s) as [H | H]; [exact H|].
    assert (s * s < / 128 * / 128) by nra. lra. }
  split.
  - destruct (Rle_lt_dec y 130) as [H | H]; [exact H|].
    assert (130 * / 128 < y * s) by nra. lra.
  - replace (y * y * S) with ((y * s) * (y * s)) by (rewrite <- Hss; ring).
    split; nra.
Qed.

(** The square of a scaled component. *)
Lemma component_square (x o al : R) :
  0 <= al <= / 1000000000000000000000000000000 ->
  Rabs (o - x) <= Rabs x * u + al ->
  x * x * (1 - 2 * u) - / 1000000000000000000000000000000 * (1 + x * x) <= o * o /\
  o * o <= x * x * ((1 + u) * (1 + u))
           + 3 * / 1000000000000000000000000000000 * (1 + x * x).
Proof.
  intros Hal H. apply Rabs_le_inv in H. unfold u in *.
  set (z := Rabs x) in *.
  assert (Hz : 0 <= z) by apply Rabs_pos.
  assert (Hzz : z * z = x * x).
  { unfold z, Rabs. destruct (Rcase_abs x); ring. }
  assert (Hxz : - z <= x <= z).
  { unfold z, Rabs. destruct (Rcase_abs x); lra. }
  rewrite <- Hzz.
  assert (Hz1 : 2 * z <= 1 + z * z).
  { pose proof (Rle_0_sqr (z - 1)) as Hq. unfold Rsqr in Hq. lra. }
  set (d := o - x) in *.
  replace (o * o) with (x * x + 2 * (x * d) + d * d) by (unfold d; ring).
  rewrite <- Hzz.
  set (B := z * / 16777216 + al) in *.
  assert (HB : 0 <= B) by (unfold B; lra).
  assert (Hd2 : 0 <= d * d <= B * B) by (split; nra).
  assert (Hxd : - (z * B) <= x * d <= z * B) by (split; nra).
  assert (T1 : 0 <= al * z <= / 1000000000000000000000000000000 * z)
    by (split; [apply Rmult_le_pos | apply Rmult_le_compat_r]; lra).
  assert (T2 : al * al <= / 1000000000000000000000000000000).
  { apply Rle_trans with (al * 1); [apply Rmult_le_compat_l; lra | lra]. }
  assert (T3 : 0 <= z * z) by (apply Rmult_le_pos; lra).
  assert (EzB : z * B = / 16777216 * (z * z) + al * z) by (unfold B; ring).
  assert (EBB : B * B = / 16777216 * / 16777216 * (z * z)
                        + 2 * / 16777216 * (al * z) + al * al) by (unfold B; ring).
  split; lra.
Qed.


Lemma abs_of_square (a c : R) : 0 <= c -> a * a <= c * c -> Rabs a <= c.
Proof.
  intros Hc H. unfold Rabs. destruct (Rcase_abs a); nra.
Qed.

Lemma sqrt_near_one (L e : R) :
  0 <= e <= 1 -> (1 - e) * (1 - e) <= L <= (1 + e) * (1 + e) ->
  Rabs (sqrt L - 1) <= e.
Proof.
  intros He [Hlo Hhi]. apply Rabs_le.
  apply sqrt_le_1_alt in Hlo, Hhi.
  rewrite sqrt_square in Hlo, Hhi by lra. lra.
Qed.

(** Three components scaled by an accurate reciprocal square root of
    their computed squared length. *)
Lemma scaled_length (v0 v1 v2 inv : float) :
  normal_pos (fadd (fadd (fmul v0 v0) (fmul v1 v1)) (fmul v2 v2)) ->
  / 16384 <= F2R (fadd (fadd (fmul v0 v0) (fmul v1 v1)) (fmul v2 v2)) <= 16384 ->
  normal_pos inv ->
  Rabs (F2R inv * sqrt (F2R (fadd (fadd (fmul v0 v0) (fmul v1 v1)) (fmul v2 v2))) - 1)
  <= 62 / 10000000 ->
  Rabs (sqrt (F2R (fmul v0 inv) * F2R (fmul v0 inv)
              + F2R (fmul v1 inv) * F2R (fmul v1 inv)
              + F2R (fmul v2 inv) * F2R (fmul v2 inv)) - 1) <= 1 / 100000.
Proof.
  intros HS HSr Hy Hye.
  pose proof (normal_pos_gt0 _ Hy) as Hy0.
  pose proof (normal_pos_finite _ HS) as FS.
  destruct (fadd_finite_inv _ _ FS) as [Ft F2].
  destruct (fadd_finite_inv _ _ Ft) as [F0 F1].
  pose proof (fmul_self_finite_inv _ F0) as G0.
  pose proof (fmul_self_finite_inv _ F1) as G1.
  pose proof (fmul_self_finite_inv _ F2) as G2.
  destruct (fmul_self_total v0 G0) as [Hi | [N0 B0]]; [rewrite Hi in F0; discriminate|].
  destruct (fmul_self_total v1 G1) as [Hi | [N1 B1]]; [rewrite Hi in F1; discriminate|].
  destruct (fmul_self_total v2 G2) as [Hi | [N2 B2]]; [rewrite Hi in F2; discriminate|].
  destruct (fadd_total _ _ N0 N1) as [Hi | [Nt Bt]]; [rewrite Hi in Ft; discriminate|].
  destruct (fadd_total _ _ Nt N2) as [Hi | [_ BS]]; [rewrite Hi in FS; discriminate|].
  pose proof tiny_bound as Htiny. pose proof (bpow_pos (-150)) as Hal.
  pose proof huge_bound as Hhuge.
  set (al := bpow (-150)) in *.
  set (a0 := F2R v0) in *. set (a1 := F2R v1) in *. set (a2 := F2R v2) in *.
  set (y := F2R inv) in *.
  set (S := F2R (fadd (fadd (fmul v0 v0) (fmul v1 v1)) (fmul v2 v2))) in *.
  assert (P0 : 0 <= a0 * a0) by nra.
  assert (P1 : 0 <= a1 * a1) by nra.
  assert (P2 : 0 <= a2 * a2) by nra.
  pose proof (squared_length_value _ _ _ _ _ _ _ _ al ltac:(lra) P0 P1 P2 B0 B1 B2 Bt BS
                ltac:(lra)) as [HNlo HNhi].
  destruct (inverse_value S y HSr Hy0 Hye) as [Hy130 [HWlo HWhi]].
  unfold u in HNlo, HNhi.
  assert (A0 : Rabs a0 <= 129) by (apply abs_of_square; lra).
  assert (A1 : Rabs a1 <= 129) by (apply abs_of_square; lra).
  assert (A2 : Rabs a2 <= 129) by (apply abs_of_square; lra).
  assert (Hprod : forall a, Rabs a <= 129 -> Rabs a * y < bpow 105).
  { intros a Ha. pose proof (Rabs_pos a).
    apply Rle_lt_trans with (129 * 130); [|lra].
    apply Rmult_le_compat; lra. }
  assert (Habs : forall a, Rabs (a * y) = Rabs a * y)
    by (intros a; rewrite Rabs_mult, (Rabs_pos_eq y) by lra; reflexivity).
  destruct (fmul_pos_total v0 inv G0 Hy) as [Ho | C0];
    [fold a0 y in Ho; pose proof (Hprod a0 A0); lra|].
  destruct (fmul_pos_total v1 inv G1 Hy) as [Ho | C1];
    [fold a1 y in Ho; pose proof (Hprod a1 A1); lra|].
  destruct (fmul_pos_total v2 inv G2 Hy) as [Ho | C2];
    [fold a2 y in Ho; pose proof (Hprod a2 A2); lra|].
  fold a0 y al in C0. fold a1 y al in C1. fold a2 y al in C2.
  rewrite <- Habs in C0, C1, C2.
  destruct (component_square _ _ al ltac:(lra) C0) as [L0 U0].
  destruct (component_square _ _ al ltac:(lra) C1) as [L1 U1].
  destruct (component_square _ _ al ltac:(lra) C2) as [L2 U2].
  set (o0 := F2R (fmul v0 inv)) in *.
  set (o1 := F2R (fmul v1 inv)) in *.
  set (o2 := F2R (fmul v2 inv)) in *.
  unfold u in L0, L1, L2, U0, U1, U2.
  set (X := a0 * y * (a0 * y) + a1 * y * (a1 * y) + a2 * y * (a2 * y)).
  assert (EX : X = (a0 * a0 + a1 * a1 + a2 * a2) * (y * y)) by (unfold X; ring).
  assert (Hyy : 0 <= y * y) by nra.
  assert (HXlo : y * y * S * (1 - 4 * / 16777216) <= X).
  { rewrite EX.
    replace (y * y * S * (1 - 4 * / 16777216))
      with (S * (1 - 4 * / 16777216) * (y * y)) by ring.
    apply Rmult_le_compat_r; [exact Hyy | exact HNlo]. }
  assert (HXhi : X <= y * y * S * (1 + 4 * / 16777216)).
  { rewrite EX.
    replace (y * y * S * (1 + 4 * / 16777216))
      with (S * (1 + 4 * / 16777216) * (y * y)) by ring.
    apply Rmult_le_compat_r; [exact Hyy | exact HNhi]. }
  apply sqrt_near_one; [lra|].
  unfold X in HXlo, HXhi.
  split; lra.
Qed.






Local Open Scope Z_scope.

(** * The other functions of the kernels' files *)

(** ** The pointer-cast kernels on either sign *)

(** [fast_rsqrt_original] of final_game_algorithm.cpp (signed [int],
    one update). *)
Definition fast_rsqrt_original (number : float) : float :=
  let x2 := fmul number f0_5 in
  let y := number in
  let i := signed32 (to_bits y) in
  let i := 0x5f3759df - Z.shiftr i 1 in
  let y := of_bits (wrap32 i) in
  let y := fmul y (fsub f1_5 (fmul (fmul x2 y) y)) in
  y.

(** The floats a [float] variable can hold: the finite ones are those
    with a canonical mantissa and exponent. *)
Definition valid (x : float) : bool := valid_binary prec emax x.

(** The sign bit of the pattern of [x]. *)
Definition sign_set (x : float) : bool :=
  match x with
  | S754_zero s | S754_infinity s | S754_finite s _ _ => s
  | S754_nan => false
  end.

Lemma to_bits_by_sign (x : float) :
  valid x = true ->
  if sign_set x then 2 ^ 31 <= to_bits x < 2 ^ 32 else 0 <= to_bits x < 2 ^ 31.
Proof.
  change (2 ^ 31) with 0x80000000. change (2 ^ 32) with 0x100000000.
  destruct x as [s | s | | s m e]; cbn [valid valid_binary sign_set to_bits].
  - intros _. destruct s; cbn [sign_bit]; lia.
  - intros _. destruct s; cbn [sign_bit]; lia.
  - intros _. lia.
  - intros H. apply bounded_range in H. destruct H as (He & Hm & Hn).
    change (2 ^ 24) with 0x1000000 in Hm. change (2 ^ 23) with 0x800000 in Hn.
    assert (Hb : 0 <= (if Zpos m <? 0x800000 then Zpos m
                       else Z.shiftl (e + 150) 23 + (Zpos m - 0x800000)) < 0x7F800000).
    { destruct (Z.ltb_spec (Zpos m) 0x800000); [lia|].
      rewrite Z.shiftl_mul_pow2 by lia. change (2 ^ 23) with 0x800000. lia. }
    destruct (Zpos m <? 0x800000), s; cbn [sign_bit]; lia.
Qed.

Lemma fopp_involutive (a : float) : fopp (fopp a) = a.
Proof. destruct a as [[] | [] | | [] m e]; reflexivity. Qed.

Lemma fmul_opp_r (a b : float) : fmul a (fopp b) = fopp (fmul a b).
Proof.
  destruct a as [sa | sa | | sa ma ea], b as [sb | sb | | sb mb eb];
    cbn; try reflexivity; try (destruct sa, sb; reflexivity).
  rewrite <- binary_round_aux_opp. f_equal. destruct sa, sb; reflexivity.
Qed.

(** The update is odd in the estimate. *)
Lemma newton_update_opp (c x y : float) :
  newton_update c x (fopp y) = fopp (newton_update c x y).
Proof.
  unfold newton_update.
  rewrite (fmul_opp_r (fmul x f0_5) y).
  rewrite (fmul_opp_l (fmul (fmul x f0_5) y) (fopp y)).
  rewrite (fmul_opp_r (fmul (fmul x f0_5) y) y).
  rewrite fopp_involutive. apply fmul_opp_l.
Qed.

(** Setting bit 31 of a pattern negates the float. *)
Lemma of_bits_flip (w : Z) :
  0 <= w < 2 ^ 31 -> of_bits (w + 2 ^ 31) = fopp (of_bits w).
Proof.
  intros Hw. unfold of_bits.
  assert (T1 : Z.testbit (w + 2 ^ 31) 31 = true).
  { apply Z.testbit_true; [lia|].
    replace (w + 2 ^ 31) with (w + 1 * 2 ^ 31) by lia.
    rewrite Z.div_add by lia. rewrite Z.div_small by lia. reflexivity. }
  rewrite T1, (testbit_31_small w Hw).
  assert (T2 : Z.land (Z.shiftr (w + 2 ^ 31) 23) 0xFF = Z.land (Z.shiftr w 23) 0xFF).
  { change 0xFF with (Z.ones 8). rewrite !Z.land_ones, !Z.shiftr_div_pow2 by lia.
    replace (w + 2 ^ 31) with (w + 2 ^ 8 * 2 ^ 23) by lia.
    rewrite Z.div_add by lia.
    replace (w / 2 ^ 23 + 2 ^ 8) with (w / 2 ^ 23 + 1 * 2 ^ 8) by lia.
    apply Z.mod_add. lia. }
  assert (T3 : Z.land (w + 2 ^ 31) 0x7FFFFF = Z.land w 0x7FFFFF).
  { change 0x7FFFFF with (Z.ones 23). rewrite !Z.land_ones by lia.
    replace (w + 2 ^ 31) with (w + 2 ^ 8 * 2 ^ 23) by lia.
    apply Z.mod_add. lia. }
  rewrite T2, T3.
  destruct (Z.land (Z.shiftr w 23) 0xFF =? 0).
  - destruct (Z.land w 0x7FFFFF); reflexivity.
  - destruct (Z.land (Z.shiftr w 23) 0xFF =? 255).
    + destruct (Z.land w 0x7FFFFF =? 0); reflexivity.
    + destruct (Z.land w 0x7FFFFF + 0x800000); reflexivity.
Qed.

Lemma of_bits_wrap_flip (A : Z) :
  of_bits (wrap32 (A + 2 ^ 31)) = fopp (of_bits (wrap32 A)).
Proof.
  unfold wrap32.
  pose proof (Z.mod_pos_bound A (2 ^ 32) ltac:(lia)) as Hw.
  rewrite <- Zplus_mod_idemp_l.
  set (w := A mod 2 ^ 32) in *.
  destruct (Z.lt_ge_cases w (2 ^ 31)) as [Hlt | Hge].
  - rewrite Z.mod_small by lia. apply of_bits_flip. lia.
  - replace ((w + 2 ^ 31) mod 2 ^ 32) with (w - 2 ^ 31).
    + replace w with ((w - 2 ^ 31) + 2 ^ 31) at 2 by lia.
      rewrite of_bits_flip by lia. symmetry. apply fopp_involutive.
    + apply Z.mod_unique with 1; lia.
Qed.

(** The two readings of the bit hack: on a pattern with bit 31 clear the
    signed shift is the unsigned one, and on a pattern with bit 31 set its
    arithmetic shift moves bit 31 of the difference. *)
Lemma approximate_signed_by_sign (magic : Z) (x : float) :
  valid x = true ->
  approximate_signed magic x
  = if sign_set x then fopp (approximate magic x) else approximate magic x.
Proof.
  intros Hv. pose proof (to_bits_by_sign x Hv) as Hb.
  unfold approximate_signed, approximate. cbv zeta.
  set (b := to_bits x) in *.
  destruct (sign_set x).
  - assert (Es : signed32 b = b - 2 ^ 32).
    { unfold signed32. rewrite wrap32_small by lia.
      destruct (Z.ltb_spec b (2 ^ 31)); lia. }
    rewrite Es.
    assert (Eh : Z.shiftr (b - 2 ^ 32) 1 = Z.shiftr b 1 - 2 ^ 31).
    { rewrite !Z.shiftr_div_pow2 by lia. change (2 ^ 1) with 2.
      replace (b - 2 ^ 32) with (b + (- 2 ^ 31) * 2) by lia.
      rewrite Z.div_add by lia. lia. }
    rewrite Eh.
    replace (magic - (Z.shiftr b 1 - 2 ^ 31)) with (magic - Z.shiftr b 1 + 2 ^ 31) by lia.
    apply of_bits_wrap_flip.
  - rewrite signed32_small by lia. reflexivity.
Qed.

Local Open Scope R_scope.

Lemma in_domain_sign_clear (x : float) :
  in_domain x = true -> valid x = true /\ sign_set x = false.
Proof.
  unfold in_domain. intros H.
  apply andb_true_iff in H. destruct H as [H _].
  apply andb_true_iff in H. destruct H as [H _].
  destruct x as [s | s | | [|] m e]; try discriminate.
  split; [exact H | reflexivity].
Qed.

Lemma plain_updates (x : float) :
  forall y, normal_pos y -> rel_error (F2R y) (F2R x) <= 36 / 1000 ->
            in_domain x = true ->
            normal_pos (newton_update f1_5 x y) /\
            (rel_error (F2R (newton_update f1_5 x y)) (F2R x)
             <= 152 / 100 * (rel_error (F2R y) (F2R x) * rel_error (F2R y) (F2R x))
                + 27 / 100000000)%R.
Proof.
  intros y Hy He Hd. destruct (in_domain_normal x Hd) as [Hx Hxr].
  apply step_plain; assumption.
Qed.

(** The error of the guess with either magic constant followed by one
    and by two updates with the constant 1.5. *)
Lemma plain_kernel_errors (C : Z) (x : float) :
  in_domain x = true -> (3627487 <= C <= 3627654)%Z ->
  let y1 := newton_update f1_5 x (approximate (190 * 2 ^ 23 + C) x) in
  (normal_pos y1 /\ rel_error (F2R y1) (F2R x) <= 2 / 1000)%R /\
  (normal_pos (newton_update f1_5 x y1) /\
   rel_error (F2R (newton_update f1_5 x y1)) (F2R x) <= 62 / 10000000)%R.
Proof.
  intros Hd HC y1.
  assert (Hplain : forall y, normal_pos y -> (rel_error (F2R y) (F2R x) <= 36 / 1000)%R ->
             normal_pos (newton_update f1_5 x y) /\
             (rel_error (F2R (newton_update f1_5 x y)) (F2R x)
              <= 152 / 100 * (rel_error (F2R y) (F2R x) * rel_error (F2R y) (F2R x))
                 + 27 / 100000000)%R)
    by (intros y Hy He; apply plain_updates; assumption).
  pose proof (kernel_chain C x f1_5 _ Hd HC Hplain ltac:(lra)) as (E0 & E1 & N2 & E2).
  destruct (in_domain_normal x Hd) as [Hx _].
  destruct (guess_rel_error C x Hx HC) as [N0 _].
  destruct (Hplain _ N0 E0) as [N1 _].
  repeat split; assumption.
Qed.

(** X1.  The kernels of final_game_algorithm.cpp, which read the bits through
    an [int] pointer: on every float from 1e-4 to 1e4
    [fast_rsqrt_improved] is within 0.001 percent of the exact reciprocal
    square root and [fast_rsqrt_original] within 0.2 percent. *)
Theorem int_kernels_accuracy (x : float) :
  in_domain x = true ->
  (rel_error (F2R (fast_rsqrt_improved x)) (F2R x) <= 1 / 100000 /\
   rel_error (F2R (fast_rsqrt_original x)) (F2R x) <= 2 / 1000)%R.
Proof.
  intros Hd. destruct (in_domain_sign_clear x Hd) as [Hv Hs].
  pose proof (approximate_signed_by_sign 0x5f375a86 x Hv) as G1.
  pose proof (approximate_signed_by_sign 0x5f3759df x Hv) as G2.
  rewrite Hs in G1, G2.
  change (fast_rsqrt_improved x)
    with (newton_update f1_5 x (newton_update f1_5 x (approximate_signed 0x5f375a86 x))).
  change (fast_rsqrt_original x)
    with (newton_update f1_5 x (approximate_signed 0x5f3759df x)).
  rewrite G1, G2, magic_5f375a86, magic_5f3759df.
  destruct (plain_kernel_errors 3627654 x Hd ltac:(lia)) as [_ [_ H2]].
  destruct (plain_kernel_errors 3627487 x Hd ltac:(lia)) as [[_ H1] _].
  split; [|exact H1]. apply Rle_trans with (1 := H2). lra.
Qed.

Lemma int_kernels_accuracy_witness :
  (rel_error (F2R (fast_rsqrt_improved f4_0)) (F2R f4_0) <= 1 / 100000)%R.
Proof.
  apply (int_kernels_accuracy f4_0). reflexivity.
Defined.

(** X2.  On either sign.  A float with the sign bit clear gives the same
    result through the [int] pointer as through the [union], and one with
    the sign bit set (a negative number, [-0] or [-inf]) gives the exact
    negation, the [int] subtraction wrapping around. *)
Theorem int_kernels_by_sign (x : float) :
  valid x = true ->
  fast_rsqrt_improved x
  = (if sign_set x then fopp (enhancedInvSqrt x) else enhancedInvSqrt x) /\
  fast_rsqrt_original x
  = (if sign_set x then fopp (fastInvSqrt x) else fastInvSqrt x).
Proof.
  intros Hv.
  change (fast_rsqrt_improved x)
    with (newton_update f1_5 x (newton_update f1_5 x (approximate_signed 0x5f375a86 x))).
  change (fast_rsqrt_original x)
    with (newton_update f1_5 x (approximate_signed 0x5f3759df x)).
  change (enhancedInvSqrt x)
    with (newton_update f1_5 x (newton_update f1_5 x (approximate 0x5f375a86 x))).
  change (fastInvSqrt x) with (newton_update f1_5 x (approximate 0x5f3759df x)).
  rewrite !approximate_signed_by_sign by exact Hv.
  destruct (sign_set x); [|split; reflexivity].
  rewrite !newton_update_opp. split; reflexivity.
Qed.

Lemma int_kernels_by_sign_witness :
  fast_rsqrt_improved (of_bits 0xC0800000)
  = fopp (enhancedInvSqrt (of_bits 0xC0800000)).
Proof.
  apply (int_kernels_by_sign (of_bits 0xC0800000)). reflexivity.
Defined.

(** ** The memoization cache as a table *)

Lemma hash_range (x : float) : (0 <= FastRsqrtCache.hash x < 1024)%Z.
Proof.
  unfold FastRsqrtCache.hash, FastRsqrtCache.CACHE_MASK, FastRsqrtCache.CACHE_SIZE.
  change (1024 - 1)%Z with (Z.ones 10). rewrite Z.land_ones by lia.
  apply Z.mod_pos_bound. lia.
Qed.

Lemma feq_refl (x : float) : is_nan x = false -> feq x x = true.
Proof.
  destruct x as [[] | [] | | [] m e]; try discriminate; intros _; try reflexivity.
  - unfold feq, SFeqb. cbn [SFcompare]. rewrite Z.compare_refl.
    change (PosDef.Pos.compare_cont Eq m m) with (Pos.compare m m).
    rewrite Pos.compare_refl. reflexivity.
  - unfold feq, SFeqb. cbn [SFcompare]. rewrite Z.compare_refl.
    change (PosDef.Pos.compare_cont Eq m m) with (Pos.compare m m).
    rewrite Pos.compare_refl. reflexivity.
Qed.

Lemma feq_nan_r (a x : float) : is_nan x = true -> feq a x = false.
Proof.
  destruct x; try discriminate. intros _. destruct a; reflexivity.
Qed.

Lemma compute_other_slots (c : FastRsqrtCache.t) (x : float) (j : nat) :
  j <> Z.to_nat (FastRsqrtCache.hash x) ->
  nth j (snd (FastRsqrtCache.compute c x)) FastRsqrtCache.empty_entry
  = nth j c FastRsqrtCache.empty_entry.
Proof.
  intros Hj. unfold FastRsqrtCache.compute.
  destruct (feq _ x); cbn [snd]; [reflexivity|].
  apply nth_store_other. congruence.
Qed.

Lemma compute_length (c : FastRsqrtCache.t) (x : float) :
  length (snd (FastRsqrtCache.compute c x)) = length c.
Proof.
  unfold FastRsqrtCache.compute.
  destruct (feq _ x); cbn [snd]; [reflexivity | apply store_length].
Qed.

Lemma run_length (calls : list float) :
  forall c, length (FastRsqrtCache.run c calls) = length c.
Proof.
  induction calls as [| x rest IH]; intros c; cbn [FastRsqrtCache.run]; [reflexivity|].
  rewrite IH. apply compute_length.
Qed.

(** X3.  A call writes at most the one entry its input hashes to, and that
    entry is always one of the 1024: the table keeps its length and all
    other entries. *)
Theorem cache_single_slot (c : FastRsqrtCache.t) (x : float) :
  (Z.to_nat (FastRsqrtCache.hash x) < 1024)%nat /\
  length (snd (FastRsqrtCache.compute c x)) = length c /\
  forall j, j <> Z.to_nat (FastRsqrtCache.hash x) ->
            nth j (snd (FastRsqrtCache.compute c x)) FastRsqrtCache.empty_entry
            = nth j c FastRsqrtCache.empty_entry.
Proof.
  split; [pose proof (hash_range x); lia|].
  split; [apply compute_length|].
  intros j Hj. apply compute_other_slots. exact Hj.
Qed.

(** X4.  A second call with the same input is answered from the table: it
    returns the value of the first and leaves the table as the first
    left it.  A NaN is never found in the table: every call with one
    runs the kernel and writes its entry again. *)
Theorem cache_second_call (c : FastRsqrtCache.t) (x : float) :
  length c = 1024%nat ->
  (is_nan x = false ->
   FastRsqrtCache.compute (snd (FastRsqrtCache.compute c x)) x
   = FastRsqrtCache.compute c x) /\
  (is_nan x = true ->
   FastRsqrtCache.compute c x
   = (fast_rsqrt_improved x,
      store c (Z.to_nat (FastRsqrtCache.hash x))
        {| FastRsqrtCache.input := x;
           FastRsqrtCache.output := fast_rsqrt_improved x |})).
Proof.
  intros Hlen. split.
  - intros Hx. unfold FastRsqrtCache.compute at 2 3.
    destruct (feq (FastRsqrtCache.input
                     (nth (Z.to_nat (FastRsqrtCache.hash x)) c FastRsqrtCache.empty_entry)) x)
      eqn:Hit; cbn [snd].
    + unfold FastRsqrtCache.compute. rewrite Hit. reflexivity.
    + unfold FastRsqrtCache.compute.
      rewrite nth_store_same by (pose proof (hash_range x); lia).
      cbn [FastRsqrtCache.input FastRsqrtCache.output].
      rewrite (feq_refl x Hx). reflexivity.
  - intros Hx. unfold FastRsqrtCache.compute.
    rewrite (feq_nan_r _ x Hx). reflexivity.
Qed.

Lemma cache_second_call_witness :
  FastRsqrtCache.compute (snd (FastRsqrtCache.compute FastRsqrtCache.new f4_0)) f4_0
  = FastRsqrtCache.compute FastRsqrtCache.new f4_0.
Proof.
  apply (proj1 (cache_second_call FastRsqrtCache.new f4_0 eq_refl)). reflexivity.
Defined.

Lemma run_slot_zero (calls : list float) :
  forall c,
    Forall (fun y => FastRsqrtCache.hash y <> 0%Z) calls ->
    nth 0 (FastRsqrtCache.run c calls) FastRsqrtCache.empty_entry
    = nth 0 c FastRsqrtCache.empty_entry.
Proof.
  induction calls as [| y rest IH]; intros c H; cbn [FastRsqrtCache.run]; [reflexivity|].
  inversion H as [| ? ? Hy Hrest]; subst.
  rewrite IH by exact Hrest.
  apply compute_other_slots.
  pose proof (hash_range y). lia.
Qed.

(** X5.  The zeroed entry 0 reads as the cached pair (0, 0): until a call
    whose input hashes to entry 0 overwrites it, [compute] returns 0.0f
    for +0 and for -0 instead of the kernel's value, and writes nothing. *)
Theorem cache_zero_input (calls : list float) (s : bool) :
  Forall (fun y => FastRsqrtCache.hash y <> 0%Z) calls ->
  FastRsqrtCache.compute (FastRsqrtCache.run FastRsqrtCache.new calls) (S754_zero s)
  = (S754_zero false, FastRsqrtCache.run FastRsqrtCache.new calls).
Proof.
  intros H. pose proof (run_slot_zero calls FastRsqrtCache.new H) as H0.
  change (nth 0 FastRsqrtCache.new FastRsqrtCache.empty_entry)
    with FastRsqrtCache.empty_entry in H0.
  unfold FastRsqrtCache.compute.
  assert (Eh : Z.to_nat (FastRsqrtCache.hash (S754_zero s)) = 0%nat)
    by (destruct s; reflexivity).
  rewrite Eh, H0. destruct s; reflexivity.
Qed.

Lemma cache_zero_input_witness :
  FastRsqrtCache.compute
    (FastRsqrtCache.run FastRsqrtCache.new [of_bits 0x3DCCCCCD; of_bits 0x3E99999A])
    (S754_zero true)
  = (S754_zero false,
     FastRsqrtCache.run FastRsqrtCache.new [of_bits 0x3DCCCCCD; of_bits 0x3E99999A]).
Proof.
  apply (cache_zero_input [of_bits 0x3DCCCCCD; of_bits 0x3E99999A] true).
  repeat constructor; vm_compute; discriminate.
Defined.

(** X6.  Whatever was asked before, the cache answers every float from 1e-4
    to 1e4 within 0.001 percent of the exact reciprocal square root. *)
Theorem cache_accuracy (calls : list float) (x : float) :
  in_domain x = true ->
  rel_error
    (F2R (fst (FastRsqrtCache.compute (FastRsqrtCache.run FastRsqrtCache.new calls) x)))
    (F2R x) <= 1 / 100000.
Proof.
  intros Hd. destruct (in_domain_sign_clear x Hd) as [Hv Hs].
  assert (Hnz : feq x f0_0 = false).
  { unfold in_domain in Hd.
    apply andb_true_iff in Hd. destruct Hd as [Hd _].
    apply andb_true_iff in Hd. destruct Hd as [Hd _].
    destruct x as [? | ? | | [|] m e]; try discriminate. reflexivity. }
  rewrite CacheFacts.compute_value;
    [| apply CacheFacts.run_ok, CacheFacts.new_ok | exact Hnz].
  pose proof (approximate_signed_by_sign 0x5f375a86 x Hv) as G1.
  rewrite Hs in G1.
  change (fast_rsqrt_improved x)
    with (newton_update f1_5 x (newton_update f1_5 x (approximate_signed 0x5f375a86 x))).
  rewrite G1, magic_5f375a86.
  destruct (plain_kernel_errors 3627654 x Hd ltac:(lia)) as [_ [_ H2]].
  apply Rle_trans with (1 := H2). lra.
Qed.

Lemma cache_accuracy_witness :
  rel_error
    (F2R (fst (FastRsqrtCache.compute
                 (FastRsqrtCache.run FastRsqrtCache.new [f1_5; f4_0]) f4_0)))
    (F2R f4_0) <= 1 / 100000.
Proof.
  apply (cache_accuracy [f1_5; f4_0] f4_0). reflexivity.
Defined.

(** ** The vector lanes of GameEngineFastRSqrt *)

Module GameEngineLanes.

(** One lane of [compute_avx]: the shift and the subtraction are the
    32-bit integer instructions, and the square of the estimate is taken
    before the product with [x_half]. *)
Definition compute_avx_lane (x : float) : float :=
  let xi := to_bits x in
  let magic := GameEngineFastRSqrt.MAGIC_CONSTANT in
  let xi := Z.shiftr xi 1 in
  let xi := wrap32 (magic - xi) in
  let y := of_bits xi in
  let half := f0_5 in
  let nr1 := GameEngineFastRSqrt.NR_CONSTANT_1 in
  let nr2 := GameEngineFastRSqrt.NR_CONSTANT_2 in
  let x_half := fmul x half in
  let y2 := fmul y y in
  let muls := fmul x_half y2 in
  let subbed := fsub nr1 muls in
  let y := fmul y subbed in
  let y2 := fmul y y in
  let muls := fmul x_half y2 in
  let subbed := fsub nr2 muls in
  let y := fmul y subbed in
  y.

Definition compute_avx (x : list float) : list float := map compute_avx_lane x.

(** One lane of [compute_sse]. *)
Definition compute_sse_lane (x : float) : float :=
  let xi := to_bits x in
  let magic := GameEngineFastRSqrt.MAGIC_CONSTANT in
  let xi := Z.shiftr xi 1 in
  let xi := wrap32 (magic - xi) in
  let y := of_bits xi in
  let half := f0_5 in
  let nr1 := GameEngineFastRSqrt.NR_CONSTANT_1 in
  let nr2 := GameEngineFastRSqrt.NR_CONSTANT_2 in
  let x_half := fmul x half in
  let y2 := fmul y y in
  let y := fmul y (fsub nr1 (fmul x_half y2)) in
  let y2 := fmul y y in
  let y := fmul y (fsub nr2 (fmul x_half y2)) in
  y.

Definition compute_sse (x : list float) : list float := map compute_sse_lane x.

End GameEngineLanes.

(** One Newton-Raphson update in the evaluation order of the vector
    code: [y * (c - x_half * (y * y))]. *)
Definition lane_update (c x y : float) : float :=
  let x_half := fmul x f0_5 in
  let y2 := fmul y y in
  fmul y (fsub c (fmul x_half y2)).

Lemma lane_update_spec (c x y : float) :
  normal_pos c -> normal_pos x -> normal_pos y ->
  3 / 2 <= F2R c <= 3 / 2 + / 1000 ->
  / 16384 <= F2R x <= 16384 ->
  9 / 10 <= F2R x * F2R y * F2R y <= 11 / 10 ->
  normal_pos (lane_update c x y) /\
  exists eta theta,
    - (2 / 10000000) <= eta <= 2 / 10000000 /\
    - (15 / 100000000) <= theta <= 15 / 100000000 /\
    F2R (lane_update c x y)
    = F2R y * (F2R c - F2R x * F2R y * F2R y / 2 * (1 + eta)) * (1 + theta).
Proof.
  intros Hc Hx Hy Hcr Hxr Hw.
  pose proof (normal_pos_gt0 y Hy) as Hy0.
  destruct normal_f0_5 as [Hh Hhv].
  set (X := F2R x) in *. set (Y := F2R y) in *. set (Cr := F2R c) in *.
  assert (HY : / 256 <= Y <= 256).
  { split.
    - destruct (Rle_lt_dec (/ 256) Y) as [H | H]; [exact H|].
      assert (Y * Y < / 256 * / 256) by nra. nra.
    - destruct (Rle_lt_dec Y 256) as [H | H]; [exact H|].
      assert (256 * 256 < Y * Y) by nra. nra. }
  unfold lane_update.
  (* x_half = x * 0.5f *)
  destruct (fmul_rel x f0_5 Hx Hh) as (N0 & d0 & Hd0 & E0);
    [rewrite Hhv; fold X; lra|].
  rewrite Hhv in E0. fold X in E0.
  set (xh := fmul x f0_5) in *.
  apply one_plus_bounds in Hd0. unfold u in Hd0.
  (* y2 = y * y *)
  pose proof (mul_bounds Y Y (/ 256) 256 (/ 256) 256 ltac:(lra) HY ltac:(lra) HY) as BYY.
  destruct (fmul_rel y y Hy Hy) as (N1 & d1 & Hd1 & E1); [fold Y; lra|].
  fold Y in E1. set (y2 := fmul y y) in *.
  apply one_plus_bounds in Hd1. unfold u in Hd1.
  set (W := X * Y * Y) in *.
  assert (Ht : F2R xh * F2R y2 = W / 2 * ((1 + d0) * (1 + d1)))
    by (rewrite E1, E0; unfold W; field).
  pose proof (mul_bounds (1 + d0) (1 + d1) (1 - / 16777216) (1 + / 16777216)
                (1 - / 16777216) (1 + / 16777216)
                ltac:(lra) Hd0 ltac:(lra) Hd1) as P01.
  set (p01 := (1 + d0) * (1 + d1)) in *.
  (* x_half * y2 *)
  destruct (fmul_rel xh y2 N0 N1) as (N2 & d2 & Hd2 & E2).
  { rewrite Ht.
    pose proof (mul_bounds (W / 2) p01 (9 / 20) (11 / 20)
                  ((1 - / 16777216) * (1 - / 16777216)) ((1 + / 16777216) * (1 + / 16777216))
                  ltac:(lra) ltac:(lra) ltac:(nra) P01).
    lra. }
  set (w := fmul xh y2) in *.
  apply one_plus_bounds in Hd2. unfold u in Hd2.
  pose proof (mul_bounds p01 (1 + d2) ((1 - / 16777216) * (1 - / 16777216))
                ((1 + / 16777216) * (1 + / 16777216))
                (1 - / 16777216) (1 + / 16777216) ltac:(nra) P01 ltac:(lra) Hd2) as P012.
  set (eta := p01 * (1 + d2) - 1).
  assert (Heta : - (2 / 10000000) <= eta <= 2 / 10000000)
    by (unfold eta; lra).
  assert (Ew : F2R w = W / 2 * (1 + eta))
    by (rewrite E2, Ht; unfold eta; ring).
  pose proof (mul_bounds (W / 2) (1 + eta) (9 / 20) (11 / 20)
                (1 - 2 / 10000000) (1 + 2 / 10000000)
                ltac:(lra) ltac:(lra) ltac:(lra) ltac:(lra)) as BA.
  set (A := W / 2 * (1 + eta)) in *.
  (* c - ... *)
  destruct (fsub_rel c w Hc N2) as (N3 & d3 & Hd3 & E3);
    [fold Cr; rewrite Ew; lra|].
  fold Cr in E3. rewrite Ew in E3. set (v := fsub c w) in *.
  apply one_plus_bounds in Hd3. unfold u in Hd3.
  pose proof (mul_bounds (Cr - A) (1 + d3) (9 / 10) (11 / 10) (1 - / 16777216) (1 + / 16777216)
                ltac:(lra) ltac:(lra) ltac:(lra) Hd3) as BV.
  (* y * (...) *)
  destruct (fmul_rel y v Hy N3) as (N4 & d4 & Hd4 & E4).
  { fold Y. rewrite E3.
    pose proof (mul_bounds Y ((Cr - A) * (1 + d3)) (/ 256) 256
                  (9 / 10 * (1 - / 16777216)) (11 / 10 * (1 + / 16777216))
                  ltac:(lra) HY ltac:(lra) BV).
    lra. }
  fold Y in E4. apply one_plus_bounds in Hd4. unfold u in Hd4.
  pose proof (mul_bounds (1 + d3) (1 + d4) (1 - / 16777216) (1 + / 16777216)
                (1 - / 16777216) (1 + / 16777216)
                ltac:(lra) Hd3 ltac:(lra) Hd4) as P34.
  split; [exact N4|].
  exists eta, ((1 + d3) * (1 + d4) - 1).
  split; [exact Heta|]. split; [lra|].
  rewrite E4, E3. unfold A, W. ring.
Qed.

(** ** Updates in any evaluation order *)

(** What the rounding analysis of an update delivers, whatever the order
    of its operations: the exact update with a relative perturbation
    [eta] of the cubic term and [theta] of the result. *)
Definition perturbed_update (c X Y Y' : R) : Prop :=
  exists eta theta,
    - (2 / 10000000) <= eta <= 2 / 10000000 /\
    - (15 / 100000000) <= theta <= 15 / 100000000 /\
    Y' = Y * (c - X * Y * Y / 2 * (1 + eta)) * (1 + theta).

Lemma basin_product (X Y : R) :
  0 < X -> 0 < Y -> rel_error Y X <= 36 / 1000 ->
  9 / 10 <= X * Y * Y <= 11 / 10.
Proof.
  intros HX HY He. rewrite rel_error_alt in He by exact HX.
  pose proof (sqrt_lt_R0 _ HX) as Hr.
  pose proof (sqrt_sqrt X ltac:(lra)) as Hrr.
  set (r := sqrt X) in *. set (s := Y * r) in *.
  apply Rabs_le_inv in He.
  assert (Hw : X * Y * Y = s * s) by (unfold s; rewrite <- Hrr; ring).
  rewrite Hw. nra.
Qed.

Lemma perturbed_step (c X Y Y' kappa : R) :
  0 < X -> 0 < Y ->
  0 <= kappa <= 4 / 1000000 -> 3 / 2 <= c <= 3 / 2 + kappa ->
  rel_error Y X <= 36 / 1000 ->
  perturbed_update c X Y Y' ->
  rel_error Y' X
  <= 152 / 100 * (rel_error Y X * rel_error Y X) + 104 / 100 * kappa + 27 / 100000000.
Proof.
  intros HX HY Hk Hcr He (eta & theta & Heta & Hth & Ey).
  rewrite !rel_error_alt in * by exact HX.
  pose proof (sqrt_lt_R0 _ HX) as Hr.
  pose proof (sqrt_sqrt X ltac:(lra)) as Hrr.
  set (r := sqrt X) in *. set (s := Y * r) in *.
  assert (Hs : 0 < s) by (unfold s; apply Rmult_lt_0_compat; assumption).
  apply Rabs_le_inv in He.
  assert (Hw : X * Y * Y = s * s) by (unfold s; rewrite <- Hrr; ring).
  rewrite Ey, Hw.
  replace (Y * (c - s * s / 2 * (1 + eta)) * (1 + theta) * r)
    with (s * (c - s * s / 2 * (1 + eta)) * (1 + theta)) by (unfold s; ring).
  pose proof (newton_real_step s c eta theta kappa Hs He Hk Hcr Heta Hth) as HQ.
  cbv zeta in HQ.
  apply Rabs_le.
  assert (Hsq : (s - 1) * (s - 1) = Rabs (s - 1) * Rabs (s - 1)).
  { unfold Rabs. destruct (Rcase_abs (s - 1)); ring. }
  rewrite <- Hsq. lra.
Qed.

(** An update function that stays in the basin of the guess and squares
    the error up to [p]. *)
Definition contracts (x : float) (p : R) (up : float -> float) : Prop :=
  forall y, normal_pos y -> rel_error (F2R y) (F2R x) <= 36 / 1000 ->
            normal_pos (up y) /\
            rel_error (F2R (up y)) (F2R x)
            <= 152 / 100 * (rel_error (F2R y) (F2R x) * rel_error (F2R y) (F2R x)) + p.

Lemma two_updates (x y0 : float) (up1 up2 : float -> float) (p1 p2 : R) :
  0 < F2R x -> normal_pos y0 -> rel_error (F2R y0) (F2R x) <= 36 / 1000 ->
  contracts x p1 up1 -> contracts x p2 up2 ->
  0 <= p1 <= 4 / 1000000 -> 0 <= p2 <= 27 / 100000000 ->
  normal_pos (up1 y0) /\ rel_error (F2R (up1 y0)) (F2R x) <= 2 / 1000 /\
  normal_pos (up2 (up1 y0)) /\
  rel_error (F2R (up2 (up1 y0))) (F2R x) <= 62 / 10000000.
Proof.
  intros HX N0 E0 H1 H2 Hp1 Hp2.
  pose proof (rel_error_nonneg (F2R y0) (F2R x) HX) as P0.
  destruct (H1 y0 N0 E0) as [N1 E1].
  pose proof (rel_error_nonneg (F2R (up1 y0)) (F2R x) HX) as P1.
  set (e0 := rel_error (F2R y0) (F2R x)) in *.
  set (e1 := rel_error (F2R (up1 y0)) (F2R x)) in *.
  assert (H00 : e0 * e0 <= 1296 / 1000000) by nra.
  assert (B1 : e1 <= 1974 / 1000000) by lra.
  assert (B1' : rel_error (F2R (up1 y0)) (F2R x) <= 36 / 1000) by (fold e1; lra).
  destruct (H2 _ N1 B1') as [N2 E2]. fold e1 in E2.
  assert (H11 : e1 * e1 <= 1974 / 1000000 * (1974 / 1000000)) by nra.
  split; [exact N1|]. split; [lra|]. split; [exact N2 | lra].
Qed.

Lemma lane_update_contracts (c x : float) (kappa : R) :
  normal_pos c -> in_domain x = true ->
  0 <= kappa <= 4 / 1000000 -> 3 / 2 <= F2R c <= 3 / 2 + kappa ->
  contracts x (104 / 100 * kappa + 27 / 100000000) (lane_update c x).
Proof.
  intros Hc Hd Hk Hcr y Hy He.
  destruct (in_domain_normal x Hd) as [Hx Hxr].
  assert (HX : 0 < F2R x) by lra.
  pose proof (normal_pos_gt0 y Hy) as HY.
  pose proof (basin_product _ _ HX HY He) as Hw.
  destruct (lane_update_spec c x y Hc Hx Hy ltac:(lra) Hxr Hw) as [Hn Hs].
  split; [exact Hn|].
  pose proof (perturbed_step (F2R c) (F2R x) (F2R y) _ kappa HX HY Hk Hcr He Hs). lra.
Qed.

Lemma newton_update_contracts (c x : float) (kappa : R) :
  normal_pos c -> in_domain x = true ->
  0 <= kappa <= 4 / 1000000 -> 3 / 2 <= F2R c <= 3 / 2 + kappa ->
  contracts x (104 / 100 * kappa + 27 / 100000000) (newton_update c x).
Proof.
  intros Hc Hd Hk Hcr y Hy He.
  destruct (in_domain_normal x Hd) as [Hx Hxr].
  destruct (step_rel_error c x y kappa Hc Hx Hy Hk Hcr Hxr He) as [Hn Hb].
  split; [exact Hn | lra].
Qed.

(** The guess in the domain. *)
Lemma guess_in_domain (C : Z) (x : float) :
  in_domain x = true -> (3627422 <= C <= 3627654)%Z ->
  0 < F2R x /\
  normal_pos (approximate (190 * 2 ^ 23 + C) x) /\
  rel_error (F2R (approximate (190 * 2 ^ 23 + C) x)) (F2R x) <= 36 / 1000.
Proof.
  intros Hd HC. destruct (in_domain_normal x Hd) as [Hx Hxr].
  split; [lra|]. apply guess_rel_error_wide; assumption.
Qed.

Lemma magic_5f37599e : 0x5f37599e%Z = (190 * 2 ^ 23 + 3627422)%Z.
Proof. reflexivity. Qed.

(** X7.  Every lane of [compute_avx] and of [compute_sse] whose input is a
    float from 1e-4 to 1e4 is within 0.001 percent of the exact
    reciprocal square root, as the scalar [compute] is. *)
Theorem game_engine_lanes_accuracy (xs : list float) :
  Forall (fun x => in_domain x = true) xs ->
  Forall2 (fun x y => rel_error (F2R y) (F2R x) <= 1 / 100000)
    xs (GameEngineLanes.compute_avx xs) /\
  Forall2 (fun x y => rel_error (F2R y) (F2R x) <= 1 / 100000)
    xs (GameEngineLanes.compute_sse xs).
Proof.
  intros H.
  assert (Hlane : forall x, in_domain x = true ->
            rel_error (F2R (lane_update f1_5 x
                              (lane_update f1_5000036 x (approximate 0x5f375a86 x))))
              (F2R x) <= 1 / 100000).
  { intros x Hd.
    destruct (guess_in_domain 3627654 x Hd ltac:(lia)) as (HX & N0 & E0).
    destruct normal_f1_5 as [Hc Hcv]. destruct normal_f1_5000036 as [Hc' Hcv'].
    pose proof (lane_update_contracts f1_5000036 x (30 / 8388608) Hc' Hd
                  ltac:(lra) ltac:(lra)) as C1.
    pose proof (lane_update_contracts f1_5 x 0 Hc Hd ltac:(lra) ltac:(lra)) as C2.
    destruct (two_updates x _ _ _ _ _ HX N0 E0 C1 C2 ltac:(lra) ltac:(lra))
      as (_ & _ & _ & E2).
    rewrite magic_5f375a86. lra. }
  split.
  - induction H as [| x rest Hx Hrest IH]; constructor; [|exact IH].
    apply (Hlane x Hx).
  - induction H as [| x rest Hx Hrest IH]; constructor; [|exact IH].
    apply (Hlane x Hx).
Qed.

Lemma game_engine_lanes_accuracy_witness :
  Forall2 (fun x y => rel_error (F2R y) (F2R x) <= 1 / 100000)
    [f4_0; f0_25] (GameEngineLanes.compute_avx [f4_0; f0_25]).
Proof.
  apply (game_engine_lanes_accuracy [f4_0; f0_25]).
  repeat constructor.
Defined.

(** ** Fused multiply-add *)

(** [c - t * y] with a single rounding, as [_mm256_fnmadd_ps (t, y, c)]
    and [std::fma (-t, y, c)] compute it. *)
Lemma fnmadd_spec (t y c : float) :
  normal_pos t -> normal_pos y -> normal_pos c ->
  / 1073741824 <= F2R c - F2R t * F2R y <= 1073741824 ->
  normal_pos (ffnmadd t y c) /\
  exists d, - u <= d <= u /\
            F2R (ffnmadd t y c) = (F2R c - F2R t * F2R y) * (1 + d).
Proof.
  intros (mt & et & -> & Hmt & Het) (my & ey & -> & Hmy & Hey)
         (mc & ec & -> & Hmc & Hec) Hr.
  rewrite !F2R_normal in *.
  unfold ffnmadd, ffma. cbn [fopp SFopp negb xorb cond_Zopp].
  set (ep := (et + ey)%Z). set (ez := Z.min ep ec).
  set (D := (Z.opp (Zpos (fst (shl_align (mt * my) ep ez)))
             + Zpos (fst (shl_align mc ec ez)))%Z).
  assert (Hv : IZR D * bpow ez
               = IZR (Zpos mc) * bpow ec
                 - IZR (Zpos mt) * bpow et * (IZR (Zpos my) * bpow ey)).
  { unfold D. rewrite plus_IZR, opp_IZR, Rmult_plus_distr_r.
    replace (- IZR (Zpos (fst (shl_align (mt * my) ep ez))) * bpow ez)
      with (- (IZR (Zpos (fst (shl_align (mt * my) ep ez))) * bpow ez)) by ring.
    rewrite !aligned_value by (unfold ez; lia).
    unfold ep. rewrite Pos2Z.inj_mul, mult_IZR, bpow_add. ring. }
  change (Z.neg (fst (shl_align (mt * my) ep ez)))
    with (Z.opp (Zpos (fst (shl_align (mt * my) ep ez)))).
  fold D.
  pose proof bpow_m100. pose proof bpow_100.
  destruct (binary_normalize_real D ez) as [Hn He]; [rewrite Hv; lra|].
  split; [exact Hn|].
  rewrite Hv in He. apply relative_error; [lra | exact He].
Qed.

(** One update with the fused operation:
    [y * fnmadd (x_half * y, y, c)]. *)
Definition fma_update (c x y : float) : float :=
  let x_half := fmul x f0_5 in
  fmul y (ffnmadd (fmul x_half y) y c).

Lemma fma_update_spec_wide (c x y : float) :
  normal_pos c -> normal_pos x -> normal_pos y ->
  3 / 2 <= F2R c <= 3 / 2 + / 100000 ->
  / 16384 <= F2R x <= 16384 ->
  1 / 10 <= F2R x * F2R y * F2R y <= 27 / 10 ->
  normal_pos (fma_update c x y) /\
  perturbed_update (F2R c) (F2R x) (F2R y) (F2R (fma_update c x y)).
Proof.
  intros Hc Hx Hy Hcr Hxr Hw.
  pose proof (normal_pos_gt0 y Hy) as Hy0.
  destruct normal_f0_5 as [Hh Hhv].
  set (X := F2R x) in *. set (Y := F2R y) in *. set (Cr := F2R c) in *.
  assert (HY : / 512 <= Y <= 256).
  { split.
    - destruct (Rle_lt_dec (/ 512) Y) as [H | H]; [exact H|].
      assert (Y * Y < / 512 * / 512) by nra. nra.
    - destruct (Rle_lt_dec Y 256) as [H | H]; [exact H|].
      assert (256 * 256 < Y * Y) by nra. nra. }
  unfold fma_update.
  destruct (fmul_rel x f0_5 Hx Hh) as (N0 & d0 & Hd0 & E0);
    [rewrite Hhv; fold X; lra|].
  rewrite Hhv in E0. fold X in E0.
  set (xh := fmul x f0_5) in *.
  apply one_plus_bounds in Hd0. unfold u in Hd0.
  assert (B0 : / 32768 * (1 - / 16777216) <= F2R xh <= 8192 * (1 + / 16777216)).
  { rewrite E0. apply mul_bounds; lra. }
  destruct (fmul_rel xh y N0 Hy) as (N1 & d1 & Hd1 & E1).
  { fold Y.
    pose proof (mul_bounds (F2R xh) Y (/ 32768 * (1 - / 16777216)) (8192 * (1 + / 16777216))
                  (/ 512) 256 ltac:(lra) B0 ltac:(lra) HY).
    lra. }
  fold Y in E1. set (t := fmul xh y) in *.
  apply one_plus_bounds in Hd1. unfold u in Hd1.
  set (W := X * Y * Y) in *.
  pose proof (mul_bounds (1 + d0) (1 + d1) (1 - / 16777216) (1 + / 16777216)
                (1 - / 16777216) (1 + / 16777216)
                ltac:(lra) Hd0 ltac:(lra) Hd1) as P01.
  set (eta := (1 + d0) * (1 + d1) - 1).
  assert (Heta : - (2 / 10000000) <= eta <= 2 / 10000000)
    by (unfold eta; lra).
  assert (Ht : F2R t * Y = W / 2 * (1 + eta))
    by (rewrite E1, E0; unfold W, eta; field).
  pose proof (mul_bounds (W / 2) (1 + eta) (1 / 20) (27 / 20)
                (1 - 2 / 10000000) (1 + 2 / 10000000)
                ltac:(lra) ltac:(lra) ltac:(lra) ltac:(lra)) as BA.
  set (A := W / 2 * (1 + eta)) in *.
  destruct (fnmadd_spec t y c N1 Hy Hc) as (N3 & d3 & Hd3 & E3);
    [fold Cr Y; rewrite Ht; lra|].
  fold Cr Y in E3. rewrite Ht in E3. set (v := ffnmadd t y c) in *.
  apply one_plus_bounds in Hd3. unfold u in Hd3.
  pose proof (mul_bounds (Cr - A) (1 + d3) (14 / 100) (15 / 10) (1 - / 16777216) (1 + / 16777216)
                ltac:(lra) ltac:(lra) ltac:(lra) Hd3) as BV.
  destruct (fmul_rel y v Hy N3) as (N4 & d4 & Hd4 & E4).
  { fold Y. rewrite E3.
    pose proof (mul_bounds Y ((Cr - A) * (1 + d3)) (/ 512) 256
                  (14 / 100 * (1 - / 16777216)) (15 / 10 * (1 + / 16777216))
                  ltac:(lra) HY ltac:(lra) BV).
    lra. }
  fold Y in E4. apply one_plus_bounds in Hd4. unfold u in Hd4.
  pose proof (mul_bounds (1 + d3) (1 + d4) (1 - / 16777216) (1 + / 16777216)
                (1 - / 16777216) (1 + / 16777216)
                ltac:(lra) Hd3 ltac:(lra) Hd4) as P34.
  split; [exact N4|].
  exists eta, ((1 + d3) * (1 + d4) - 1).
  split; [exact Heta|]. split; [lra|].
  rewrite E4, E3. unfold A, W. ring.
Qed.

Lemma fma_update_spec (c x y : float) :
  normal_pos c -> normal_pos x -> normal_pos y ->
  3 / 2 <= F2R c <= 3 / 2 + / 100000 ->
  / 16384 <= F2R x <= 16384 ->
  9 / 10 <= F2R x * F2R y * F2R y <= 11 / 10 ->
  normal_pos (fma_update c x y) /\
  perturbed_update (F2R c) (F2R x) (F2R y) (F2R (fma_update c x y)).
Proof.
  intros Hc Hx Hy Hcr Hxr Hw. apply fma_update_spec_wide; try assumption. lra.
Qed.

Lemma fma_update_contracts (c x : float) (kappa : R) :
  normal_pos c -> in_domain x = true ->
  0 <= kappa <= 4 / 1000000 -> 3 / 2 <= F2R c <= 3 / 2 + kappa ->
  contracts x (104 / 100 * kappa + 27 / 100000000) (fma_update c x).
Proof.
  intros Hc Hd Hk Hcr y Hy He.
  destruct (in_domain_normal x Hd) as [Hx Hxr].
  assert (HX : 0 < F2R x) by lra.
  pose proof (normal_pos_gt0 y Hy) as HY.
  pose proof (basin_product _ _ HX HY He) as Hw.
  destruct (fma_update_spec c x y Hc Hx Hy ltac:(lra) Hxr Hw) as [Hn Hs].
  split; [exact Hn|].
  pose proof (perturbed_step (F2R c) (F2R x) (F2R y) _ kappa HX HY Hk Hcr He Hs). lra.
Qed.

(** ** hybrid_vector_rsqrt.cpp: accuracy away from the table *)

Lemma hybrid_newton_update (FMA : bool) (x y : float) :
  Hybrid.newton FMA (fmul x f0_5) y
  = if FMA then fma_update f1_5 x y else newton_update f1_5 x y.
Proof.
  destruct FMA; [|reflexivity].
  unfold Hybrid.newton, fma_update, ffnmadd. rewrite fmul_opp_l. reflexivity.
Qed.

Lemma hybrid_off_table (FMA : bool) (g : Hybrid.globals) (x : float) :
  fge x f0_5 && fle x f4_0 = false ->
  Hybrid.hybrid_rsqrt FMA g x
  = let magic := if flt x f1_0 then Hybrid.MAGIC_SMALL
                 else if fgt x f100_0 then Hybrid.MAGIC_LARGE
                 else Hybrid.MAGIC_NORMAL in
    let up := if FMA then fma_update f1_5 x else newton_update f1_5 x in
    up (up (approximate magic x)).
Proof.
  intros H. unfold Hybrid.hybrid_rsqrt. rewrite H. cbn [andb]. cbv zeta.
  rewrite !hybrid_newton_update. destruct FMA; reflexivity.
Qed.

Lemma plain_two_updates (FMA : bool) (C : Z) (x : float) :
  in_domain x = true -> (3627422 <= C <= 3627654)%Z ->
  let up := if FMA then fma_update f1_5 x else newton_update f1_5 x in
  normal_pos (up (up (approximate (190 * 2 ^ 23 + C) x))) /\
  rel_error (F2R (up (up (approximate (190 * 2 ^ 23 + C) x)))) (F2R x)
  <= 62 / 10000000.
Proof.
  intros Hd HC up.
  destruct (guess_in_domain C x Hd HC) as (HX & N0 & E0).
  destruct normal_f1_5 as [Hc Hcv].
  assert (Cu : contracts x (104 / 100 * 0 + 27 / 100000000) up).
  { unfold up. destruct FMA;
      [apply fma_update_contracts | apply newton_update_contracts];
      try assumption; lra. }
  destruct (two_updates x _ up up _ _ HX N0 E0 Cu Cu ltac:(lra) ltac:(lra))
    as (_ & _ & N2 & E2).
  split; assumption.
Qed.

(** X8.  Away from its table, [hybrid_rsqrt] is within 0.001 percent of
    the exact reciprocal square root in either build, with and without
    fused multiply-add: for every float from 1e-4 to 1e4 outside the
    range 0.5 to 4, whichever of [MAGIC_SMALL], [MAGIC_NORMAL] and
    [MAGIC_LARGE] it selects. *)
Theorem hybrid_rsqrt_accuracy (FMA : bool) (g : Hybrid.globals) (x : float) :
  in_domain x = true ->
  fge x f0_5 && fle x f4_0 = false ->
  rel_error (F2R (Hybrid.hybrid_rsqrt FMA g x)) (F2R x) <= 1 / 100000.
Proof.
  intros Hd Htab.
  rewrite (hybrid_off_table FMA g x Htab). cbv zeta.
  destruct (flt x f1_0); [|destruct (fgt x f100_0)].
  - change Hybrid.MAGIC_SMALL with 0x5f375a86%Z. rewrite magic_5f375a86.
    destruct (plain_two_updates FMA 3627654 x Hd ltac:(lia)) as [_ E]. lra.
  - change Hybrid.MAGIC_LARGE with 0x5f37599e%Z. rewrite magic_5f37599e.
    destruct (plain_two_updates FMA 3627422 x Hd ltac:(lia)) as [_ E]. lra.
  - change Hybrid.MAGIC_NORMAL with 0x5f3759df%Z. rewrite magic_5f3759df.
    destruct (plain_two_updates FMA 3627487 x Hd ltac:(lia)) as [_ E]. lra.
Qed.

Lemma hybrid_rsqrt_accuracy_witness :
  rel_error (F2R (Hybrid.hybrid_rsqrt true Hybrid.globals_at_start (of_bits 0x447A0000)))
    (F2R (of_bits 0x447A0000))
  <= 1 / 100000.
Proof.
  apply (hybrid_rsqrt_accuracy true Hybrid.globals_at_start (of_bits 0x447A0000));
    reflexivity.
Defined.

Lemma hybrid_lane_updates (FMA : bool) (x : float) :
  Hybrid.simd_lane FMA x
  = let up := if FMA then fma_update f1_5 x else lane_update f1_5 x in
    up (up (approximate Hybrid.MAGIC_NORMAL x)).
Proof. destruct FMA; reflexivity. Qed.

(** An element of a full group of eight of a batched transform. *)
Lemma batch_full_group (lane scalar : float -> float) (input output : list float)
    (count i : nat) (d : float) :
  (count <= length input)%nat -> (count <= length output)%nat ->
  (i < 8 * (count / 8))%nat ->
  nth i (for_loop (8 * (count / 8)) count (fun i o => store o i (scalar (nth i input d)))
           (loop_lt (8 * (count / 8)) 0 (8 * (count / 8)) 8
              (fun i out => store_lanes out i (map lane (load_lanes input i 8))) output)) d
  = lane (nth i input d).
Proof.
  intros Hin Hout Hi.
  pose proof (Nat.div_mod_eq count 8) as Hdm.
  rewrite batch_loops by assumption.
  rewrite app_nth1 by (rewrite length_map, length_firstn; lia).
  rewrite (nth_indep _ d (lane d)) by (rewrite length_map, length_firstn; lia).
  rewrite map_nth. f_equal.
  rewrite nth_firstn.
  destruct (Nat.ltb_spec i (8 * (count / 8))); [reflexivity | lia].
Qed.

(** X9.  Every output of a full group of eight of [hybrid_rsqrt_simd] whose
    input is a float from 1e-4 to 1e4 is within 0.001 percent of the
    exact reciprocal square root, in the build with fused multiply-add
    and in the one without. *)
Theorem hybrid_simd_accuracy (FMA : bool) (g : Hybrid.globals)
    (input output : list float) (count i : nat) :
  (count <= length input)%nat -> (count <= length output)%nat ->
  (Z.of_nat count < 2 ^ 64)%Z ->
  (i < 8 * (count / 8))%nat ->
  in_domain (nth i input f0_0) = true ->
  rel_error
    (F2R (nth i (fst (Hybrid.hybrid_rsqrt_simd FMA g input output count)) f0_0))
    (F2R (nth i input f0_0)) <= 1 / 100000.
Proof.
  intros Hin Hout Hsize Hi Hd.
  unfold Hybrid.hybrid_rsqrt_simd. cbn [fst].
  rewrite simd_count_8 by exact Hsize.
  rewrite batch_full_group by assumption.
  rewrite hybrid_lane_updates. cbv zeta.
  set (x := nth i input f0_0) in *.
  destruct (guess_in_domain 3627487 x Hd ltac:(lia)) as (HX & N0 & E0).
  destruct normal_f1_5 as [Hc Hcv].
  assert (Cu : contracts x (104 / 100 * 0 + 27 / 100000000)
                 (if FMA then fma_update f1_5 x else lane_update f1_5 x)).
  { destruct FMA;
      [apply fma_update_contracts | apply lane_update_contracts];
      try assumption; lra. }
  destruct (two_updates x _ _ _ _ _ HX N0 E0 Cu Cu ltac:(lra) ltac:(lra))
    as (_ & _ & _ & E2).
  change Hybrid.MAGIC_NORMAL with 0x5f3759df%Z. rewrite magic_5f3759df. lra.
Qed.

Lemma hybrid_simd_accuracy_witness :
  rel_error
    (F2R (nth 5 (fst (Hybrid.hybrid_rsqrt_simd false Hybrid.globals_at_start
                        (repeat f4_0 8) (repeat f0_0 8) 8)) f0_0))
    (F2R (nth 5 (repeat f4_0 8) f0_0)) <= 1 / 100000.
Proof.
  apply (hybrid_simd_accuracy false Hybrid.globals_at_start
           (repeat f4_0 8) (repeat f0_0 8) 8 5);
    [cbn; lia | cbn; lia | reflexivity | cbn; lia | reflexivity].
Defined.

(** ** ultra_optimized_rsqrt.cpp: one update on a hardware estimate *)

(** [ultra_rsqrt], the branch taken without [__SSE__]. *)
Definition ultra_rsqrt_fallback (x : float) : float :=
  let conv_i := to_bits x in
  let conv_i := wrap32 (0x5f375a86 - Z.shiftr conv_i 1) in
  let y := of_bits conv_i in
  let y := fmul y (fsub f1_5 (fmul (fmul (fmul f0_5 x) y) y)) in
  let y := fmul y (fsub f1_5 (fmul (fmul (fmul f0_5 x) y) y)) in
  y.

Lemma fmul_comm (a b : float) : fmul a b = fmul b a.
Proof.
  destruct a as [sa | sa | | sa ma ea], b as [sb | sb | | sb mb eb];
    cbn; try reflexivity; try (destruct sa, sb; reflexivity).
  rewrite (xorb_comm sa sb), (Pos.mul_comm ma mb), (Z.add_comm ea eb). reflexivity.
Qed.

(** X10.  The fallback of [ultra_rsqrt] is, bit for bit and on every input,
    [enhancedInvSqrt] of accuracy_comparison.cpp: [0.5f * x] is the same
    float as [x * 0.5f]. *)
Theorem ultra_fallback_is_enhanced (x : float) :
  ultra_rsqrt_fallback x = enhancedInvSqrt x.
Proof.
  unfold ultra_rsqrt_fallback, enhancedInvSqrt.
  rewrite (fmul_comm f0_5 x). reflexivity.
Qed.

(** The accuracy the processor documents for [rsqrtss] and [rsqrtps]: a
    relative error of at most 1.5 * 2^-12. *)
Definition estimates (est : float -> float) (x : float) : Prop :=
  normal_pos (est x) /\ rel_error (F2R (est x)) (F2R x) <= 3 / 8192.

Lemma one_update_on_estimate (x y : float) (up : float -> float) :
  0 < F2R x -> normal_pos y -> rel_error (F2R y) (F2R x) <= 3 / 8192 ->
  contracts x (27 / 100000000) up ->
  rel_error (F2R (up y)) (F2R x) <= 5 / 10000000.
Proof.
  intros HX Hy He Hc.
  pose proof (rel_error_nonneg (F2R y) (F2R x) HX) as P.
  destruct (Hc y Hy ltac:(lra)) as [_ E].
  set (e := rel_error (F2R y) (F2R x)) in *.
  assert (e * e <= 3 / 8192 * (3 / 8192)) by nra. lra.
Qed.

(** X11.  On a float from 1e-4 to 1e4 for which the hardware estimate is a
    normal number within its documented 1.5 * 2^-12, the single update
    of [ultra_rsqrt] and of each lane of [ultra_rsqrt_avx2], with fused
    multiply-add or without, leaves a relative error of at most 5e-7. *)
Theorem ultra_refines_estimate (rsqrt_ss rsqrt_ps : float -> float) (FMA : bool)
    (x : float) :
  in_domain x = true ->
  estimates rsqrt_ss x -> estimates rsqrt_ps x ->
  rel_error (F2R (Ultra.ultra_rsqrt rsqrt_ss x)) (F2R x) <= 5 / 10000000 /\
  rel_error (F2R (Ultra.avx2_lane rsqrt_ps FMA x)) (F2R x) <= 5 / 10000000.
Proof.
  intros Hd [Ns Es] [Np Ep].
  destruct (in_domain_normal x Hd) as [Hx Hxr].
  assert (HX : 0 < F2R x) by lra.
  destruct normal_f1_5 as [Hc Hcv].
  assert (Cl : contracts x (27 / 100000000) (lane_update f1_5 x)).
  { intros y Hy He.
    destruct (lane_update_contracts f1_5 x 0 Hc Hd ltac:(lra) ltac:(lra) y Hy He)
      as [N E]. split; [exact N | lra]. }
  assert (Cf : contracts x (27 / 100000000) (fma_update f1_5 x)).
  { intros y Hy He.
    destruct (fma_update_contracts f1_5 x 0 Hc Hd ltac:(lra) ltac:(lra) y Hy He)
      as [N E]. split; [exact N | lra]. }
  split.
  - change (Ultra.ultra_rsqrt rsqrt_ss x) with (lane_update f1_5 x (rsqrt_ss x)).
    apply one_update_on_estimate; assumption.
  - destruct FMA.
    + change (Ultra.avx2_lane rsqrt_ps true x) with (fma_update f1_5 x (rsqrt_ps x)).
      apply one_update_on_estimate; assumption.
    + change (Ultra.avx2_lane rsqrt_ps false x) with (lane_update f1_5 x (rsqrt_ps x)).
      apply one_update_on_estimate; assumption.
Qed.

Lemma half_estimates_four : estimates (fun _ => f0_5) f4_0.
Proof.
  destruct normal_f0_5 as [Hn Hv]. split; [exact Hn|].
  rewrite Hv. change f4_0 with (S754_finite false 8388608 (-21)).
  rewrite F2R_neg_exp. change (Z.pow_pos 2 21) with 2097152%Z.
  replace (8388608 / 2097152) with (2 * 2) by lra.
  rewrite rel_error_alt by lra.
  rewrite sqrt_square by lra.
  replace (/ 2 * 2 - 1) with 0 by lra. rewrite Rabs_R0. lra.
Qed.

Lemma ultra_refines_estimate_witness :
  rel_error (F2R (Ultra.ultra_rsqrt (fun _ => f0_5) f4_0)) (F2R f4_0) <= 5 / 10000000.
Proof.
  apply (ultra_refines_estimate (fun _ => f0_5) (fun _ => f0_5) true f4_0).
  - reflexivity.
  - exact half_estimates_four.
  - exact half_estimates_four.
Defined.

(** ** The table of FastRecipSqrt *)

Local Open Scope Z_scope.

Lemma top_mantissa_bits (b : Z) :
  0 <= Z.shiftr (Z.shiftr (Z.land b 0x007FFFFF) 15) 3 < 32.
Proof.
  change 0x007FFFFF with (Z.ones 23). rewrite Z.land_ones by lia.
  pose proof (Z.mod_pos_bound b (2 ^ 23) ltac:(lia)) as Hm.
  rewrite Z.shiftr_shiftr by lia. rewrite Z.shiftr_div_pow2 by lia.
  change (15 + 3) with 18. split.
  - apply Z.div_pos; lia.
  - apply Z.div_lt_upper_bound; [lia|]. change (2 ^ 18 * 32) with (2 ^ 23). lia.
Qed.

(** X12.  [FastRecipSqrt::compute] indexes its 256-entry table with the top
    five bits of the mantissa: whatever the input, the index is below
    32, so the read is inside the table and the entries from 32 on are
    never used; two tables that agree on the first 32 entries give the
    same results. *)
Theorem lookup_reads_first_32 (self self' : FastRecipSqrt.t) (x : float) :
  let lut_index := Z.shiftr (Z.shiftr (Z.land (to_bits x) 0x007FFFFF) 15) 3 in
  0 <= Z.land lut_index (Z.of_nat FastRecipSqrt.LUT_SIZE - 1) < 32 /\
  (firstn 32 (FastRecipSqrt.lut self) = firstn 32 (FastRecipSqrt.lut self') ->
   FastRecipSqrt.compute self x = FastRecipSqrt.compute self' x).
Proof.
  intros lut_index.
  pose proof (top_mantissa_bits (to_bits x)) as Hi. fold lut_index in Hi.
  assert (Eidx : Z.land lut_index (Z.of_nat FastRecipSqrt.LUT_SIZE - 1) = lut_index).
  { change (Z.of_nat FastRecipSqrt.LUT_SIZE - 1) with (Z.ones 8).
    rewrite Z.land_ones by lia. apply Z.mod_small. change (2 ^ 8) with 256. lia. }
  split; [rewrite Eidx; exact Hi|].
  intros Hl. unfold FastRecipSqrt.compute. cbv zeta. fold lut_index.
  rewrite Eidx.
  assert (Hn : forall l : list float,
             nth (Z.to_nat lut_index) l f0_0 = nth (Z.to_nat lut_index) (firstn 32 l) f0_0).
  { intros l. rewrite nth_firstn.
    destruct (Nat.ltb_spec (Z.to_nat lut_index) 32); [reflexivity | lia]. }
  rewrite (Hn (FastRecipSqrt.lut self)), (Hn (FastRecipSqrt.lut self')), Hl.
  reflexivity.
Qed.

Lemma lookup_reads_first_32_witness :
  FastRecipSqrt.compute (FastRecipSqrt.new (repeat f0_0 256)) f4_0
  = FastRecipSqrt.compute
      {| FastRecipSqrt.lut :=
           firstn 32 (FastRecipSqrt.lut (FastRecipSqrt.new (repeat f0_0 256))) |} f4_0.
Proof.
  apply (lookup_reads_first_32 (FastRecipSqrt.new (repeat f0_0 256))
           {| FastRecipSqrt.lut :=
                firstn 32 (FastRecipSqrt.lut (FastRecipSqrt.new (repeat f0_0 256))) |}
           f4_0).
  cbn [FastRecipSqrt.lut]. symmetry. apply firstn_firstn.
Defined.

(** ** The table of hybrid_vector_rsqrt.cpp *)

(** The value of bucket [i]: [0.5f + (i * 3.5f / 255.0f)]. *)
Definition bucket_value (i : nat) : float :=
  fadd f0_5 (fdiv (fmul (of_int (Z.of_nat i)) f3_5) f255_0).

(** The index [hybrid_rsqrt] computes for an input of the table's range. *)
Definition bucket_index (number : float) : Z :=
  to_int (fdiv (fmul (fsub number f0_5) f255_0) f3_5).

Definition on_table (number : float) : bool :=
  fge number f0_5 && fle number f4_0
  && (0 <=? bucket_index number) && (bucket_index number <? 256).

Lemma hybrid_on_table (FMA : bool) (g : Hybrid.globals) (x : float) :
  on_table x = true ->
  Hybrid.hybrid_rsqrt FMA g x
  = nth (Z.to_nat (bucket_index x)) (Hybrid.rsqrt_lut g) f0_0.
Proof.
  unfold on_table, bucket_index, Hybrid.hybrid_rsqrt. intros H. rewrite H. reflexivity.
Qed.

(** X13.  [initialize_lut] fills the table on its first call only: after it
    the flag is set, entry [i] is [1.0f / sqrt] of the value of bucket
    [i], and a further call changes nothing, whatever the state before.
    The scalar [hybrid_rsqrt] never fills the table itself: in the
    table's range it returns the
    entry as it finds it, which is the exactly rounded reciprocal square
    root of the bucket's value after [initialize_lut], and 0.0f when
    the static table has not been initialized. *)
Theorem hybrid_table_initialization (FMA : bool) (x : float) :
  let g := Hybrid.initialize_lut Hybrid.globals_at_start in
  Hybrid.lut_initialized g = true /\
  (forall g0, Hybrid.initialize_lut (Hybrid.initialize_lut g0)
              = Hybrid.initialize_lut g0) /\
  (forall i, (i < 256)%nat ->
             nth i (Hybrid.rsqrt_lut g) f0_0 = std_rsqrt (bucket_value i)) /\
  (on_table x = true ->
   Hybrid.hybrid_rsqrt FMA g x
   = std_rsqrt (bucket_value (Z.to_nat (bucket_index x))) /\
   Hybrid.hybrid_rsqrt FMA Hybrid.globals_at_start x = f0_0).
Proof.
  intros g.
  assert (Eg : Hybrid.rsqrt_lut g
               = map (fun i => std_rsqrt (bucket_value i)) (seq 0 256)
                 ++ skipn 256 (repeat (of_bits 0) 256)).
  { unfold g, Hybrid.initialize_lut, Hybrid.globals_at_start.
    cbn [Hybrid.lut_initialized negb Hybrid.rsqrt_lut].
    apply (for_loop_fill (fun i => std_rsqrt (bucket_value i)) 256).
    rewrite repeat_length. lia. }
  assert (Hent : forall i, (i < 256)%nat ->
             nth i (Hybrid.rsqrt_lut g) f0_0 = std_rsqrt (bucket_value i)).
  { intros i Hi. rewrite Eg.
    apply (nth_fill (fun i => std_rsqrt (bucket_value i)) 256 i _ f0_0 Hi). }
  split; [reflexivity|].
  split.
  { intros g0. destruct (Hybrid.lut_initialized g0) eqn:E0.
    - assert (E1 : Hybrid.initialize_lut g0 = g0)
        by (unfold Hybrid.initialize_lut; rewrite E0; reflexivity).
      rewrite E1. exact E1.
    - assert (E1 : Hybrid.initialize_lut g0
                   = {| Hybrid.rsqrt_lut :=
                          for_loop 0 256 Hybrid.init_entry (Hybrid.rsqrt_lut g0);
                        Hybrid.lut_initialized := true |})
        by (unfold Hybrid.initialize_lut; rewrite E0; reflexivity).
      rewrite E1. reflexivity. }
  split; [exact Hent|].
  intros Ht.
  assert (Hidx : 0 <= bucket_index x < 256).
  { unfold on_table in Ht.
    apply andb_true_iff in Ht. destruct Ht as [Ht H2].
    apply andb_true_iff in Ht. destruct Ht as [_ H1].
    apply Z.leb_le in H1. apply Z.ltb_lt in H2. lia. }
  rewrite !hybrid_on_table by exact Ht. split.
  - apply Hent. lia.
  - unfold Hybrid.globals_at_start. cbn [Hybrid.rsqrt_lut].
    apply nth_repeat_lt. lia.
Qed.

Lemma hybrid_table_initialization_witness :
  Hybrid.hybrid_rsqrt false Hybrid.globals_at_start f1_0 = f0_0.
Proof.
  apply (hybrid_table_initialization false f1_0). reflexivity.
Defined.

(** ** The adaptive state of NeuralRsqrt *)

Lemma neural_compute_state (p : Neural.PrecisionLevel) (self : Neural.NeuralRsqrt)
    (x : float) :
  snd (Neural.compute p self x) = Neural.update_stats self x.
Proof.
  unfold Neural.compute. cbv zeta.
  match goal with |- snd (if ?c then _ else _) = _ => destruct c end; [|reflexivity].
  match goal with |- snd (match ?q with _ => _ end) = _ => destruct q end; reflexivity.
Qed.

(** X14.  The level a call runs at is not always the one that was set: when
    the variance of the recorded inputs, this one included, is below
    0.01, every level, [ULTRA_PRECISE] too, is replaced by [ULTRA_FAST]. *)
Theorem neural_precision_demoted (p : Neural.PrecisionLevel)
    (self : Neural.NeuralRsqrt) (x : float) :
  flt (Neural.variance (Neural.update_stats self x)) f0_01 = true ->
  Neural.compute p self x = Neural.compute Neural.ULTRA_FAST self x.
Proof.
  intros H. unfold Neural.compute. cbv zeta. rewrite H.
  destruct p; reflexivity.
Qed.

Lemma neural_precision_demoted_witness :
  Neural.compute Neural.ULTRA_PRECISE Neural.static_instance f0_0
  = Neural.compute Neural.ULTRA_FAST Neural.static_instance f0_0.
Proof.
  apply (neural_precision_demoted Neural.ULTRA_PRECISE Neural.static_instance f0_0).
  vm_compute. reflexivity.
Defined.

Lemma next_history_idx (i : nat) :
  Z.to_nat (Z.land (Z.of_nat i + 1) 255) = ((i + 1) mod 256)%nat.
Proof.
  change 255 with (Z.ones 8). rewrite Z.land_ones by lia.
  change (2 ^ 8) with (Z.of_nat 256).
  replace (Z.of_nat i + 1) with (Z.of_nat (i + 1)) by lia.
  rewrite <- Nat2Z.inj_mod. apply Nat2Z.id.
Qed.

(** The state of an instance after any sequence of calls. *)
Definition neural_after (p : Neural.PrecisionLevel) (self : Neural.NeuralRsqrt)
    (xs : list float) : Neural.NeuralRsqrt :=
  snd (compute_each (Neural.compute p) self xs).

Lemma neural_after_snoc (p : Neural.PrecisionLevel) (self : Neural.NeuralRsqrt)
    (xs : list float) (x : float) :
  neural_after p self (xs ++ [x]) = Neural.update_stats (neural_after p self xs) x.
Proof.
  unfold neural_after. rewrite compute_each_snoc. cbn [snd].
  apply neural_compute_state.
Qed.

(** X15.  The history is a ring of the latest 256 inputs.  After any calls on
    an instance as the constructor leaves it, the write index is the
    number of calls modulo 256, the table is as the constructor built
    it, and each of the latest 256 inputs is in the history at its call
    number modulo 256. *)
Theorem neural_history_ring (p : Neural.PrecisionLevel) (history raw : list float)
    (xs : list float) :
  length history = 256%nat ->
  let self := neural_after p (Neural.new history raw) xs in
  Neural.history_idx self = (length xs mod 256)%nat /\
  length (Neural.input_history self) = 256%nat /\
  Neural.poly_lut self = Neural.poly_lut (Neural.new history raw) /\
  forall k, (k < length xs)%nat -> (length xs - k <= 256)%nat ->
            nth (k mod 256) (Neural.input_history self) f0_0 = nth k xs f0_0.
Proof.
  intros Hlen. cbv zeta.
  induction xs as [| x xs IH] using rev_ind.
  - unfold neural_after. cbn [compute_each snd Neural.new Neural.history_idx
                                Neural.input_history length].
    repeat split; try assumption. intros k Hk. lia.
  - rewrite neural_after_snoc.
    destruct IH as (Hidx & Hl & Hp & Hh).
    set (s := neural_after p (Neural.new history raw) xs) in *.
    unfold Neural.update_stats.
    destruct (for_loop 0 256 _ (f0_0, f0_0)) as [sum sum_sq].
    cbn [Neural.history_idx Neural.input_history Neural.poly_lut].
    rewrite length_app. cbn [length].
    split; [rewrite next_history_idx, Hidx; apply Nat.Div0.add_mod_idemp_l|].
    split; [rewrite store_length; exact Hl|].
    split; [exact Hp|].
    intros k Hk Hw.
    assert (Hm : (length xs mod 256 < 256)%nat) by (apply Nat.mod_upper_bound; lia).
    destruct (Nat.eq_dec k (length xs)) as [-> | Hne].
    + rewrite Hidx, nth_store_same by lia.
      rewrite app_nth2, Nat.sub_diag by lia. reflexivity.
    + rewrite nth_store_other.
      * rewrite Hh by lia. rewrite app_nth1 by lia. reflexivity.
      * rewrite Hidx.
        pose proof (Nat.div_mod_eq k 256). pose proof (Nat.div_mod_eq (length xs) 256).
        pose proof (Nat.mod_upper_bound k 256 ltac:(lia)).
        intros E. rewrite E in *.
        assert ((length xs / 256 = k / 256)%nat) by nia. lia.
Qed.

Lemma neural_history_ring_witness :
  Neural.history_idx (neural_after Neural.FAST Neural.static_instance [f4_0; f1_5])
  = (length [f4_0; f1_5] mod 256)%nat.
Proof.
  apply (neural_history_ring Neural.FAST (repeat (of_bits 0) 256)
           (repeat (of_bits 0) 1024) [f4_0; f1_5]).
  reflexivity.
Defined.

Local Open Scope Z_scope.

(** * Callers: the vector normalizations *)

(** ** hybrid_vector_rsqrt.cpp: [Vec3::normalize_fast] *)

Module HybridVec3.

Record Vec3 := { x : float; y : float; z : float }.

Definition normalize_fast (FMA : bool) (g : Hybrid.globals) (v : Vec3) : Vec3 :=
  let len_sq := fadd (fadd (fmul (x v) (x v)) (fmul (y v) (y v))) (fmul (z v) (z v)) in
  let inv_len := Hybrid.hybrid_rsqrt FMA g len_sq in
  {| x := fmul (x v) inv_len; y := fmul (y v) inv_len; z := fmul (z v) inv_len |}.

Definition length (v : Vec3) : R :=
  sqrt (F2R (x v) * F2R (x v) + F2R (y v) * F2R (y v) + F2R (z v) * F2R (z v)).

Definition len_sq (v : Vec3) : float :=
  fadd (fadd (fmul (x v) (x v)) (fmul (y v) (y v))) (fmul (z v) (z v)).

End HybridVec3.

(** ** ultra_optimized_rsqrt.cpp: namespace [GameEngine] *)

Module GameEngine.

Record Vec3 := { x : float; y : float; z : float }.

Definition len_sq (v : Vec3) : float :=
  fadd (fadd (fmul (x v) (x v)) (fmul (y v) (y v))) (fmul (z v) (z v)).

(** [x *= inv; y *= inv; z *= inv]. *)
Definition scale (v : Vec3) (inv : float) : Vec3 :=
  {| x := fmul (x v) inv; y := fmul (y v) inv; z := fmul (z v) inv |}.

Definition length (v : Vec3) : R :=
  sqrt (F2R (x v) * F2R (x v) + F2R (y v) * F2R (y v) + F2R (z v) * F2R (z v)).

Definition zero3 : Vec3 := {| x := f0_0; y := f0_0; z := f0_0 |}.

Section Hardware.

Variable rsqrt_ss : float -> float.
Variable rsqrt_ps : float -> float.

(** [Vec3::normalize]. *)
Definition normalize (v : Vec3) : Vec3 :=
  let len_sq := fadd (fadd (fmul (x v) (x v)) (fmul (y v) (y v))) (fmul (z v) (z v)) in
  let inv_len := Ultra.ultra_rsqrt rsqrt_ss len_sq in
  {| x := fmul (x v) inv_len; y := fmul (y v) inv_len; z := fmul (z v) inv_len |}.

(** [normalize_particle_velocities]; the two vectors are created with
    [count] zeros each. *)
Definition normalize_particle_velocities (FMA : bool) (particles : list Vec3)
    (count : nat) : list Vec3 :=
  let magnitudes := repeat f0_0 count in
  let magnitudes :=
    for_loop 0 count
      (fun i m =>
         store m i
           (fadd (fadd (fmul (x (nth i particles zero3)) (x (nth i particles zero3)))
                       (fmul (y (nth i particles zero3)) (y (nth i particles zero3))))
                 (fmul (z (nth i particles zero3)) (z (nth i particles zero3)))))
      magnitudes in
  let inv_magnitudes := repeat f0_0 count in
  let inv_magnitudes :=
    Ultra.ultra_rsqrt_avx2 rsqrt_ss rsqrt_ps FMA magnitudes inv_magnitudes count in
  for_loop 0 count
    (fun i ps =>
       store ps i
         {| x := fmul (x (nth i ps zero3)) (nth i inv_magnitudes f0_0);
            y := fmul (y (nth i ps zero3)) (nth i inv_magnitudes f0_0);
            z := fmul (z (nth i ps zero3)) (nth i inv_magnitudes f0_0) |})
    particles.

(** [fast_distance]. *)
Definition fast_distance (a b : Vec3) : float :=
  let dx := fsub (x a) (x b) in
  let dy := fsub (y a) (y b) in
  let dz := fsub (z a) (z b) in
  let dist_sq := fadd (fadd (fmul dx dx) (fmul dy dy)) (fmul dz dz) in
  fdiv f1_0 (Ultra.ultra_rsqrt rsqrt_ss dist_sq).

End Hardware.
End GameEngine.

Local Open Scope R_scope.

(** X16.  [Vec3::normalize_fast] leaves a vector of length 1 to within
    0.001 percent, in either build, when the squared length it computes
    is a float from 1e-4 to 1e4 outside the range 0.5 to 4 of the
    table. *)
Theorem hybrid_normalize_fast_unit (FMA : bool) (g : Hybrid.globals)
    (v : HybridVec3.Vec3) :
  in_domain (HybridVec3.len_sq v) = true ->
  fge (HybridVec3.len_sq v) f0_5 && fle (HybridVec3.len_sq v) f4_0 = false ->
  Rabs (HybridVec3.length (HybridVec3.normalize_fast FMA g v) - 1) <= 1 / 100000.
Proof.
  intros Hd Htab. destruct (in_domain_normal _ Hd) as [HS HSr].
  assert (Hinv : normal_pos (Hybrid.hybrid_rsqrt FMA g (HybridVec3.len_sq v)) /\
                 rel_error (F2R (Hybrid.hybrid_rsqrt FMA g (HybridVec3.len_sq v)))
                   (F2R (HybridVec3.len_sq v)) <= 62 / 10000000).
  { rewrite (hybrid_off_table FMA g _ Htab). cbv zeta.
    destruct (flt (HybridVec3.len_sq v) f1_0);
      [|destruct (fgt (HybridVec3.len_sq v) f100_0)].
    - change Hybrid.MAGIC_SMALL with 0x5f375a86%Z. rewrite magic_5f375a86.
      apply (plain_two_updates FMA 3627654 _ Hd). lia.
    - change Hybrid.MAGIC_LARGE with 0x5f37599e%Z. rewrite magic_5f37599e.
      apply (plain_two_updates FMA 3627422 _ Hd). lia.
    - change Hybrid.MAGIC_NORMAL with 0x5f3759df%Z. rewrite magic_5f3759df.
      apply (plain_two_updates FMA 3627487 _ Hd). lia. }
  destruct Hinv as [Hn He]. rewrite rel_error_alt in He by lra.
  unfold HybridVec3.normalize_fast, HybridVec3.length. cbv zeta.
  cbn [HybridVec3.x HybridVec3.y HybridVec3.z].
  fold (HybridVec3.len_sq v).
  generalize dependent (Hybrid.hybrid_rsqrt FMA g (HybridVec3.len_sq v)).
  unfold HybridVec3.len_sq in *.
  intros inv Hn He. apply scaled_length; assumption.
Qed.

Lemma hybrid_normalize_fast_unit_witness :
  Rabs (HybridVec3.length
          (HybridVec3.normalize_fast true Hybrid.globals_at_start
             {| HybridVec3.x := of_bits 0x40400000; HybridVec3.y := f4_0;
                HybridVec3.z := f0_0 |}) - 1) <= 1 / 100000.
Proof.
  apply (hybrid_normalize_fast_unit true Hybrid.globals_at_start
           {| HybridVec3.x := of_bits 0x40400000; HybridVec3.y := f4_0;
              HybridVec3.z := f0_0 |}); vm_compute; reflexivity.
Defined.

(** ** Loops that rewrite an array in place *)

Lemma for_loop_in_place {A : Type} (f : nat -> A -> A) (n : nat) (a0 : list A) (d : A) :
  (n <= length a0)%nat ->
  for_loop 0 n (fun i a => store a i (f i (nth i a d))) a0
  = map (fun i => f i (nth i a0 d)) (seq 0 n) ++ skipn n a0.
Proof.
  intros Hn.
  apply (for_loop_invariant
           (fun i a => a = map (fun j => f j (nth j a0 d)) (seq 0 i) ++ skipn i a0));
    [lia | reflexivity |].
  intros i t Hi IH. rewrite IH.
  assert (Hl : length (map (fun j => f j (nth j a0 d)) (seq 0 i)) = i)
    by (rewrite length_map, length_seq; reflexivity).
  rewrite app_nth2 by lia. rewrite Hl, Nat.sub_diag.
  rewrite (skipn_cons_nth a0 i d) by lia. cbn [nth].
  rewrite seq_S, map_app. cbn [map Nat.add].
  assert (E : forall (l : list A) h0 t0 v,
             length l = i -> store (l ++ h0 :: t0) i v = l ++ v :: t0)
    by (intros l h0 t0 v <-; apply store_app).
  rewrite E by exact Hl.
  rewrite <- app_assoc. reflexivity.
Qed.

Lemma batch_tail (lane scalar : float -> float) (input output : list float)
    (count i : nat) (d : float) :
  (count <= length input)%nat -> (count <= length output)%nat ->
  (8 * (count / 8) <= i < count)%nat ->
  nth i (for_loop (8 * (count / 8)) count (fun i o => store o i (scalar (nth i input d)))
           (loop_lt (8 * (count / 8)) 0 (8 * (count / 8)) 8
              (fun i out => store_lanes out i (map lane (load_lanes input i 8))) output)) d
  = scalar (nth i input d).
Proof.
  intros Hin Hout Hi.
  pose proof (Nat.div_mod_eq count 8) as Hdm.
  rewrite batch_loops by assumption.
  set (sc := (8 * (count / 8))%nat) in *.
  assert (Hl1 : length (map lane (firstn sc input)) = sc)
    by (rewrite length_map, length_firstn; lia).
  assert (Hl2 : length (map scalar (firstn (count - sc) (skipn sc input))) = (count - sc)%nat)
    by (rewrite length_map, length_firstn, length_skipn; lia).
  rewrite app_nth2 by lia. rewrite Hl1.
  rewrite app_nth1 by lia.
  rewrite (nth_indep _ d (scalar d)) by lia.
  rewrite map_nth. f_equal.
  rewrite nth_firstn.
  destruct (Nat.ltb_spec (i - sc) (count - sc)); [|lia].
  rewrite nth_skipn. f_equal. lia.
Qed.

(** ** namespace [GameEngine] on a hardware estimate *)

Lemma ultra_rsqrt_on_estimate (rsqrt_ss : float -> float) (x : float) :
  in_domain x = true -> estimates rsqrt_ss x ->
  normal_pos (Ultra.ultra_rsqrt rsqrt_ss x) /\
  rel_error (F2R (Ultra.ultra_rsqrt rsqrt_ss x)) (F2R x) <= 5 / 10000000.
Proof.
  intros Hd [Ns Es].
  destruct (in_domain_normal x Hd) as [Hx Hxr].
  assert (HX : 0 < F2R x) by lra.
  destruct normal_f1_5 as [Hc Hcv].
  change (Ultra.ultra_rsqrt rsqrt_ss x) with (lane_update f1_5 x (rsqrt_ss x)).
  pose proof (rel_error_nonneg (F2R (rsqrt_ss x)) (F2R x) HX) as P.
  destruct (lane_update_contracts f1_5 x 0 Hc Hd ltac:(lra) ltac:(lra) _ Ns ltac:(lra))
    as [N E].
  split; [exact N|].
  set (e := rel_error (F2R (rsqrt_ss x)) (F2R x)) in *.
  assert (e * e <= 3 / 8192 * (3 / 8192)) by nra. lra.
Qed.

Lemma avx2_lane_on_estimate (rsqrt_ps : float -> float) (FMA : bool) (x : float) :
  in_domain x = true -> estimates rsqrt_ps x ->
  normal_pos (Ultra.avx2_lane rsqrt_ps FMA x) /\
  rel_error (F2R (Ultra.avx2_lane rsqrt_ps FMA x)) (F2R x) <= 5 / 10000000.
Proof.
  intros Hd [Ns Es].
  destruct (in_domain_normal x Hd) as [Hx Hxr].
  assert (HX : 0 < F2R x) by lra.
  destruct normal_f1_5 as [Hc Hcv].
  pose proof (rel_error_nonneg (F2R (rsqrt_ps x)) (F2R x) HX) as P.
  assert (Hsq : rel_error (F2R (rsqrt_ps x)) (F2R x) * rel_error (F2R (rsqrt_ps x)) (F2R x)
                <= 3 / 8192 * (3 / 8192)) by nra.
  destruct FMA.
  - change (Ultra.avx2_lane rsqrt_ps true x) with (fma_update f1_5 x (rsqrt_ps x)).
    destruct (fma_update_contracts f1_5 x 0 Hc Hd ltac:(lra) ltac:(lra) _ Ns ltac:(lra))
      as [N E].
    split; [exact N | lra].
  - change (Ultra.avx2_lane rsqrt_ps false x) with (lane_update f1_5 x (rsqrt_ps x)).
    destruct (lane_update_contracts f1_5 x 0 Hc Hd ltac:(lra) ltac:(lra) _ Ns ltac:(lra))
      as [N E].
    split; [exact N | lra].
Qed.

Lemma scaled_unit (v : GameEngine.Vec3) (inv : float) :
  in_domain (GameEngine.len_sq v) = true ->
  normal_pos inv ->
  rel_error (F2R inv) (F2R (GameEngine.len_sq v)) <= 62 / 10000000 ->
  Rabs (GameEngine.length (GameEngine.scale v inv) - 1) <= 1 / 100000.
Proof.
  intros Hd Hn He. destruct (in_domain_normal _ Hd) as [HS HSr].
  rewrite rel_error_alt in He by lra.
  unfold GameEngine.scale, GameEngine.length.
  cbn [GameEngine.x GameEngine.y GameEngine.z].
  unfold GameEngine.len_sq in *.
  apply scaled_length; assumption.
Qed.

(** X17.  [Vec3::normalize] leaves a vector of length 1 to within 0.001
    percent when the squared length it computes is a float from 1e-4 to
    1e4 and the hardware estimate of its reciprocal square root is a
    normal number within the documented 1.5 * 2^-12. *)
Theorem ultra_normalize_unit (rsqrt_ss : float -> float) (v : GameEngine.Vec3) :
  in_domain (GameEngine.len_sq v) = true ->
  estimates rsqrt_ss (GameEngine.len_sq v) ->
  Rabs (GameEngine.length (GameEngine.normalize rsqrt_ss v) - 1) <= 1 / 100000.
Proof.
  intros Hd He.
  destruct (ultra_rsqrt_on_estimate rsqrt_ss _ Hd He) as [N E].
  change (GameEngine.normalize rsqrt_ss v)
    with (GameEngine.scale v (Ultra.ultra_rsqrt rsqrt_ss (GameEngine.len_sq v))).
  apply scaled_unit; [exact Hd | exact N | lra].
Qed.

Lemma fifth_estimates_25 :
  estimates (fun _ => of_bits 0x3E4CCCCD) (of_bits 0x41C80000).
Proof.
  split.
  - exists 13421773%positive, (-26)%Z. repeat split; cbv; congruence.
  - change (of_bits 0x3E4CCCCD) with (S754_finite false 13421773 (-26)).
    change (of_bits 0x41C80000) with (S754_finite false 13107200 (-19)).
    rewrite !F2R_neg_exp.
    change (Z.pow_pos 2 26) with 67108864%Z. change (Z.pow_pos 2 19) with 524288%Z.
    replace (13107200 / 524288) with (5 * 5) by lra.
    rewrite rel_error_alt by lra.
    rewrite sqrt_square by lra.
    apply Rabs_le. lra.
Qed.

Lemma ultra_normalize_unit_witness :
  Rabs (GameEngine.length
          (GameEngine.normalize (fun _ => of_bits 0x3E4CCCCD)
             {| GameEngine.x := of_bits 0x40400000; GameEngine.y := f4_0;
                GameEngine.z := f0_0 |}) - 1) <= 1 / 100000.
Proof.
  apply (ultra_normalize_unit (fun _ => of_bits 0x3E4CCCCD)
           {| GameEngine.x := of_bits 0x40400000; GameEngine.y := f4_0;
              GameEngine.z := f0_0 |}).
  - vm_compute. reflexivity.
  - exact fifth_estimates_25.
Defined.

(** The estimate a particle of [normalize_particle_velocities] is scaled
    by: a vector lane in the full groups of eight, the scalar
    [ultra_rsqrt] after them. *)
Definition particle_inverse (rsqrt_ss rsqrt_ps : float -> float) (FMA : bool)
    (count i : nat) (m : float) : float :=
  if (i <? 8 * (count / 8))%nat then Ultra.avx2_lane rsqrt_ps FMA m
  else Ultra.ultra_rsqrt rsqrt_ss m.

Lemma particle_velocities_expanded (rsqrt_ss rsqrt_ps : float -> float) (FMA : bool)
    (particles : list GameEngine.Vec3) (count : nat) :
  (count <= length particles)%nat -> (Z.of_nat count < 2 ^ 64)%Z ->
  GameEngine.normalize_particle_velocities rsqrt_ss rsqrt_ps FMA particles count
  = map (fun i =>
           GameEngine.scale (nth i particles GameEngine.zero3)
             (particle_inverse rsqrt_ss rsqrt_ps FMA count i
                (GameEngine.len_sq (nth i particles GameEngine.zero3))))
        (seq 0 count)
    ++ skipn count particles.
Proof.
  intros Hc Hsize.
  unfold GameEngine.normalize_particle_velocities. cbv zeta.
  rewrite (for_loop_fill
             (fun i => GameEngine.len_sq (nth i particles GameEngine.zero3)) count)
    by (rewrite repeat_length; lia).
  rewrite skipn_all2 by (rewrite repeat_length; lia). rewrite app_nil_r.
  set (M := map (fun i => GameEngine.len_sq (nth i particles GameEngine.zero3))
              (seq 0 count)).
  assert (HM : length M = count) by (unfold M; rewrite length_map, length_seq; reflexivity).
  assert (HMn : forall i, (i < count)%nat ->
             nth i M f0_0 = GameEngine.len_sq (nth i particles GameEngine.zero3)).
  { intros i Hi. unfold M.
    rewrite <- (app_nil_r (map _ (seq 0 count))).
    apply (nth_fill (fun i => GameEngine.len_sq (nth i particles GameEngine.zero3))
             count i [] f0_0 Hi). }
  rewrite (for_loop_in_place
             (fun i p =>
                {| GameEngine.x := fmul (GameEngine.x p)
                     (nth i (Ultra.ultra_rsqrt_avx2 rsqrt_ss rsqrt_ps FMA M
                               (repeat f0_0 count) count) f0_0);
                   GameEngine.y := fmul (GameEngine.y p)
                     (nth i (Ultra.ultra_rsqrt_avx2 rsqrt_ss rsqrt_ps FMA M
                               (repeat f0_0 count) count) f0_0);
                   GameEngine.z := fmul (GameEngine.z p)
                     (nth i (Ultra.ultra_rsqrt_avx2 rsqrt_ss rsqrt_ps FMA M
                               (repeat f0_0 count) count) f0_0) |})
             count particles GameEngine.zero3 Hc).
  f_equal. apply map_ext_in. intros i Hi. apply in_seq in Hi.
  unfold GameEngine.scale, particle_inverse. 
  assert (E : nth i (Ultra.ultra_rsqrt_avx2 rsqrt_ss rsqrt_ps FMA M
                       (repeat f0_0 count) count) f0_0
              = if (i <? 8 * (count / 8))%nat
                then Ultra.avx2_lane rsqrt_ps FMA
                       (GameEngine.len_sq (nth i particles GameEngine.zero3))
                else Ultra.ultra_rsqrt rsqrt_ss
                       (GameEngine.len_sq (nth i particles GameEngine.zero3))).
  { unfold Ultra.ultra_rsqrt_avx2. rewrite simd_count_8 by exact Hsize.
    destruct (Nat.ltb_spec i (8 * (count / 8))) as [Hlt | Hge].
    - rewrite batch_full_group by (rewrite ?HM, ?repeat_length; lia).
      rewrite HMn by lia. reflexivity.
    - rewrite batch_tail by (rewrite ?HM, ?repeat_length; lia).
      rewrite HMn by lia. reflexivity. }
  rewrite E. reflexivity.
Qed.

Lemma nth_indexed_map {A : Type} (f : nat -> A) (n i : nat) (rest : list A) (d : A) :
  (i < n)%nat -> nth i (map f (seq 0 n) ++ rest) d = f i.
Proof.
  intros Hi. rewrite app_nth1 by (rewrite length_map, length_seq; exact Hi).
  rewrite (nth_indep _ d (f 0%nat)) by (rewrite length_map, length_seq; exact Hi).
  rewrite map_nth. rewrite seq_nth by exact Hi. reflexivity.
Qed.

(** X18.  [normalize_particle_velocities] rewrites exactly the first [count]
    particles and keeps the rest and the length of the array.  Particle
    [i] is scaled by the estimate for its own squared length: by a lane
    of [ultra_rsqrt_avx2] in the full groups of eight, and after them by
    the scalar [ultra_rsqrt], which is what [Vec3::normalize] does to
    that particle. *)
Theorem particle_batch_per_element (rsqrt_ss rsqrt_ps : float -> float) (FMA : bool)
    (particles : list GameEngine.Vec3) (count i : nat) :
  (count <= length particles)%nat -> (Z.of_nat count < 2 ^ 64)%Z -> (i < count)%nat ->
  let out :=
    GameEngine.normalize_particle_velocities rsqrt_ss rsqrt_ps FMA particles count in
  length out = length particles /\
  (forall j, (count <= j)%nat ->
             nth j out GameEngine.zero3 = nth j particles GameEngine.zero3) /\
  nth i out GameEngine.zero3
  = GameEngine.scale (nth i particles GameEngine.zero3)
      (particle_inverse rsqrt_ss rsqrt_ps FMA count i
         (GameEngine.len_sq (nth i particles GameEngine.zero3))) /\
  ((8 * (count / 8) <= i)%nat ->
   nth i out GameEngine.zero3
   = GameEngine.normalize rsqrt_ss (nth i particles GameEngine.zero3)).
Proof.
  intros Hc Hsize Hi out. unfold out.
  rewrite particle_velocities_expanded by assumption.
  set (f := fun i => GameEngine.scale (nth i particles GameEngine.zero3)
                       (particle_inverse rsqrt_ss rsqrt_ps FMA count i
                          (GameEngine.len_sq (nth i particles GameEngine.zero3)))).
  assert (Hl : length (map f (seq 0 count)) = count)
    by (rewrite length_map, length_seq; reflexivity).
  split; [rewrite length_app, Hl, length_skipn; lia|].
  split.
  - intros j Hj. rewrite app_nth2 by lia. rewrite Hl, nth_skipn. f_equal. lia.
  - split; [apply (nth_indexed_map f count i _ _ Hi)|].
    intros Hge. rewrite (nth_indexed_map f count i _ _ Hi). unfold f, particle_inverse.
    destruct (Nat.ltb_spec i (8 * (count / 8))); [lia | reflexivity].
Qed.

Lemma particle_batch_per_element_witness :
  nth 0 (GameEngine.normalize_particle_velocities std_rsqrt std_rsqrt false
           [{| GameEngine.x := of_bits 0x40400000; GameEngine.y := f4_0;
               GameEngine.z := f0_0 |}] 1) GameEngine.zero3
  = GameEngine.normalize std_rsqrt
      (nth 0 [{| GameEngine.x := of_bits 0x40400000; GameEngine.y := f4_0;
                 GameEngine.z := f0_0 |}] GameEngine.zero3).
Proof.
  apply (particle_batch_per_element std_rsqrt std_rsqrt false
           [{| GameEngine.x := of_bits 0x40400000; GameEngine.y := f4_0;
               GameEngine.z := f0_0 |}] 1 0);
    [cbn; lia | reflexivity | lia | cbn; lia].
Defined.

(** X19.  Every particle that [normalize_particle_velocities] rewrites comes
    out with length 1 to within 0.001 percent, in a full group as after
    them and with fused multiply-add or without, when its squared length
    is a float from 1e-4 to 1e4 on which both hardware estimates are
    normal numbers within the documented 1.5 * 2^-12. *)
Theorem particle_batch_unit (rsqrt_ss rsqrt_ps : float -> float) (FMA : bool)
    (particles : list GameEngine.Vec3) (count i : nat) :
  (count <= length particles)%nat -> (Z.of_nat count < 2 ^ 64)%Z -> (i < count)%nat ->
  in_domain (GameEngine.len_sq (nth i particles GameEngine.zero3)) = true ->
  estimates rsqrt_ss (GameEngine.len_sq (nth i particles GameEngine.zero3)) ->
  estimates rsqrt_ps (GameEngine.len_sq (nth i particles GameEngine.zero3)) ->
  Rabs (GameEngine.length
          (nth i (GameEngine.normalize_particle_velocities rsqrt_ss rsqrt_ps FMA
                    particles count) GameEngine.zero3) - 1) <= 1 / 100000.
Proof.
  intros Hc Hsize Hi Hd Hs Hp.
  rewrite particle_velocities_expanded by assumption.
  rewrite (nth_indexed_map _ count i _ _ Hi).
  unfold particle_inverse.
  destruct (i <? 8 * (count / 8))%nat.
  - destruct (avx2_lane_on_estimate rsqrt_ps FMA _ Hd Hp) as [N E].
    apply scaled_unit; [exact Hd | exact N | lra].
  - destruct (ultra_rsqrt_on_estimate rsqrt_ss _ Hd Hs) as [N E].
    apply scaled_unit; [exact Hd | exact N | lra].
Qed.

Lemma particle_batch_unit_witness :
  Rabs (GameEngine.length
          (nth 0 (GameEngine.normalize_particle_velocities
                    (fun _ => of_bits 0x3E4CCCCD) (fun _ => of_bits 0x3E4CCCCD) true
                    [{| GameEngine.x := of_bits 0x40400000; GameEngine.y := f4_0;
                        GameEngine.z := f0_0 |}] 1) GameEngine.zero3) - 1)
  <= 1 / 100000.
Proof.
  apply (particle_batch_unit (fun _ => of_bits 0x3E4CCCCD) (fun _ => of_bits 0x3E4CCCCD)
           true
           [{| GameEngine.x := of_bits 0x40400000; GameEngine.y := f4_0;
               GameEngine.z := f0_0 |}] 1 0).
  - cbn. lia.
  - reflexivity.
  - lia.
  - vm_compute. reflexivity.
  - exact fifth_estimates_25.
  - exact fifth_estimates_25.
Defined.

(** ** The zero vector and the zero distance on the hardware estimate *)

Lemma fsub_self (a : float) : zero_or_finite a = true -> fsub a a = f0_0.
Proof.
  destruct a as [[] | s | | s m e]; try discriminate; intros _; try reflexivity.
  unfold fsub, SFsub.
  replace (cond_Zopp s (Zpos (fst (shl_align m e (Z.min e e))))
           - cond_Zopp s (Zpos (fst (shl_align m e (Z.min e e)))))%Z with 0%Z by lia.
  reflexivity.
Qed.

Lemma ultra_rsqrt_of_zero (rsqrt_ss : float -> float) :
  rsqrt_ss f0_0 = S754_infinity false ->
  Ultra.ultra_rsqrt rsqrt_ss f0_0 = S754_nan.
Proof. intros H. unfold Ultra.ultra_rsqrt. rewrite H. reflexivity. Qed.

(** X20.  On a processor whose estimate of the reciprocal square root of +0 is
    +infinity, as documented, the update of [ultra_rsqrt] multiplies
    zero by infinity: [Vec3::normalize] turns the zero vector into three
    NaNs, and [fast_distance] of any point with finite coordinates to
    itself is NaN. *)
Theorem ultra_zero_gives_nan (rsqrt_ss : float -> float) (a : GameEngine.Vec3) :
  rsqrt_ss f0_0 = S754_infinity false ->
  GameEngine.normalize rsqrt_ss GameEngine.zero3
  = {| GameEngine.x := S754_nan; GameEngine.y := S754_nan; GameEngine.z := S754_nan |} /\
  (zero_or_finite (GameEngine.x a) = true ->
   zero_or_finite (GameEngine.y a) = true ->
   zero_or_finite (GameEngine.z a) = true ->
   GameEngine.fast_distance rsqrt_ss a a = S754_nan).
Proof.
  intros H. split.
  - unfold GameEngine.normalize. cbn [GameEngine.x GameEngine.y GameEngine.z GameEngine.zero3].
    change (fadd (fadd (fmul f0_0 f0_0) (fmul f0_0 f0_0)) (fmul f0_0 f0_0)) with f0_0.
    rewrite (ultra_rsqrt_of_zero rsqrt_ss H). reflexivity.
  - intros Hx Hy Hz. unfold GameEngine.fast_distance.
    rewrite !fsub_self by assumption.
    change (fadd (fadd (fmul f0_0 f0_0) (fmul f0_0 f0_0)) (fmul f0_0 f0_0)) with f0_0.
    rewrite (ultra_rsqrt_of_zero rsqrt_ss H). reflexivity.
Qed.

Lemma ultra_zero_gives_nan_witness :
  GameEngine.fast_distance std_rsqrt
    {| GameEngine.x := f1_5; GameEngine.y := f4_0; GameEngine.z := f0_0 |}
    {| GameEngine.x := f1_5; GameEngine.y := f4_0; GameEngine.z := f0_0 |}
  = S754_nan.
Proof.
  apply (ultra_zero_gives_nan std_rsqrt
           {| GameEngine.x := f1_5; GameEngine.y := f4_0; GameEngine.z := f0_0 |});
    reflexivity.
Defined.

Local Open Scope Z_scope.

(** * The vertex buffer of GameEngineFastRSqrt *)

Module GameEngineBuffer.

(** A lane-wise binary instruction ([_mm256_mul_ps], [_mm256_add_ps]). *)
Definition lanes2 (op : float -> float -> float) (a b : list float) : list float :=
  map (fun p => op (fst p) (snd p)) (combine a b).

(** The body of the vector loop of [normalize_vertex_buffer_avx]. *)
Definition normalize_group (i : nat) (vertices : list float) : list float :=
  let x1 := load_lanes vertices (i * 3) 8 in
  let y1 := load_lanes vertices (i * 3 + 8) 8 in
  let z1 := load_lanes vertices (i * 3 + 16) 8 in
  let x2 := lanes2 fmul x1 x1 in
  let y2 := lanes2 fmul y1 y1 in
  let z2 := lanes2 fmul z1 z1 in
  let norm_sq := lanes2 fadd x2 (lanes2 fadd y2 z2) in
  let inv_norm := GameEngineLanes.compute_avx norm_sq in
  let x1 := lanes2 fmul x1 inv_norm in
  let y1 := lanes2 fmul y1 inv_norm in
  let z1 := lanes2 fmul z1 inv_norm in
  let vertices := store_lanes vertices (i * 3) x1 in
  let vertices := store_lanes vertices (i * 3 + 8) y1 in
  let vertices := store_lanes vertices (i * 3 + 16) z1 in
  vertices.

(** [normalize_vec3 (&vertices[i*3])]: the three floats are read, scaled
    and written back. *)
Definition normalize_in_place (self : GameEngineFastRSqrt.t) (i : nat)
    (vertices : list float) : list float :=
  let '(v0, v1, v2) :=
    GameEngineFastRSqrt.normalize_vec3 self
      (nth (i * 3) vertices f0_0, nth (i * 3 + 1) vertices f0_0,
       nth (i * 3 + 2) vertices f0_0) in
  store (store (store vertices (i * 3) v0) (i * 3 + 1) v1) (i * 3 + 2) v2.

(** [normalize_vertex_buffer_avx]; [count] is an [int], and no loop runs
    when it is negative. *)
Definition normalize_vertex_buffer_avx (self : GameEngineFastRSqrt.t)
    (vertices : list float) (count : Z) : list float :=
  let simd_count := Z.quot count 8 * 8 in
  let vertices :=
    loop_lt (Z.to_nat simd_count) 0 (Z.to_nat simd_count) 8 normalize_group vertices in
  for_loop (Z.to_nat simd_count) (Z.to_nat count) (normalize_in_place self) vertices.

End GameEngineBuffer.

(** ** Loops over consecutive blocks of an array *)

(** The first [k] blocks of width [w] of [v], each replaced by what [f]
    makes of the array from that block on. *)
Fixpoint blocks_out {A : Type} (w : nat) (f : list A -> list A) (k : nat)
    (v : list A) : list A :=
  match k with
  | O => []
  | S k' => f v ++ blocks_out w f k' (skipn w v)
  end.

Section Blocks.

Context {A : Type}.
Variable w : nat.
Variable f : list A -> list A.
Hypothesis f_length : forall l, (w <= length l)%nat -> length (f l) = w.

Lemma blocks_out_length (k : nat) :
  forall v, (k * w <= length v)%nat -> length (blocks_out w f k v) = (k * w)%nat.
Proof.
  induction k as [| k IH]; intros v Hv; cbn [blocks_out]; [reflexivity|].
  assert (Hv' : (w + k * w <= length v)%nat) by exact Hv.
  rewrite length_app, f_length by lia.
  rewrite IH by (rewrite length_skipn; lia). lia.
Qed.

Lemma blocks_out_snoc (k : nat) :
  forall v, blocks_out w f (S k) v = blocks_out w f k v ++ f (skipn (k * w) v).
Proof.
  induction k as [| k IH]; intros v.
  - cbn. rewrite app_nil_r. reflexivity.
  - change (blocks_out w f (S (S k)) v)
      with (f v ++ blocks_out w f (S k) (skipn w v)).
    rewrite IH. cbn [blocks_out]. rewrite <- app_assoc.
    rewrite skipn_skipn.
    replace (S k * w)%nat with (k * w + w)%nat by lia. reflexivity.
Qed.

Lemma blocks_out_nth (d : A) (k : nat) :
  forall v j t rest,
    (k * w <= length v)%nat -> (j < k)%nat -> (t < w)%nat ->
    nth (j * w + t) (blocks_out w f k v ++ rest) d = nth t (f (skipn (j * w) v)) d.
Proof.
  induction k as [| k IH]; intros v j t rest Hv Hj Ht; [lia|].
  rewrite blocks_out_snoc, <- app_assoc.
  assert (Hl : length (blocks_out w f k v) = (k * w)%nat)
    by (apply blocks_out_length; cbn in Hv; lia).
  destruct (Nat.eq_dec j k) as [-> | Hne].
  - rewrite app_nth2 by lia. rewrite Hl.
    replace (k * w + t - k * w)%nat with t by lia.
    rewrite app_nth1; [reflexivity|].
    rewrite f_length; [exact Ht|]. rewrite length_skipn. cbn in Hv. lia.
  - apply IH; [cbn in Hv; lia | lia | exact Ht].
Qed.

(** A loop whose [j]-th pass replaces block [j] after the offset [off]. *)
Lemma block_loop (body : nat -> list A -> list A) (off start step k : nat)
    (v : list A) :
  (0 < step)%nat -> (off + k * w <= length v)%nat ->
  (forall j s, (j < k)%nat -> length s = length v ->
               body (start + j * step)%nat s
               = firstn (off + j * w) s ++ f (skipn (off + j * w) s)
                 ++ skipn (off + j * w + w) s) ->
  forall fuel, (k <= fuel)%nat ->
  loop_lt fuel start (start + k * step) step body v
  = firstn off v ++ blocks_out w f k (skipn off v) ++ skipn (off + k * w) v.
Proof.
  intros Hstep Hlen Hbody fuel Hfuel.
  apply (loop_lt_groups
           (fun i s => forall j, i = (start + j * step)%nat -> (j <= k)%nat ->
                       s = firstn off v ++ blocks_out w f j (skipn off v)
                           ++ skipn (off + j * w) v)
           step body k Hstep fuel start v Hfuel) with (j := k); [| | reflexivity | lia].
  - intros j Hj _. assert (j = 0)%nat by nia. subst j.
    cbn [blocks_out app]. rewrite Nat.mul_0_l, Nat.add_0_r. symmetry. apply firstn_skipn.
  - intros j t Hj IH j' Hj' Hle.
    assert (j' = S j) by nia. subst j'.
    specialize (IH j eq_refl ltac:(lia)).
    assert (Hb : length (blocks_out w f j (skipn off v)) = (j * w)%nat)
      by (apply blocks_out_length; rewrite length_skipn; nia).
    assert (Ht : length t = length v).
    { rewrite IH, !length_app, Hb, length_firstn, length_skipn. nia. }
    rewrite (Hbody j t Hj Ht).
    set (P := firstn off v ++ blocks_out w f j (skipn off v)) in *.
    assert (HP : length P = (off + j * w)%nat)
      by (unfold P; rewrite length_app, Hb, length_firstn; nia).
    assert (Et : t = P ++ skipn (off + j * w) v)
      by (unfold P; rewrite <- app_assoc; exact IH).
    rewrite Et at 1 2 3.
    rewrite firstn_app_exact by exact HP.
    replace (off + j * w)%nat with (off + j * w + 0)%nat at 1 by lia.
    rewrite skipn_app_exact by exact HP. cbn [skipn].
    rewrite skipn_app_exact by exact HP.
    rewrite skipn_skipn, blocks_out_snoc, skipn_skipn.
    unfold P. rewrite <- !app_assoc.
    replace (j * w + off)%nat with (off + j * w)%nat by lia.
    replace (w + (off + j * w))%nat with (off + S j * w)%nat by (cbn; lia).
    reflexivity.
Qed.

End Blocks.

(** ** The two loops of [normalize_vertex_buffer_avx] *)

Lemma store_lanes_at (s vs : list float) (b : nat) :
  (b + length vs <= length s)%nat ->
  store_lanes s b vs = firstn b s ++ vs ++ skipn (b + length vs) s.
Proof.
  intros H.
  rewrite <- (firstn_skipn b s) at 1.
  assert (Hl : length (firstn b s) = b) by (rewrite length_firstn; lia).
  assert (E : forall A B : list float, length A = b ->
             (length vs <= length B)%nat ->
             store_lanes (A ++ B) b vs = A ++ vs ++ skipn (length vs) B)
    by (intros A B <-; apply store_lanes_app).
  rewrite E by (try rewrite length_skipn; lia).
  rewrite skipn_skipn. do 3 f_equal. lia.
Qed.

Lemma lanes2_length (op : float -> float -> float) (a b : list float) :
  length (GameEngineBuffer.lanes2 op a b) = Nat.min (length a) (length b).
Proof. unfold GameEngineBuffer.lanes2. rewrite length_map. apply length_combine. Qed.

Lemma lanes2_nth (op : float -> float -> float) (a b : list float) (j : nat) (d : float) :
  length a = length b -> (j < length a)%nat ->
  nth j (GameEngineBuffer.lanes2 op a b) d = op (nth j a d) (nth j b d).
Proof.
  intros Hl Hj. unfold GameEngineBuffer.lanes2.
  rewrite (nth_indep _ d (op (fst (d, d)) (snd (d, d))))
    by (rewrite length_map, length_combine; lia).
  rewrite (map_nth (fun p => op (fst p) (snd p)) (combine a b) (d, d)).
  rewrite combine_nth by exact Hl. reflexivity.
Qed.

(** What the vector loop makes of the 24 floats at the front of [l]:
    the first eight are taken as x components, the next eight as y and
    the last eight as z. *)
Definition planar_block (l : list float) : list float :=
  let x1 := firstn 8 l in
  let y1 := firstn 8 (skipn 8 l) in
  let z1 := firstn 8 (skipn 16 l) in
  let norm_sq :=
    GameEngineBuffer.lanes2 fadd (GameEngineBuffer.lanes2 fmul x1 x1)
      (GameEngineBuffer.lanes2 fadd (GameEngineBuffer.lanes2 fmul y1 y1)
         (GameEngineBuffer.lanes2 fmul z1 z1)) in
  let inv_norm := GameEngineLanes.compute_avx norm_sq in
  GameEngineBuffer.lanes2 fmul x1 inv_norm
  ++ GameEngineBuffer.lanes2 fmul y1 inv_norm
  ++ GameEngineBuffer.lanes2 fmul z1 inv_norm.

(** What the scalar loop makes of the three floats at the front of [l]. *)
Definition interleaved_triple (self : GameEngineFastRSqrt.t) (l : list float)
    : list float :=
  let '(v0, v1, v2) :=
    GameEngineFastRSqrt.normalize_vec3 self (nth 0 l f0_0, nth 1 l f0_0, nth 2 l f0_0) in
  [v0; v1; v2].

Lemma planar_lengths (l : list float) :
  (24 <= length l)%nat ->
  let x1 := firstn 8 l in
  let y1 := firstn 8 (skipn 8 l) in
  let z1 := firstn 8 (skipn 16 l) in
  let inv_norm :=
    GameEngineLanes.compute_avx
      (GameEngineBuffer.lanes2 fadd (GameEngineBuffer.lanes2 fmul x1 x1)
         (GameEngineBuffer.lanes2 fadd (GameEngineBuffer.lanes2 fmul y1 y1)
            (GameEngineBuffer.lanes2 fmul z1 z1))) in
  length x1 = 8%nat /\ length y1 = 8%nat /\ length z1 = 8%nat /\
  length inv_norm = 8%nat.
Proof.
  intros H x1 y1 z1 inv_norm.
  assert (Hx : length x1 = 8%nat) by (unfold x1; rewrite length_firstn; lia).
  assert (Hy : length y1 = 8%nat)
    by (unfold y1; rewrite length_firstn, length_skipn; lia).
  assert (Hz : length z1 = 8%nat)
    by (unfold z1; rewrite length_firstn, length_skipn; lia).
  repeat split; try assumption.
  unfold inv_norm, GameEngineLanes.compute_avx.
  rewrite length_map, !lanes2_length, Hx, Hy, Hz. reflexivity.
Qed.

Lemma planar_block_length (l : list float) :
  (24 <= length l)%nat -> length (planar_block l) = 24%nat.
Proof.
  intros H. destruct (planar_lengths l H) as (Hx & Hy & Hz & Hi).
  unfold planar_block. cbv zeta.
  rewrite !length_app, !lanes2_length, Hx, Hy, Hz, Hi. reflexivity.
Qed.

Lemma interleaved_triple_length (self : GameEngineFastRSqrt.t) (l : list float) :
  (3 <= length l)%nat -> length (interleaved_triple self l) = 3%nat.
Proof.
  intros _. unfold interleaved_triple.
  destruct (GameEngineFastRSqrt.normalize_vec3 self _) as [[v0 v1] v2]. reflexivity.
Qed.

Lemma normalize_group_block (j : nat) (s : list float) :
  (j * 24 + 24 <= length s)%nat ->
  GameEngineBuffer.normalize_group (0 + j * 8) s
  = firstn (0 + j * 24) s ++ planar_block (skipn (0 + j * 24) s)
    ++ skipn (0 + j * 24 + 24) s.
Proof.
  intros H. cbn [Nat.add].
  unfold GameEngineBuffer.normalize_group, load_lanes. cbv zeta.
  replace (j * 8 * 3)%nat with (j * 24)%nat by lia.
  set (b := (j * 24)%nat) in *.
  set (l := skipn b s).
  assert (Hl : (24 <= length l)%nat) by (unfold l; rewrite length_skipn; lia).
  assert (E8 : skipn (b + 8) s = skipn 8 l)
    by (unfold l; rewrite skipn_skipn; f_equal; lia).
  assert (E16 : skipn (b + 16) s = skipn 16 l)
    by (unfold l; rewrite skipn_skipn; f_equal; lia).
  rewrite E8, E16. fold l.
  destruct (planar_lengths l Hl) as (Hx & Hy & Hz & Hi).
  unfold planar_block. cbv zeta.
  set (inv := GameEngineLanes.compute_avx _) in *.
  set (X := GameEngineBuffer.lanes2 fmul (firstn 8 l) inv).
  set (Y := GameEngineBuffer.lanes2 fmul (firstn 8 (skipn 8 l)) inv).
  set (Z := GameEngineBuffer.lanes2 fmul (firstn 8 (skipn 16 l)) inv).
  assert (HX : length X = 8%nat) by (unfold X; rewrite lanes2_length, Hx, Hi; reflexivity).
  assert (HY : length Y = 8%nat) by (unfold Y; rewrite lanes2_length, Hy, Hi; reflexivity).
  assert (HZ : length Z = 8%nat) by (unfold Z; rewrite lanes2_length, Hz, Hi; reflexivity).
  rewrite (store_lanes_at s X b) by lia. rewrite HX.
  assert (E1 : firstn b s ++ X ++ skipn (b + 8) s = (firstn b s ++ X) ++ skipn (b + 8) s)
    by (rewrite <- app_assoc; reflexivity).
  rewrite E1.
  assert (L1 : length (firstn b s ++ X) = (b + 8)%nat)
    by (rewrite length_app, length_firstn, HX; lia).
  assert (S1 : forall (A B : list float) (n : nat) (vs : list float),
             length A = n -> (length vs <= length B)%nat ->
             store_lanes (A ++ B) n vs = A ++ vs ++ skipn (length vs) B)
    by (intros A B n vs <-; apply store_lanes_app).
  rewrite (S1 _ _ (b + 8)%nat Y L1) by (rewrite length_skipn; lia).
  rewrite HY, skipn_skipn.
  assert (E2 : (firstn b s ++ X) ++ Y ++ skipn (8 + (b + 8)) s
               = ((firstn b s ++ X) ++ Y) ++ skipn (b + 16) s).
  { rewrite <- !app_assoc.
    replace (8 + (b + 8))%nat with (b + 16)%nat by lia. reflexivity. }
  rewrite E2.
  assert (L2 : length ((firstn b s ++ X) ++ Y) = (b + 16)%nat)
    by (rewrite length_app, L1, HY; lia).
  rewrite (S1 _ _ (b + 16)%nat Z L2) by (rewrite length_skipn; lia).
  rewrite HZ, skipn_skipn. rewrite <- !app_assoc.
  replace (8 + (b + 16))%nat with (b + 24)%nat by lia. reflexivity.
Qed.

Lemma normalize_in_place_block (self : GameEngineFastRSqrt.t) (off start j : nat)
    (s : list float) :
  off = (start * 3)%nat -> (off + j * 3 + 3 <= length s)%nat ->
  GameEngineBuffer.normalize_in_place self (start + j * 1) s
  = firstn (off + j * 3) s ++ interleaved_triple self (skipn (off + j * 3) s)
    ++ skipn (off + j * 3 + 3) s.
Proof.
  intros Hoff H. unfold GameEngineBuffer.normalize_in_place, interleaved_triple.
  replace ((start + j * 1) * 3)%nat with (off + j * 3)%nat by lia.
  set (b := (off + j * 3)%nat) in *.
  rewrite !nth_skipn.
  replace (b + 0)%nat with b by lia.
  destruct (GameEngineFastRSqrt.normalize_vec3 self _) as [[v0 v1] v2].
  replace (b + 1)%nat with (S b) by lia. replace (b + 2)%nat with (S (S b)) by lia.
  change (store (store (store s b v0) (S b) v1) (S (S b)) v2)
    with (store_lanes s b [v0; v1; v2]).
  rewrite store_lanes_at by (cbn [length]; lia). reflexivity.
Qed.

Lemma vertex_buffer_blocks (self : GameEngineFastRSqrt.t) (v : list float)
    (count : nat) :
  (3 * count <= length v)%nat ->
  GameEngineBuffer.normalize_vertex_buffer_avx self v (Z.of_nat count)
  = blocks_out 24 planar_block (count / 8) v
    ++ blocks_out 3 (interleaved_triple self) (count mod 8)
         (skipn (count / 8 * 24) v)
    ++ skipn (3 * count) v.
Proof.
  intros Hlen.
  pose proof (Nat.div_mod_eq count 8) as Hdm.
  pose proof (Nat.mod_upper_bound count 8 ltac:(lia)) as Hmod.
  set (k := (count / 8)%nat) in *. set (r := (count mod 8)%nat) in *.
  unfold GameEngineBuffer.normalize_vertex_buffer_avx. cbv zeta.
  assert (Esc : Z.to_nat (Z.quot (Z.of_nat count) 8 * 8) = (0 + k * 8)%nat).
  { rewrite Z.quot_div_nonneg by lia.
    change 8%Z with (Z.of_nat 8). rewrite <- Nat2Z.inj_div, <- Nat2Z.inj_mul.
    rewrite Nat2Z.id. reflexivity. }
  rewrite Esc, Nat2Z.id.
  rewrite (block_loop 24 planar_block planar_block_length
             GameEngineBuffer.normalize_group 0 0 8 k v ltac:(lia) ltac:(lia));
    [| intros j s Hj Hs; apply normalize_group_block; lia | lia].
  cbn [firstn skipn app Nat.add].
  set (B := blocks_out 24 planar_block k v).
  assert (HB : length B = (k * 24)%nat)
    by (apply (blocks_out_length 24 planar_block planar_block_length); lia).
  unfold for_loop.
  replace count with (k * 8 + r * 1)%nat at 2 by lia.
  rewrite (block_loop 3 (interleaved_triple self) (interleaved_triple_length self)
             (GameEngineBuffer.normalize_in_place self) (k * 24) (k * 8) 1 r
             (B ++ skipn (k * 24) v) ltac:(lia));
    [| rewrite length_app, HB, length_skipn; lia
     | intros j s Hj Hs; apply normalize_in_place_block;
       [lia | rewrite Hs, length_app, HB, length_skipn; lia]
     | lia].
  rewrite firstn_app_exact by exact HB.
  assert (F1 : skipn (k * 24) (B ++ skipn (k * 24) v) = skipn (k * 24) v).
  { pose proof (skipn_app_exact B (skipn (k * 24) v) (k * 24) 0 HB) as E.
    rewrite Nat.add_0_r in E. exact E. }
  assert (F2 : skipn (k * 24 + r * 3) (B ++ skipn (k * 24) v) = skipn (3 * count) v).
  { rewrite (skipn_app_exact B (skipn (k * 24) v) (k * 24) (r * 3) HB).
    rewrite skipn_skipn. f_equal. lia. }
  rewrite F1, F2. reflexivity.
Qed.

Lemma fadd_comm (a b : float) : fadd a b = fadd b a.
Proof.
  destruct a as [[] | [] | | sa ma ea], b as [[] | [] | | sb mb eb]; try reflexivity.
  unfold fadd, SFadd. rewrite (Z.min_comm ea eb).
  rewrite (Z.add_comm (cond_Zopp sa _)). reflexivity.
Qed.

(** The floats of a full group after the call. *)
Lemma vertex_group_elements (self : GameEngineFastRSqrt.t) (v : list float)
    (count g j : nat) :
  (3 * count <= length v)%nat -> (g < count / 8)%nat -> (j < 8)%nat ->
  let out := GameEngineBuffer.normalize_vertex_buffer_avx self v (Z.of_nat count) in
  let x := nth (24 * g + j) v f0_0 in
  let y := nth (24 * g + 8 + j) v f0_0 in
  let z := nth (24 * g + 16 + j) v f0_0 in
  let inv :=
    GameEngineLanes.compute_avx_lane
      (fadd (fmul x x) (fadd (fmul y y) (fmul z z))) in
  nth (24 * g + j) out f0_0 = fmul x inv /\
  nth (24 * g + 8 + j) out f0_0 = fmul y inv /\
  nth (24 * g + 16 + j) out f0_0 = fmul z inv.
Proof.
  intros Hlen Hg Hj. cbv zeta. rewrite vertex_buffer_blocks by exact Hlen.
  pose proof (Nat.div_mod_eq count 8) as Hdm.
  pose proof (Nat.mod_upper_bound count 8 ltac:(lia)) as Hmod.
  set (k := (count / 8)%nat) in *. set (r := (count mod 8)%nat) in *.
  set (B := blocks_out 24 planar_block k v).
  set (T := blocks_out 3 (interleaved_triple self) r (skipn (k * 24) v)).
  set (x := nth (24 * g + j) v f0_0).
  set (y := nth (24 * g + 8 + j) v f0_0).
  set (z := nth (24 * g + 16 + j) v f0_0).
  set (inv := GameEngineLanes.compute_avx_lane
                (fadd (fmul x x) (fadd (fmul y y) (fmul z z)))).
  set (l := skipn (g * 24) v).
  assert (Hl : (24 <= length l)%nat) by (unfold l; rewrite length_skipn; lia).
  destruct (planar_lengths l Hl) as (Hx & Hy & Hz & Hi).
  assert (Hb : forall t, (t < 24)%nat ->
             nth (24 * g + t) (B ++ T ++ skipn (3 * count) v) f0_0
             = nth t (planar_block l) f0_0).
  { intros t Ht. replace (24 * g + t)%nat with (g * 24 + t)%nat by lia.
    apply (blocks_out_nth 24 planar_block planar_block_length f0_0 k); lia. }
  assert (Ex : nth j (firstn 8 l) f0_0 = x).
  { rewrite nth_firstn. destruct (Nat.ltb_spec j 8); [|lia].
    unfold l. rewrite nth_skipn. unfold x. f_equal. lia. }
  assert (Ey : nth j (firstn 8 (skipn 8 l)) f0_0 = y).
  { rewrite nth_firstn. destruct (Nat.ltb_spec j 8); [|lia].
    unfold l. rewrite !nth_skipn. unfold y. f_equal. lia. }
  assert (Ez : nth j (firstn 8 (skipn 16 l)) f0_0 = z).
  { rewrite nth_firstn. destruct (Nat.ltb_spec j 8); [|lia].
    unfold l. rewrite !nth_skipn. unfold z. f_equal. lia. }
  set (nsq := GameEngineBuffer.lanes2 fadd
                (GameEngineBuffer.lanes2 fmul (firstn 8 l) (firstn 8 l))
                (GameEngineBuffer.lanes2 fadd
                   (GameEngineBuffer.lanes2 fmul (firstn 8 (skipn 8 l))
                      (firstn 8 (skipn 8 l)))
                   (GameEngineBuffer.lanes2 fmul (firstn 8 (skipn 16 l))
                      (firstn 8 (skipn 16 l))))) in *.
  assert (Einv : nth j (GameEngineLanes.compute_avx nsq) f0_0 = inv).
  { unfold GameEngineLanes.compute_avx.
    assert (Hn : length nsq = 8%nat)
      by (unfold nsq; rewrite !lanes2_length, Hx, Hy, Hz; reflexivity).
    rewrite (nth_indep _ f0_0 (GameEngineLanes.compute_avx_lane f0_0))
      by (rewrite length_map; lia).
    rewrite map_nth. unfold inv. f_equal.
    unfold nsq.
    rewrite lanes2_nth by (rewrite ?lanes2_length, ?Hx, ?Hy, ?Hz; cbn; lia).
    rewrite (lanes2_nth fmul (firstn 8 l)) by lia.
    rewrite (lanes2_nth fadd) by (rewrite ?lanes2_length, ?Hy, ?Hz; cbn; lia).
    rewrite !lanes2_nth by lia.
    rewrite Ex, Ey, Ez. reflexivity. }
  assert (HX : length (GameEngineBuffer.lanes2 fmul (firstn 8 l)
                         (GameEngineLanes.compute_avx nsq)) = 8%nat)
    by (rewrite lanes2_length, Hx, Hi; reflexivity).
  assert (HY : length (GameEngineBuffer.lanes2 fmul (firstn 8 (skipn 8 l))
                         (GameEngineLanes.compute_avx nsq)) = 8%nat)
    by (rewrite lanes2_length, Hy, Hi; reflexivity).
  replace (24 * g + 8 + j)%nat with (24 * g + (8 + j))%nat by lia.
  replace (24 * g + 16 + j)%nat with (24 * g + (16 + j))%nat by lia.
  rewrite !Hb by lia.
  unfold planar_block. cbv zeta. fold nsq.
  split; [|split].
  + rewrite app_nth1 by lia.
    rewrite lanes2_nth by lia. rewrite Ex, Einv. reflexivity.
  + rewrite app_nth2 by lia. rewrite HX.
    replace (8 + j - 8)%nat with j by lia.
    rewrite app_nth1 by lia.
    rewrite lanes2_nth by lia. rewrite Ey, Einv. reflexivity.
  + rewrite app_nth2 by lia. rewrite HX.
    rewrite app_nth2 by lia. rewrite HY.
    replace (16 + j - 8 - 8)%nat with j by lia.
    rewrite lanes2_nth by lia. rewrite Ez, Einv. reflexivity.
Qed.

Lemma vertex_buffer_frame (self : GameEngineFastRSqrt.t) (v : list float)
    (count : nat) :
  (3 * count <= length v)%nat ->
  let out := GameEngineBuffer.normalize_vertex_buffer_avx self v (Z.of_nat count) in
  length out = length v /\
  (forall n, (3 * count <= n)%nat -> nth n out f0_0 = nth n v f0_0) /\
  (forall i, (8 * (count / 8) <= i < count)%nat ->
     (nth (3 * i) out f0_0, nth (3 * i + 1) out f0_0, nth (3 * i + 2) out f0_0)
     = GameEngineFastRSqrt.normalize_vec3 self
         (nth (3 * i) v f0_0, nth (3 * i + 1) v f0_0, nth (3 * i + 2) v f0_0)).
Proof.
  intros Hlen out. unfold out. rewrite vertex_buffer_blocks by exact Hlen.
  pose proof (Nat.div_mod_eq count 8) as Hdm.
  pose proof (Nat.mod_upper_bound count 8 ltac:(lia)) as Hmod.
  set (k := (count / 8)%nat) in *. set (r := (count mod 8)%nat) in *.
  set (B := blocks_out 24 planar_block k v).
  set (T := blocks_out 3 (interleaved_triple self) r (skipn (k * 24) v)).
  assert (HB : length B = (k * 24)%nat)
    by (apply (blocks_out_length 24 planar_block planar_block_length); lia).
  assert (HT : length T = (r * 3)%nat).
  { apply (blocks_out_length 3 (interleaved_triple self) (interleaved_triple_length self)).
    rewrite length_skipn. lia. }
  split; [rewrite !length_app, HB, HT, length_skipn; lia|].
  split.
  { intros n Hn. rewrite app_nth2 by lia. rewrite app_nth2 by lia.
    rewrite nth_skipn. f_equal. lia. }
  intros i Hi.
    assert (Ht : forall t, (t < 3)%nat ->
               nth (3 * i + t) (B ++ T ++ skipn (3 * count) v) f0_0
               = nth t (interleaved_triple self (skipn (3 * i) v)) f0_0).
    { intros t Ht. rewrite app_nth2 by lia. rewrite HB.
      replace (3 * i + t - k * 24)%nat with ((i - 8 * k) * 3 + t)%nat by lia.
      unfold T.
      rewrite (blocks_out_nth 3 (interleaved_triple self) (interleaved_triple_length self)
                 f0_0 r) by (try rewrite length_skipn; lia).
      rewrite skipn_skipn. do 3 f_equal. lia. }
    replace (3 * i)%nat with (3 * i + 0)%nat at 1 by lia.
    rewrite !Ht by lia.
    unfold interleaved_triple. rewrite !nth_skipn.
    replace (3 * i + 0)%nat with (3 * i)%nat by lia.
    destruct (GameEngineFastRSqrt.normalize_vec3 self _) as [[v0 v1] v2]. reflexivity.
Qed.

(** X21.  [normalize_vertex_buffer_avx] rewrites the first [3 * count] floats
    only and keeps the length of the buffer.  The vectors after the last
    full group of eight are the interleaved triples
    [(v[3i], v[3i+1], v[3i+2])], each normalized as [normalize_vec3]
    does.  A full group is read differently: of its 24 floats the first
    eight are taken as the x components of eight vectors, the next eight
    as their y and the last eight as their z components, the squared
    length is summed as [x*x + (y*y + z*z)], and each of the three floats
    is scaled by the [compute_avx] lane of that sum. *)
Theorem vertex_buffer_layout (self : GameEngineFastRSqrt.t) (v : list float)
    (count : nat) :
  (3 * count <= length v)%nat ->
  let out := GameEngineBuffer.normalize_vertex_buffer_avx self v (Z.of_nat count) in
  length out = length v /\
  (forall n, (3 * count <= n)%nat -> nth n out f0_0 = nth n v f0_0) /\
  (forall i, (8 * (count / 8) <= i < count)%nat ->
     (nth (3 * i) out f0_0, nth (3 * i + 1) out f0_0, nth (3 * i + 2) out f0_0)
     = GameEngineFastRSqrt.normalize_vec3 self
         (nth (3 * i) v f0_0, nth (3 * i + 1) v f0_0, nth (3 * i + 2) v f0_0)) /\
  (forall g j, (g < count / 8)%nat -> (j < 8)%nat ->
     let x := nth (24 * g + j) v f0_0 in
     let y := nth (24 * g + 8 + j) v f0_0 in
     let z := nth (24 * g + 16 + j) v f0_0 in
     let inv :=
       GameEngineLanes.compute_avx_lane
         (fadd (fmul x x) (fadd (fmul y y) (fmul z z))) in
     nth (24 * g + j) out f0_0 = fmul x inv /\
     nth (24 * g + 8 + j) out f0_0 = fmul y inv /\
     nth (24 * g + 16 + j) out f0_0 = fmul z inv).
Proof.
  intros Hlen out.
  destruct (vertex_buffer_frame self v count Hlen) as (HA & HB & HC).
  split; [exact HA|]. split; [exact HB|]. split; [exact HC|].
  intros g j Hg Hj.
  apply (vertex_group_elements self v count g j Hlen Hg Hj).
Qed.

Lemma vertex_buffer_layout_witness :
  length (GameEngineBuffer.normalize_vertex_buffer_avx
            (GameEngineFastRSqrt.new (repeat f0_0 16))
            [of_bits 0x40400000; f4_0; f0_0] (Z.of_nat 1))
  = length [of_bits 0x40400000; f4_0; f0_0].
Proof.
  apply (vertex_buffer_layout (GameEngineFastRSqrt.new (repeat f0_0 16))
           [of_bits 0x40400000; f4_0; f0_0] 1).
  cbn. lia.
Defined.

Local Open Scope R_scope.

(** A lane of [compute_avx] on an input of the kernel's range. *)
Lemma avx_lane_accurate (x : float) :
  in_domain x = true ->
  normal_pos (GameEngineLanes.compute_avx_lane x) /\
  rel_error (F2R (GameEngineLanes.compute_avx_lane x)) (F2R x) <= 62 / 10000000.
Proof.
  intros Hd.
  change (GameEngineLanes.compute_avx_lane x)
    with (lane_update f1_5 x (lane_update f1_5000036 x (approximate 0x5f375a86%Z x))).
  destruct (guess_in_domain 3627654%Z x Hd ltac:(lia)) as (HX & N0 & E0).
  destruct normal_f1_5 as [Hc Hcv]. destruct normal_f1_5000036 as [Hc' Hcv'].
  pose proof (lane_update_contracts f1_5000036 x (30 / 8388608) Hc' Hd
                ltac:(lra) ltac:(lra)) as C1.
  pose proof (lane_update_contracts f1_5 x 0 Hc Hd ltac:(lra) ltac:(lra)) as C2.
  destruct (two_updates x _ _ _ _ _ HX N0 E0 C1 C2 ltac:(lra) ltac:(lra))
    as (_ & _ & N2 & E2).
  rewrite magic_5f375a86. split; [exact N2 | exact E2].
Qed.

(** X22.  Read in the planar layout that [normalize_vertex_buffer_avx]
    gives a full group of eight vertices, every vector of the group whose
    squared length [x*x + (y*y + z*z)] is computed as a float from 1e-4 to
    1e4 comes out with a Euclidean length within 0.001 percent of 1. *)
Theorem vertex_group_unit_length (self : GameEngineFastRSqrt.t) (v : list float)
    (count g j : nat) :
  (3 * count <= length v)%nat -> (g < count / 8)%nat -> (j < 8)%nat ->
  let out := GameEngineBuffer.normalize_vertex_buffer_avx self v (Z.of_nat count) in
  let x := nth (24 * g + j)%nat v f0_0 in
  let y := nth (24 * g + 8 + j)%nat v f0_0 in
  let z := nth (24 * g + 16 + j)%nat v f0_0 in
  in_domain (fadd (fmul x x) (fadd (fmul y y) (fmul z z))) = true ->
  Rabs (euclidean_length
          (nth (24 * g + j)%nat out f0_0, nth (24 * g + 8 + j)%nat out f0_0,
           nth (24 * g + 16 + j)%nat out f0_0) - 1) <= 1 / 100000.
Proof.
  intros Hlen Hg Hj out x y z Hd.
  destruct (vertex_group_elements self v count g j Hlen Hg Hj) as (E0 & E1 & E2).
  unfold out. rewrite E0, E1, E2. fold x y z.
  destruct (in_domain_normal _ Hd) as [HS HSr].
  destruct (avx_lane_accurate _ Hd) as [Hy Hye].
  rewrite rel_error_alt in Hye by lra.
  generalize dependent (GameEngineLanes.compute_avx_lane
                          (fadd (fmul x x) (fadd (fmul y y) (fmul z z)))).
  rewrite (fadd_comm (fmul x x)) in HS, HSr.
  rewrite (fadd_comm (fmul x x)).
  intros inv Hy Hye. cbn [euclidean_length].
  replace (F2R (fmul x inv) * F2R (fmul x inv) + F2R (fmul y inv) * F2R (fmul y inv)
           + F2R (fmul z inv) * F2R (fmul z inv))
    with (F2R (fmul y inv) * F2R (fmul y inv) + F2R (fmul z inv) * F2R (fmul z inv)
          + F2R (fmul x inv) * F2R (fmul x inv)) by ring.
  apply scaled_length; assumption.
Qed.

Lemma vertex_group_unit_length_witness :
  let out := GameEngineBuffer.normalize_vertex_buffer_avx
               (GameEngineFastRSqrt.new (repeat f0_0 16%nat))
               (repeat f4_0 24%nat) (Z.of_nat 8%nat) in
  Rabs (euclidean_length (nth 0%nat out f0_0, nth 8%nat out f0_0, nth 16%nat out f0_0) - 1)
  <= 1 / 100000.
Proof.
  apply (vertex_group_unit_length (GameEngineFastRSqrt.new (repeat f0_0 16%nat))
           (repeat f4_0 24%nat) 8%nat 0%nat 0%nat).
  - cbn. lia.
  - cbn. lia.
  - lia.
  - vm_compute. reflexivity.
Defined.

Local Open Scope Z_scope.

(** * The four-lane kernel of FastRecipSqrt *)

Module FastRecipSqrtLanes.

(** One lane of [FastRecipSqrt::compute_simd]: no table, one update with
    [ITERATION_CONSTANT], the square of the estimate taken first. *)
Definition compute_simd_lane (x : float) : float :=
  let xi := to_bits x in
  let magic := FastRecipSqrt.MAGIC_CONSTANT in
  let xi := Z.shiftr xi 1 in
  let xi := wrap32 (magic - xi) in
  let y := of_bits xi in
  let half_x := fmul x f0_5 in
  let three_halfs := FastRecipSqrt.ITERATION_CONSTANT in
  let y_squared := fmul y y in
  let correction := fsub three_halfs (fmul half_x y_squared) in
  let y := fmul y correction in
  y.

Definition compute_simd (x : list float) : list float := map compute_simd_lane x.

End FastRecipSqrtLanes.


(** * The 16-lane transform of ultra_optimized_rsqrt.cpp *)

Module UltraAvx512.
Section Hardware.

(** The estimates [_mm_rsqrt_ss], [_mm256_rsqrt_ps] and
    [_mm512_rsqrt14_ps] (per lane). *)
Variable rsqrt_ss : float -> float.
Variable rsqrt_ps : float -> float.
Variable rsqrt14_ps : float -> float.

(** One lane of the loop body of [ultra_rsqrt_avx512]. *)
Definition avx512_lane (x : float) : float :=
let rsqrt := rsqrt14_ps x in
let x_half := fmul x f0_5 in
let tmp := ffnmadd (fmul x_half rsqrt) rsqrt f1_5 in
let rsqrt := fmul rsqrt tmp in
rsqrt.

(** [ultra_rsqrt_avx512]; the call of [ultra_rsqrt_avx2] on
    [&input[simd_count]] and [&output[simd_count]] works on the two
    arrays from that index on. *)
Definition ultra_rsqrt_avx512 (FMA : bool) (input output : list float)
  (count : nat) : list float :=
let simd_count := simd_count count 16 in
let output :=
  loop_lt simd_count 0 simd_count 16
    (fun i out => store_lanes out i (map avx512_lane (load_lanes input i 16)))
    output in
firstn simd_count output
++ Ultra.ultra_rsqrt_avx2 rsqrt_ss rsqrt_ps FMA
     (skipn simd_count input) (skipn simd_count output) (count - simd_count).

(** The kernel that computes the output at index [i] of [count]. *)
Definition kernel_at (FMA : bool) (count i : nat) (x : float) : float :=
if (i <? 16 * (count / 16))%nat then avx512_lane x
else if (i <? 16 * (count / 16) + 8 * (count mod 16 / 8))%nat
     then Ultra.avx2_lane rsqrt_ps FMA x
     else Ultra.ultra_rsqrt rsqrt_ss x.

End Hardware.
End UltraAvx512.

Local Open Scope R_scope.

Lemma normal_f1_5008908 :
  normal_pos f1_5008908 /\ F2R f1_5008908 = 3 / 2 + 7473 / 8388608.
Proof.
  split.
  - exists 12590385%positive, (-23)%Z. repeat split; cbv; congruence.
  - change f1_5008908 with (S754_finite false 12590385 (-23)). rewrite F2R_normal.
    change (-23)%Z with (Z.opp 23). rewrite bpow_opp, bpow_IZR by lia.
    change (IZR (2 ^ 23)) with 8388608. lra.
Qed.

(** One update with [ITERATION_CONSTANT] on the scaled guess
    [s = y sqrt x]: the excess of the constant over 1.5 moves the result
    up by about 0.09 percent, against the error of the guess, which
    moves it down by at most 0.2 percent. *)
Lemma biased_real_step (s c eta theta : R) :
  0 < s -> - (36 / 1000) <= s - 1 <= 36 / 1000 ->
  c = 3 / 2 + 7473 / 8388608 ->
  - (2 / 10000000) <= eta <= 2 / 10000000 ->
  - (15 / 100000000) <= theta <= 15 / 100000000 ->
  let s' := s * (c - s * s / 2 * (1 + eta)) * (1 + theta) in
  - (12 / 10000) <= s' - 1 <= 10 / 10000.
Proof.
  intros Hs He Hc Heta Hth s'.
  set (e := s - 1) in *.
  assert (He2 : 0 <= e * e <= 1296 / 1000000) by nra.
  set (T1 := e * e * ((s + 2) / 2)).
  assert (HT1 : 0 <= T1 <= 1296 / 1000000 * (1518 / 1000)).
  { unfold T1. pose proof (mul_bounds (e * e) ((s + 2) / 2) 0 (1296 / 1000000) 0 (1518 / 1000)
                             ltac:(lra) ltac:(lra) ltac:(lra) ltac:(unfold e in *; lra)).
    lra. }
  set (T2 := (c - 3 / 2) * s).
  assert (HT2 : 7473 / 8388608 * (964 / 1000) <= T2 <= 7473 / 8388608 * (1036 / 1000)).
  { unfold T2. rewrite Hc. unfold e in *.
    replace (3 / 2 + 7473 / 8388608 - 3 / 2) with (7473 / 8388608) by lra. lra. }
  assert (Hs3 : 0 <= s * s * s <= 1112 / 1000).
  { pose proof (cube_le s (1036 / 1000) ltac:(unfold e in *; lra)).
    assert (0 <= s * s * s) by (apply Rmult_le_pos; [apply Rmult_le_pos|]; lra).
    lra. }
  set (T3 := s * s * s * (eta / 2)).
  assert (HT3 : - (1112 / 10000000000) <= T3 <= 1112 / 10000000000).
  { unfold T3. set (p := s * s * s) in *. nra. }
  set (beta := - T1 + T2 - T3).
  assert (Hb : s * (c - s * s / 2 * (1 + eta)) = 1 + beta)
    by (unfold beta, T1, T2, T3, e; field).
  assert (Hs' : s' - 1 = beta + theta + beta * theta)
    by (unfold s'; rewrite Hb; ring).
  assert (Hbeta : - (1109 / 1000000) <= beta <= 924 / 1000000)
    by (unfold beta; lra).
  assert (Hbt : - (1 / 1000000000) <= beta * theta <= 1 / 1000000000).
  { assert (- (2 / 1000) <= beta <= 2 / 1000) by lra.
    clear - H Hth. nra. }
  rewrite Hs'. lra.
Qed.

(** X23.  Every lane of [FastRecipSqrt::compute_simd] whose input is a float
    from 1e-4 to 1e4 is within 0.12 percent of the exact reciprocal
    square root: the vector kernel does not use the table, and its one
    update with [ITERATION_CONSTANT] stays below the 0.2 percent of the
    update with 1.5. *)
Theorem recip_simd_accuracy (xs : list float) :
  Forall (fun x => in_domain x = true) xs ->
  Forall2 (fun x y => rel_error (F2R y) (F2R x) <= 12 / 10000)
    xs (FastRecipSqrtLanes.compute_simd xs).
Proof.
  intros H.
  induction H as [| x rest Hd Hrest IH]; constructor; [|exact IH].
  change (FastRecipSqrtLanes.compute_simd_lane x)
    with (lane_update f1_5008908 x (approximate 0x5f375a86%Z x)).
  rewrite magic_5f375a86.
  destruct (guess_in_domain 3627654%Z x Hd ltac:(lia)) as (HX & N0 & E0).
  destruct (in_domain_normal x Hd) as [Hx Hxr].
  destruct normal_f1_5008908 as [Hc Hcv].
  set (y := approximate (190 * 2 ^ 23 + 3627654) x) in *.
  pose proof (normal_pos_gt0 y N0) as HY.
  pose proof (basin_product _ _ HX HY E0) as Hw.
  destruct (lane_update_spec f1_5008908 x y Hc Hx N0 ltac:(lra) Hxr Hw)
    as (Hn & eta & theta & Heta & Hth & Ey).
  rewrite !rel_error_alt in * by exact HX.
  pose proof (sqrt_lt_R0 _ HX) as Hr.
  pose proof (sqrt_sqrt (F2R x) ltac:(lra)) as Hrr.
  set (r := sqrt (F2R x)) in *. set (s := F2R y * r) in *.
  assert (Hs : 0 < s) by (unfold s; apply Rmult_lt_0_compat; assumption).
  apply Rabs_le_inv in E0.
  assert (Hv : F2R x * F2R y * F2R y = s * s) by (unfold s; rewrite <- Hrr; ring).
  rewrite Ey, Hv.
  replace (F2R y * (F2R f1_5008908 - s * s / 2 * (1 + eta)) * (1 + theta) * r)
    with (s * (F2R f1_5008908 - s * s / 2 * (1 + eta)) * (1 + theta))
    by (unfold s; ring).
  pose proof (biased_real_step s (F2R f1_5008908) eta theta Hs E0 Hcv Heta Hth) as HQ.
  cbv zeta in HQ. apply Rabs_le. lra.
Qed.

Lemma recip_simd_accuracy_witness :
  Forall2 (fun x y => rel_error (F2R y) (F2R x) <= 12 / 10000)
    [f4_0; f0_25; f1_0; f4_0]
    (FastRecipSqrtLanes.compute_simd [f4_0; f0_25; f1_0; f4_0]).
Proof.
  apply (recip_simd_accuracy [f4_0; f0_25; f1_0; f4_0]).
  repeat constructor.
Defined.

(** ** The 16-lane transform *)

Lemma simd_count_16 (count : nat) :
  (Z.of_nat count < 2 ^ 64)%Z -> simd_count count 16 = (16 * (count / 16))%nat.
Proof.
  intros H. unfold simd_count.
  change (Z.lnot (16 - 1) mod 2 ^ 64)%Z with (Z.ldiff (Z.ones 64) (Z.ones 4)).
  assert (E : Z.land (Z.of_nat count) (Z.ldiff (Z.ones 64) (Z.ones 4))
              = Z.ldiff (Z.of_nat count) (Z.ones 4)).
  { rewrite !Z.ldiff_land, Z.land_assoc. f_equal.
    rewrite Z.land_ones by lia. apply Z.mod_small. lia. }
  rewrite E, Z.ldiff_ones_r by lia.
  rewrite Z.shiftr_div_pow2, Z.shiftl_mul_pow2 by lia.
  change (2 ^ 4)%Z with 16%Z.
  rewrite <- (Nat2Z.id (16 * (count / 16))). f_equal.
  rewrite Nat2Z.inj_mul, Nat2Z.inj_div. change (Z.of_nat 16) with 16%Z. lia.
Qed.

(** The vector loop over groups of 16. *)
Lemma simd_loop_map_16 (lane : float -> float) (input output : list float) (k : nat) :
  (16 * k <= length input)%nat -> (16 * k <= length output)%nat ->
  loop_lt (16 * k) 0 (16 * k) 16
    (fun i out => store_lanes out i (map lane (load_lanes input i 16))) output
  = map lane (firstn (16 * k) input) ++ skipn (16 * k) output.
Proof.
  intros Hin Hout.
  replace (16 * k)%nat with (0 + k * 16)%nat at 2 3 4 by lia.
  apply (loop_lt_groups
           (fun i out => (i <= 16 * k)%nat ->
                         out = map lane (firstn i input) ++ skipn i output));
    [lia | lia | reflexivity | | lia].
  intros j t Hj IH _. cbn [Nat.add] in *. rewrite IH by lia. clear IH.
  assert (Hl : length (map lane (firstn (j * 16) input)) = (j * 16)%nat)
    by (rewrite length_map, length_firstn; lia).
  assert (Hv : length (map lane (load_lanes input (j * 16) 16)) = 16%nat)
    by (unfold load_lanes; rewrite length_map, length_firstn, length_skipn; lia).
  assert (E : forall (vs A B : list float) (n : nat),
             length A = n -> (length vs <= length B)%nat ->
             store_lanes (A ++ B) n vs = A ++ vs ++ skipn (length vs) B)
    by (intros vs A B n <- Hle; apply store_lanes_app; exact Hle).
  rewrite E by (try rewrite Hv; try rewrite length_skipn; lia).
  rewrite Hv, skipn_skipn.
  replace (S j * 16)%nat with (j * 16 + 16)%nat by lia.
  rewrite firstn_plus, map_app, <- app_assoc.
  replace (16 + j * 16)%nat with (j * 16 + 16)%nat by lia.
  reflexivity.
Qed.

Lemma nth_map_firstn (f : float -> float) (l : list float) (n i : nat) (d : float) :
  (i < n)%nat -> (n <= length l)%nat ->
  nth i (map f (firstn n l)) d = f (nth i l d).
Proof.
  intros Hi Hn.
  rewrite (nth_indep _ d (f d)) by (rewrite length_map, length_firstn; lia).
  rewrite map_nth. f_equal. rewrite nth_firstn.
  destruct (Nat.ltb_spec i n); [reflexivity | lia].
Qed.

(** The output of [ultra_rsqrt_avx512], part by part. *)
Lemma avx512_expanded (rsqrt_ss rsqrt_ps rsqrt14_ps : float -> float) (FMA : bool)
    (input output : list float) (count : nat) :
  (count <= length input)%nat -> (count <= length output)%nat ->
  (Z.of_nat count < 2 ^ 64)%Z ->
  let s16 := (16 * (count / 16))%nat in
  let s8 := (8 * (count mod 16 / 8))%nat in
  UltraAvx512.ultra_rsqrt_avx512 rsqrt_ss rsqrt_ps rsqrt14_ps FMA input output count
  = map (UltraAvx512.avx512_lane rsqrt14_ps) (firstn s16 input)
    ++ map (Ultra.avx2_lane rsqrt_ps FMA) (firstn s8 (skipn s16 input))
    ++ map (Ultra.ultra_rsqrt rsqrt_ss)
         (firstn (count - s16 - s8) (skipn (s16 + s8) input))
    ++ skipn count output.
Proof.
  intros Hin Hout Hsize s16 s8.
  pose proof (Nat.div_mod_eq count 16) as Hdm.
  pose proof (Nat.mod_upper_bound count 16 ltac:(lia)) as Hmod.
  assert (Hrest : (count - s16 = count mod 16)%nat) by (unfold s16; lia).
  unfold UltraAvx512.ultra_rsqrt_avx512. rewrite simd_count_16 by exact Hsize.
  fold s16.
  pose proof (simd_loop_map_16 (UltraAvx512.avx512_lane rsqrt14_ps) input output
                (count / 16) ltac:(fold s16; lia) ltac:(fold s16; lia)) as EL.
  fold s16 in EL. rewrite !EL.
  assert (Hl : length (map (UltraAvx512.avx512_lane rsqrt14_ps) (firstn s16 input)) = s16)
    by (rewrite length_map, length_firstn; lia).
  rewrite firstn_app_exact by exact Hl.
  assert (Es : skipn s16 (map (UltraAvx512.avx512_lane rsqrt14_ps) (firstn s16 input)
                           ++ skipn s16 output)
               = skipn s16 output).
  { rewrite <- (Nat.add_0_r s16) at 1.
    rewrite skipn_app_exact by exact Hl. reflexivity. }
  rewrite Es.
  f_equal.
  unfold Ultra.ultra_rsqrt_avx2.
  rewrite simd_count_8 by lia.
  rewrite (batch_loops (Ultra.avx2_lane rsqrt_ps FMA) (Ultra.ultra_rsqrt rsqrt_ss)
             (skipn s16 input) (skipn s16 output) (count - s16) f0_0)
    by (rewrite length_skipn; lia).
  rewrite Hrest. fold s8. rewrite !skipn_skipn.
  replace (s8 + s16)%nat with (s16 + s8)%nat by lia.
  replace (count mod 16 + s16)%nat with count by lia.
  replace (count mod 16 - s8)%nat with (count - s16 - s8)%nat by lia.
  reflexivity.
Qed.

(** The output at one index. *)
Lemma avx512_element (rsqrt_ss rsqrt_ps rsqrt14_ps : float -> float) (FMA : bool)
    (input output : list float) (count i : nat) :
  (count <= length input)%nat -> (count <= length output)%nat ->
  (Z.of_nat count < 2 ^ 64)%Z -> (i < count)%nat ->
  nth i (UltraAvx512.ultra_rsqrt_avx512 rsqrt_ss rsqrt_ps rsqrt14_ps FMA
           input output count) f0_0
  = UltraAvx512.kernel_at rsqrt_ss rsqrt_ps rsqrt14_ps FMA count i (nth i input f0_0).
Proof.
  intros Hin Hout Hsize Hi.
  rewrite avx512_expanded by assumption.
  pose proof (Nat.div_mod_eq count 16) as Hdm.
  pose proof (Nat.mod_upper_bound count 16 ltac:(lia)) as Hmod.
  pose proof (Nat.div_mod_eq (count mod 16) 8) as Hdm8.
  unfold UltraAvx512.kernel_at.
  set (s16 := (16 * (count / 16))%nat) in *.
  set (s8 := (8 * (count mod 16 / 8))%nat) in *.
  assert (Hl1 : length (map (UltraAvx512.avx512_lane rsqrt14_ps) (firstn s16 input)) = s16)
    by (rewrite length_map, length_firstn; lia).
  assert (Hl2 : length (map (Ultra.avx2_lane rsqrt_ps FMA) (firstn s8 (skipn s16 input)))
                = s8)
    by (rewrite length_map, length_firstn, length_skipn; lia).
  destruct (Nat.ltb_spec i s16) as [H1 | H1].
  - rewrite app_nth1 by lia. apply nth_map_firstn; lia.
  - rewrite app_nth2 by lia. rewrite Hl1.
    destruct (Nat.ltb_spec i (s16 + s8)) as [H2 | H2].
    + rewrite app_nth1 by lia.
      rewrite nth_map_firstn by (rewrite ?length_skipn; lia).
      rewrite nth_skipn. do 2 f_equal. lia.
    + rewrite app_nth2 by lia. rewrite Hl2.
      rewrite app_nth1
        by (rewrite length_map, length_firstn, length_skipn; lia).
      rewrite nth_map_firstn by (rewrite ?length_skipn; lia).
      rewrite nth_skipn. do 2 f_equal. lia.
Qed.

(** X24.  [ultra_rsqrt_avx512] rewrites exactly the first [count] outputs and
    keeps the rest and the length of the array.  Output [i] is computed
    from input [i] alone: by a lane of the 16-wide loop in the full
    groups of 16, then by a lane of [ultra_rsqrt_avx2] if eight or more
    elements remain, and by the scalar [ultra_rsqrt] for the last
    [count mod 8]. *)
Theorem avx512_per_element (rsqrt_ss rsqrt_ps rsqrt14_ps : float -> float) (FMA : bool)
    (input output : list float) (count : nat) :
  (count <= length input)%nat -> (count <= length output)%nat ->
  (Z.of_nat count < 2 ^ 64)%Z ->
  let out :=
    UltraAvx512.ultra_rsqrt_avx512 rsqrt_ss rsqrt_ps rsqrt14_ps FMA input output count in
  length out = length output /\
  (forall j, (count <= j)%nat -> nth j out f0_0 = nth j output f0_0) /\
  (forall i, (i < count)%nat ->
     nth i out f0_0
     = UltraAvx512.kernel_at rsqrt_ss rsqrt_ps rsqrt14_ps FMA count i (nth i input f0_0)) /\
  (forall i, (count - count mod 8 <= i < count)%nat ->
     nth i out f0_0 = Ultra.ultra_rsqrt rsqrt_ss (nth i input f0_0)).
Proof.
  intros Hin Hout Hsize out.
  pose proof (Nat.div_mod_eq count 16) as Hdm.
  pose proof (Nat.mod_upper_bound count 16 ltac:(lia)) as Hmod.
  pose proof (Nat.div_mod_eq (count mod 16) 8) as Hdm8.
  pose proof (Nat.div_mod_eq count 8) as Hc8.
  assert (Hmm : ((count mod 16) mod 8 = count mod 8)%nat).
  { replace 16%nat with (8 * 2)%nat by reflexivity.
    rewrite Nat.Div0.mod_mul_r.
    rewrite Nat.mul_comm, Nat.Div0.mod_add. apply Nat.Div0.mod_mod. }
  assert (Hparts : length out = length output /\
                   forall j, (count <= j)%nat -> nth j out f0_0 = nth j output f0_0).
  { unfold out. rewrite avx512_expanded by assumption.
    set (s16 := (16 * (count / 16))%nat) in *.
    set (s8 := (8 * (count mod 16 / 8))%nat) in *.
    set (A := map (UltraAvx512.avx512_lane rsqrt14_ps) (firstn s16 input)).
    set (B := map (Ultra.avx2_lane rsqrt_ps FMA) (firstn s8 (skipn s16 input))).
    set (C := map (Ultra.ultra_rsqrt rsqrt_ss)
                (firstn (count - s16 - s8) (skipn (s16 + s8) input))).
    assert (HA : length A = s16) by (unfold A; rewrite length_map, length_firstn; lia).
    assert (HB : length B = s8)
      by (unfold B; rewrite length_map, length_firstn, length_skipn; lia).
    assert (HC : length C = (count - s16 - s8)%nat)
      by (unfold C; rewrite length_map, length_firstn, length_skipn; lia).
    split.
    - rewrite !length_app, HA, HB, HC, length_skipn. lia.
    - intros j Hj.
      rewrite app_nth2 by lia. rewrite HA.
      rewrite app_nth2 by lia. rewrite HB.
      rewrite app_nth2 by lia. rewrite HC.
      rewrite nth_skipn. f_equal. lia. }
  destruct Hparts as [HL HR].
  split; [exact HL|]. split; [exact HR|]. split.
  - intros i Hi. apply avx512_element; assumption.
  - intros i Hi. unfold out. rewrite avx512_element by (try assumption; lia).
    unfold UltraAvx512.kernel_at.
    destruct (Nat.ltb_spec i (16 * (count / 16))) as [H1 | H1]; [lia|].
    destruct (Nat.ltb_spec i (16 * (count / 16) + 8 * (count mod 16 / 8))) as [H2 | H2];
      [lia | reflexivity].
Qed.

Lemma avx512_per_element_witness :
  length (UltraAvx512.ultra_rsqrt_avx512 std_rsqrt std_rsqrt std_rsqrt true
            (repeat f4_0 25) (repeat f0_0 26) 25)
  = length (repeat f0_0 26).
Proof.
  apply (avx512_per_element std_rsqrt std_rsqrt std_rsqrt true
           (repeat f4_0 25) (repeat f0_0 26) 25).
  - cbn. lia.
  - cbn. lia.
  - reflexivity.
Defined.

(** X25.  Every output that [ultra_rsqrt_avx512] writes for an input from
    1e-4 to 1e4 is within 5e-7 of the exact reciprocal square root,
    whichever of the three kernels its index falls to, when the three
    hardware estimates of that input are normal numbers within
    1.5 * 2^-12. *)
Theorem avx512_accuracy (rsqrt_ss rsqrt_ps rsqrt14_ps : float -> float) (FMA : bool)
    (input output : list float) (count i : nat) :
  (count <= length input)%nat -> (count <= length output)%nat ->
  (Z.of_nat count < 2 ^ 64)%Z -> (i < count)%nat ->
  in_domain (nth i input f0_0) = true ->
  estimates rsqrt_ss (nth i input f0_0) ->
  estimates rsqrt_ps (nth i input f0_0) ->
  estimates rsqrt14_ps (nth i input f0_0) ->
  rel_error
    (F2R (nth i (UltraAvx512.ultra_rsqrt_avx512 rsqrt_ss rsqrt_ps rsqrt14_ps FMA
                   input output count) f0_0))
    (F2R (nth i input f0_0)) <= 5 / 10000000.
Proof.
  intros Hin Hout Hsize Hi Hd Hs Hp H14.
  rewrite avx512_element by assumption.
  unfold UltraAvx512.kernel_at.
  destruct (i <? 16 * (count / 16))%nat.
  - change (UltraAvx512.avx512_lane rsqrt14_ps (nth i input f0_0))
      with (Ultra.avx2_lane rsqrt14_ps true (nth i input f0_0)).
    apply (avx2_lane_on_estimate rsqrt14_ps true _ Hd H14).
  - destruct (i <? 16 * (count / 16) + 8 * (count mod 16 / 8))%nat.
    + apply (avx2_lane_on_estimate rsqrt_ps FMA _ Hd Hp).
    + apply (ultra_rsqrt_on_estimate rsqrt_ss _ Hd Hs).
Qed.

Lemma avx512_accuracy_witness :
  rel_error
    (F2R (nth 0 (UltraAvx512.ultra_rsqrt_avx512
                   (fun _ => f0_5) (fun _ => f0_5) (fun _ => f0_5) true
                   [f4_0] [f0_0] 1) f0_0))
    (F2R (nth 0 [f4_0] f0_0)) <= 5 / 10000000.
Proof.
  apply (avx512_accuracy (fun _ => f0_5) (fun _ => f0_5) (fun _ => f0_5) true
           [f4_0] [f0_0] 1 0).
  - cbn. lia.
  - cbn. lia.
  - reflexivity.
  - lia.
  - reflexivity.
  - exact half_estimates_four.
  - exact half_estimates_four.
  - exact half_estimates_four.
Defined.

Local Open Scope Z_scope.

(** * Division, and [fast_distance] *)

(** The squared distance that [fast_distance] computes. *)
Definition distance_squared (a b : GameEngine.Vec3) : float :=
  let dx := fsub (GameEngine.x a) (GameEngine.x b) in
  let dy := fsub (GameEngine.y a) (GameEngine.y b) in
  let dz := fsub (GameEngine.z a) (GameEngine.z b) in
  fadd (fadd (fmul dx dx) (fmul dy dy)) (fmul dz dz).

(** ** The location of a quotient *)

(** The quotient [q] with remainder [r] by [m2], as a shift record. *)
Lemma new_location_inv (m2 q r : Z) :
  0 < m2 -> 0 <= q -> 0 <= r < m2 ->
  shr_inv (2 * (q * m2 + r)) m2 (shr_record_of_loc q (new_location m2 r)).
Proof.
  intros Hm Hq Hr.
  assert (Hloc : new_location m2 r
                 = if r =? 0 then loc_Exact else loc_Inexact (2 * r ?= m2)).
  { unfold new_location, new_location_even, new_location_odd.
    destruct (Z.even m2) eqn:Ev; cbv beta; [reflexivity|].
    destruct (r =? 0); [reflexivity|].
    f_equal.
    destruct (Z.compare_spec (2 * r + 1) m2) as [H | H | H];
      destruct (Z.compare_spec (2 * r) m2) as [H' | H' | H'];
      try reflexivity; try lia.
    subst m2. rewrite Z.even_mul in Ev. discriminate. }
  rewrite Hloc. unfold shr_inv.
  destruct (Z.eqb_spec r 0) as [E | E].
  - cbn [shr_record_of_loc shr_m shr_r shr_s b2z].
    split; [exact Hq|]. exists 0. subst r. repeat split; lia.
  - destruct (Z.compare_spec (2 * r) m2) as [H | H | H];
      cbn [shr_record_of_loc shr_m shr_r shr_s b2z]; (split; [exact Hq|]).
    + exists 0. repeat split; try lia.
    + exists (2 * r). repeat split; try lia; intros; discriminate.
    + exists (2 * r - m2). repeat split; try lia; intros; discriminate.
Qed.

(** [binary_round_aux] on a quotient of [24 + n] digits with its
    location, away from underflow and overflow. *)
Lemma div_round_spec (s : bool) (Q : positive) (r m2 E n : Z) :
  0 < m2 -> 0 <= r < m2 -> 0 <= n ->
  2 ^ (23 + n) <= Zpos Q < 2 ^ (24 + n) ->
  -149 <= E + n -> E + n + 1 <= 104 ->
  exists (m' : positive) (e' : Z),
    binary_round_aux prec emax s (Zpos Q) E (new_location m2 r) = S754_finite s m' e' /\
    2 ^ 23 <= Zpos m' < 2 ^ 24 /\
    E + n <= e' <= E + n + 1 /\
    - (2 ^ n * m2) <= 2 * m2 * (Zpos m' * 2 ^ (e' - E)) - 2 * (Zpos Q * m2 + r)
    <= 2 ^ n * m2.
Proof.
  intros Hm2 Hr Hn HQ He1 He2.
  assert (Hd : Zpos (digits2_pos Q) = 24 + n)
    by (apply digits2_pos_unique; replace (24 + n - 1) with (23 + n) by lia; exact HQ).
  rewrite !Z.pow_add_r in HQ by lia.
  assert (H2n : 0 < 2 ^ n) by (apply Z.pow_pos_nonneg; lia).
  set (P := 2 ^ n * m2).
  assert (HP : 0 < P) by (unfold P; apply Z.mul_pos_pos; lia).
  set (N := 2 * (Zpos Q * m2 + r)).
  pose proof (new_location_inv m2 (Zpos Q) r Hm2 ltac:(lia) Hr) as Hinv0.
  fold N in Hinv0.
  unfold binary_round_aux.
  assert (Hshift :
            exists mrs, shr_fexp prec emax (Zpos Q) E (new_location m2 r) = (mrs, E + n) /\
                        shr_inv N P mrs).
  { unfold shr_fexp. cbn [Zdigits2]. rewrite Hd, fexp_normal by lia.
    replace (24 + n + E - 24 - E) with n by lia.
    destruct n as [| p | p]; [| | lia].
    - eexists. split; [unfold shr; rewrite Z.add_0_r; reflexivity|].
      unfold P. change (2 ^ 0) with 1. rewrite Z.mul_1_l. exact Hinv0.
    - eexists. split; [unfold shr; reflexivity|].
      rewrite iter_pos_nat. unfold P.
      replace (2 ^ Zpos p) with (2 ^ Z.of_nat (Pos.to_nat p))
        by (rewrite positive_nat_Z; reflexivity).
      apply shr_iter_inv; [exact Hm2 | exact Hinv0]. }
  destruct Hshift as (mrs & Hshr & Hinv). rewrite Hshr.
  pose proof (round_nearest_even_inv _ _ mrs HP Hinv) as [Hmr Herr].
  set (mr := round_nearest_even (shr_m mrs) (loc_of_shr_record mrs)) in *.
  assert (Hm1 : 2 ^ 23 <= shr_m mrs < 2 ^ 24).
  { destruct Hinv as (Hm & rho & HN & Hrho & _).
    assert (Hb : 0 <= b2z (shr_r mrs) <= 1) by (destruct (shr_r mrs); cbn; lia).
    set (m := shr_m mrs) in *. set (b := b2z (shr_r mrs)) in *.
    assert (HN1 : P * (2 * m) <= N) by nia.
    assert (HN2 : N < P * (2 * m + 2)) by nia.
    assert (HN3 : 2 * (Zpos Q * m2) <= N) by (unfold N; lia).
    assert (HN4 : N < 2 * ((Zpos Q + 1) * m2)) by (unfold N; nia).
    change (2 ^ 23) with 8388608 in *. change (2 ^ 24) with 16777216 in *.
    split.
    - destruct (Z_lt_le_dec m 8388608) as [Hlt | Hge]; [|exact Hge].
      exfalso.
      assert (H1 : 2 ^ n * (m + 1) <= 2 ^ n * 8388608)
        by (apply Z.mul_le_mono_nonneg_l; lia).
      assert (H2 : 2 ^ n * (m + 1) * m2 <= Zpos Q * m2)
        by (apply Z.mul_le_mono_nonneg_r; lia).
      unfold P in HN2. nia.
    - destruct (Z_lt_le_dec m 16777216) as [Hlt | Hge]; [exact Hlt|].
      exfalso.
      assert (H1 : 2 ^ n * 16777216 <= 2 ^ n * m)
        by (apply Z.mul_le_mono_nonneg_l; lia).
      assert (H2 : (Zpos Q + 1) * m2 <= 2 ^ n * m * m2)
        by (apply Z.mul_le_mono_nonneg_r; lia).
      unfold P in HN1. nia. }
  assert (Hmr' : 2 ^ 23 <= mr <= 2 ^ 24) by lia.
  clearbody mr.
  destruct mr as [| q | q]; try (change (2 ^ 23) with 8388608 in *; lia).
  rewrite shr_fexp_carry by lia.
  destruct (Z.ltb_spec (Zpos q) (2 ^ 24)) as [Hlt | Hge]; cbn [shr_m].
  - destruct (Z.leb_spec (E + n) (emax - prec)) as [_ | Hov];
      [| unfold emax, prec in Hov; lia].
    exists q, (E + n). split; [reflexivity|]. split; [lia|]. split; [lia|].
    replace (E + n - E) with n by lia.
    replace (2 * m2 * (Zpos q * 2 ^ n)) with (2 * P * Zpos q) by (unfold P; ring).
    fold N. fold P. exact Herr.
  - change (2 ^ 23) with 8388608 at 1.
    destruct (Z.leb_spec (E + n + 1) (emax - prec)) as [_ | Hov];
      [| unfold emax, prec in Hov; lia].
    exists 8388608%positive, (E + n + 1). split; [reflexivity|].
    split; [change (2 ^ 23) with 8388608; change (2 ^ 24) with 16777216; lia|].
    split; [lia|].
    replace (E + n + 1 - E) with (n + 1) by lia.
    rewrite Z.pow_add_r by lia. change (2 ^ 1) with 2.
    assert (Hq : Zpos q = 16777216) by (change (2 ^ 24) with 16777216 in *; lia).
    replace (2 * m2 * (8388608 * (2 ^ n * 2))) with (2 * P * Zpos q)
      by (rewrite Hq; unfold P; ring).
    fold N. fold P. exact Herr.
Qed.

Local Open Scope R_scope.

(** The rounded quotient is a normal float within half a unit in the
    last place of the exact one. *)
Lemma div_round_real (Q : positive) (r m2 E n : Z) :
  (0 < m2)%Z -> (0 <= r < m2)%Z -> (0 <= n)%Z ->
  (2 ^ (23 + n) <= Zpos Q < 2 ^ (24 + n))%Z ->
  (-149 <= E + n)%Z -> (E + n + 1 <= 104)%Z ->
  let V := IZR (Zpos Q * m2 + r) / IZR m2 in
  exists f,
    binary_round_aux prec emax false (Zpos Q) E (new_location m2 r) = f /\
    normal_pos f /\
    Rabs (F2R f - V * bpow E) <= V * bpow E * bpow (-24).
Proof.
  intros Hm2 Hr Hn HQ He1 He2 V.
  destruct (div_round_spec false Q r m2 E n Hm2 Hr Hn HQ He1 He2)
    as (m' & e' & Hres & Hm' & He' & Herr).
  exists (S754_finite false m' e'). split; [exact Hres|].
  split; [exists m', e'; repeat split; lia|].
  rewrite Z.pow_add_r in HQ by lia.
  assert (H2n : (0 < 2 ^ n)%Z) by (apply Z.pow_pos_nonneg; lia).
  cbn [F2R]. rewrite Rmult_1_l.
  replace e' with ((e' - E) + E)%Z at 1 by lia.
  rewrite bpow_add, (bpow_IZR (e' - E)) by lia.
  set (k := (e' - E)%Z) in *.
  pose proof (bpow_pos E) as HE.
  assert (Hm2R : 0 < IZR m2) by (apply IZR_lt; exact Hm2).
  replace (IZR (Zpos m') * (IZR (2 ^ k) * bpow E) - V * bpow E)
    with ((IZR (Zpos m') * IZR (2 ^ k) - V) * bpow E) by ring.
  rewrite Rabs_mult, (Rabs_pos_eq (bpow E)) by lra.
  rewrite (Rmult_comm _ (bpow E)), (Rmult_comm V (bpow E)), Rmult_assoc.
  apply Rmult_le_compat_l; [lra|].
  replace (bpow (-24)) with (/ 16777216).
  2:{ change (-24)%Z with (Z.opp 24). rewrite bpow_opp, bpow_IZR by lia. reflexivity. }
  assert (H1 : IZR (2 ^ 23 * 2 ^ n * m2) <= IZR (Zpos Q * m2 + r)).
  { apply IZR_le.
    assert ((2 ^ 23 * 2 ^ n * m2 <= Zpos Q * m2)%Z)
      by (apply Z.mul_le_mono_nonneg_r; lia).
    lia. }
  assert (H2 : IZR (- (2 ^ n * m2))
               <= IZR (2 * m2 * (Zpos m' * 2 ^ k) - 2 * (Zpos Q * m2 + r)))
    by (apply IZR_le; lia).
  assert (H3 : IZR (2 * m2 * (Zpos m' * 2 ^ k) - 2 * (Zpos Q * m2 + r))
               <= IZR (2 ^ n * m2))
    by (apply IZR_le; lia).
  rewrite !mult_IZR in H1. rewrite opp_IZR, mult_IZR in H2.
  rewrite !minus_IZR, !mult_IZR in H2. rewrite !minus_IZR, !mult_IZR in H3.
  change (IZR (2 ^ 23)) with 8388608 in H1. change (IZR 2) with 2 in *.
  set (W := IZR (Zpos Q * m2 + r)) in *.
  set (a := IZR (Zpos m') * IZR (2 ^ k)) in *.
  set (c := IZR (2 ^ n)) in *. set (M2 := IZR m2) in *.
  assert (HV : V * M2 = W) by (unfold V; field; lra).
  assert (Hc : 0 < c) by (apply IZR_lt; exact H2n).
  assert (HcM : 0 < c * M2) by (apply Rmult_lt_0_compat; assumption).
  assert (HVc : 8388608 * c <= V).
  { apply Rmult_le_reg_r with M2; [exact Hm2R|]. rewrite HV. lra. }
  assert (Hd1 : - (c / 2) <= a - V).
  { apply Rmult_le_reg_r with (2 * M2); [lra|].
    replace ((a - V) * (2 * M2)) with (2 * M2 * a - 2 * (V * M2)) by ring.
    rewrite HV. lra. }
  assert (Hd2 : a - V <= c / 2).
  { apply Rmult_le_reg_r with (2 * M2); [lra|].
    replace ((a - V) * (2 * M2)) with (2 * M2 * a - 2 * (V * M2)) by ring.
    rewrite HV. lra. }
  apply Rabs_le. lra.
Qed.

(** The quotient of two normal floats whose exact quotient is far from
    underflow and overflow. *)
Lemma fdiv_spec (a b : float) :
  normal_pos a -> normal_pos b ->
  bpow (-100) <= F2R a / F2R b <= bpow 100 ->
  normal_pos (fdiv a b) /\
  Rabs (F2R (fdiv a b) - F2R a / F2R b) <= F2R a / F2R b * bpow (-24).
Proof.
  intros (ma & ea & -> & Hma & Hea) (mb & eb & -> & Hmb & Heb) [Hlo Hhi].
  rewrite !F2R_normal in *.
  pose proof (normal_value ma ea Hma) as [Va1 Va2].
  pose proof (normal_value mb eb Hmb) as [Vb1 Vb2].
  pose proof (bpow_pos (ea + 23)) as Pa. pose proof (bpow_pos (eb + 23)) as Pb.
  set (A := IZR (Zpos ma) * bpow ea) in *. set (B := IZR (Zpos mb) * bpow eb) in *.
  assert (HB : 0 < B) by lra. assert (HA : 0 < A) by lra.
  assert (HAB : A = A / B * B) by (field; lra).
  assert (HE1 : (-102 < ea - eb)%Z).
  { assert (bpow (-100 + (eb + 23)) < bpow (ea + 24)).
    { rewrite bpow_add. pose proof (bpow_pos (-100)).
      assert (bpow (-100) * bpow (eb + 23) <= A / B * B) by (apply Rmult_le_compat; lra).
      lra. }
    apply bpow_lt_inv in H. lia. }
  assert (HE2 : (ea - eb < 102)%Z).
  { assert (bpow (ea + 23) < bpow (100 + (eb + 24))).
    { rewrite (bpow_add 100). pose proof (bpow_pos 100).
      assert (A / B * B < bpow 100 * bpow (eb + 24)).
      { apply Rle_lt_trans with (bpow 100 * B).
        - apply Rmult_le_compat_r; lra.
        - apply Rmult_lt_compat_l; lra. }
      lra. }
    apply bpow_lt_inv in H. lia. }
  unfold fdiv, SFdiv, SFdiv_core_binary. cbn [Zdigits2 xorb].
  rewrite (digits2_pos_unique ma 24), (digits2_pos_unique mb 24)
    by (change (24 - 1)%Z with 23%Z; lia).
  rewrite fexp_normal by lia.
  replace (24 + ea - (24 + eb) - 24)%Z with (ea - eb - 24)%Z by lia.
  rewrite Z.min_l by lia.
  replace (ea - eb - (ea - eb - 24))%Z with 24%Z by lia.
  rewrite Z.shiftl_mul_pow2 by lia.
  pose proof (Z_div_mod (Zpos ma * 2 ^ 24) (Zpos mb) ltac:(lia)) as Hdiv.
  destruct (Z.div_eucl (Zpos ma * 2 ^ 24) (Zpos mb)) as [q r].
  destruct Hdiv as [Hqr Hr].
  assert (Hq : (2 ^ 23 <= q < 2 ^ 25)%Z).
  { change (2 ^ 23)%Z with 8388608%Z in *. change (2 ^ 24)%Z with 16777216%Z in *.
    change (2 ^ 25)%Z with 33554432%Z. split; nia. }
  destruct q as [| Q | Q]; try (change (2 ^ 23)%Z with 8388608%Z in Hq; lia).
  set (n := if (Zpos Q <? 2 ^ 24)%Z then 0%Z else 1%Z).
  assert (Hn : (0 <= n <= 1)%Z) by (unfold n; destruct (Zpos Q <? 2 ^ 24)%Z; lia).
  assert (HQ : (2 ^ (23 + n) <= Zpos Q < 2 ^ (24 + n))%Z).
  { unfold n. destruct (Z.ltb_spec (Zpos Q) (2 ^ 24)).
    - change (23 + 0)%Z with 23%Z. change (24 + 0)%Z with 24%Z. lia.
    - change (23 + 1)%Z with 24%Z. change (24 + 1)%Z with 25%Z. lia. }
  destruct (div_round_real Q r (Zpos mb) (ea - eb - 24) n) as (f & Hf & Hnf & Herr);
    [lia | exact Hr | lia | exact HQ | lia | lia |].
  rewrite Hf. split; [exact Hnf|].
  cbv zeta in Herr.
  replace (IZR (Zpos Q * Zpos mb + r) / IZR (Zpos mb) * bpow (ea - eb - 24))
    with (A / B) in Herr; [exact Herr|].
  replace (Zpos Q * Zpos mb + r)%Z with (Zpos ma * 2 ^ 24)%Z by lia.
  rewrite mult_IZR. unfold A, B.
  replace (ea - eb - 24)%Z with (ea + (- eb + -24))%Z by lia.
  rewrite !bpow_add, bpow_opp.
  change (IZR (2 ^ 24)) with 16777216.
  replace (bpow (-24)) with (/ 16777216).
  2:{ change (-24)%Z with (Z.opp 24). rewrite bpow_opp, bpow_IZR by lia. reflexivity. }
  pose proof (bpow_pos eb). pose proof (bpow_pos ea).
  assert (0 < IZR (Zpos mb)) by (apply IZR_lt; lia).
  field. split; lra.
Qed.

Lemma fdiv_rel (a b : float) :
  normal_pos a -> normal_pos b ->
  / 1073741824 <= F2R a / F2R b <= 1073741824 ->
  normal_pos (fdiv a b) /\
  exists d, - u <= d <= u /\ F2R (fdiv a b) = F2R a / F2R b * (1 + d).
Proof.
  intros Ha Hb Hr.
  pose proof bpow_m100. pose proof bpow_100.
  destruct (fdiv_spec a b Ha Hb ltac:(lra)) as [Hn He].
  split; [exact Hn|]. apply relative_error; [lra | exact He].
Qed.

Lemma normal_f1_0 : normal_pos f1_0 /\ F2R f1_0 = 1.
Proof.
  split.
  - exists 8388608%positive, (-23)%Z. repeat split; cbv; congruence.
  - change f1_0 with (S754_finite false 8388608 (-23)). rewrite F2R_normal.
    change (-23)%Z with (Z.opp 23). rewrite bpow_opp, bpow_IZR by lia.
    change (IZR (2 ^ 23)) with 8388608. field.
Qed.

(** ** [fast_distance] *)

Lemma fast_distance_unfold (rsqrt_ss : float -> float) (a b : GameEngine.Vec3) :
  GameEngine.fast_distance rsqrt_ss a b
  = fdiv f1_0 (Ultra.ultra_rsqrt rsqrt_ss (distance_squared a b)).
Proof. reflexivity. Qed.

(** The reciprocal of an accurate reciprocal square root. *)
Lemma reciprocal_of_rsqrt (y : float) (X : R) :
  / 16384 <= X <= 16384 -> normal_pos y ->
  rel_error (F2R y) X <= 5 / 10000000 ->
  Rabs (F2R (fdiv f1_0 y) - sqrt X) <= sqrt X / 1000000.
Proof.
  intros HX Hy He.
  assert (HX0 : 0 < X) by lra.
  rewrite rel_error_alt in He by exact HX0.
  apply Rabs_le_inv in He.
  pose proof (sqrt_lt_R0 _ HX0) as Hr.
  pose proof (sqrt_sqrt X ltac:(lra)) as Hrr.
  pose proof (normal_pos_gt0 y Hy) as HY.
  destruct normal_f1_0 as [H1 H1v].
  set (r := sqrt X) in *. set (Y := F2R y) in *.
  assert (Hr1 : / 128 <= r).
  { destruct (Rle_lt_dec (/ 128) r) as [H | H]; [exact H|].
    assert (r * r < / 128 * / 128) by nra. lra. }
  assert (Hr2 : r <= 128).
  { destruct (Rle_lt_dec r 128) as [H | H]; [exact H|].
    assert (128 * 128 < r * r) by nra. lra. }
  set (t := Y * r) in *.
  assert (Ht : 0 < t) by lra.
  assert (Hq : 1 / Y = r / t) by (unfold t; field; lra).
  assert (Hq1 : r / t <= 129).
  { apply Rmult_le_reg_r with t; [exact Ht|].
    replace (r / t * t) with r by (field; lra). nra. }
  assert (Hq2 : / 129 <= r / t).
  { apply Rmult_le_reg_r with t; [exact Ht|].
    replace (r / t * t) with r by (field; lra). nra. }
  destruct (fdiv_rel f1_0 y H1 Hy) as (_ & d & Hd & Ed).
  { rewrite H1v. fold Y. rewrite Hq. lra. }
  rewrite Ed, H1v. fold Y. rewrite Hq. unfold u in Hd.
  set (q := (1 + d) / t).
  assert (Eq : r / t * (1 + d) - r = r * (q - 1)) by (unfold q; field; lra).
  assert (Hqt : q * t = 1 + d) by (unfold q; field; lra).
  assert (Hqb : - (1 / 1000000) <= q - 1 <= 1 / 1000000).
  { split.
    - apply Rmult_le_reg_r with t; [exact Ht|].
      replace ((q - 1) * t) with (q * t - t) by ring. rewrite Hqt. lra.
    - apply Rmult_le_reg_r with t; [exact Ht|].
      replace ((q - 1) * t) with (q * t - t) by ring. rewrite Hqt. lra. }
  rewrite Eq. apply Rabs_le.
  split.
  - replace (- (r / 1000000)) with (r * - (1 / 1000000)) by field.
    apply Rmult_le_compat_l; lra.
  - replace (r / 1000000) with (r * (1 / 1000000)) by field.
    apply Rmult_le_compat_l; lra.
Qed.

(** X26.  [fast_distance] returns the square root of the squared distance
    it computes to within one part in a million, when that squared
    distance is a float from 1e-4 to 1e4 on which the hardware estimate
    is a normal number within 1.5 * 2^-12. *)
Theorem fast_distance_accuracy (rsqrt_ss : float -> float) (a b : GameEngine.Vec3) :
  in_domain (distance_squared a b) = true ->
  estimates rsqrt_ss (distance_squared a b) ->
  Rabs (F2R (GameEngine.fast_distance rsqrt_ss a b)
        - sqrt (F2R (distance_squared a b)))
  <= sqrt (F2R (distance_squared a b)) / 1000000.
Proof.
  intros Hd Hs. rewrite fast_distance_unfold.
  destruct (in_domain_normal _ Hd) as [_ Hr].
  destruct (ultra_rsqrt_on_estimate rsqrt_ss _ Hd Hs) as [N E].
  apply reciprocal_of_rsqrt; assumption.
Qed.

Lemma fast_distance_accuracy_witness :
  let a := {| GameEngine.x := f4_0; GameEngine.y := f1_5; GameEngine.z := f0_5 |} in
  let b := {| GameEngine.x := f4_0; GameEngine.y := f1_5; GameEngine.z := f1_5 |} in
  Rabs (F2R (GameEngine.fast_distance (fun _ => f1_0) a b)
        - sqrt (F2R (distance_squared a b)))
  <= sqrt (F2R (distance_squared a b)) / 1000000.
Proof.
  intros a b.
  apply (fast_distance_accuracy (fun _ => f1_0) a b).
  - reflexivity.
  - destruct normal_f1_0 as [Hn Hv]. split; [exact Hn|].
    rewrite Hv.
    assert (E : distance_squared a b = f1_0) by (vm_compute; reflexivity).
    rewrite E, Hv. rewrite rel_error_alt by lra.
    rewrite sqrt_1. replace (1 * 1 - 1) with 0 by lra. rewrite Rabs_R0. lra.
Defined.

(** ** Symmetry *)

Lemma binary_normalize_opp (m e : Z) :
  binary_normalize prec emax (- m) e false
  = fopp (binary_normalize prec emax m e false)
  \/ binary_normalize prec emax (- m) e false = binary_normalize prec emax m e false.
Proof.
  destruct m as [| p | p]; cbn [Z.opp binary_normalize].
  - right. reflexivity.
  - left. unfold binary_round.
    destruct (shl_align p e _) as [mz ez].
    apply (binary_round_aux_opp false).
  - left. unfold binary_round.
    destruct (shl_align p e _) as [mz ez].
    rewrite (binary_round_aux_opp false). symmetry. apply fopp_involutive.
Qed.

(** Swapping the operands of a subtraction negates the result, or
    leaves it when it is a zero or a NaN. *)
Lemma fsub_swap (p q : float) :
  fsub q p = fopp (fsub p q) \/ fsub q p = fsub p q.
Proof.
  destruct p as [sp | sp | | sp mp ep], q as [sq | sq | | sq mq eq];
    try (destruct sp, sq; first [left; reflexivity | right; reflexivity]);
    try (destruct sp; first [left; reflexivity | right; reflexivity]);
    try (destruct sq; first [left; reflexivity | right; reflexivity]);
    try (right; reflexivity).
  unfold fsub, SFsub. rewrite (Z.min_comm eq ep).
  set (ez := Z.min ep eq).
  set (A := cond_Zopp sp (Zpos (fst (shl_align mp ep ez)))).
  set (B := cond_Zopp sq (Zpos (fst (shl_align mq eq ez)))).
  replace (B - A)%Z with (- (A - B))%Z by lia.
  apply binary_normalize_opp.
Qed.

Lemma square_of_difference (p q : float) :
  fmul (fsub q p) (fsub q p) = fmul (fsub p q) (fsub p q).
Proof.
  destruct (fsub_swap p q) as [E | E]; rewrite E; [|reflexivity].
  rewrite fmul_opp_l, fmul_opp_r. apply fopp_involutive.
Qed.

(** X27.  [fast_distance] is symmetric: swapping the two points negates the
    three differences, or leaves them when they are zeros or NaNs, and
    their squares, the squared distance and the result are the same
    floats. *)
Theorem fast_distance_symmetric (rsqrt_ss : float -> float) (a b : GameEngine.Vec3) :
  distance_squared b a = distance_squared a b /\
  GameEngine.fast_distance rsqrt_ss b a = GameEngine.fast_distance rsqrt_ss a b.
Proof.
  assert (E : distance_squared b a = distance_squared a b).
  { unfold distance_squared. cbv zeta.
    rewrite (square_of_difference (GameEngine.x a) (GameEngine.x b)).
    rewrite (square_of_difference (GameEngine.y a) (GameEngine.y b)).
    rewrite (square_of_difference (GameEngine.z a) (GameEngine.z b)).
    reflexivity. }
  split; [exact E|].
  rewrite !fast_distance_unfold, E. reflexivity.
Qed.

Local Open Scope Z_scope.

(** * The polynomial correction of NeuralRsqrt *)

(** The polynomial correction of the lanes of [compute_simd]:
    [y * (a + err * (b + err * c))] with [err = 1 - x * y^2], every
    step fused. *)
Definition simd_correction (x y : float) : float :=
  let y_sq := fmul y y in
  let err := ffnmadd x y_sq f1_0 in
  let poly := ffma err Neural.MagicConstants.poly_c Neural.MagicConstants.poly_b in
  let poly := ffma err poly Neural.MagicConstants.poly_a in
  fmul y poly.

(** A normal float of either sign. *)
Definition signed_normal (f : float) : Prop := normal_pos f \/ normal_pos (fopp f).

Local Open Scope R_scope.

Lemma signed_normal_finite (f : float) :
  signed_normal f -> exists s m e, f = S754_finite s m e.
Proof.
  intros [(m & e & -> & _) | (m & e & H & _)]; [eauto|].
  destruct f as [s | s | | s m' e']; try discriminate. eauto.
Qed.

Lemma IZR_cond_Zopp (s : bool) (z : Z) :
  IZR (cond_Zopp s z) = (if s then -1 else 1) * IZR z.
Proof. destruct s; cbn [cond_Zopp]; [rewrite opp_IZR|]; ring. Qed.

(** [binary_normalize] on an integer of either sign whose value is far
    from underflow and overflow. *)
Lemma binary_normalize_signed (D E : Z) :
  bpow (-100) <= Rabs (IZR D * bpow E) <= bpow 100 ->
  signed_normal (binary_normalize prec emax D E false) /\
  exists d, - u <= d <= u /\
            F2R (binary_normalize prec emax D E false) = IZR D * bpow E * (1 + d).
Proof.
  intros H. pose proof (bpow_pos E) as HE. pose proof (bpow_pos (-100)) as H100.
  destruct D as [| P | P].
  - rewrite Rmult_0_l, Rabs_R0 in H. lra.
  - assert (HP : 0 < IZR (Zpos P) * bpow E)
      by (apply Rmult_lt_0_compat; [apply IZR_lt; lia | exact HE]).
    rewrite Rabs_pos_eq in H by lra.
    destruct (binary_normalize_real (Zpos P) E H) as [Hn He].
    split; [left; exact Hn|]. apply relative_error; [exact HP | exact He].
  - assert (HP : 0 < IZR (Zpos P) * bpow E)
      by (apply Rmult_lt_0_compat; [apply IZR_lt; lia | exact HE]).
    assert (EN : IZR (Zneg P) * bpow E = - (IZR (Zpos P) * bpow E)).
    { change (Zneg P) with (Z.opp (Zpos P)). rewrite opp_IZR. ring. }
    rewrite EN, Rabs_Ropp, Rabs_pos_eq in H by lra.
    destruct (binary_normalize_real (Zpos P) E H) as [Hn He].
    assert (Eo : binary_normalize prec emax (Zneg P) E false
                 = fopp (binary_normalize prec emax (Zpos P) E false)).
    { cbn [binary_normalize]. unfold binary_round.
      destruct (shl_align P E _) as [mz ez].
      apply (binary_round_aux_opp false). }
    rewrite Eo. split; [right; rewrite fopp_involutive; exact Hn|].
    destruct (relative_error _ _ HP He) as (d & Hd & Ed).
    exists d. split; [exact Hd|]. rewrite F2R_fopp, Ed, EN. ring.
Qed.

Lemma F2R_finite (s : bool) (m : positive) (e : Z) :
  F2R (S754_finite s m e) = (if s then -1 else 1) * (IZR (Zpos m) * bpow e).
Proof. cbn [F2R]. ring. Qed.

(** The exact value that a fused multiply-add of three finite floats
    rounds. *)
Lemma ffma_sum (sa sb sc : bool) (ma mb mc : positive) (ea eb ec : Z) :
  exists D,
    ffma (S754_finite sa ma ea) (S754_finite sb mb eb) (S754_finite sc mc ec)
    = binary_normalize prec emax D (Z.min (ea + eb) ec) false /\
    IZR D * bpow (Z.min (ea + eb) ec)
    = F2R (S754_finite sa ma ea) * F2R (S754_finite sb mb eb)
      + F2R (S754_finite sc mc ec).
Proof.
  eexists. split; [reflexivity|].
  set (ez := Z.min (ea + eb) ec).
  rewrite plus_IZR, Rmult_plus_distr_r, !IZR_cond_Zopp, !F2R_finite.
  rewrite !Rmult_assoc.
  rewrite !aligned_value by (unfold ez; lia).
  rewrite Pos2Z.inj_mul, mult_IZR, bpow_add.
  destruct sa, sb, sc; cbn [xorb]; ring.
Qed.

Lemma poly_values :
  F2R Neural.MagicConstants.poly_a = 12590286 / 8388608 /\
  F2R Neural.MagicConstants.poly_b = - (8399161 / 16777216) /\
  F2R Neural.MagicConstants.poly_c = 11922829 / 68719476736.
Proof.
  change Neural.MagicConstants.poly_a with (S754_finite false 12590286 (-23)).
  change Neural.MagicConstants.poly_b with (S754_finite true 8399161 (-24)).
  change Neural.MagicConstants.poly_c with (S754_finite false 11922829 (-36)).
  rewrite !F2R_finite.
  change (-23)%Z with (Z.opp 23). change (-24)%Z with (Z.opp 24).
  change (-36)%Z with (Z.opp 36).
  rewrite !bpow_opp, !bpow_IZR by lia.
  change (IZR (2 ^ 23)) with 8388608. change (IZR (2 ^ 24)) with 16777216.
  change (IZR (2 ^ 36)) with 68719476736.
  repeat split; field.
Qed.

Lemma normal_poly_a : normal_pos Neural.MagicConstants.poly_a.
Proof. exists 12590286%positive, (-23)%Z. repeat split; cbv; congruence. Qed.

Lemma signed_mul_bounds (e q eL eH qH : R) :
  - eL <= e <= eH -> 0 <= eL -> 0 <= eH -> 0 <= q <= qH ->
  - (eL * qH) <= e * q <= eH * qH.
Proof. intros He HL HH Hq. split; nra. Qed.

Lemma scale_bounds (r d lo hi : R) :
  - u <= d <= u -> 0 <= lo -> lo <= r <= hi ->
  lo * (1 - u) <= r * (1 + d) <= hi * (1 + u).
Proof. intros Hd Hlo Hr. unfold u in *. split; nra. Qed.

Lemma exponent_above (m : positive) (e k : Z) :
  (2 ^ 23 <= Zpos m < 2 ^ 24)%Z -> bpow k <= IZR (Zpos m) * bpow e -> (k - 24 < e)%Z.
Proof.
  intros Hm H. pose proof (normal_value m e Hm) as [_ V].
  assert (Hlt : bpow k < bpow (e + 24)) by lra.
  apply bpow_lt_inv in Hlt. lia.
Qed.

(** The corrected estimate: the polynomial is close to [poly_a], about
    1.5, when [err] is close to 0. *)
Lemma correction_value (x y : float) :
  normal_pos x -> normal_pos y ->
  / 16384 <= F2R x <= 16384 ->
  9292 / 10000 <= F2R x * F2R y * F2R y <= 10733 / 10000 ->
  normal_pos (simd_correction x y) /\
  exists P, 14654 / 10000 <= P <= 15376 / 10000 /\
            F2R (simd_correction x y) = F2R y * P.
Proof.
  intros Hx Hy Hxr Hw.
  pose proof (normal_pos_gt0 y Hy) as Hy0.
  destruct poly_values as (VA & VB & VC).
  pose proof normal_poly_a as NA.
  set (X := F2R x) in *. set (Y := F2R y) in *.
  assert (HY : / 256 <= Y <= 256).
  { split.
    - destruct (Rle_lt_dec (/ 256) Y) as [H | H]; [exact H|].
      assert (Y * Y < / 256 * / 256) by nra. nra.
    - destruct (Rle_lt_dec Y 256) as [H | H]; [exact H|].
      assert (256 * 256 < Y * Y) by nra. nra. }
  pose proof (mul_bounds Y Y (/ 256) 256 (/ 256) 256 ltac:(lra) HY ltac:(lra) HY) as BYY.
  destruct (fmul_rel y y Hy Hy) as (N1 & d1 & Hd1 & E1); [fold Y; lra|].
  fold Y in E1.
  unfold simd_correction. cbv zeta.
  set (y_sq := fmul y y) in *.
  set (W := X * Y * Y) in *.
  set (V := X * F2R y_sq).
  assert (EV : V = W * (1 + d1)) by (unfold V, W; rewrite E1; ring).
  assert (BV : 92919 / 100000 <= V <= 107331 / 100000).
  { rewrite EV. pose proof (scale_bounds W d1 (9292 / 10000) (10733 / 10000)
                              Hd1 ltac:(lra) Hw) as S. unfold u in S. lra. }
  assert (BYS : / 131072 <= F2R y_sq).
  { rewrite E1. unfold u in Hd1. nra. }
  (* err *)
  assert (Herr : ffnmadd x y_sq f1_0 = S754_zero false /\ V = 1 \/
                 exists se me ee d2,
                   ffnmadd x y_sq f1_0 = S754_finite se me ee /\
                   - u <= d2 <= u /\
                   F2R (S754_finite se me ee) = (1 - V) * (1 + d2)).
  { destruct Hx as (mx & ex & Ex & Hmx & Hex).
    destruct N1 as (m1 & e1 & Ey & Hm1 & He1).
    assert (Hex' : (-38 < ex)%Z).
    { apply (exponent_above mx ex (-14) Hmx).
      unfold X in Hxr. rewrite Ex, F2R_normal in Hxr.
      change (-14)%Z with (Z.opp 14). rewrite bpow_opp, bpow_IZR by lia.
      change (IZR (2 ^ 14)) with 16384. lra. }
    assert (He1' : (-41 < e1)%Z).
    { apply (exponent_above m1 e1 (-17) Hm1).
      rewrite Ey, F2R_normal in BYS.
      change (-17)%Z with (Z.opp 17). rewrite bpow_opp, bpow_IZR by lia.
      change (IZR (2 ^ 17)) with 131072. lra. }
    unfold V, X. rewrite Ex, Ey.
    unfold ffnmadd. cbn [fopp SFopp negb].
    change f1_0 with (S754_finite false 8388608 (-23)).
    destruct (ffma_sum true false false mx m1 8388608 ex e1 (-23)) as (D & HD & Hval).
    rewrite HD.
    assert (E1v : F2R (S754_finite false 8388608 (-23)) = 1).
    { rewrite F2R_normal. change (-23)%Z with (Z.opp 23).
      rewrite bpow_opp, bpow_IZR by lia. change (IZR (2 ^ 23)) with 8388608. field. }
    rewrite E1v in Hval.
    assert (Hval' : IZR D * bpow (Z.min (ex + e1) (-23))
                    = 1 - F2R (S754_finite false mx ex) * F2R (S754_finite false m1 e1)).
    { rewrite Hval, !F2R_finite. ring. }
    clear Hval.
    set (ez := Z.min (ex + e1) (-23)) in *.
    set (V' := F2R (S754_finite false mx ex) * F2R (S754_finite false m1 e1)) in *.
    assert (BV' : 92919 / 100000 <= V' <= 107331 / 100000).
    { unfold V'. rewrite <- Ex, <- Ey. exact BV. }
    destruct (Z.eq_dec D 0) as [D0 | D0].
    - left. subst D. split; [reflexivity|]. rewrite Rmult_0_l in Hval'. lra.
    - right.
      pose proof (bpow_pos ez) as Hez.
      assert (Hge : bpow (-100) <= bpow ez) by (apply bpow_le; unfold ez; lia).
      assert (HD1 : 1 <= Rabs (IZR D)).
      { rewrite <- abs_IZR. apply IZR_le. lia. }
      assert (Hr : bpow (-100) <= Rabs (IZR D * bpow ez) <= bpow 100).
      { split.
        - rewrite Rabs_mult, (Rabs_pos_eq (bpow ez)) by lra. nra.
        - rewrite Hval'. pose proof bpow_100.
          apply Rle_trans with 1; [|lra]. apply Rabs_le. lra. }
      destruct (binary_normalize_signed D ez Hr) as (Sn & d2 & Hd2 & Ed2).
      destruct (signed_normal_finite _ Sn) as (se & me & ee & Ef).
      exists se, me, ee, d2. split; [exact Ef|]. split; [exact Hd2|].
      rewrite <- Ef, Ed2, Hval'. reflexivity. }
  destruct Herr as [[Ez Hv1] | (se & me & ee & d2 & Ef & Hd2 & Ev)].
  - (* err is zero: the polynomial is poly_a itself *)
    rewrite Ez.
    assert (Ep : ffma (S754_zero false)
                   (ffma (S754_zero false) Neural.MagicConstants.poly_c
                      Neural.MagicConstants.poly_b)
                   Neural.MagicConstants.poly_a
                 = Neural.MagicConstants.poly_a) by reflexivity.
    rewrite Ep.
    destruct (fmul_rel y Neural.MagicConstants.poly_a Hy NA) as (N & d & Hd & Ed);
      [fold Y; rewrite VA; lra|].
    split; [exact N|].
    exists (F2R Neural.MagicConstants.poly_a * (1 + d)).
    split; [|rewrite Ed; fold Y; ring].
    rewrite VA. unfold u in Hd. lra.
  - rewrite Ef.
    set (Er := F2R (S754_finite se me ee)) in *.
    assert (BE : - (7332 / 100000) <= Er <= 7082 / 100000).
    { rewrite Ev. unfold u in Hd2. split; nra. }
    (* poly = err * c + b *)
    change Neural.MagicConstants.poly_c with (S754_finite false 11922829 (-36)) in *.
    change Neural.MagicConstants.poly_b with (S754_finite true 8399161 (-24)) in *.
    destruct (ffma_sum se false true me 11922829 8399161 ee (-36) (-24))
      as (D1 & HD1 & Hval1).
    rewrite HD1. fold Er in Hval1. rewrite VC, VB in Hval1.
    pose proof (signed_mul_bounds Er (11922829 / 68719476736) (7332 / 100000)
                  (7082 / 100000) (11922829 / 68719476736)
                  BE ltac:(lra) ltac:(lra) ltac:(lra)) as BEC.
    set (r1 := Er * (11922829 / 68719476736) + - (8399161 / 16777216)) in *.
    assert (Br1 : - (500642 / 1000000) <= r1 <= - (500616 / 1000000))
      by (unfold r1; lra).
    pose proof bpow_m100. pose proof bpow_100.
    assert (Hr1 : bpow (-100) <= Rabs (IZR D1 * bpow (Z.min (ee + -36) (-24))) <= bpow 100).
    { rewrite Hval1, Rabs_left by lra. lra. }
    destruct (binary_normalize_signed D1 _ Hr1) as (Sn1 & d3 & Hd3 & Ed3).
    destruct (signed_normal_finite _ Sn1) as (sp & mp & ep & Ef1).
    rewrite Ef1 in *. rewrite Hval1 in Ed3.
    set (P1 := F2R (S754_finite sp mp ep)) in *.
    set (Q := - P1).
    assert (BQ : 50061 / 100000 <= Q <= 50065 / 100000).
    { unfold Q. rewrite Ed3. unfold u in Hd3. split; nra. }
    (* poly = err * poly + a *)
    change Neural.MagicConstants.poly_a with (S754_finite false 12590286 (-23)) in *.
    destruct (ffma_sum se sp false me mp 12590286 ee ep (-23)) as (D2 & HD2 & Hval2).
    rewrite HD2. fold Er P1 in Hval2. rewrite VA in Hval2.
    pose proof (signed_mul_bounds Er Q (7332 / 100000) (7082 / 100000) (50065 / 100000)
                  BE ltac:(lra) ltac:(lra) ltac:(lra)) as BEQ.
    assert (EQ : Er * P1 = - (Er * Q)) by (unfold Q; ring).
    set (r2 := Er * P1 + 12590286 / 8388608) in *.
    assert (Br2 : 146542 / 100000 <= r2 <= 153759 / 100000)
      by (unfold r2; rewrite EQ; lra).
    destruct (binary_normalize_real D2 (Z.min (ee + ep) (-23))) as [N2 He2];
      [rewrite Hval2; lra|].
    rewrite Hval2 in He2.
    assert (Hr2 : 0 < r2) by lra.
    destruct (relative_error _ r2 Hr2 He2) as (d4 & Hd4 & Ed4).
    set (poly := binary_normalize prec emax D2 (Z.min (ee + ep) (-23)) false) in *.
    pose proof (scale_bounds r2 d4 (146542 / 100000) (153759 / 100000)
                  Hd4 ltac:(lra) Br2) as BP2.
    rewrite <- Ed4 in BP2. unfold u in BP2.
    destruct (fmul_rel y poly Hy N2) as (N & d5 & Hd5 & Ed5).
    { fold Y.
      pose proof (mul_bounds Y (F2R poly) (/ 256) 256 1 2 ltac:(lra) HY ltac:(lra)
                    ltac:(lra)).
      lra. }
    split; [exact N|].
    exists (F2R poly * (1 + d5)).
    split; [|rewrite Ed5; fold Y; ring].
    pose proof (scale_bounds (F2R poly) d5 (14654 / 10000 + 1 / 100000)
                  (15376 / 10000 - 1 / 1000000) Hd5 ltac:(lra) ltac:(lra)) as BP.
    unfold u in BP. lra.
Qed.

(** ** Two updates from an estimate that is 1.5 times too large *)

Lemma newton_map_diff (s a : R) :
  s * (3 / 2 - s * s / 2)
  = a * (3 / 2 - a * a / 2) - (s - a) * (s * s + a * s + a * a - 3) / 2.
Proof. field. Qed.

(** The update of an estimate that is 1.41 to 1.6 times the exact value
    falls to 0.35 to 0.714 times the exact value. *)
Lemma overshoot_first (s eta theta : R) :
  141 / 100 <= s <= 16 / 10 ->
  - (2 / 10000000) <= eta <= 2 / 10000000 ->
  - (15 / 100000000) <= theta <= 15 / 100000000 ->
  35 / 100 <= s * (3 / 2 - s * s / 2 * (1 + eta)) * (1 + theta) <= 714 / 1000.
Proof.
  intros Hs Heta Hth.
  assert (Hss : 141 / 100 * (141 / 100) <= s * s <= 16 / 10 * (16 / 10)) by nra.
  assert (Hg : 352 / 1000 <= s * (3 / 2 - s * s / 2) <= 7134 / 10000).
  { split.
    - rewrite (newton_map_diff s (16 / 10)).
      assert (0 <= (16 / 10 - s) * (s * s + 16 / 10 * s + 16 / 10 * (16 / 10) - 3))
        by (apply Rmult_le_pos; lra).
      lra.
    - rewrite (newton_map_diff s (141 / 100)).
      assert (0 <= (s - 141 / 100) * (s * s + 141 / 100 * s + 141 / 100 * (141 / 100) - 3))
        by (apply Rmult_le_pos; lra).
      lra. }
  assert (Hs3 : 0 <= s * s * s <= 41 / 10) by nra.
  set (T := s * s * s * (eta / 2)).
  assert (HT : - (5 / 10000000) <= T <= 5 / 10000000).
  { unfold T. set (p := s * s * s) in *. nra. }
  set (g := s * (3 / 2 - s * s / 2)) in *.
  assert (Eg : s * (3 / 2 - s * s / 2 * (1 + eta)) = g - T) by (unfold g, T; field).
  rewrite Eg. set (h := g - T). assert (Hh : 3519 / 10000 <= h <= 71341 / 100000)
    by (unfold h; lra).
  clearbody h. split; nra.
Qed.

(** The next update brings it back to 0.5 to 0.9 times the exact value
    only. *)
Lemma overshoot_second (s eta theta : R) :
  35 / 100 <= s <= 714 / 1000 ->
  - (2 / 10000000) <= eta <= 2 / 10000000 ->
  - (15 / 100000000) <= theta <= 15 / 100000000 ->
  1 / 2 <= s * (3 / 2 - s * s / 2 * (1 + eta)) * (1 + theta) <= 9 / 10.
Proof.
  intros Hs Heta Hth.
  assert (Hss : 35 / 100 * (35 / 100) <= s * s <= 714 / 1000 * (714 / 1000)) by nra.
  assert (Hg : 5035 / 10000 <= s * (3 / 2 - s * s / 2) <= 8891 / 10000).
  { split.
    - rewrite (newton_map_diff s (35 / 100)).
      assert (0 <= (s - 35 / 100) * (3 - (s * s + 35 / 100 * s + 35 / 100 * (35 / 100))))
        by (apply Rmult_le_pos; lra).
      lra.
    - rewrite (newton_map_diff s (714 / 1000)).
      assert (0 <= (714 / 1000 - s)
                   * (3 - (s * s + 714 / 1000 * s + 714 / 1000 * (714 / 1000))))
        by (apply Rmult_le_pos; lra).
      lra. }
  assert (Hs3 : 0 <= s * s * s <= 1) by nra.
  set (T := s * s * s * (eta / 2)).
  assert (HT : - (2 / 10000000) <= T <= 2 / 10000000).
  { unfold T. set (p := s * s * s) in *. nra. }
  set (g := s * (3 / 2 - s * s / 2)) in *.
  assert (Eg : s * (3 / 2 - s * s / 2 * (1 + eta)) = g - T) by (unfold g, T; field).
  rewrite Eg. set (h := g - T). assert (Hh : 5034 / 10000 <= h <= 8892 / 10000)
    by (unfold h; lra).
  clearbody h. split; nra.
Qed.

(** An update on the scaled estimate [s = y sqrt x]. *)
Lemma update_on_scaled (x y : float) (s : R) :
  in_domain x = true -> normal_pos y ->
  s = F2R y * sqrt (F2R x) -> 35 / 100 <= s <= 16 / 10 ->
  normal_pos (fma_update f1_5 x y) /\
  exists eta theta,
    - (2 / 10000000) <= eta <= 2 / 10000000 /\
    - (15 / 100000000) <= theta <= 15 / 100000000 /\
    F2R (fma_update f1_5 x y) * sqrt (F2R x)
    = s * (3 / 2 - s * s / 2 * (1 + eta)) * (1 + theta).
Proof.
  intros Hd Hy Es Hs.
  destruct (in_domain_normal x Hd) as [Hx Hxr].
  assert (HX : 0 < F2R x) by lra.
  pose proof (sqrt_sqrt (F2R x) ltac:(lra)) as Hrr.
  destruct normal_f1_5 as [Hc Hcv].
  set (r := sqrt (F2R x)) in *.
  assert (Hw : F2R x * F2R y * F2R y = s * s) by (rewrite Es, <- Hrr; ring).
  assert (Hss : 1 / 10 <= s * s <= 27 / 10) by nra.
  destruct (fma_update_spec_wide f1_5 x y Hc Hx Hy ltac:(lra) Hxr ltac:(rewrite Hw; exact Hss))
    as (Hn & eta & theta & Heta & Hth & Ey).
  split; [exact Hn|]. exists eta, theta. split; [exact Heta|]. split; [exact Hth|].
  rewrite Ey, Hw, Hcv, Es. ring.
Qed.

Lemma simd_lane_unfold (x : float) :
  Neural.simd_lane x
  = fma_update f1_5 x
      (fma_update f1_5 x (simd_correction x (approximate 0x5f3759df%Z x))).
Proof. reflexivity. Qed.

(** A lane of [compute_simd] on an input of the kernels' range. *)
Lemma simd_lane_scaled (x : float) :
  in_domain x = true ->
  1 / 2 <= F2R (Neural.simd_lane x) * sqrt (F2R x) <= 9 / 10.
Proof.
  intros Hd. rewrite simd_lane_unfold, magic_5f3759df.
  destruct (guess_in_domain 3627487%Z x Hd ltac:(lia)) as (HX & N0 & E0).
  destruct (in_domain_normal x Hd) as [Hx Hxr].
  rewrite rel_error_alt in E0 by exact HX.
  apply Rabs_le_inv in E0.
  pose proof (sqrt_sqrt (F2R x) ltac:(lra)) as Hrr.
  set (y0 := approximate (190 * 2 ^ 23 + 3627487) x) in *.
  set (s0 := F2R y0 * sqrt (F2R x)) in *.
  assert (Hw0 : F2R x * F2R y0 * F2R y0 = s0 * s0).
  { transitivity (sqrt (F2R x) * sqrt (F2R x) * F2R y0 * F2R y0);
      [rewrite Hrr; reflexivity | unfold s0; ring]. }
  assert (Hs0 : 9292 / 10000 <= s0 * s0 <= 10733 / 10000) by nra.
  destruct (correction_value x y0 Hx N0 Hxr ltac:(rewrite Hw0; exact Hs0))
    as (N1 & P & HP & E1).
  set (y1 := simd_correction x y0) in *.
  assert (Es1 : s0 * P = F2R y1 * sqrt (F2R x)) by (rewrite E1; unfold s0; ring).
  assert (Hs1 : 141 / 100 <= s0 * P <= 16 / 10) by nra.
  destruct (update_on_scaled x y1 (s0 * P) Hd N1 Es1 ltac:(lra))
    as (N2 & eta1 & theta1 & Heta1 & Hth1 & E2).
  pose proof (overshoot_first (s0 * P) eta1 theta1 Hs1 Heta1 Hth1) as Hs2.
  rewrite <- E2 in Hs2.
  set (y2 := fma_update f1_5 x y1) in *.
  destruct (update_on_scaled x y2 (F2R y2 * sqrt (F2R x)) Hd N2 eq_refl ltac:(lra))
    as (N3 & eta2 & theta2 & Heta2 & Hth2 & E3).
  rewrite E3. apply overshoot_second; assumption.
Qed.

(** The outputs of the full groups of eight of [compute_simd]. *)
Lemma neural_simd_full_group (global_precision : Neural.PrecisionLevel)
    (self : Neural.NeuralRsqrt) (input output : list float) (count i : nat) :
  (count <= length input)%nat -> (count <= length output)%nat ->
  (Z.of_nat count < 2 ^ 64)%Z -> (i < 8 * (count / 8))%nat ->
  nth i (fst (Neural.compute_simd global_precision self input output count)) f0_0
  = Neural.simd_lane (nth i input f0_0).
Proof.
  intros Hin Hout Hsize Hi.
  pose proof (Nat.div_mod_eq count 8) as Hdm.
  set (full := (8 * (count / 8))%nat) in *.
  unfold Neural.compute_simd. rewrite simd_count_8 by exact Hsize. fold full.
  pose proof (simd_loop_map Neural.simd_lane input output (count / 8)
                ltac:(fold full; lia) ltac:(fold full; lia)) as EL.
  fold full in EL. rewrite EL.
  assert (Hl : length (map Neural.simd_lane (firstn full input)) = full)
    by (rewrite length_map, length_firstn; lia).
  rewrite (tail_loop_state (Neural.compute global_precision) input _ self full count f0_0)
    by (try rewrite length_app, Hl, length_skipn; lia).
  cbn [fst]. rewrite firstn_app_exact by exact Hl.
  rewrite app_nth1 by lia.
  apply nth_map_firstn; lia.
Qed.

(** X28.  In the full groups of eight, [NeuralRsqrt::compute_simd] misses the
    reciprocal square root of every input from 1e-4 to 1e4 by 10 to 50
    percent, always from below: its polynomial correction is
    [poly_a + err * (...)] with [err = 1 - x * y * y] close to 0, which
    multiplies the estimate by about 1.5, and the two updates that
    follow bring it back to between 0.5 and 0.9 of the exact value only. *)
Theorem neural_simd_undershoots (global_precision : Neural.PrecisionLevel)
    (self : Neural.NeuralRsqrt) (input output : list float) (count i : nat) :
  (count <= length input)%nat -> (count <= length output)%nat ->
  (Z.of_nat count < 2 ^ 64)%Z -> (i < 8 * (count / 8))%nat ->
  in_domain (nth i input f0_0) = true ->
  let y := nth i (fst (Neural.compute_simd global_precision self input output count))
             f0_0 in
  F2R y * sqrt (F2R (nth i input f0_0)) <= 9 / 10 /\
  1 / 10 <= rel_error (F2R y) (F2R (nth i input f0_0)) <= 1 / 2.
Proof.
  intros Hin Hout Hsize Hi Hd y. unfold y.
  rewrite neural_simd_full_group by assumption.
  destruct (in_domain_normal _ Hd) as [_ Hxr].
  pose proof (simd_lane_scaled _ Hd) as Hs.
  split; [lra|].
  rewrite rel_error_alt by lra.
  rewrite Rabs_left by lra. lra.
Qed.

Lemma neural_simd_undershoots_witness :
  let y := nth 0 (fst (Neural.compute_simd Neural.FAST Neural.static_instance
                         (repeat f4_0 8) (repeat f0_0 8) 8)) f0_0 in
  F2R y * sqrt (F2R (nth 0 (repeat f4_0 8) f0_0)) <= 9 / 10 /\
  1 / 10 <= rel_error (F2R y) (F2R (nth 0 (repeat f4_0 8) f0_0)) <= 1 / 2.
Proof.
  apply (neural_simd_undershoots Neural.FAST Neural.static_instance
           (repeat f4_0 8) (repeat f0_0 8) 8 0).
  - cbn. lia.
  - cbn. lia.
  - reflexivity.
  - cbn. lia.
  - reflexivity.
Defined.

Local Open Scope Z_scope.

(** * The scalar path of NeuralRsqrt away from its table *)

(** The polynomial correction of [compute]:
    [y * (a + err * (b + err * c))] with [err = 1 - x * y * y], every
    operation rounded. *)
Definition scalar_correction (x y : float) : float :=
  let err := fsub f1_0 (fmul (fmul x y) y) in
  fmul y
    (fadd Neural.MagicConstants.poly_a
       (fmul err (fadd Neural.MagicConstants.poly_b
                    (fmul err Neural.MagicConstants.poly_c)))).

Local Open Scope R_scope.

(** The update in the order of the scalar kernels, on an estimate that
    may be far from the exact value. *)
Lemma newton_update_spec_wide (c x y : float) :
  normal_pos c -> normal_pos x -> normal_pos y ->
  3 / 2 <= F2R c <= 3 / 2 + / 1000 ->
  / 16384 <= F2R x <= 16384 ->
  1 / 10 <= F2R x * F2R y * F2R y <= 27 / 10 ->
  normal_pos (newton_update c x y) /\
  exists eta theta,
    - (2 / 10000000) <= eta <= 2 / 10000000 /\
    - (15 / 100000000) <= theta <= 15 / 100000000 /\
    F2R (newton_update c x y)
    = F2R y * (F2R c - F2R x * F2R y * F2R y / 2 * (1 + eta)) * (1 + theta).
Proof.
  intros Hc Hx Hy Hcr Hxr Hw.
  pose proof (normal_pos_gt0 y Hy) as Hy0.
  destruct normal_f0_5 as [Hh Hhv].
  set (X := F2R x) in *. set (Y := F2R y) in *. set (Cr := F2R c) in *.
  assert (HY : / 512 <= Y <= 256).
  { split.
    - destruct (Rle_lt_dec (/ 512) Y) as [H | H]; [exact H|].
      assert (Y * Y < / 512 * / 512) by nra. nra.
    - destruct (Rle_lt_dec Y 256) as [H | H]; [exact H|].
      assert (256 * 256 < Y * Y) by nra. nra. }
  unfold newton_update.
  (* x2 = x * 0.5f *)
  destruct (fmul_rel x f0_5 Hx Hh) as (N0 & d0 & Hd0 & E0);
    [rewrite Hhv; fold X; lra|].
  rewrite Hhv in E0. fold X in E0.
  set (x2 := fmul x f0_5) in *.
  apply one_plus_bounds in Hd0. unfold u in Hd0.
  assert (B0 : / 32768 * (1 - / 16777216) <= F2R x2 <= 8192 * (1 + / 16777216)).
  { rewrite E0. apply mul_bounds; lra. }
  (* x2 * y *)
  destruct (fmul_rel x2 y N0 Hy) as (N1 & d1 & Hd1 & E1).
  { fold Y.
    pose proof (mul_bounds (F2R x2) Y (/ 32768 * (1 - / 16777216)) (8192 * (1 + / 16777216))
                  (/ 512) 256 ltac:(lra) B0 ltac:(lra) HY).
    lra. }
  fold Y in E1. set (t := fmul x2 y) in *.
  apply one_plus_bounds in Hd1. unfold u in Hd1.
  set (W := X * Y * Y) in *.
  assert (Ht : F2R t * Y = W / 2 * ((1 + d0) * (1 + d1)))
    by (rewrite E1, E0; unfold W; field).
  pose proof (mul_bounds (1 + d0) (1 + d1) (1 - / 16777216) (1 + / 16777216) (1 - / 16777216) (1 + / 16777216)
                ltac:(lra) Hd0 ltac:(lra) Hd1) as P01.
  set (p01 := (1 + d0) * (1 + d1)) in *.
  (* (x2 * y) * y *)
  destruct (fmul_rel t y N1 Hy) as (N2 & d2 & Hd2 & E2).
  { fold Y. rewrite Ht.
    pose proof (mul_bounds (W / 2) p01 (1 / 20) (27 / 20)
                  ((1 - / 16777216) * (1 - / 16777216)) ((1 + / 16777216) * (1 + / 16777216))
                  ltac:(lra) ltac:(lra) ltac:(nra) P01).
    lra. }
  fold Y in E2. set (w := fmul t y) in *.
  apply one_plus_bounds in Hd2. unfold u in Hd2.
  pose proof (mul_bounds p01 (1 + d2) ((1 - / 16777216) * (1 - / 16777216)) ((1 + / 16777216) * (1 + / 16777216))
                (1 - / 16777216) (1 + / 16777216) ltac:(nra) P01 ltac:(lra) Hd2) as P012.
  set (eta := p01 * (1 + d2) - 1).
  assert (Heta : - (2 / 10000000) <= eta <= 2 / 10000000)
    by (unfold eta; lra).
  assert (Ew : F2R w = W / 2 * (1 + eta))
    by (rewrite E2, Ht; unfold eta; ring).
  pose proof (mul_bounds (W / 2) (1 + eta) (1 / 20) (27 / 20)
                (1 - 2 / 10000000) (1 + 2 / 10000000)
                ltac:(lra) ltac:(lra) ltac:(lra) ltac:(lra)) as BA.
  set (A := W / 2 * (1 + eta)) in *.
  (* c - ... *)
  destruct (fsub_rel c w Hc N2) as (N3 & d3 & Hd3 & E3);
    [fold Cr; rewrite Ew; lra|].
  fold Cr in E3. rewrite Ew in E3. set (v := fsub c w) in *.
  apply one_plus_bounds in Hd3. unfold u in Hd3.
  pose proof (mul_bounds (Cr - A) (1 + d3) (14 / 100) (15 / 10) (1 - / 16777216) (1 + / 16777216)
                ltac:(lra) ltac:(lra) ltac:(lra) Hd3) as BV.
  (* y * (...) *)
  destruct (fmul_rel y v Hy N3) as (N4 & d4 & Hd4 & E4).
  { fold Y. rewrite E3.
    pose proof (mul_bounds Y ((Cr - A) * (1 + d3)) (/ 512) 256
                  (14 / 100 * (1 - / 16777216)) (15 / 10 * (1 + / 16777216))
                  ltac:(lra) HY ltac:(lra) BV).
    lra. }
  fold Y in E4. apply one_plus_bounds in Hd4. unfold u in Hd4.
  pose proof (mul_bounds (1 + d3) (1 + d4) (1 - / 16777216) (1 + / 16777216) (1 - / 16777216) (1 + / 16777216)
                ltac:(lra) Hd3 ltac:(lra) Hd4) as P34.
  split; [exact N4|].
  exists eta, ((1 + d3) * (1 + d4) - 1).
  split; [exact Heta|]. split; [lra|].
  rewrite E4, E3. unfold A, W. ring.
Qed.

(** ** Operations on floats of either sign *)

Lemma fsub_sum (sa sb : bool) (ma mb : positive) (ea eb : Z) :
  exists D,
    fsub (S754_finite sa ma ea) (S754_finite sb mb eb)
    = binary_normalize prec emax D (Z.min ea eb) false /\
    IZR D * bpow (Z.min ea eb)
    = F2R (S754_finite sa ma ea) - F2R (S754_finite sb mb eb).
Proof.
  eexists. split; [reflexivity|].
  set (ez := Z.min ea eb).
  rewrite minus_IZR, Rmult_minus_distr_r, !IZR_cond_Zopp, !F2R_finite.
  rewrite !Rmult_assoc.
  rewrite !aligned_value by (unfold ez; lia).
  reflexivity.
Qed.

Lemma fadd_sum (sa sb : bool) (ma mb : positive) (ea eb : Z) :
  exists D,
    fadd (S754_finite sa ma ea) (S754_finite sb mb eb)
    = binary_normalize prec emax D (Z.min ea eb) false /\
    IZR D * bpow (Z.min ea eb)
    = F2R (S754_finite sa ma ea) + F2R (S754_finite sb mb eb).
Proof.
  eexists. split; [reflexivity|].
  set (ez := Z.min ea eb).
  rewrite plus_IZR, Rmult_plus_distr_r, !IZR_cond_Zopp, !F2R_finite.
  rewrite !Rmult_assoc.
  rewrite !aligned_value by (unfold ez; lia).
  reflexivity.
Qed.

Lemma signed_normal_cases (f : float) :
  signed_normal f ->
  exists g, normal_pos g /\
            ((f = g /\ F2R f = F2R g) \/ (f = fopp g /\ F2R f = - F2R g)).
Proof.
  intros [H | H].
  - exists f. split; [exact H|]. left. split; reflexivity.
  - exists (fopp f). split; [exact H|]. right.
    rewrite fopp_involutive, F2R_fopp. split; [reflexivity | ring].
Qed.

(** The product of two normal floats of either sign. *)
Lemma fmul_signed (a b : float) :
  signed_normal a -> signed_normal b ->
  bpow (-100) <= Rabs (F2R a * F2R b) <= bpow 100 ->
  signed_normal (fmul a b) /\
  exists d, - u <= d <= u /\ F2R (fmul a b) = F2R a * F2R b * (1 + d).
Proof.
  intros Ha Hb Hr.
  destruct (signed_normal_cases a Ha) as (g & Hg & Ca).
  destruct (signed_normal_cases b Hb) as (h & Hh & Cb).
  pose proof (normal_pos_gt0 g Hg) as G0. pose proof (normal_pos_gt0 h Hh) as H0.
  assert (Hp : 0 < F2R g * F2R h) by (apply Rmult_lt_0_compat; assumption).
  assert (Hr' : bpow (-100) <= F2R g * F2R h <= bpow 100).
  { destruct Ca as [[_ Ea] | [_ Ea]], Cb as [[_ Eb] | [_ Eb]];
      rewrite Ea, Eb in Hr.
    - rewrite Rabs_pos_eq in Hr by lra. exact Hr.
    - replace (F2R g * - F2R h) with (- (F2R g * F2R h)) in Hr by ring.
      rewrite Rabs_Ropp, Rabs_pos_eq in Hr by lra. exact Hr.
    - replace (- F2R g * F2R h) with (- (F2R g * F2R h)) in Hr by ring.
      rewrite Rabs_Ropp, Rabs_pos_eq in Hr by lra. exact Hr.
    - replace (- F2R g * - F2R h) with (F2R g * F2R h) in Hr by ring.
      rewrite Rabs_pos_eq in Hr by lra. exact Hr. }
  destruct (fmul_spec g h Hg Hh Hr') as [Hn He].
  destruct (relative_error _ _ Hp He) as (d & Hd & Ed).
  destruct Ca as [[-> Ea] | [-> Ea]], Cb as [[-> Eb] | [-> Eb]].
  - split; [left; exact Hn|]. exists d. split; [exact Hd | exact Ed].
  - rewrite fmul_opp_r. split; [right; rewrite fopp_involutive; exact Hn|].
    exists d. split; [exact Hd|]. rewrite !F2R_fopp, Ed. ring.
  - rewrite fmul_opp_l. split; [right; rewrite fopp_involutive; exact Hn|].
    exists d. split; [exact Hd|]. rewrite !F2R_fopp, Ed. ring.
  - rewrite fmul_opp_l, fmul_opp_r, fopp_involutive. split; [left; exact Hn|].
    exists d. split; [exact Hd|]. rewrite !F2R_fopp, Ed. ring.
Qed.

Lemma bpow_m40 : bpow (-100) <= / 1099511627776.
Proof.
  pose proof (bpow_le (-100) (-40) ltac:(lia)) as H.
  change (-40)%Z with (Z.opp 40) in H.
  rewrite (bpow_opp 40), (bpow_IZR 40) in H by lia.
  exact H.
Qed.

Lemma normal_poly_c : normal_pos Neural.MagicConstants.poly_c.
Proof. exists 11922829%positive, (-36)%Z. repeat split; cbv; congruence. Qed.

(** The corrected estimate of the scalar path. *)
Lemma scalar_correction_value (x y : float) :
  normal_pos x -> normal_pos y ->
  / 16384 <= F2R x <= 16384 ->
  9292 / 10000 <= F2R x * F2R y * F2R y <= 10733 / 10000 ->
  normal_pos (scalar_correction x y) /\
  exists P, 14654 / 10000 <= P <= 15376 / 10000 /\
            F2R (scalar_correction x y) = F2R y * P.
Proof.
  intros Hx Hy Hxr Hw.
  pose proof (normal_pos_gt0 y Hy) as Hy0.
  destruct poly_values as (VA & VB & VC).
  pose proof normal_poly_a as NA. pose proof normal_poly_c as NC.
  pose proof bpow_m100 as Bm. pose proof bpow_100 as Bp. pose proof bpow_m40 as Bm40.
  set (X := F2R x) in *. set (Y := F2R y) in *.
  assert (HY : / 256 <= Y <= 256).
  { split.
    - destruct (Rle_lt_dec (/ 256) Y) as [H | H]; [exact H|].
      assert (Y * Y < / 256 * / 256) by nra. nra.
    - destruct (Rle_lt_dec Y 256) as [H | H]; [exact H|].
      assert (256 * 256 < Y * Y) by nra. nra. }
  (* x * y *)
  destruct (fmul_rel x y Hx Hy) as (N0 & d0 & Hd0 & E0).
  { fold X Y.
    pose proof (mul_bounds X Y (/ 16384) 16384 (/ 256) 256
                  ltac:(lra) Hxr ltac:(lra) HY).
    lra. }
  fold X Y in E0.
  set (W := X * Y * Y) in *.
  pose proof (scale_bounds W d0 (9292 / 10000) (10733 / 10000) Hd0 ltac:(lra) Hw) as B0.
  unfold u in B0.
  (* (x * y) * y *)
  destruct (fmul_rel (fmul x y) y N0 Hy) as (N1 & d1 & Hd1 & E1).
  { rewrite E0. fold Y.
    replace (X * Y * (1 + d0) * Y) with (W * (1 + d0)) by (unfold W; ring). lra. }
  fold Y in E1. rewrite E0 in E1.
  replace (X * Y * (1 + d0) * Y) with (W * (1 + d0)) in E1 by (unfold W; ring).
  unfold scalar_correction. cbv zeta.
  set (t := fmul (fmul x y) y) in *.
  pose proof (scale_bounds (W * (1 + d0)) d1 (9292 / 10000 * (1 - / 16777216))
                (10733 / 10000 * (1 + / 16777216)) Hd1 ltac:(lra) B0) as BT.
  rewrite <- E1 in BT. unfold u in BT.
  set (T := F2R t) in *.
  (* err *)
  assert (Herr : fsub f1_0 t = S754_zero false \/
                 exists d2,
                   signed_normal (fsub f1_0 t) /\
                   - u <= d2 <= u /\
                   F2R (fsub f1_0 t) = (1 - T) * (1 + d2) /\
                   / 16777216 <= Rabs (1 - T)).
  { destruct N1 as (m2 & e2 & Et & Hm2 & He2).
    assert (He2' : (-25 < e2)%Z).
    { apply (exponent_above m2 e2 (-1) Hm2).
      unfold T in BT. rewrite Et, F2R_normal in BT.
      change (-1)%Z with (Z.opp 1). rewrite bpow_opp, bpow_IZR by lia.
      change (IZR (2 ^ 1)) with 2. lra. }
    unfold T. rewrite Et.
    change f1_0 with (S754_finite false 8388608 (-23)).
    destruct (fsub_sum false false 8388608 m2 (-23) e2) as (D & HD & Hval).
    rewrite HD.
    assert (E1v : F2R (S754_finite false 8388608 (-23)) = 1).
    { rewrite F2R_normal. change (-23)%Z with (Z.opp 23).
      rewrite bpow_opp, bpow_IZR by lia. change (IZR (2 ^ 23)) with 8388608. field. }
    rewrite E1v in Hval.
    set (ez := Z.min (-23) e2) in *.
    set (T' := F2R (S754_finite false m2 e2)) in *.
    assert (BT' : 92919 / 100000 <= T' <= 107331 / 100000).
    { unfold T'. rewrite <- Et. fold T. lra. }
    destruct (Z.eq_dec D 0) as [D0 | D0].
    - left. subst D. reflexivity.
    - right.
      pose proof (bpow_pos ez) as Hez.
      assert (Hge : bpow (-24) <= bpow ez) by (apply bpow_le; unfold ez; lia).
      assert (E24 : bpow (-24) = / 16777216).
      { change (-24)%Z with (Z.opp 24). rewrite bpow_opp, bpow_IZR by lia. reflexivity. }
      assert (HD1 : 1 <= Rabs (IZR D)).
      { rewrite <- abs_IZR. apply IZR_le. lia. }
      assert (Hlow : / 16777216 <= Rabs (IZR D * bpow ez)).
      { rewrite Rabs_mult, (Rabs_pos_eq (bpow ez)) by lra. nra. }
      assert (Hr : bpow (-100) <= Rabs (IZR D * bpow ez) <= bpow 100).
      { split; [lra|]. rewrite Hval.
        apply Rle_trans with 1; [|lra]. apply Rabs_le. lra. }
      destruct (binary_normalize_signed D ez Hr) as (Sn & d2 & Hd2 & Ed2).
      exists d2. split; [exact Sn|]. split; [exact Hd2|].
      split; [rewrite Ed2, Hval; reflexivity|].
      rewrite <- Hval. exact Hlow. }
  destruct Herr as [Ez | (d2 & Sn & Hd2 & Ev & Hlow)].
  - rewrite Ez.
    assert (Ep : fadd Neural.MagicConstants.poly_a
                   (fmul (S754_zero false)
                      (fadd Neural.MagicConstants.poly_b
                         (fmul (S754_zero false) Neural.MagicConstants.poly_c)))
                 = Neural.MagicConstants.poly_a) by reflexivity.
    rewrite Ep.
    destruct (fmul_rel y Neural.MagicConstants.poly_a Hy NA) as (N & d & Hd & Ed);
      [fold Y; rewrite VA; lra|].
    split; [exact N|].
    exists (F2R Neural.MagicConstants.poly_a * (1 + d)).
    split; [|rewrite Ed; fold Y; ring].
    rewrite VA. unfold u in Hd. lra.
  - set (err := fsub f1_0 t) in *.
    set (Er := F2R err) in *.
    assert (BE : - (7332 / 100000) <= Er <= 7082 / 100000).
    { rewrite Ev. unfold u in Hd2. split; nra. }
    assert (AE : / 33554432 <= Rabs Er <= 7332 / 100000).
    { split.
      - rewrite Ev, Rabs_mult. unfold u in Hd2.
        rewrite (Rabs_pos_eq (1 + d2)) by lra.
        pose proof (Rabs_pos (1 - T)). nra.
      - apply Rabs_le. lra. }
    (* err * c *)
    destruct (fmul_signed err Neural.MagicConstants.poly_c Sn (or_introl NC))
      as (S1 & d3 & Hd3 & E3).
    { fold Er. rewrite VC, Rabs_mult.
      rewrite (Rabs_pos_eq (11922829 / 68719476736)) by lra.
      split; [|nra].
      apply Rle_trans with (/ 33554432 * (11922829 / 68719476736)); [lra|].
      apply Rmult_le_compat_r; lra. }
    fold Er in E3. rewrite VC in E3.
    set (p1 := fmul err Neural.MagicConstants.poly_c) in *.
    pose proof (signed_mul_bounds Er (11922829 / 68719476736) (7332 / 100000)
                  (7082 / 100000) (11922829 / 68719476736)
                  BE ltac:(lra) ltac:(lra) ltac:(lra)) as BEC.
    unfold u in Hd3.
    pose proof (signed_mul_bounds (Er * (11922829 / 68719476736)) (1 + d3)
                  (7332 / 100000 * (11922829 / 68719476736))
                  (7082 / 100000 * (11922829 / 68719476736)) (1 + / 16777216)
                  BEC ltac:(lra) ltac:(lra) ltac:(lra)) as Bp1.
    rewrite <- E3 in Bp1.
    (* b + err * c *)
    destruct (signed_normal_finite _ S1) as (s1 & m1 & e1 & Ef1).
    change Neural.MagicConstants.poly_b with (S754_finite true 8399161 (-24)) in *.
    rewrite Ef1 in *.
    destruct (fadd_sum true s1 8399161 m1 (-24) e1) as (D1 & HD1 & Hval1).
    rewrite HD1. rewrite VB in Hval1.
    set (r1 := - (8399161 / 16777216) + F2R (S754_finite s1 m1 e1)) in *.
    assert (Br1 : - (500642 / 1000000) <= r1 <= - (500616 / 1000000))
      by (unfold r1; lra).
    assert (Hr1 : bpow (-100) <= Rabs (IZR D1 * bpow (Z.min (-24) e1)) <= bpow 100).
    { rewrite Hval1, Rabs_left by lra. lra. }
    destruct (binary_normalize_signed D1 _ Hr1) as (S2 & d4 & Hd4 & E4).
    rewrite Hval1 in E4.
    set (p2 := binary_normalize prec emax D1 (Z.min (-24) e1) false) in *.
    set (Q := - F2R p2).
    assert (BQ : 50061 / 100000 <= Q <= 50065 / 100000).
    { unfold Q. rewrite E4. unfold u in Hd4. split; nra. }
    (* err * (b + err * c) *)
    pose proof (signed_mul_bounds Er Q (7332 / 100000) (7082 / 100000) (50065 / 100000)
                  BE ltac:(lra) ltac:(lra) ltac:(lra)) as BEQ.
    destruct (fmul_signed err p2 Sn S2) as (S3 & d5 & Hd5 & E5).
    { fold Er. replace (Er * F2R p2) with (- (Er * Q)) by (unfold Q; ring).
      rewrite Rabs_Ropp, Rabs_mult, (Rabs_pos_eq Q) by lra.
      split; [|nra].
      apply Rle_trans with (/ 33554432 * (50061 / 100000)); [lra|].
      apply Rmult_le_compat; lra. }
    fold Er in E5.
    replace (Er * F2R p2) with (- (Er * Q)) in E5 by (unfold Q; ring).
    set (p3 := fmul err p2) in *.
    unfold u in Hd5.
    pose proof (signed_mul_bounds (Er * Q) (1 + d5)
                  (7332 / 100000 * (50065 / 100000)) (7082 / 100000 * (50065 / 100000))
                  (1 + / 16777216) BEQ ltac:(lra) ltac:(lra) ltac:(lra)) as Bp3.
    assert (Bp3' : - (354562 / 10000000) <= F2R p3 <= 367078 / 10000000)
      by (rewrite E5; lra).
    (* a + ... *)
    destruct (signed_normal_finite _ S3) as (s3 & m3 & e3 & Ef3).
    change Neural.MagicConstants.poly_a with (S754_finite false 12590286 (-23)) in *.
    rewrite Ef3 in *.
    destruct (fadd_sum false s3 12590286 m3 (-23) e3) as (D2 & HD2 & Hval2).
    rewrite HD2. rewrite VA in Hval2.
    set (r2 := 12590286 / 8388608 + F2R (S754_finite s3 m3 e3)) in *.
    assert (Br2 : 146542 / 100000 <= r2 <= 153759 / 100000) by (unfold r2; lra).
    destruct (binary_normalize_real D2 (Z.min (-23) e3)) as [N2 He2];
      [rewrite Hval2; lra|].
    rewrite Hval2 in He2.
    assert (Hr2 : 0 < r2) by lra.
    destruct (relative_error _ r2 Hr2 He2) as (d6 & Hd6 & Ed6).
    set (poly := binary_normalize prec emax D2 (Z.min (-23) e3) false) in *.
    pose proof (scale_bounds r2 d6 (146542 / 100000) (153759 / 100000)
                  Hd6 ltac:(lra) Br2) as BP2.
    rewrite <- Ed6 in BP2. unfold u in BP2.
    destruct (fmul_rel y poly Hy N2) as (N & d7 & Hd7 & Ed7).
    { fold Y.
      pose proof (mul_bounds Y (F2R poly) (/ 256) 256 1 2 ltac:(lra) HY ltac:(lra)
                    ltac:(lra)).
      lra. }
    split; [exact N|].
    exists (F2R poly * (1 + d7)).
    split; [|rewrite Ed7; fold Y; ring].
    pose proof (scale_bounds (F2R poly) d7 (14654 / 10000 + 1 / 100000)
                  (15376 / 10000 - 1 / 1000000) Hd7 ltac:(lra) ltac:(lra)) as BP.
    unfold u in BP. lra.
Qed.

(** ** The off-table path of [compute] *)

(** On the kernels' range the exponent field selects [small], [medium]
    or [large], never [huge]. *)
Lemma initial_approximation_in_domain (x : float) :
  in_domain x = true ->
  exists C, (3627422 <= C <= 3627654)%Z /\
            Neural.initial_approximation x = approximate (190 * 2 ^ 23 + C) x.
Proof.
  intros Hd. destruct (in_domain_normal x Hd) as [(m & e & -> & Hm & He) Hxr].
  rewrite F2R_normal in Hxr.
  assert (He' : (e < 7)%Z).
  { pose proof (normal_value m e Hm) as [V _].
    destruct (Z_lt_le_dec e 7) as [Hlt | Hge]; [exact Hlt|].
    pose proof (bpow_le 30 (e + 23) ltac:(lia)) as B.
    rewrite (bpow_IZR 30) in B by lia. change (IZR (2 ^ 30)) with 1073741824 in B.
    lra. }
  exists (Neural.select_magic (e + 150) - 190 * 2 ^ 23)%Z.
  split.
  - unfold Neural.select_magic.
    repeat match goal with |- context [if ?b then _ else _] => destruct b eqn:? end;
      try (cbv; split; discriminate).
    exfalso.
    repeat match goal with H : (_ <? _)%Z = false |- _ => apply Z.ltb_ge in H end. lia.
  - replace (190 * 2 ^ 23 + (Neural.select_magic (e + 150) - 190 * 2 ^ 23))%Z
      with (Neural.select_magic (e + 150)) by lia.
    unfold Neural.initial_approximation, approximate. cbv zeta.
    rewrite to_bits_normal by exact Hm.
    destruct (bits_fields (e + 150) (Zpos m - 2 ^ 23) ltac:(lia) ltac:(lia)) as [-> _].
    reflexivity.
Qed.

Lemma neural_compute_off_table (p : Neural.PrecisionLevel) (self : Neural.NeuralRsqrt)
    (x : float) :
  fge x f0_25 && fle x f4_0 = false ->
  exists q,
    (p <> Neural.ULTRA_PRECISE \/
     flt (Neural.variance (Neural.update_stats self x)) f0_01 = true ->
     q <> Neural.ULTRA_PRECISE) /\
    ((Neural.level p <= 1)%Z -> (Neural.level q <= 1)%Z) /\
    fst (Neural.compute p self x)
    = Neural.newton_switch q x (fmul x f0_5)
        (scalar_correction x (Neural.initial_approximation x)).
Proof.
  intros H. unfold Neural.compute. cbv zeta. rewrite H. cbn [andb fst].
  match goal with
  | |- context [Neural.newton_switch ?q _ _ _] => exists q
  end.
  split; [|split; [|reflexivity]].
  - intros [Hp | Hv].
    + destruct (flt _ f0_01 && _); [discriminate | exact Hp].
    + rewrite Hv. destruct p; cbn; discriminate.
  - intros Hp. destruct (flt _ f0_01 && _); [cbn; lia | exact Hp].
Qed.

(** The third update, of an estimate that is 0.5 to 0.9 times the exact
    value, still ends below it. *)
Lemma overshoot_third (s eta theta : R) :
  1 / 2 <= s <= 9 / 10 ->
  - (2 / 10000000) <= eta <= 2 / 10000000 ->
  - (15 / 100000000) <= theta <= 15 / 100000000 ->
  68 / 100 <= s * (3 / 2 - s * s / 2 * (1 + eta)) * (1 + theta) <= 986 / 1000.
Proof.
  intros Hs Heta Hth.
  assert (Hss : 1 / 2 * (1 / 2) <= s * s <= 9 / 10 * (9 / 10)) by nra.
  assert (Hg : 6875 / 10000 <= s * (3 / 2 - s * s / 2) <= 9855 / 10000).
  { split.
    - rewrite (newton_map_diff s (1 / 2)).
      assert (0 <= (s - 1 / 2) * (3 - (s * s + 1 / 2 * s + 1 / 2 * (1 / 2))))
        by (apply Rmult_le_pos; lra).
      lra.
    - rewrite (newton_map_diff s (9 / 10)).
      assert (0 <= (9 / 10 - s) * (3 - (s * s + 9 / 10 * s + 9 / 10 * (9 / 10))))
        by (apply Rmult_le_pos; lra).
      lra. }
  assert (Hs3 : 0 <= s * s * s <= 1) by nra.
  set (T := s * s * s * (eta / 2)).
  assert (HT : - (2 / 10000000) <= T <= 2 / 10000000).
  { unfold T. set (p := s * s * s) in *. nra. }
  set (g := s * (3 / 2 - s * s / 2)) in *.
  assert (Eg : s * (3 / 2 - s * s / 2 * (1 + eta)) = g - T) by (unfold g, T; field).
  rewrite Eg. set (h := g - T). assert (Hh : 6874 / 10000 <= h <= 9856 / 10000)
    by (unfold h; lra).
  clearbody h. split; nra.
Qed.

(** An update of the scalar kernels on the scaled estimate. *)
Lemma newton_on_scaled (x y : float) (s : R) :
  in_domain x = true -> normal_pos y ->
  s = F2R y * sqrt (F2R x) -> 35 / 100 <= s <= 16 / 10 ->
  normal_pos (newton_update f1_5 x y) /\
  exists eta theta,
    - (2 / 10000000) <= eta <= 2 / 10000000 /\
    - (15 / 100000000) <= theta <= 15 / 100000000 /\
    F2R (newton_update f1_5 x y) * sqrt (F2R x)
    = s * (3 / 2 - s * s / 2 * (1 + eta)) * (1 + theta).
Proof.
  intros Hd Hy Es Hs.
  destruct (in_domain_normal x Hd) as [Hx Hxr].
  assert (HX : 0 < F2R x) by lra.
  pose proof (sqrt_sqrt (F2R x) ltac:(lra)) as Hrr.
  destruct normal_f1_5 as [Hc Hcv].
  set (r := sqrt (F2R x)) in *.
  assert (Hw : F2R x * F2R y * F2R y = s * s) by (rewrite Es, <- Hrr; ring).
  assert (Hss : 1 / 10 <= s * s <= 27 / 10) by nra.
  destruct (newton_update_spec_wide f1_5 x y Hc Hx Hy ltac:(lra) Hxr
              ltac:(rewrite Hw; exact Hss))
    as (Hn & eta & theta & Heta & Hth & Ey).
  split; [exact Hn|]. exists eta, theta. split; [exact Heta|]. split; [exact Hth|].
  rewrite Ey, Hw, Hcv, Es. ring.
Qed.

(** The three entry points of the [switch], on an estimate that the
    polynomial has made 1.41 to 1.6 times too large. *)
Lemma newton_switch_scaled (q : Neural.PrecisionLevel) (x y : float) :
  in_domain x = true -> normal_pos y ->
  141 / 100 <= F2R y * sqrt (F2R x) <= 16 / 10 ->
  q <> Neural.ULTRA_PRECISE ->
  35 / 100 <= F2R (Neural.newton_switch q x (fmul x f0_5) y) * sqrt (F2R x)
  <= 986 / 1000 /\
  ((Neural.level q <= 1)%Z ->
   F2R (Neural.newton_switch q x (fmul x f0_5) y) * sqrt (F2R x) <= 9 / 10).
Proof.
  intros Hd Hy Hs Hq.
  destruct (newton_on_scaled x y _ Hd Hy eq_refl ltac:(lra))
    as (N1 & eta1 & theta1 & Heta1 & Hth1 & E1).
  pose proof (overshoot_first _ eta1 theta1 Hs Heta1 Hth1) as Hs1.
  rewrite <- E1 in Hs1.
  set (y1 := newton_update f1_5 x y) in *.
  destruct (newton_on_scaled x y1 _ Hd N1 eq_refl ltac:(lra))
    as (N2 & eta2 & theta2 & Heta2 & Hth2 & E2).
  pose proof (overshoot_second _ eta2 theta2 Hs1 Heta2 Hth2) as Hs2.
  rewrite <- E2 in Hs2.
  set (y2 := newton_update f1_5 x y1) in *.
  destruct (newton_on_scaled x y2 _ Hd N2 eq_refl ltac:(lra))
    as (N3 & eta3 & theta3 & Heta3 & Hth3 & E3).
  pose proof (overshoot_third _ eta3 theta3 Hs2 Heta3 Hth3) as Hs3.
  rewrite <- E3 in Hs3.
  destruct q; [| | |congruence].
  - change (Neural.newton_switch Neural.ULTRA_FAST x (fmul x f0_5) y) with y1.
    split; [lra|]. intros _. lra.
  - change (Neural.newton_switch Neural.FAST x (fmul x f0_5) y) with y2.
    split; [lra|]. intros _. lra.
  - change (Neural.newton_switch Neural.PRECISE x (fmul x f0_5) y)
      with (newton_update f1_5 x y2).
    split; [lra|]. cbn. lia.
Qed.

(** X29.  Away from its table, that is for every input from 1e-4 to 1e4 below
    0.25 or above 4, [NeuralRsqrt::compute] returns less than the exact
    reciprocal square root, whatever the state of the instance, at every
    level but [ULTRA_PRECISE], and at [ULTRA_PRECISE] too when the
    variance of the recorded inputs is below 0.01: at most 90 percent
    of it at the default level [FAST] and at [ULTRA_FAST], and at most
    98.6 percent at the other levels.  The polynomial correction
    multiplies the estimate by about 1.5, and one to three updates do
    not bring it back. *)
Theorem neural_compute_undershoots (p : Neural.PrecisionLevel)
    (self : Neural.NeuralRsqrt) (x : float) :
  in_domain x = true ->
  fge x f0_25 && fle x f4_0 = false ->
  p <> Neural.ULTRA_PRECISE \/
  flt (Neural.variance (Neural.update_stats self x)) f0_01 = true ->
  let y := fst (Neural.compute p self x) in
  F2R y * sqrt (F2R x) <= 986 / 1000 /\
  14 / 1000 <= rel_error (F2R y) (F2R x) /\
  ((Neural.level p <= 1)%Z ->
   F2R y * sqrt (F2R x) <= 9 / 10 /\ 1 / 10 <= rel_error (F2R y) (F2R x)).
Proof.
  intros Hd Ht Hp y. unfold y.
  destruct (neural_compute_off_table p self x Ht) as (q & Hq & Hl & ->).
  destruct (initial_approximation_in_domain x Hd) as (C & HC & ->).
  destruct (guess_in_domain C x Hd HC) as (HX & N0 & E0).
  destruct (in_domain_normal x Hd) as [Hx Hxr].
  rewrite rel_error_alt in E0 by exact HX.
  apply Rabs_le_inv in E0.
  pose proof (sqrt_sqrt (F2R x) ltac:(lra)) as Hrr.
  set (y0 := approximate (190 * 2 ^ 23 + C) x) in *.
  set (s0 := F2R y0 * sqrt (F2R x)) in *.
  assert (Hw0 : F2R x * F2R y0 * F2R y0 = s0 * s0).
  { transitivity (sqrt (F2R x) * sqrt (F2R x) * F2R y0 * F2R y0);
      [rewrite Hrr; reflexivity | unfold s0; ring]. }
  assert (Hs0 : 9292 / 10000 <= s0 * s0 <= 10733 / 10000) by nra.
  destruct (scalar_correction_value x y0 Hx N0 Hxr ltac:(rewrite Hw0; exact Hs0))
    as (N1 & P & HP & E1).
  set (y1 := scalar_correction x y0) in *.
  assert (Hs1 : 141 / 100 <= F2R y1 * sqrt (F2R x) <= 16 / 10).
  { rewrite E1. replace (F2R y0 * P * sqrt (F2R x)) with (s0 * P) by (unfold s0; ring).
    nra. }
  destruct (newton_switch_scaled q x y1 Hd N1 Hs1 (Hq Hp)) as [[Hlo Hhi] H90].
  set (r := Neural.newton_switch q x (fmul x f0_5) y1) in *.
  rewrite rel_error_alt by exact HX.
  rewrite Rabs_left by lra.
  split; [exact Hhi|]. split; [lra|].
  intros Hlev. specialize (H90 (Hl Hlev)). split; lra.
Qed.

Lemma neural_compute_undershoots_witness :
  let y := fst (Neural.compute Neural.FAST Neural.static_instance (of_bits 0x42C80000)) in
  F2R y * sqrt (F2R (of_bits 0x42C80000)) <= 986 / 1000.
Proof.
  apply (neural_compute_undershoots Neural.FAST Neural.static_instance
           (of_bits 0x42C80000)).
  - reflexivity.
  - reflexivity.
  - left. discriminate.
Defined.

Local Open Scope Z_scope.

(** * The corrected kernel of FastRecipSqrt *)

(** Entry [i] of the table as the constructor computes it. *)
Definition table_entry (i : nat) : float :=
  let mantissa :=
    fadd f1_0 (fdiv (of_int (Z.of_nat i)) (of_int (Z.of_nat FastRecipSqrt.LUT_SIZE))) in
  let exact := fdiv f1_0 (fsqrt mantissa) in
  let approx := fdiv f1_0 (fsqrt f1_5) in
  fdiv exact approx.

(** A float from 1.1567 to 1.2248, with exponent -23. *)
Definition entry_in_range (f : float) : bool :=
  match f with
  | S754_finite false m (-23) => (9703150 <=? Zpos m) && (Zpos m <=? 10274000)
  | _ => false
  end.

Lemma recip_table_entry (raw : list float) (i : nat) (d : float) :
  length raw = 256%nat -> (i < 256)%nat ->
  nth i (FastRecipSqrt.lut (FastRecipSqrt.new raw)) d = table_entry i.
Proof.
  intros Hraw Hi. unfold FastRecipSqrt.new. cbn [FastRecipSqrt.lut].
  unfold FastRecipSqrt.init_entry.
  rewrite (for_loop_fill table_entry)
    by (rewrite Hraw; unfold FastRecipSqrt.LUT_SIZE; lia).
  apply nth_fill. exact Hi.
Qed.

Lemma first_entries_in_range :
  forallb (fun i => entry_in_range (table_entry i)) (seq 0 32) = true.
Proof. vm_compute. reflexivity. Qed.

Local Open Scope R_scope.

(** The 32 entries that [compute] can read are all about 1.2: the table
    holds [sqrt(1.5) / sqrt(1 + i/256)]. *)
Lemma entry_bounds (i : nat) :
  (i < 32)%nat ->
  normal_pos (table_entry i) /\
  11567 / 10000 <= F2R (table_entry i) <= 12248 / 10000.
Proof.
  intros Hi.
  pose proof first_entries_in_range as H.
  rewrite forallb_forall in H.
  specialize (H i ltac:(apply in_seq; lia)).
  destruct (table_entry i) as [s | s | | s m e]; try discriminate.
  cbn [entry_in_range] in H.
  destruct s; [discriminate|].
  destruct e as [| p | p]; try discriminate.
  destruct (Pos.eq_dec p 23) as [-> | Hp].
  2:{ exfalso. revert H.
      do 5 (destruct p as [p | p |]; try discriminate); congruence. }
  apply andb_true_iff in H. destruct H as [H1 H2].
  apply Z.leb_le in H1. apply Z.leb_le in H2.
  split.
  - exists m, (-23)%Z. split; [reflexivity|].
    change (2 ^ 23)%Z with 8388608%Z. change (2 ^ 24)%Z with 16777216%Z. lia.
  - rewrite F2R_normal. change (-23)%Z with (Z.opp 23).
    rewrite bpow_opp, bpow_IZR by lia. change (IZR (2 ^ 23)) with 8388608.
    apply IZR_le in H1. apply IZR_le in H2.
    split.
    + apply Rmult_le_reg_r with 8388608; [lra|].
      replace (IZR (Zpos m) * / 8388608 * 8388608) with (IZR (Zpos m)) by (field; lra).
      lra.
    + apply Rmult_le_reg_r with 8388608; [lra|].
      replace (IZR (Zpos m) * / 8388608 * 8388608) with (IZR (Zpos m)) by (field; lra).
      lra.
Qed.

Lemma recip_compute_unfold (self : FastRecipSqrt.t) (x : float) :
  FastRecipSqrt.compute self x
  = newton_update f1_5008908 x
      (fmul (approximate 0x5f375a86%Z x)
         (nth (Z.to_nat (Z.shiftr (Z.shiftr (Z.land (to_bits x) 0x007FFFFF) 15) 3))
            (FastRecipSqrt.lut self) f0_0)).
Proof.
  unfold FastRecipSqrt.compute. cbv zeta.
  set (lut_index := Z.shiftr (Z.shiftr (Z.land (to_bits x) 0x007FFFFF) 15) 3).
  pose proof (top_mantissa_bits (to_bits x)) as Hidx. fold lut_index in Hidx.
  assert (Eidx : Z.land lut_index (Z.of_nat FastRecipSqrt.LUT_SIZE - 1) = lut_index).
  { change (Z.of_nat FastRecipSqrt.LUT_SIZE - 1)%Z with (Z.ones 8).
    rewrite Z.land_ones by lia. apply Z.mod_small. change (2 ^ 8)%Z with 256%Z. lia. }
  rewrite Eidx. reflexivity.
Qed.

(** The update with [ITERATION_CONSTANT] of an estimate that the table
    has made 1.115 to 1.269 times too large. *)
Lemma biased_overshoot (s c eta theta : R) :
  1115 / 1000 <= s <= 1269 / 1000 ->
  c = 3 / 2 + 7473 / 8388608 ->
  - (2 / 10000000) <= eta <= 2 / 10000000 ->
  - (15 / 100000000) <= theta <= 15 / 100000000 ->
  88 / 100 <= s * (c - s * s / 2 * (1 + eta)) * (1 + theta) <= 981 / 1000.
Proof.
  intros Hs Hc Heta Hth.
  assert (Hss : 1115 / 1000 * (1115 / 1000) <= s * s <= 1269 / 1000 * (1269 / 1000))
    by nra.
  assert (Hg : 88172 / 100000 <= s * (3 / 2 - s * s / 2) <= 97941 / 100000).
  { split.
    - rewrite (newton_map_diff s (1269 / 1000)).
      assert (0 <= (1269 / 1000 - s)
                   * (s * s + 1269 / 1000 * s + 1269 / 1000 * (1269 / 1000) - 3))
        by (apply Rmult_le_pos; lra).
      lra.
    - rewrite (newton_map_diff s (1115 / 1000)).
      assert (0 <= (s - 1115 / 1000)
                   * (s * s + 1115 / 1000 * s + 1115 / 1000 * (1115 / 1000) - 3))
        by (apply Rmult_le_pos; lra).
      lra. }
  assert (Hs3 : 0 <= s * s * s <= 21 / 10) by nra.
  set (T := s * s * s * (eta / 2)).
  assert (HT : - (3 / 10000000) <= T <= 3 / 10000000).
  { unfold T. set (p := s * s * s) in *. nra. }
  set (g := s * (3 / 2 - s * s / 2)) in *.
  assert (Eg : s * (c - s * s / 2 * (1 + eta)) = g + 7473 / 8388608 * s - T)
    by (rewrite Hc; unfold g, T; field).
  rewrite Eg. set (h := g + 7473 / 8388608 * s - T).
  assert (Hh : 8827 / 10000 <= h <= 98055 / 100000) by (unfold h; lra).
  clearbody h. split; nra.
Qed.

(** X30.  With the table its constructor builds, [FastRecipSqrt::compute]
    returns less than the exact reciprocal square root for every input
    from 1e-4 to 1e4: between 88 and 98.1 percent of it.  The 32
    entries it can read are about 1.2, not corrections close to 1, and
    the one update that follows does not undo the factor; the
    four-lane [compute_simd], which has no table, is within 0.12
    percent. *)
Theorem recip_compute_undershoots (raw : list float) (x : float) :
  length raw = 256%nat -> in_domain x = true ->
  let y := FastRecipSqrt.compute (FastRecipSqrt.new raw) x in
  88 / 100 <= F2R y * sqrt (F2R x) <= 981 / 1000 /\
  19 / 1000 <= rel_error (F2R y) (F2R x) <= 12 / 100.
Proof.
  intros Hraw Hd y. unfold y. rewrite recip_compute_unfold.
  pose proof (top_mantissa_bits (to_bits x)) as Hidx.
  set (idx := Z.shiftr (Z.shiftr (Z.land (to_bits x) 0x007FFFFF) 15) 3) in *.
  rewrite (recip_table_entry raw (Z.to_nat idx) f0_0 Hraw) by lia.
  destruct (entry_bounds (Z.to_nat idx) ltac:(lia)) as [NL BL].
  set (l := table_entry (Z.to_nat idx)) in *.
  rewrite magic_5f375a86.
  destruct (guess_in_domain 3627654%Z x Hd ltac:(lia)) as (HX & N0 & E0).
  destruct (in_domain_normal x Hd) as [Hx Hxr].
  rewrite rel_error_alt in E0 by exact HX.
  apply Rabs_le_inv in E0.
  pose proof (sqrt_sqrt (F2R x) ltac:(lra)) as Hrr.
  pose proof (sqrt_lt_R0 _ HX) as Hr.
  pose proof (normal_pos_gt0 _ N0) as HY0.
  set (y0 := approximate (190 * 2 ^ 23 + 3627654) x) in *.
  set (s0 := F2R y0 * sqrt (F2R x)) in *.
  assert (Hw0 : F2R x * F2R y0 * F2R y0 = s0 * s0).
  { transitivity (sqrt (F2R x) * sqrt (F2R x) * F2R y0 * F2R y0);
      [rewrite Hrr; reflexivity | unfold s0; ring]. }
  assert (Hs0 : 9292 / 10000 <= s0 * s0 <= 10733 / 10000) by nra.
  assert (HY : / 256 <= F2R y0 <= 256).
  { rewrite <- Hw0 in Hs0. set (Y := F2R y0) in *. set (X := F2R x) in *. split.
    - destruct (Rle_lt_dec (/ 256) Y) as [H | H]; [exact H|].
      assert (Y * Y < / 256 * / 256) by nra. nra.
    - destruct (Rle_lt_dec Y 256) as [H | H]; [exact H|].
      assert (256 * 256 < Y * Y) by nra. nra. }
  destruct (fmul_rel y0 l N0 NL) as (N1 & d1 & Hd1 & E1).
  { pose proof (mul_bounds (F2R y0) (F2R l) (/ 256) 256 1 2
                  ltac:(lra) HY ltac:(lra) ltac:(lra)).
    lra. }
  set (y1 := fmul y0 l) in *.
  set (s1 := F2R y1 * sqrt (F2R x)).
  assert (Es1 : s1 = s0 * F2R l * (1 + d1)) by (unfold s1, s0; rewrite E1; ring).
  assert (Hs1 : 1115 / 1000 <= s1 <= 1269 / 1000).
  { rewrite Es1.
    pose proof (mul_bounds s0 (F2R l) (964 / 1000) (1036 / 1000)
                  (11567 / 10000) (12248 / 10000)
                  ltac:(lra) ltac:(lra) ltac:(lra) BL) as B.
    pose proof (scale_bounds (s0 * F2R l) d1 (964 / 1000 * (11567 / 10000))
                  (1036 / 1000 * (12248 / 10000)) Hd1 ltac:(lra) B) as B'.
    unfold u in B'. lra. }
  assert (Hw1 : F2R x * F2R y1 * F2R y1 = s1 * s1).
  { transitivity (sqrt (F2R x) * sqrt (F2R x) * F2R y1 * F2R y1);
      [rewrite Hrr; reflexivity | unfold s1; ring]. }
  assert (Hss1 : 1 / 10 <= s1 * s1 <= 27 / 10) by nra.
  destruct normal_f1_5008908 as [Hc Hcv].
  destruct (newton_update_spec_wide f1_5008908 x y1 Hc Hx N1 ltac:(lra) Hxr
              ltac:(rewrite Hw1; exact Hss1))
    as (N2 & eta & theta & Heta & Hth & Ey).
  assert (E2 : F2R (newton_update f1_5008908 x y1) * sqrt (F2R x)
               = s1 * (F2R f1_5008908 - s1 * s1 / 2 * (1 + eta)) * (1 + theta)).
  { rewrite Ey, Hw1. unfold s1. ring. }
  pose proof (biased_overshoot s1 (F2R f1_5008908) eta theta Hs1 Hcv Heta Hth) as Hs2.
  rewrite <- E2 in Hs2.
  split; [exact Hs2|].
  rewrite rel_error_alt by exact HX.
  rewrite Rabs_left by lra. lra.
Qed.

Lemma recip_compute_undershoots_witness :
  let y := FastRecipSqrt.compute (FastRecipSqrt.new (repeat f0_0 256)) f4_0 in
  88 / 100 <= F2R y * sqrt (F2R f4_0) <= 981 / 1000 /\
  19 / 1000 <= rel_error (F2R y) (F2R f4_0) <= 12 / 100.
Proof.
  apply (recip_compute_undershoots (repeat f0_0 256) f4_0); reflexivity.
Defined.
